(** * Template parser core (packages/compiler-core/src/parse.ts)

    A shallow embedding of the recursive-descent template parser and the
    properties its specification states about it.

    Conventions of the embedding.
    - A JavaScript string is the list of its UTF-16 code units, each a [Z].
    - A JavaScript number is a [Z]; [-1] is the "not found" index.
    - The mutable parser context is threaded explicitly; the diagnostics
      handed to [onError] are kept in its [reported] field.
    - Loops and the mutual recursion of the parser take a [fuel : nat];
      running out of fuel is [None], and so is a run that the code aborts
      because a regular expression that it asserts to match does not
      (the tag expression of parseTag).
    - The sink [onError] is taken to return, as the default sink of the
      specification does; a sink that throws would abort the parse at
      the first diagnostic, which the embedding does not follow.
    - An option is given or absent: an option given as [undefined], which
      the merge of the code puts in place of the default, is not
      represented, nor is the development assertion of advanceBy.  A
      table of named references is searched by its own entries. *)

From Stdlib Require Import ZArith List Bool Lia String Ascii.
Import ListNotations.
Local Open Scope Z_scope.
Set Warnings "-register-all".

(** ** JavaScript strings *)

Definition jsstring := list Z.

(** An ASCII literal as a JavaScript string. *)
Definition js (s : string) : jsstring :=
  map (fun a => Z.of_nat (nat_of_ascii a)) (list_ascii_of_string s).

Definition len (s : jsstring) : Z := Z.of_nat (List.length s).

Fixpoint str_eqb (a b : jsstring) : bool :=
  match a, b with
  | [], [] => true
  | x :: a', y :: b' => (x =? y) && str_eqb a' b'
  | _, _ => false
  end.

(** [s[i]]: [None] is JavaScript's [undefined]. *)
Definition charAt (s : jsstring) (i : Z) : option Z :=
  if i <? 0 then None else nth_error s (Z.to_nat i).

(** [source.startsWith(searchString)] *)
Fixpoint startsWith (source searchString : jsstring) : bool :=
  match searchString, source with
  | [], _ => true
  | c :: p', d :: s' => (c =? d) && startsWith s' p'
  | _ :: _, [] => false
  end.

Definition endsWith (s suffix : jsstring) : bool :=
  startsWith (rev s) (rev suffix).

(** Relative index of [String.prototype.slice]: negative counts from the
    end, and the result is clamped to [0 .. length]. *)
Definition rel_index (l i : Z) : Z :=
  if i <? 0 then Z.max (l + i) 0 else Z.min i l.

(** [s.slice(from, to)] *)
Definition slice (s : jsstring) (from to : Z) : jsstring :=
  let a := rel_index (len s) from in
  let b := rel_index (len s) to in
  firstn (Z.to_nat (b - a)) (skipn (Z.to_nat a) s).

(** [s.slice(from)] *)
Definition slice_from (s : jsstring) (from : Z) : jsstring :=
  skipn (Z.to_nat (rel_index (len s) from)) s.

(** [s.substr(start, length)] *)
Definition substr (s : jsstring) (start count : Z) : jsstring :=
  firstn (Z.to_nat count) (slice_from s start).

(** First index [i >= 0] of [s] at which [p] holds of the tail [s[i..]],
    shifted by [base]; the empty tail is examined too. *)
Fixpoint find_from (p : jsstring -> bool) (s : jsstring) (base : Z) : Z :=
  if p s then base
  else match s with
       | [] => -1
       | _ :: s' => find_from p s' (base + 1)
       end.

(** [s.indexOf(searchString, position)] *)
Definition indexOf (s searchString : jsstring) (position : Z) : Z :=
  let k := Z.min (Z.max position 0) (len s) in
  find_from (fun t => startsWith t searchString) (skipn (Z.to_nat k) s) k.

(** WhiteSpace and LineTerminator code units, as stripped by
    [String.prototype.trim]. *)
Definition isTrimSpace (c : Z) : bool :=
  ((9 <=? c) && (c <=? 13)) || (c =? 32) || (c =? 160) || (c =? 5760)
  || ((8192 <=? c) && (c <=? 8202)) || (c =? 8232) || (c =? 8233)
  || (c =? 8239) || (c =? 8287) || (c =? 12288) || (c =? 65279).

Fixpoint trimStart (s : jsstring) : jsstring :=
  match s with
  | c :: s' => if isTrimSpace c then trimStart s' else s
  | [] => []
  end.

Definition trim (s : jsstring) : jsstring :=
  rev (trimStart (rev (trimStart s))).

(** [s.split(sep)] for a one-unit separator. *)
Fixpoint split_on (sep : Z) (s : jsstring) (cur : jsstring) : list jsstring :=
  match s with
  | [] => [rev cur]
  | c :: s' => if c =? sep then rev cur :: split_on sep s' []
               else split_on sep s' (c :: cur)
  end.

(** [s.split(sep, 2).shift()] for a non-empty [sep]: the part of [s]
    before the first occurrence of [sep], all of [s] if there is none. *)
Definition split_first (s sep : jsstring) : jsstring :=
  let i := indexOf s sep 0 in
  if i <? 0 then s else slice s 0 i.

(** [String.fromCodePoint(cp)] for [0 <= cp <= 0x10FFFF]. *)
Definition fromCodePoint (cp : Z) : jsstring :=
  if cp <? 65536 then [cp]
  else [55296 + Z.shiftr (cp - 65536) 10; 56320 + Z.land (cp - 65536) 1023].

(** Character classes of the regular expressions of the parser. *)
Definition isLower (c : Z) : bool := (97 <=? c) && (c <=? 122).
Definition isUpper (c : Z) : bool := (65 <=? c) && (c <=? 90).
Definition isDigit (c : Z) : bool := (48 <=? c) && (c <=? 57).
(** [[a-z]] under the [i] flag *)
Definition isAlpha (c : Z) : bool := isLower c || isUpper c.
(** [[0-9a-z]] under the [i] flag *)
Definition isAlnum (c : Z) : bool := isDigit c || isAlpha c.
(** [[0-9a-f]] under the [i] flag *)
Definition isHexDigit (c : Z) : bool :=
  isDigit c || ((97 <=? c) && (c <=? 102)) || ((65 <=? c) && (c <=? 70)).
(** [[\t\r\n\f ]] *)
Definition isSpace (c : Z) : bool :=
  (c =? 9) || (c =? 13) || (c =? 10) || (c =? 12) || (c =? 32).
(** [[\t\r\n\f />]] *)
Definition isTagEnd (c : Z) : bool := isSpace c || (c =? 47) || (c =? 62).
(** [[\t\n\f />]] *)
Definition isTagEndNoCR (c : Z) : bool :=
  (c =? 9) || (c =? 10) || (c =? 12) || (c =? 32) || (c =? 47) || (c =? 62).
(** line terminators, which [.] does not match *)
Definition isLineTerminator (c : Z) : bool :=
  (c =? 10) || (c =? 13) || (c =? 8232) || (c =? 8233).

(** Longest prefix whose units satisfy [p], and the rest. *)
Fixpoint span (p : Z -> bool) (s : jsstring) : jsstring * jsstring :=
  match s with
  | c :: s' => if p c then let '(a, b) := span p s' in (c :: a, b)
               else ([], s)
  | [] => ([], [])
  end.

Definition digitValue (c : Z) : Z :=
  if isDigit c then c - 48
  else if isLower c then c - 87
  else c - 55.

(** [Number.parseInt(digits, radix)] on a non-empty run of digits of that
    radix.  The value is exact here; JavaScript rounds it to a double
    above 2^53, which no comparison made by the parser can observe (all
    its thresholds are at most 0x10FFFF). *)
Definition parseInt (digits : jsstring) (radix : Z) : Z :=
  fold_left (fun acc c => acc * radix + digitValue c) digits 0.

(** ** AST (the part of ast.ts the parser builds) *)

Record Position := mkPosition { offset : Z; line : Z; column : Z }.

Record SourceLocation := mkLoc
  { loc_start : Position; loc_end : Position; loc_source : jsstring }.

Definition Namespace := Z.
Definition Namespaces_HTML : Namespace := 0.

Inductive ElementTypes := ET_ELEMENT | ET_COMPONENT | ET_SLOT | ET_TEMPLATE.

Inductive TextModes := DATA | RCDATA | RAWTEXT | CDATA | ATTRIBUTE_VALUE.

Inductive TagType := TagStart | TagEnd.

(** NodeTypes.SIMPLE_EXPRESSION *)
Record ExpressionNode := mkExpression
  { exp_content : jsstring; exp_isStatic : bool; exp_loc : SourceLocation }.

(** NodeTypes.TEXT *)
Record TextNode := mkText
  { text_content : jsstring; text_isEmpty : bool; text_loc : SourceLocation }.

(** NodeTypes.COMMENT *)
Record CommentNode := mkComment
  { comment_content : jsstring; comment_loc : SourceLocation }.

(** NodeTypes.INTERPOLATION *)
Record InterpolationNode := mkInterpolation
  { interp_content : ExpressionNode; interp_loc : SourceLocation }.

(** NodeTypes.ATTRIBUTE *)
Record AttributeNode := mkAttribute
  { attr_name : jsstring; attr_value : option TextNode;
    attr_loc : SourceLocation }.

(** NodeTypes.DIRECTIVE *)
Record DirectiveNode := mkDirective
  { dir_name : jsstring; dir_exp : option ExpressionNode;
    dir_arg : option ExpressionNode; dir_modifiers : list jsstring;
    dir_loc : SourceLocation }.

Inductive PropNode :=
| ATTRIBUTE (a : AttributeNode)
| DIRECTIVE (d : DirectiveNode).

(** NodeTypes.ELEMENT, over the type of its children *)
Record ElementNodeOf (child : Type) := mkElement
  { ns : Namespace; tag : jsstring; tagType : ElementTypes;
    props : list PropNode; isSelfClosing : bool;
    children : list child; loc : SourceLocation }.
Arguments mkElement {child}.
Arguments ns {child}.
Arguments tag {child}.
Arguments tagType {child}.
Arguments props {child}.
Arguments isSelfClosing {child}.
Arguments children {child}.
Arguments loc {child}.

Inductive TemplateChildNode :=
| ELEMENT (e : ElementNodeOf TemplateChildNode)
| TEXT (t : TextNode)
| COMMENT (c : CommentNode)
| INTERPOLATION (i : InterpolationNode).

Definition ElementNode := ElementNodeOf TemplateChildNode.

(** NodeTypes.ROOT; helpers, components, directives and hoists are empty
    and codegenNode is undefined when the parser returns. *)
Record RootNode := mkRoot
  { root_children : list TemplateChildNode; root_loc : SourceLocation }.

Definition node_loc (n : TemplateChildNode) : SourceLocation :=
  match n with
  | ELEMENT e => loc e
  | TEXT t => text_loc t
  | COMMENT c => comment_loc c
  | INTERPOLATION i => interp_loc i
  end.

(** ** Diagnostics (the part of errors.ts the parser uses) *)

Inductive ErrorCodes :=
| ABRUPT_CLOSING_OF_EMPTY_COMMENT
| ABSENCE_OF_DIGITS_IN_NUMERIC_CHARACTER_REFERENCE
| CDATA_IN_HTML_CONTENT
| CHARACTER_REFERENCE_OUTSIDE_UNICODE_RANGE
| CONTROL_CHARACTER_REFERENCE
| DUPLICATE_ATTRIBUTE
| END_TAG_WITH_ATTRIBUTES
| END_TAG_WITH_TRAILING_SOLIDUS
| EOF_BEFORE_TAG_NAME
| EOF_IN_CDATA
| EOF_IN_COMMENT
| EOF_IN_SCRIPT_HTML_COMMENT_LIKE_TEXT
| EOF_IN_TAG
| INCORRECTLY_CLOSED_COMMENT
| INCORRECTLY_OPENED_COMMENT
| INVALID_FIRST_CHARACTER_OF_TAG_NAME
| MISSING_ATTRIBUTE_VALUE
| MISSING_END_TAG_NAME
| MISSING_SEMICOLON_AFTER_CHARACTER_REFERENCE
| MISSING_WHITESPACE_BETWEEN_ATTRIBUTES
| NESTED_COMMENT
| NONCHARACTER_CHARACTER_REFERENCE
| NULL_CHARACTER_REFERENCE
| SURROGATE_CHARACTER_REFERENCE
| UNEXPECTED_CHARACTER_IN_ATTRIBUTE_NAME
| UNEXPECTED_CHARACTER_IN_UNQUOTED_ATTRIBUTE_VALUE
| UNEXPECTED_EQUALS_SIGN_BEFORE_ATTRIBUTE_NAME
| UNEXPECTED_QUESTION_MARK_INSTEAD_OF_TAG_NAME
| UNEXPECTED_SOLIDUS_IN_TAG
| UNKNOWN_NAMED_CHARACTER_REFERENCE
| X_INVALID_END_TAG
| X_MISSING_END_TAG
| X_MISSING_INTERPOLATION_END
| X_MISSING_DYNAMIC_DIRECTIVE_ARGUMENT_END.

Scheme Equality for ErrorCodes.

(** The value of [createCompilerError(code, loc)]. *)
Record CompilerError := mkError
  { err_code : ErrorCodes; err_loc : SourceLocation }.

(** ** Options and parser context *)

(** [ParserOptions]: every field is optional.  The [onError] sink is not
    a field: a diagnostic handed to it is appended to [reported] below. *)
Record ParserOptions := mkOptions
  { opt_isVoidTag : option (jsstring -> bool);
    opt_getNamespace : option (jsstring -> option ElementNode -> Namespace);
    opt_getTextMode : option (jsstring -> Namespace -> TextModes);
    opt_delimiters : option (jsstring * jsstring);
    opt_ignoreSpaces : option bool;
    opt_namedCharacterReferences : option (list (jsstring * jsstring)) }.

(** [Required<ParserOptions>] *)
Record RequiredOptions := mkRequired
  { isVoidTag : jsstring -> bool;
    getNamespace : jsstring -> option ElementNode -> Namespace;
    getTextMode : jsstring -> Namespace -> TextModes;
    delimiters : jsstring * jsstring;
    ignoreSpaces : bool;
    namedCharacterReferences : list (jsstring * jsstring) }.

Definition defaultParserOptions : RequiredOptions :=
  {| delimiters := (js "{{", js "}}");
     ignoreSpaces := true;
     getNamespace := fun _ _ => Namespaces_HTML;
     getTextMode := fun _ _ => DATA;
     isVoidTag := fun _ => false;
     namedCharacterReferences :=
       [ (js "gt;", js ">"); (js "lt;", js "<"); (js "amp;", js "&");
         (js "apos;", js "'"); (js "quot;", [34]) ] |}.

(** The call [parse(content)], with no options given. *)
Definition noOptions : ParserOptions :=
  mkOptions None None None None None None.

Definition orElse {A} (o : option A) (d : A) : A :=
  match o with Some a => a | None => d end.

(** [{ ...defaultParserOptions, ...options }] *)
Definition mergeOptions (options : ParserOptions) : RequiredOptions :=
  {| isVoidTag := orElse (opt_isVoidTag options) (isVoidTag defaultParserOptions);
     getNamespace :=
       orElse (opt_getNamespace options) (getNamespace defaultParserOptions);
     getTextMode :=
       orElse (opt_getTextMode options) (getTextMode defaultParserOptions);
     delimiters :=
       orElse (opt_delimiters options) (delimiters defaultParserOptions);
     ignoreSpaces :=
       orElse (opt_ignoreSpaces options) (ignoreSpaces defaultParserOptions);
     namedCharacterReferences :=
       orElse (opt_namedCharacterReferences options)
              (namedCharacterReferences defaultParserOptions) |}.

(** [ParserContext].  [offset], [line] and [column] of the source are the
    [cursor] (the context is itself used as a [Position] by [advanceBy]);
    [reported] is the list of diagnostics handed to [options.onError] so
    far, oldest first. *)
Record ParserContext := mkContext
  { options : RequiredOptions;
    originalSource : jsstring;
    source : jsstring;
    cursor : Position;
    maxCRNameLength : Z;
    reported : list CompilerError }.

Definition set_source (c : ParserContext) (s : jsstring) (p : Position) :=
  mkContext (options c) (originalSource c) s p (maxCRNameLength c) (reported c).

Definition report (c : ParserContext) (e : CompilerError) : ParserContext :=
  mkContext (options c) (originalSource c) (source c) (cursor c)
            (maxCRNameLength c) (reported c ++ [e]).

(** [namedCharacterReferences[name]]; [None] is [undefined]. *)
Fixpoint lookupCR (table : list (jsstring * jsstring)) (name : jsstring)
  : option jsstring :=
  match table with
  | [] => None
  | (k, v) :: table' => if str_eqb k name then Some v else lookupCR table' name
  end.

Definition createParserContext (content : jsstring) (options : ParserOptions)
  : ParserContext :=
  {| options := mergeOptions options;
     cursor := mkPosition 0 1 1;
     originalSource := content;
     source := content;
     maxCRNameLength :=
       fold_left (fun max name => Z.max max (len name))
         (map fst (orElse (opt_namedCharacterReferences options)
                          (namedCharacterReferences defaultParserOptions))) 0;
     reported := [] |}.

(** ** Cursor and source advance *)

(** Modelled from the spec: [advancePositionWithMutation] of utils.ts,
    which is not among the sources.  It walks [numberOfCharacters] units of
    [source] from [pos]: a line feed increments [line] and resets [column]
    to 1, any other step increments [column]; [offset] grows by
    [numberOfCharacters].  A step past the end of [source] meets no line
    feed. *)
Fixpoint walk (n : nat) (s : jsstring) (l c : Z) : Z * Z :=
  match n with
  | O => (l, c)
  | S n' =>
      match s with
      | ch :: s' => if ch =? 10 then walk n' s' (l + 1) 1
                    else walk n' s' l (c + 1)
      | [] => walk n' [] l (c + 1)
      end
  end.

Definition advancePositionWithMutation
    (pos : Position) (source : jsstring) (numberOfCharacters : Z) : Position :=
  if numberOfCharacters <? 0
  then mkPosition (offset pos + numberOfCharacters) (line pos)
                  (column pos + numberOfCharacters)
  else
    let '(l, c) := walk (Z.to_nat numberOfCharacters) source
                        (line pos) (column pos) in
    mkPosition (offset pos + numberOfCharacters) l c.

(** Modelled from the spec: [advancePositionWithClone] of utils.ts, the
    same walk on a copy of [pos]; a position is a value here, so the two
    coincide. *)
Definition advancePositionWithClone
    (pos : Position) (source : jsstring) (numberOfCharacters : Z) : Position :=
  advancePositionWithMutation pos source numberOfCharacters.

Definition getCursor (context : ParserContext) : Position := cursor context.

Definition getSelection (context : ParserContext) (start : Position)
    (end_ : option Position) : SourceLocation :=
  let e := orElse end_ (getCursor context) in
  {| loc_start := start;
     loc_end := e;
     loc_source := slice (originalSource context) (offset start) (offset e) |}.

(** [xs[xs.length - 1]] *)
Definition last {A} (xs : list A) : option A :=
  match rev xs with
  | x :: _ => Some x
  | [] => None
  end.

Definition advanceBy (context : ParserContext) (numberOfCharacters : Z)
  : ParserContext :=
  let source := source context in
  set_source context (slice_from source numberOfCharacters)
    (advancePositionWithMutation (cursor context) source numberOfCharacters).

Definition advanceSpaces (context : ParserContext) : ParserContext :=
  match fst (span isSpace (source context)) with
  | [] => context
  | m => advanceBy context (len m)
  end.

Definition getNewPosition (context : ParserContext) (start : Position)
    (numberOfCharacters : Z) : Position :=
  advancePositionWithClone start
    (slice (originalSource context) (offset start) numberOfCharacters)
    numberOfCharacters.

(** [emitError(context, code, offset)]; [None] is the omitted argument.
    [if (offset)] is false for 0 too. *)
Definition emitError (context : ParserContext) (code : ErrorCodes)
    (offset_ : option Z) : ParserContext :=
  let loc := getCursor context in
  let loc :=
    match offset_ with
    | Some o => if o =? 0 then loc
                else mkPosition (offset loc + o) (line loc) (column loc + o)
    | None => loc
    end in
  report context (mkError code {| loc_start := loc; loc_end := loc;
                                  loc_source := [] |}).

(** [String.prototype.toLowerCase] restricted to ASCII: the letters A to Z
    are mapped, every other code unit is left as it is. *)
Definition asciiToLowerCase (s : jsstring) : jsstring :=
  map (fun c => if isUpper c then c + 32 else c) s.

(** ** The parser

    Two things the parser depends on are kept abstract:
    - [toLowerCase], the case mapping of the JavaScript engine, which is
      Unicode-wide ([asciiToLowerCase] is its restriction to ASCII);
    - [DEV], the build flag [__DEV__].
    The [assert] calls, active under [__DEV__] only, are not modelled.  A
    function returns [None] when it runs out of fuel and when the code
    throws because a regular expression asserted to match does not. *)
Section Parser.

Variable toLowerCase : jsstring -> jsstring.
Variable DEV : bool.

Definition startsWithEndTagOpen (source tag : jsstring) : bool :=
  startsWith source (js "</")
  && str_eqb (toLowerCase (substr source 2 (len tag))) (toLowerCase tag)
  && isTagEndNoCR (orElse (charAt source (2 + len tag)) 62).

Definition isEnd (context : ParserContext) (mode : TextModes)
    (ancestors : list ElementNode) : bool :=
  let s := source context in
  let hit :=
    match mode with
    | DATA =>
        startsWith s (js "</")
        && existsb (fun a => startsWithEndTagOpen s (tag a)) (rev ancestors)
    | RCDATA | RAWTEXT =>
        match last ancestors with
        | Some parent => startsWithEndTagOpen s (tag parent)
        | None => false
        end
    | CDATA => startsWith s (js "]]>")
    | ATTRIBUTE_VALUE => false
    end in
  if hit then true
  else match s with [] => true | _ => false end.

(** ** Regular expressions of the parser

    Each matcher is written for one regular expression of parse.ts and
    returns what the code reads off the match. *)

(** [/&(?:#x?)?/i.exec(s)]: the index of the first ampersand and the
    matched text. *)
Definition execHead (s : jsstring) : option (Z * jsstring) :=
  let i := find_from (fun t => startsWith t [38]) s 0 in
  if i <? 0 then None
  else
    match skipn (Z.to_nat i) s with
    | a :: h :: x :: _ =>
        if h =? 35
        then if (x =? 120) || (x =? 88) then Some (i, [a; h; x])
             else Some (i, [a; h])
        else Some (i, [a])
    | a :: h :: [] => if h =? 35 then Some (i, [a; h]) else Some (i, [a])
    | a :: [] => Some (i, [a])
    | [] => None
    end.

(** [/^&#x([0-9a-f]+);?/i.exec(s)] when [hex], [/^&#([0-9]+);?/.exec(s)]
    otherwise: the digits [body[1]] and the whole match [body[0]]. *)
Definition execNumeric (hex : bool) (s : jsstring)
  : option (jsstring * jsstring) :=
  let prefix := if hex then 3%nat else 2%nat in
  let ok :=
    if hex
    then startsWith s (js "&#x") || startsWith s (js "&#X")
    else startsWith s (js "&#") in
  if ok then
    let '(digits, rest) :=
      span (if hex then isHexDigit else isDigit) (skipn prefix s) in
    match digits with
    | [] => None
    | _ =>
        let semi := if startsWith rest (js ";") then js ";" else [] in
        Some (digits, firstn prefix s ++ digits ++ semi)
    end
  else None.

(** [/--(\!)?>/.exec(s)]: the index, whether the bang is there, and the
    length of the match. *)
Definition execCommentEnd (s : jsstring) : option (Z * bool * Z) :=
  let i := find_from (fun t => startsWith t (js "-->")
                               || startsWith t (js "--!>")) s 0 in
  if i <? 0 then None
  else if startsWith (skipn (Z.to_nat i) s) (js "--!>")
       then Some (i, true, 4)
       else Some (i, false, 3).

(** The regular expression of parseTag, under the [i] flag: [<], an
    optional [/], then the captured name, a letter followed by any run of
    units outside [[\t\r\n\f />]].  Returns the whole match and the
    name. *)
Definition execTagOpen (s : jsstring) : option (jsstring * jsstring) :=
  if startsWith s (js "<") then
    let slash := if startsWith s (js "</") then js "/" else [] in
    match skipn (1 + List.length slash) s with
    | c :: r' =>
        if isAlpha c then
          let name := c :: fst (span (fun x => negb (isTagEnd x)) r') in
          Some (js "<" ++ slash ++ name, name)
        else None
    | [] => None
    end
  else None.

(** The name expression of parseAttribute: one unit outside
    [[\t\r\n\f />]], then any run of units outside [[\t\r\n\f />=]]. *)
Definition execAttrName (s : jsstring) : option jsstring :=
  match s with
  | c :: r =>
      if isTagEnd c then None
      else Some (c :: fst (span (fun x => negb (isTagEnd x || (x =? 61))) r))
  | [] => None
  end.

(** The successive [m.index] of a global regular expression made of one
    character class, run over [s] until it returns null. *)
Fixpoint matchIndices (p : Z -> bool) (s : jsstring) (i : Z) : list Z :=
  match s with
  | [] => []
  | c :: s' => if p c then i :: matchIndices p s' (i + 1)
               else matchIndices p s' (i + 1)
  end.

(** the class of the double quote, the single quote and [<] *)
Definition isBadNameChar (c : Z) : bool :=
  (c =? 34) || (c =? 39) || (c =? 60).
(** the class of the two quotes, [<], [=] and the backquote *)
Definition isBadValueChar (c : Z) : bool :=
  (c =? 34) || (c =? 39) || (c =? 60) || (c =? 61) || (c =? 96).

(** The test of parseAttribute for a value: any run of [[\t\r\n\f ]],
    then [=]. *)
Definition testSpacesEquals (s : jsstring) : bool :=
  startsWith (snd (span isSpace s)) (js "=").

(** [/^(v-|:|@|#)/.test(name)] *)
Definition testDirectivePrefix (name : jsstring) : bool :=
  startsWith name (js "v-") || startsWith name (js ":")
  || startsWith name (js "@") || startsWith name (js "#").

(** [/^[^\t\r\n\f >]+/.exec(s)] *)
Definition execUnquoted (s : jsstring) : option jsstring :=
  match fst (span (fun x => negb (isSpace x || (x =? 62))) s) with
  | [] => None
  | m => Some m
  end.

Fixpoint firstSome {A B} (f : A -> option B) (l : list A) : option B :=
  match l with
  | [] => None
  | a :: l' => match f a with
               | Some b => Some b
               | None => firstSome f l'
               end
  end.

(** [n; n-1; ...; 1]: the lengths a greedy [+] tries, longest first. *)
Definition greedy (n : nat) : list nat := rev (seq 1 n).

(** The regular expression that decomposes a directive name,
    [(?:^v-([a-z0-9-]+))?(?:(?::|^@|^#)([^\.]+))?(.+)?$] under the [i]
    flag, as the backtracking search it is.  [dirTail] is the end
    [(.+)?$]; [dirArg] puts the optional argument group before it;
    [dirName] puts the optional [v-] group before that; [execDirective]
    tries the start positions from left to right.  The result is
    [(match[1], match[2], match[3])]. *)
Definition dirTail (rest : jsstring) : option (option jsstring) :=
  match rest with
  | [] => Some None
  | _ => if forallb (fun c => negb (isLineTerminator c)) rest
         then Some (Some rest) else None
  end.

Definition dirArg (atStart : bool) (s : jsstring)
  : option (option jsstring * option jsstring) :=
  let absent := match dirTail s with
                | Some m3 => Some (None, m3)
                | None => None
                end in
  match s with
  | c :: r =>
      if (c =? 58) || (atStart && ((c =? 64) || (c =? 35))) then
        let run := fst (span (fun x => negb (x =? 46)) r) in
        match firstSome
                (fun k => match dirTail (skipn k r) with
                          | Some m3 => Some (Some (firstn k run), m3)
                          | None => None
                          end)
                (greedy (List.length run)) with
        | Some m => Some m
        | None => absent
        end
      else absent
  | [] => absent
  end.

Definition dirName (atStart : bool) (s : jsstring)
  : option (option jsstring * option jsstring * option jsstring) :=
  let absent := match dirArg atStart s with
                | Some (m2, m3) => Some (None, m2, m3)
                | None => None
                end in
  if atStart && startsWith s (js "v-") then
    let r := skipn 2 s in
    let run := fst (span (fun x => isAlnum x || (x =? 45)) r) in
    match firstSome
            (fun k => match dirArg false (skipn k r) with
                      | Some (m2, m3) => Some (Some (firstn k run), m2, m3)
                      | None => None
                      end)
            (greedy (List.length run)) with
    | Some m => Some m
    | None => absent
    end
  else absent.

Definition execDirective (name : jsstring)
  : option jsstring * option jsstring * option jsstring :=
  orElse
    (firstSome (fun i => dirName (Nat.eqb i 0) (skipn i name))
               (seq 0 (S (List.length name))))
    (None, None, None).

(** ** Text and entity decoder *)

(** https://html.spec.whatwg.org/multipage/parsing.html#numeric-character-reference-end-state *)
Definition CCR_REPLACEMENTS : list (Z * Z) :=
  [ (0x80, 0x20ac); (0x82, 0x201a); (0x83, 0x0192); (0x84, 0x201e);
    (0x85, 0x2026); (0x86, 0x2020); (0x87, 0x2021); (0x88, 0x02c6);
    (0x89, 0x2030); (0x8a, 0x0160); (0x8b, 0x2039); (0x8c, 0x0152);
    (0x8e, 0x017d); (0x91, 0x2018); (0x92, 0x2019); (0x93, 0x201c);
    (0x94, 0x201d); (0x95, 0x2022); (0x96, 0x2013); (0x97, 0x2014);
    (0x98, 0x02dc); (0x99, 0x2122); (0x9a, 0x0161); (0x9b, 0x203a);
    (0x9c, 0x0153); (0x9e, 0x017e); (0x9f, 0x0178) ].

(** [CCR_REPLACEMENTS[cp]] *)
Fixpoint lookupCCR (table : list (Z * Z)) (cp : Z) : option Z :=
  match table with
  | [] => None
  | (k, v) :: table' => if k =? cp then Some v else lookupCCR table' cp
  end.

(** A JavaScript value used as a condition: [undefined], the empty string
    and 0 are false. *)
Definition truthy (value : option jsstring) : bool :=
  match value with
  | Some (_ :: _) => true
  | _ => false
  end.

(** The checks of parseTextData on the code point of a numeric character
    reference (the chain of conditions after [Number.parseInt]): the
    diagnostic emitted, if any, and the code point appended to the text. *)
Definition checkCodePoint (context : ParserContext) (cp : Z)
  : ParserContext * Z :=
  if cp =? 0 then
    (emitError context NULL_CHARACTER_REFERENCE None, 0xfffd)
  else if 0x10ffff <? cp then
    (emitError context CHARACTER_REFERENCE_OUTSIDE_UNICODE_RANGE None, 0xfffd)
  else if (0xd800 <=? cp) && (cp <=? 0xdfff) then
    (emitError context SURROGATE_CHARACTER_REFERENCE None, 0xfffd)
  else if ((0xfdd0 <=? cp) && (cp <=? 0xfdef))
          || (Z.land cp 0xfffe =? 0xfffe) then
    (emitError context NONCHARACTER_CHARACTER_REFERENCE None, cp)
  else if ((0x01 <=? cp) && (cp <=? 0x08)) || (cp =? 0x0b)
          || ((0x0d <=? cp) && (cp <=? 0x1f))
          || ((0x7f <=? cp) && (cp <=? 0x9f)) then
    (emitError context CONTROL_CHARACTER_REFERENCE None,
     match lookupCCR CCR_REPLACEMENTS cp with
     | Some r => if r =? 0 then cp else r
     | None => cp
     end)
  else (context, cp).

(** The loop of parseTextData that looks a name up, from the longest
    candidate down: [length] runs from [n] down to 1 while no value is
    found. *)
Fixpoint lookupName (context : ParserContext) (n : nat)
    (name : jsstring) (value : option jsstring)
  : jsstring * option jsstring :=
  match n with
  | O => (name, value)
  | S n' =>
      if truthy value then (name, value)
      else
        let name := substr (source context) 1 (Z.of_nat n) in
        let value := lookupCR (namedCharacterReferences (options context))
                              name in
        lookupName context n' name value
  end.

Notation "' p <- e ;; k" :=
  (match e with
   | Some p => k
   | None => None
   end)
  (at level 10, p pattern, e at level 100, k at level 200, only parsing).

Definition isEntityMode (mode : TextModes) : bool :=
  match mode with
  | RAWTEXT | CDATA => false
  | _ => true
  end.

Definition isAttributeValue (mode : TextModes) : bool :=
  match mode with
  | ATTRIBUTE_VALUE => true
  | _ => false
  end.

(** One character reference of parseTextData: the body of its loop after
    the text before the ampersand has been copied and skipped.  [head0] is
    [head[0]]. *)
Definition parseReference (context : ParserContext) (mode : TextModes)
    (head0 text : jsstring) : jsstring * ParserContext :=
  if str_eqb head0 (js "&") then
    (* Named character reference. *)
    let test :=
      match charAt (source context) 1 with
      | Some c => isAlnum c
      | None => true (* "undefined" has letters *)
      end in
    if test then
      let '(name, value) :=
        lookupName context (Z.to_nat (maxCRNameLength context)) [] None in
      if truthy value then
        let semi := endsWith name (js ";") in
        if isAttributeValue mode && negb semi
           && match charAt (source context) (1 + len name) with
              | Some c => (c =? 61) || isAlnum c
              | None => false
              end
        then
          let text := text ++ js "&" in
          let text := text ++ name in
          (text, advanceBy context (1 + len name))
        else
          let text := text ++ orElse value [] in
          let context := advanceBy context (1 + len name) in
          let context :=
            if negb semi
            then emitError context
                   MISSING_SEMICOLON_AFTER_CHARACTER_REFERENCE None
            else context in
          (text, context)
      else
        let context :=
          emitError context UNKNOWN_NAMED_CHARACTER_REFERENCE None in
        let text := text ++ js "&" in
        let text := text ++ name in
        (text, advanceBy context (1 + len name))
    else
      (text ++ js "&", advanceBy context 1)
  else
    (* Numeric character reference. *)
    let hex := str_eqb head0 (js "&#x") in
    match execNumeric hex (source context) with
    | None =>
        let text := text ++ head0 in
        let context :=
          emitError context
            ABSENCE_OF_DIGITS_IN_NUMERIC_CHARACTER_REFERENCE None in
        (text, advanceBy context (len head0))
    | Some (body1, body0) =>
        let cp := parseInt body1 (if hex then 16 else 10) in
        let '(context, cp) := checkCodePoint context cp in
        let text := text ++ fromCodePoint cp in
        let context := advanceBy context (len body0) in
        let context :=
          if negb (endsWith body0 (js ";"))
          then emitError context
                 MISSING_SEMICOLON_AFTER_CHARACTER_REFERENCE None
          else context in
        (text, context)
    end.

(** The [while (context.offset < end)] loop of parseTextData. *)
Fixpoint parseTextData_loop (fuel : nat) (context : ParserContext)
    (end_ : Z) (mode : TextModes) (text : jsstring)
  : option (jsstring * ParserContext) :=
  if offset (cursor context) <? end_ then
    match fuel with
    | O => None
    | S fuel' =>
        let stop :=
          let remaining := end_ - offset (cursor context) in
          Some (text ++ slice (source context) 0 remaining,
                advanceBy context remaining) in
        match execHead (source context) with
        | None => stop
        | Some (index, head0) =>
            if end_ <=? offset (cursor context) + index then stop
            else
              (* Advance to the "&". *)
              let text := text ++ slice (source context) 0 index in
              let context := advanceBy context index in
              let '(text, context) :=
                parseReference context mode head0 text in
              parseTextData_loop fuel' context end_ mode text
        end
    end
  else Some (text, context).

(** Get text data with a given length from the current location.
    This translates HTML entities in the text data. *)
Definition parseTextData (fuel : nat) (context : ParserContext)
    (length : Z) (mode : TextModes) : option (jsstring * ParserContext) :=
  if negb (isEntityMode mode) then
    let text := slice (source context) 0 length in
    Some (text, advanceBy context length)
  else
    (* DATA or RCDATA. Entity decoding required. *)
    let end_ := offset (cursor context) + length in
    parseTextData_loop fuel context end_ mode [].

Definition parseText (fuel : nat) (context : ParserContext)
    (mode : TextModes) : option (TextNode * ParserContext) :=
  let open := fst (delimiters (options context)) in
  let candidates :=
    filter (fun n => negb (n =? -1))
      [ indexOf (source context) (js "<") 1;
        indexOf (source context) open 1;
        match mode with
        | CDATA => indexOf (source context) (js "]]>") 0
        | _ => -1
        end ] in
  let endIndex := fold_right Z.min (len (source context)) candidates in
  let start := getCursor context in
  '(content, context) <- parseTextData fuel context endIndex mode ;;
  Some ({| text_content := content;
           text_loc := getSelection context start None;
           text_isEmpty := match trim content with [] => true | _ => false end
        |}, context).

Definition parseInterpolation (fuel : nat) (context : ParserContext)
    (mode : TextModes) : option (option InterpolationNode * ParserContext) :=
  let '(open, close) := delimiters (options context) in
  let closeIndex := indexOf (source context) close (len open) in
  if closeIndex =? -1 then
    Some (None, emitError context X_MISSING_INTERPOLATION_END None)
  else
    let start := getCursor context in
    let context := advanceBy context (len open) in
    let innerStart := getCursor context in
    let innerEnd := getCursor context in
    let rawContentLength := closeIndex - len open in
    let rawContent := slice (source context) 0 rawContentLength in
    '(preTrimContent, context) <-
       parseTextData fuel context rawContentLength mode ;;
    let content := trim preTrimContent in
    let startOffset := indexOf preTrimContent content 0 in
    let innerStart :=
      if 0 <? startOffset
      then advancePositionWithMutation innerStart rawContent startOffset
      else innerStart in
    let endOffset :=
      rawContentLength - (len preTrimContent - len content - startOffset) in
    let innerEnd :=
      advancePositionWithMutation innerEnd rawContent endOffset in
    let context := advanceBy context (len close) in
    Some (Some {| interp_content :=
                    {| exp_isStatic := false;
                       exp_content := content;
                       exp_loc := getSelection context innerStart
                                    (Some innerEnd) |};
                  interp_loc := getSelection context start None |},
          context).

(** The value of an attribute as parseAttributeValue returns it. *)
Record AttributeValue := mkValue
  { value_content : jsstring; value_isQuoted : bool;
    value_loc : SourceLocation }.

(** [emitError(context, code, m.index)] for each index in turn. *)
Definition emitErrorsAt (context : ParserContext) (code : ErrorCodes)
    (indices : list Z) : ParserContext :=
  fold_left (fun context i => emitError context code (Some i))
            indices context.

Definition parseAttributeValue (fuel : nat) (context : ParserContext)
  : option (option AttributeValue * ParserContext) :=
  let start := getCursor context in
  let quote := charAt (source context) 0 in
  let isQuoted :=
    match quote with
    | Some q => (q =? 34) || (q =? 39)
    | None => false
    end in
  if isQuoted then
    (* Quoted value. *)
    let context := advanceBy context 1 in
    let endIndex :=
      indexOf (source context)
              (match quote with Some q => [q] | None => [] end) 0 in
    '(content, context) <-
       (if endIndex =? -1
        then parseTextData fuel context (len (source context))
                           ATTRIBUTE_VALUE
        else
          '(content, context) <-
             parseTextData fuel context endIndex ATTRIBUTE_VALUE ;;
          Some (content, advanceBy context 1)) ;;
    Some (Some (mkValue content isQuoted (getSelection context start None)),
          context)
  else
    (* Unquoted *)
    match execUnquoted (source context) with
    | None => Some (None, context)
    | Some match0 =>
        let context :=
          emitErrorsAt context
            UNEXPECTED_CHARACTER_IN_UNQUOTED_ATTRIBUTE_VALUE
            (matchIndices isBadValueChar match0 0) in
        '(content, context) <-
           parseTextData fuel context (len match0) ATTRIBUTE_VALUE ;;
        Some (Some (mkValue content isQuoted
                            (getSelection context start None)),
              context)
    end.

(** ** Attributes and tags *)

(** [Set<string>]: the names in insertion order, each once. *)
Definition NameSet := list jsstring.
Definition set_has (nameSet : NameSet) (name : jsstring) : bool :=
  existsb (str_eqb name) nameSet.
Definition set_add (nameSet : NameSet) (name : jsstring) : NameSet :=
  if set_has nameSet name then nameSet else nameSet ++ [name].

Definition parseAttribute (fuel : nat) (context : ParserContext)
    (nameSet : NameSet) : option (PropNode * NameSet * ParserContext) :=
  (* Name. *)
  let start := getCursor context in
  'name <- execAttrName (source context) ;;
  let context :=
    if set_has nameSet name
    then emitError context DUPLICATE_ATTRIBUTE None
    else context in
  let nameSet := set_add nameSet name in
  let context :=
    if startsWith name (js "=")
    then emitError context UNEXPECTED_EQUALS_SIGN_BEFORE_ATTRIBUTE_NAME None
    else context in
  let context :=
    emitErrorsAt context UNEXPECTED_CHARACTER_IN_ATTRIBUTE_NAME
                 (matchIndices isBadNameChar name 0) in
  let context := advanceBy context (len name) in
  (* Value *)
  '(value, context) <-
     (if testSpacesEquals (source context) then
        let context := advanceSpaces context in
        let context := advanceBy context 1 in
        let context := advanceSpaces context in
        '(value, context) <- parseAttributeValue fuel context ;;
        match value with
        | None => Some (value, emitError context MISSING_ATTRIBUTE_VALUE None)
        | Some _ => Some (value, context)
        end
      else Some (None, context)) ;;
  let loc := getSelection context start None in
  if testDirectivePrefix name then
    let '(match1, match2, match3) := execDirective name in
    let '(arg, context) :=
      match match2 with
      | Some m2 =>
          let startOffset := len (split_first name m2) in
          let loc :=
            getSelection context
              (getNewPosition context start startOffset)
              (Some (getNewPosition context start (startOffset + len m2))) in
          let content := m2 in
          if startsWith content (js "[") then
            let context :=
              if negb (endsWith content (js "]"))
              then emitError context
                     X_MISSING_DYNAMIC_DIRECTIVE_ARGUMENT_END None
              else context in
            let content := substr content 1 (len content - 2) in
            (Some (mkExpression content false loc), context)
          else (Some (mkExpression content true loc), context)
      | None => (None, context)
      end in
    let value :=
      match value with
      | Some v =>
          if value_isQuoted v then
            let valueLoc := value_loc v in
            let vstart :=
              mkPosition (offset (loc_start valueLoc) + 1)
                         (line (loc_start valueLoc))
                         (column (loc_start valueLoc) + 1) in
            Some (mkValue (value_content v) (value_isQuoted v)
                    {| loc_start := vstart;
                       loc_end :=
                         advancePositionWithClone vstart (value_content v)
                           (len (value_content v));
                       loc_source := slice (loc_source valueLoc) 1 (-1) |})
          else value
      | None => None
      end in
    Some (DIRECTIVE
            {| dir_name :=
                 match match1 with
                 | Some m1 => m1
                 | None =>
                     if startsWith name (js ":") then js "bind"
                     else if startsWith name (js "@") then js "on"
                     else js "slot"
                 end;
               dir_exp :=
                 match value with
                 | Some v =>
                     Some (mkExpression (value_content v) false (value_loc v))
                 | None => None
                 end;
               dir_arg := arg;
               dir_modifiers :=
                 match match3 with
                 | Some m3 => split_on 46 (slice_from m3 1) []
                 | None => []
                 end;
               dir_loc := loc |},
          nameSet, context)
  else
    Some (ATTRIBUTE
            {| attr_name := name;
               attr_value :=
                 match value with
                 | Some v =>
                     Some {| text_content := value_content v;
                             text_isEmpty :=
                               match trim (value_content v) with
                               | [] => true
                               | _ => false
                               end;
                             text_loc := value_loc v |}
                 | None => None
                 end;
               attr_loc := loc |},
          nameSet, context).

(** The attribute loop of parseTag. *)
Fixpoint parseTag_loop (fuel : nat) (context : ParserContext)
    (type : TagType) (nameSet : NameSet) (props : list PropNode)
  : option (list PropNode * ParserContext) :=
  if negb (match source context with [] => true | _ => false end)
     && negb (startsWith (source context) (js ">"))
     && negb (startsWith (source context) (js "/>"))
  then
    match fuel with
    | O => None
    | S fuel' =>
        if startsWith (source context) (js "/") then
          let context := emitError context UNEXPECTED_SOLIDUS_IN_TAG None in
          let context := advanceBy context 1 in
          let context := advanceSpaces context in
          parseTag_loop fuel' context type nameSet props
        else
          let context :=
            match type with
            | TagEnd => emitError context END_TAG_WITH_ATTRIBUTES None
            | TagStart => context
            end in
          '(attr, nameSet, context) <-
             parseAttribute fuel' context nameSet ;;
          let props :=
            match type with
            | TagStart => props ++ [attr]
            | TagEnd => props
            end in
          let context :=
            match source context with
            | c :: _ =>
                if negb (isTagEnd c)
                then emitError context
                       MISSING_WHITESPACE_BETWEEN_ATTRIBUTES None
                else context
            | [] => context
            end in
          let context := advanceSpaces context in
          parseTag_loop fuel' context type nameSet props
    end
  else Some (props, context).

(** Parse a tag (E.g. <div id=a>) with that type (start tag or end tag). *)
Definition parseTag (fuel : nat) (context : ParserContext) (type : TagType)
    (parent : option ElementNode) : option (ElementNode * ParserContext) :=
  (* Tag open. *)
  let start := getCursor context in
  '(match0, tag) <- execTagOpen (source context) ;;
  let ns := getNamespace (options context) tag parent in
  let tagType :=
    if str_eqb tag (js "slot") then ET_SLOT
    else if str_eqb tag (js "template") then ET_TEMPLATE
    else if existsb (fun c => isUpper c || (c =? 45)) tag then ET_COMPONENT
    else ET_ELEMENT in
  let context := advanceBy context (len match0) in
  let context := advanceSpaces context in
  (* Attributes. *)
  '(props, context) <- parseTag_loop fuel context type [] [] ;;
  (* Tag close. *)
  let '(isSelfClosing, context) :=
    match source context with
    | [] => (false, emitError context EOF_IN_TAG None)
    | _ =>
        let isSelfClosing := startsWith (source context) (js "/>") in
        let context :=
          match type with
          | TagEnd =>
              if isSelfClosing
              then emitError context END_TAG_WITH_TRAILING_SOLIDUS None
              else context
          | TagStart => context
          end in
        (isSelfClosing, advanceBy context (if isSelfClosing then 2 else 1))
    end in
  Some ({| ns := ns; tag := tag; tagType := tagType; props := props;
           isSelfClosing := isSelfClosing; children := [];
           loc := getSelection context start None |},
        context).

(** ** Comments *)

(** The loop of parseComment that advances over the nested comment
    openers found in [s]; it returns the last [prevIndex]. *)
Fixpoint parseComment_loop (fuel : nat) (context : ParserContext)
    (s : jsstring) (prevIndex : Z) : option (Z * ParserContext) :=
  let nestedIndex := indexOf s (js "<!--") prevIndex in
  if nestedIndex =? -1 then Some (prevIndex, context)
  else
    match fuel with
    | O => None
    | S fuel' =>
        let context := advanceBy context (nestedIndex - prevIndex + 1) in
        let context :=
          if nestedIndex + 4 <? len s
          then emitError context NESTED_COMMENT None
          else context in
        parseComment_loop fuel' context s (nestedIndex + 1)
    end.

Definition parseComment (fuel : nat) (context : ParserContext)
  : option (CommentNode * ParserContext) :=
  let start := getCursor context in
  (* Regular comment. *)
  '(content, context) <-
     match execCommentEnd (source context) with
     | None =>
         let content := slice_from (source context) 4 in
         let context := advanceBy context (len (source context)) in
         Some (content, emitError context EOF_IN_COMMENT None)
     | Some (index, bang, matchLength) =>
         let context :=
           if index <=? 3
           then emitError context ABRUPT_CLOSING_OF_EMPTY_COMMENT None
           else context in
         let context :=
           if bang then emitError context INCORRECTLY_CLOSED_COMMENT None
           else context in
         let content := slice (source context) 4 index in
         (* Advancing with reporting nested comments. *)
         let s := slice (source context) 0 index in
         '(prevIndex, context) <- parseComment_loop fuel context s 1 ;;
         Some (content,
               advanceBy context (index + matchLength - prevIndex + 1))
     end ;;
  Some ({| comment_content := content;
           comment_loc := getSelection context start None |}, context).

Definition parseBogusComment (context : ParserContext)
  : CommentNode * ParserContext :=
  let start := getCursor context in
  let contentStart :=
    match charAt (source context) 1 with
    | Some c => if c =? 63 then 1 else 2
    | None => 2
    end in
  let closeIndex := indexOf (source context) (js ">") 0 in
  let '(content, context) :=
    if closeIndex =? -1
    then (slice_from (source context) contentStart,
          advanceBy context (len (source context)))
    else (slice (source context) contentStart closeIndex,
          advanceBy context (closeIndex + 1)) in
  ({| comment_content := content;
      comment_loc := getSelection context start None |}, context).

(** ** Children *)

(** [pushNode(context, nodes, node)]: the list [nodes] after the call. *)
Definition pushNode (context : ParserContext)
    (nodes : list TemplateChildNode) (node : TemplateChildNode)
  : list TemplateChildNode :=
  (* ignore comments in production *)
  if negb DEV && match node with COMMENT _ => true | _ => false end
  then nodes
  else if ignoreSpaces (options context)
          && match node with TEXT t => text_isEmpty t | _ => false end
  then nodes
  else
    (* Merge if both this and the previous node are text and those are
       consecutive.  This happens on "a < b" or something like. *)
    match rev nodes, node with
    | TEXT prev :: before, TEXT t =>
        if offset (loc_end (text_loc prev))
           =? offset (loc_start (text_loc t))
        then
          let content := text_content prev ++ text_content t in
          rev before ++
          [TEXT {| text_content := content;
                   text_isEmpty :=
                     match trim content with [] => true | _ => false end;
                   text_loc :=
                     {| loc_start := loc_start (text_loc prev);
                        loc_end := loc_end (text_loc t);
                        loc_source := loc_source (text_loc prev)
                                      ++ loc_source (text_loc t) |} |}]
        else nodes ++ [node]
    | _, _ => nodes ++ [node]
    end.

(** What one turn of the loop of parseChildren has in hand before
    [if (!node)]: it ran into [continue], or [node] is still undefined, or
    [node] is a node or an array of nodes. *)
Inductive Turn :=
| Continue
| Undefined
| Produced (nodes : list TemplateChildNode).

Section Children.

(** The recursive call [parseChildren(context, mode, ancestors)]. *)
Variable parseChildren :
  ParserContext -> TextModes -> list ElementNode ->
  option (list TemplateChildNode * ParserContext).

Definition parseCDATA (context : ParserContext)
    (ancestors : list ElementNode)
  : option (list TemplateChildNode * ParserContext) :=
  let context := advanceBy context 9 in
  '(nodes, context) <- parseChildren context CDATA ancestors ;;
  match source context with
  | [] => Some (nodes, emitError context EOF_IN_CDATA None)
  | _ => Some (nodes, advanceBy context 3)
  end.

Definition parseElement (fuel : nat) (context : ParserContext)
    (ancestors : list ElementNode) : option (ElementNode * ParserContext) :=
  (* Start tag. *)
  let parent := last ancestors in
  '(element, context) <- parseTag fuel context TagStart parent ;;
  if isSelfClosing element || isVoidTag (options context) (tag element)
  then Some (element, context)
  else
    (* Children. *)
    let ancestors := ancestors ++ [element] in
    let mode := getTextMode (options context) (tag element) (ns element) in
    '(children, context) <- parseChildren context mode ancestors ;;
    (* End tag. *)
    'context <-
       (if startsWithEndTagOpen (source context) (tag element) then
          '(_, context) <- parseTag fuel context TagEnd parent ;;
          Some context
        else
          let context := emitError context X_MISSING_END_TAG None in
          match source context with
          | [] =>
              if str_eqb (toLowerCase (tag element)) (js "script") then
                match children with
                | first :: _ =>
                    if startsWith (loc_source (node_loc first)) (js "<!--")
                    then Some (emitError context
                                 EOF_IN_SCRIPT_HTML_COMMENT_LIKE_TEXT None)
                    else Some context
                | [] => Some context
                end
              else Some context
          | _ => Some context
          end) ;;
    Some ({| ns := ns element; tag := tag element;
             tagType := tagType element; props := props element;
             isSelfClosing := isSelfClosing element;
             children := children;
             loc := getSelection context (loc_start (loc element)) None |},
          context).

(** The body of the loop of parseChildren down to [if (!node)]. *)
Definition parseChildren_turn (fuel : nat) (context : ParserContext)
    (mode : TextModes) (ancestors : list ElementNode)
  : option (Turn * ParserContext) :=
  let parent := last ancestors in
  let ns := match parent with
            | Some p => ns p
            | None => Namespaces_HTML
            end in
  let s := source context in
  let bogus context :=
    let '(c, context) := parseBogusComment context in
    Some (Produced [COMMENT c], context) in
  if startsWith s (fst (delimiters (options context))) then
    '(node, context) <- parseInterpolation fuel context mode ;;
    match node with
    | Some i => Some (Produced [INTERPOLATION i], context)
    | None => Some (Undefined, context)
    end
  else if match mode with DATA => true | _ => false end
          && startsWith s (js "<") then
    match charAt s 1 with
    | None => Some (Undefined, emitError context EOF_BEFORE_TAG_NAME (Some 1))
    | Some s1 =>
        if s1 =? 33 then
          if startsWith s (js "<!--") then
            '(c, context) <- parseComment fuel context ;;
            Some (Produced [COMMENT c], context)
          else if startsWith s (js "<!DOCTYPE") then
            (* Ignore DOCTYPE by a limitation. *)
            bogus context
          else if startsWith s (js "<![CDATA[") then
            if negb (ns =? Namespaces_HTML) then
              '(nodes, context) <- parseCDATA context ancestors ;;
              Some (Produced nodes, context)
            else
              bogus (emitError context CDATA_IN_HTML_CONTENT None)
          else
            bogus (emitError context INCORRECTLY_OPENED_COMMENT None)
        else if s1 =? 47 then
          match charAt s 2 with
          | None =>
              Some (Undefined, emitError context EOF_BEFORE_TAG_NAME (Some 2))
          | Some s2 =>
              if s2 =? 62 then
                let context :=
                  emitError context MISSING_END_TAG_NAME (Some 2) in
                Some (Continue, advanceBy context 3)
              else if isAlpha s2 then
                let context := emitError context X_INVALID_END_TAG None in
                '(_, context) <- parseTag fuel context TagEnd parent ;;
                Some (Continue, context)
              else
                bogus (emitError context
                         INVALID_FIRST_CHARACTER_OF_TAG_NAME (Some 2))
          end
        else if isAlpha s1 then
          '(e, context) <- parseElement fuel context ancestors ;;
          Some (Produced [ELEMENT e], context)
        else if s1 =? 63 then
          bogus (emitError context
                   UNEXPECTED_QUESTION_MARK_INSTEAD_OF_TAG_NAME (Some 1))
        else
          Some (Undefined,
                emitError context INVALID_FIRST_CHARACTER_OF_TAG_NAME (Some 1))
    end
  else Some (Undefined, context).

(** One turn of the loop of parseChildren, from its head to the push:
    the nodes pushed so far and the context after it. *)
Definition parseChildren_iteration (fuel : nat) (context : ParserContext)
    (mode : TextModes) (ancestors : list ElementNode)
    (nodes : list TemplateChildNode)
  : option (list TemplateChildNode * ParserContext) :=
  '(turn, context) <- parseChildren_turn fuel context mode ancestors ;;
  match turn with
  | Continue => Some (nodes, context)
  | Undefined =>
      '(t, context) <- parseText fuel context mode ;;
      Some (pushNode context nodes (TEXT t), context)
  | Produced node => Some (fold_left (pushNode context) node nodes, context)
  end.

End Children.

Fixpoint parseChildren_loop (fuel : nat) (context : ParserContext)
    (mode : TextModes) (ancestors : list ElementNode)
    (nodes : list TemplateChildNode)
  : option (list TemplateChildNode * ParserContext) :=
  if isEnd context mode ancestors then Some (nodes, context)
  else
    match fuel with
    | O => None
    | S fuel' =>
        '(nodes, context) <-
           parseChildren_iteration
             (fun context mode ancestors =>
                parseChildren_loop fuel' context mode ancestors [])
             fuel context mode ancestors nodes ;;
        parseChildren_loop fuel' context mode ancestors nodes
    end.

Definition parseChildren (fuel : nat) (context : ParserContext)
    (mode : TextModes) (ancestors : list ElementNode)
  : option (list TemplateChildNode * ParserContext) :=
  parseChildren_loop fuel context mode ancestors [].

Definition parse (fuel : nat) (content : jsstring) (options : ParserOptions)
  : option (RootNode * list CompilerError) :=
  let context := createParserContext content options in
  let start := getCursor context in
  '(children, context) <- parseChildren fuel context DATA [] ;;
  Some ({| root_children := children;
           root_loc := getSelection context start None |},
        reported context).

End Parser.

(** ** Vocabulary of the properties *)

(** The double quote, which a string literal here cannot hold. *)
Definition dq : jsstring := [34].

Definition arg_content (d : DirectiveNode) : option jsstring :=
  option_map exp_content (dir_arg d).
Definition arg_source (d : DirectiveNode) : option jsstring :=
  option_map (fun e => loc_source (exp_loc e)) (dir_arg d).
Definition dir_exp_content (d : DirectiveNode) : option jsstring :=
  option_map exp_content (dir_exp d).
Definition dir_exp_isStatic (d : DirectiveNode) : option bool :=
  option_map exp_isStatic (dir_exp d).

Definition codes (errors : list CompilerError) : list ErrorCodes :=
  map err_code errors.

(** How many of the diagnostics carry [code]. *)
Definition count_code (code : ErrorCodes) (errors : list CompilerError) : nat :=
  List.length (filter (fun e => ErrorCodes_beq (err_code e) code) errors).

(** The DUPLICATE_ATTRIBUTE diagnostics reported so far. *)
Definition duplicates (context : ParserContext) : nat :=
  count_code DUPLICATE_ATTRIBUTE (reported context).

(** The attribute [name] as it shows in the props: an ATTRIBUTE node
    carries it, a DIRECTIVE node comes from a name with a directive
    prefix. *)
Definition prop_named (name : jsstring) (p : PropNode) : Prop :=
  match p with
  | ATTRIBUTE a => attr_name a = name
  | DIRECTIVE _ => testDirectivePrefix name = true
  end.

(** The distinct names among [names], added to [nameSet]. *)
Definition distinct (nameSet : NameSet) (names : list jsstring) : NameSet :=
  fold_left set_add names nameSet.

(** The position that [start] becomes when it is advanced over the [n]
    characters [originalSource[start.offset .. start.offset + n)]. *)
Definition advancedOver (originalSource : jsstring) (start : Position)
    (n : Z) : Position :=
  advancePositionWithClone start
    (slice originalSource (offset start) (offset start + n)) n.

Definition noLineFeed (s : jsstring) : bool :=
  forallb (fun c => negb (c =? 10)) s.

(** The input of scenario 4:
    <MyComp :prop=[dq]x[dq] @click.stop=[dq]f[dq] v-if=[dq]ok[dq]/> *)
Definition myComp : jsstring :=
  js "<MyComp :prop=" ++ dq ++ js "x" ++ dq ++ js " @click.stop=" ++ dq
  ++ js "f" ++ dq ++ js " v-if=" ++ dq ++ js "ok" ++ dq ++ js "/>".

(** The input of scenario 7: <div a=[dq]1[dq] a=[dq]2[dq]> *)
Definition divTwice : jsstring :=
  js "<div a=" ++ dq ++ js "1" ++ dq ++ js " a=" ++ dq ++ js "2" ++ dq
  ++ js ">".

(** A context on a source of three characters with a line feed in the
    middle. *)
Definition lineFeedContext : ParserContext :=
  createParserContext (js "a" ++ [10] ++ js "b") noOptions.

(** Two TEXT nodes whose spans touch: the first ends at the offset at
    which the second starts. *)
Definition touching (a b : TemplateChildNode) : bool :=
  match a, b with
  | TEXT x, TEXT y =>
      offset (loc_end (text_loc x)) =? offset (loc_start (text_loc y))
  | _, _ => false
  end.

(** No two consecutive nodes of the list are touching TEXT nodes. *)
Fixpoint noTouching (nodes : list TemplateChildNode) : bool :=
  match nodes with
  | a :: rest =>
      match rest with
      | b :: _ => negb (touching a b) && noTouching rest
      | [] => true
      end
  | [] => true
  end.

(** The same of every children list below a node. *)
Fixpoint merged (n : TemplateChildNode) : bool :=
  match n with
  | ELEMENT e => noTouching (children e) && forallb merged (children e)
  | _ => true
  end.

Definition wellMerged (nodes : list TemplateChildNode) : bool :=
  noTouching nodes && forallb merged nodes.

(** The node [pushNode] leaves in place of [prev] when it merges [t] into
    it. *)
Definition mergeText (prev t : TextNode) : TextNode :=
  {| text_content := text_content prev ++ text_content t;
     text_isEmpty := len (trim (text_content prev ++ text_content t)) =? 0;
     text_loc := {| loc_start := loc_start (text_loc prev);
                    loc_end := loc_end (text_loc t);
                    loc_source := loc_source (text_loc prev)
                                  ++ loc_source (text_loc t) |} |}.

(** [pushNode] returns without pushing: a comment in a production build,
    or an empty TEXT node when [ignoreSpaces] is on. *)
Definition dropped (DEV : bool) (context : ParserContext)
    (node : TemplateChildNode) : bool :=
  (negb DEV && match node with COMMENT _ => true | _ => false end)
  || (ignoreSpaces (options context)
      && match node with TEXT t => text_isEmpty t | _ => false end).

(** The previous sibling is a TEXT node, [node] is one too, and their
    spans touch. *)
Definition touchesLast (nodes : list TemplateChildNode)
    (node : TemplateChildNode) : bool :=
  match last nodes with
  | Some prev => touching prev node
  | None => false
  end.

(** [context'] is [context] further along the same source: the options,
    the original source and [maxCRNameLength] are the same, the offset has
    not decreased, the source has lost as many units at its front as the
    offset has grown, and diagnostics were added only. *)
Definition advances (context context' : ParserContext) : Prop :=
  options context' = options context
  /\ originalSource context' = originalSource context
  /\ maxCRNameLength context' = maxCRNameLength context
  /\ offset (cursor context) <= offset (cursor context')
  /\ source context'
     = skipn (Z.to_nat (offset (cursor context') - offset (cursor context)))
             (source context)
  /\ exists new, reported context' = reported context ++ new.

(** The source does not start with a unit of [[\t\r\n\f ]]: the state at
    the head of the attribute loop of parseTag. *)
Definition noLeadingSpace (s : jsstring) : Prop :=
  match s with
  | ch :: _ => isSpace ch = false
  | [] => True
  end.


Definition headAlpha (s : jsstring) : bool :=
  match s with
  | c :: _ => isAlpha c
  | [] => false
  end.

(** A case mapping under which only a string that starts with a letter of
    [[a-zA-Z]] lowercases to the same as one that does.  The ASCII
    mapping is such; the Unicode mapping of a JavaScript engine is not (it
    maps the Kelvin sign to [k]), and [parseTag] then throws on an end tag
    spelled with it, the regular expression of the tag name not matching
    it. *)
Definition lowerKeepsLetters (toLowerCase : jsstring -> jsstring) : Prop :=
  forall s t,
    str_eqb (toLowerCase s) (toLowerCase t) = true ->
    headAlpha t = true -> headAlpha s = true.

(** Options whose two delimiters are the empty string. *)
Definition emptyDelimiters : ParserOptions :=
  mkOptions None None None (Some ([], [])) None None.

(** C0 and C1 control code points, U+007F included. *)
Definition isControl (cp : Z) : bool :=
  ((0 <=? cp) && (cp <=? 0x1f)) || ((0x7f <=? cp) && (cp <=? 0x9f)).

(** A control other than whitespace, whitespace being the class
    [[\t\r\n\f ]] the parser itself skips. *)
Definition isControlNotSpace (cp : Z) : bool :=
  isControl cp && negb (isSpace cp).

(** The code points for which parseTextData reports
    CONTROL_CHARACTER_REFERENCE: the controls other than NUL, tab, line
    feed and form feed; the carriage return is among them. *)
Definition isReportedControl (cp : Z) : bool :=
  ((0x01 <=? cp) && (cp <=? 0x08)) || (cp =? 0x0b)
  || ((0x0d <=? cp) && (cp <=? 0x1f)) || ((0x7f <=? cp) && (cp <=? 0x9f)).

(** The code point the C0/C1 table gives for [cp], [cp] itself when the
    table has no entry for it. *)
Definition remapped (cp : Z) : Z :=
  orElse (lookupCCR CCR_REPLACEMENTS cp) cp.

(** A numeric character reference, decimal or hexadecimal, with its
    semicolon. *)
Definition numericReference (hex : bool) (digits : jsstring) : jsstring :=
  (if hex then js "&#x" else js "&#") ++ digits ++ js ";".

Definition isDigitOf (hex : bool) : Z -> bool :=
  if hex then isHexDigit else isDigit.

Definition radixOf (hex : bool) : Z := if hex then 16 else 10.

(** The default table with the entry [amp] of the full HTML table
    added. *)
Definition ampTable : list (jsstring * jsstring) :=
  namedCharacterReferences defaultParserOptions ++ [(js "amp", js "&")].

(** [&amp] followed by the unit [x] and by [rest]. *)
Definition ampThen (x : Z) (rest : jsstring) : jsstring :=
  js "&amp" ++ x :: rest.

(** The input <a b=[dq]&amp [dq]/>: [&amp] followed by a space in a quoted
    attribute value. *)
Definition ampSpace : jsstring :=
  js "<a b=" ++ dq ++ js "&amp " ++ dq ++ js "/>".

(** The sources of the nodes, in order, put end to end. *)
Definition sources (nodes : list TemplateChildNode) : jsstring :=
  List.concat (map (fun n => loc_source (node_loc n)) nodes).

(** The two diagnostics of an end tag that parseChildren skips without
    making a node of it. *)
Definition strayEndTag (code : ErrorCodes) : bool :=
  match code with
  | X_INVALID_END_TAG | MISSING_END_TAG_NAME => true
  | _ => false
  end.

Definition noStrayEndTag (errors : list CompilerError) : bool :=
  forallb (fun e => negb (strayEndTag (err_code e))) errors.

(** Options that keep the whitespace-only TEXT nodes. *)
Definition keepSpaces : ParserOptions :=
  mkOptions None None None None (Some false) None.

(** Two elements with a space between them. *)
Definition twoElements : jsstring := js "<a></a> <b></b>".

(** The input of scenario 1 followed by a space and a second element. *)
Definition divHello : jsstring :=
  js "<div id=" ++ dq ++ js "a" ++ dq ++ js ">hello</div> <p>x y</p>".

(** The node is no COMMENT. *)
Definition notComment (n : TemplateChildNode) : bool :=
  match n with
  | COMMENT _ => false
  | _ => true
  end.

(** [s] without its whitespace: the units [String.prototype.trim] strips,
    removed wherever they stand. *)
Definition strip (s : jsstring) : jsstring :=
  filter (fun c => negb (isTrimSpace c)) s.

(** The source of the context is the original source from the offset of
    the cursor on. *)
Definition synced (context : ParserContext) : Prop :=
  0 <= offset (cursor context)
  /\ source context
     = skipn (Z.to_nat (offset (cursor context))) (originalSource context).

(** The node is no TEXT. *)
Definition notText (n : TemplateChildNode) : bool :=
  match n with
  | TEXT _ => false
  | _ => true
  end.

Section Everywhere.

Variable keep : TemplateChildNode -> bool.

(** [keep] holds of the node and of every node below it. *)
Fixpoint everywhere (n : TemplateChildNode) : bool :=
  keep n
  && match n with
     | ELEMENT e => forallb everywhere (children e)
     | _ => true
     end.

End Everywhere.

(** The source of the node is the part of [originalSource] between the
    offsets of its start and of its end, in this order. *)
Definition located (originalSource : jsstring) (n : TemplateChildNode)
  : bool :=
  let l := node_loc n in
  (0 <=? offset (loc_start l))
  && (offset (loc_start l) <=? offset (loc_end l))
  && str_eqb (loc_source l)
       (slice originalSource (offset (loc_start l)) (offset (loc_end l))).

(** A TEXT node is not marked empty and its content has a unit that is
    not whitespace. *)
Definition nonBlank (n : TemplateChildNode) : bool :=
  match n with
  | TEXT t =>
      negb (text_isEmpty t)
      && existsb (fun c => negb (isTrimSpace c)) (text_content t)
  | _ => true
  end.

(** [!s.trim()]: every unit of [s] is whitespace. *)
Definition isBlank (s : jsstring) : bool := forallb isTrimSpace s.

(** The code points U+D800 to U+DFFF. *)
Definition isSurrogate (cp : Z) : bool := (0xd800 <=? cp) && (cp <=? 0xdfff).

(** The code points U+FDD0 to U+FDEF and the last two of each plane. *)
Definition isNoncharacter (cp : Z) : bool :=
  ((0xfdd0 <=? cp) && (cp <=? 0xfdef)) || (0xfffe <=? cp mod 0x10000).

(** The code point kept for the numeric reference to [cp] and the
    diagnostic that goes with it, case by case. *)
Definition checked (cp : Z) : Z * list ErrorCodes :=
  if cp =? 0 then (0xfffd, [NULL_CHARACTER_REFERENCE])
  else if 0x10ffff <? cp
       then (0xfffd, [CHARACTER_REFERENCE_OUTSIDE_UNICODE_RANGE])
  else if isSurrogate cp then (0xfffd, [SURROGATE_CHARACTER_REFERENCE])
  else if isNoncharacter cp then (cp, [NONCHARACTER_CHARACTER_REFERENCE])
  else if isReportedControl cp
       then (remapped cp, [CONTROL_CHARACTER_REFERENCE])
  else (cp, []).

(** The text does not start with a digit of the base. *)
Definition noDigitAhead (hex : bool) (rest : jsstring) : Prop :=
  match rest with
  | x :: _ => isDigitOf hex x = false
  | [] => True
  end.

(** The units of a plain attribute name: not whitespace, not one of [/],
    [>] and [=], and none of the quotes and [<], which are reported. *)
Definition isNameChar (c : Z) : bool :=
  negb (isTagEnd c || (c =? 61) || isBadNameChar c).

(** The text before the argument of a directive name: [v-name],
    [v-name:], or one of the shorthands. *)
Inductive DirectiveHead :=
| VDash (n : jsstring)
| VDashArg (n : jsstring)
| Colon
| At
| Hash.

(** The head as it is written. *)
Definition headText (h : DirectiveHead) : jsstring :=
  match h with
  | VDash n => js "v-" ++ n
  | VDashArg n => js "v-" ++ n ++ js ":"
  | Colon => js ":"
  | At => js "@"
  | Hash => js "#"
  end.

(** The directive name the head stands for. *)
Definition headName (h : DirectiveHead) : jsstring :=
  match h with
  | VDash n | VDashArg n => n
  | Colon => js "bind"
  | At => js "on"
  | Hash => js "slot"
  end.

(** The units of a directive name after [v-]. *)
Definition isDirChar (x : Z) : bool := isAlnum x || (x =? 45).

(** The head is well formed and goes with the argument [a]: a name after
    [v-] is a non-empty run of [isDirChar]; [v-name] alone has no
    argument, the other heads have one. *)
Definition headFor (h : DirectiveHead) (a : jsstring) : Prop :=
  match h with
  | VDash n => n <> [] /\ forallb isDirChar n = true /\ a = []
  | VDashArg n => n <> [] /\ forallb isDirChar n = true /\ a <> []
  | _ => a <> []
  end.

(** The modifiers, each after its dot. *)
Definition dotted (ms : list jsstring) : jsstring :=
  List.concat (map (fun m => 46 :: m) ms).

(** The text starts with a dot, if it is not empty. *)
Definition dotAhead (mods : jsstring) : Prop :=
  match mods with
  | x :: _ => x = 46
  | [] => True
  end.

(** [body] is what is left of [lead ++ body ++ trail] once trimmed: the
    two ends are whitespace and [body] starts and ends with a unit that is
    not; an empty [body] comes with an empty [lead]. *)
Definition trimmedTo (lead body trail : jsstring) : Prop :=
  forallb isTrimSpace lead = true /\ forallb isTrimSpace trail = true
  /\ match body with
     | [] => lead = []
     | x :: _ =>
         isTrimSpace x = false
         /\ match rev body with
            | y :: _ => isTrimSpace y = false
            | [] => True
            end
     end.

(** A tag name: a letter, then units outside [[\t\r\n\f />]]. *)
Definition isTagName (tag : jsstring) : bool :=
  match tag with
  | x :: r => isAlpha x && forallb (fun y => negb (isTagEnd y)) r
  | [] => false
  end.

(** The text modes in which the end tag of the parent ends the
    children. *)
Definition isElementMode (mode : TextModes) : bool :=
  match mode with
  | DATA | RCDATA | RAWTEXT => true
  | _ => false
  end.

(** Options under which [br] is the one void tag. *)
Definition brIsVoid : ParserOptions :=
  mkOptions (Some (fun tag => str_eqb tag (js "br"))) None None None None None.

(** What is not the second unit of a tag, an end tag, a declaration or a
    processing instruction. *)
Definition opensNoTag (x : Z) : bool :=
  negb (isAlpha x || (x =? 33) || (x =? 47) || (x =? 63)).

(** The input <a v-bind:v=[dq]x[dq]/>: the argument [v] of the directive
    is also the first unit of its name. *)
Definition bindV : jsstring :=
  js "<a v-bind:v=" ++ dq ++ js "x" ++ dq ++ js "/>".

(** [String.prototype.toLowerCase] restricted to ASCII and the Kelvin
    sign U+212A, which it maps to [k]. *)
Definition kelvinToLowerCase (s : jsstring) : jsstring :=
  map (fun c => if c =? 0x212a then 107
                else if isUpper c then c + 32 else c) s.

(** The input [<k>] followed by the end tag of the Kelvin sign. *)
Definition kelvinInput : jsstring := js "<k></" ++ [0x212a] ++ js ">".

(** Options whose table is the default one with the name [amp] added. *)
Definition ampOptions : ParserOptions :=
  mkOptions None None None None None (Some ampTable).

(** The text of a numeric character reference: the head, the digits and
    the semicolon, if it is there. *)
Definition numericText (hex : bool) (digits : jsstring) (semi : bool)
  : jsstring :=
  (if hex then js "&#x" else js "&#") ++ digits
  ++ (if semi then js ";" else []).

(** The digits of the reference stop where the text goes on: a reference
    without semicolon is followed by neither a digit of its base nor a
    semicolon. *)
Definition digitsEnd (hex semi : bool) (rest : jsstring) : Prop :=
  match rest with
  | x :: _ => semi = true \/ (isDigitOf hex x = false /\ x <> 59)
  | [] => True
  end.

(** [prop.loc] *)
Definition prop_loc (p : PropNode) : SourceLocation :=
  match p with
  | ATTRIBUTE a => attr_loc a
  | DIRECTIVE d => dir_loc d
  end.

(** The name of the prop as it is written: the attribute name that
    stands at the head of the source text of the prop. *)
Definition rawName (p : PropNode) : jsstring :=
  orElse (execAttrName (loc_source (prop_loc p))) [].

(** An ATTRIBUTE prop carries its name as written; a DIRECTIVE prop comes
    from a name as written with a directive prefix. *)
Definition namedAsWritten (p : PropNode) : Prop :=
  match p with
  | ATTRIBUTE a => attr_name a = rawName p
  | DIRECTIVE _ => testDirectivePrefix (rawName p) = true
  end.

(** The input <a :x=[dq]1[dq] :x=[dq]2[dq]>: a directive written
    twice. *)
Definition bindTwice : jsstring :=
  js "<a :x=" ++ dq ++ js "1" ++ dq ++ js " :x=" ++ dq ++ js "2" ++ dq
  ++ js ">".

(** [context'] is [context] after the text [pre] was read. *)
Definition consumed (context context' : ParserContext) (pre : jsstring)
  : Prop :=
  advances context context'
  /\ source context = pre ++ source context'
  /\ offset (cursor context') = offset (cursor context) + len pre.

(** An attribute with a quoted value, as it is written after the
    whitespace that sets it apart: the name, [=] with optional whitespace
    around it, and the value between two quotes [q]. *)
Definition attrText (name sp1 sp2 : jsstring) (q : Z) (value : jsstring)
  : jsstring :=
  name ++ sp1 ++ js "=" ++ sp2 ++ q :: value ++ [q].

(** An attribute of a plain element: the whitespace before it, its name,
    the whitespace around [=], the quote and the value. *)
Record PlainAttribute := mkPlainAttribute
  { pa_space : jsstring; pa_name : jsstring; pa_sp1 : jsstring;
    pa_sp2 : jsstring; pa_quote : Z; pa_value : jsstring }.

Definition renderAttribute (a : PlainAttribute) : jsstring :=
  pa_space a
  ++ attrText (pa_name a) (pa_sp1 a) (pa_sp2 a) (pa_quote a) (pa_value a).

Definition renderAttributes (attrs : list PlainAttribute) : jsstring :=
  List.concat (map renderAttribute attrs).

Definition nonEmpty (s : jsstring) : bool :=
  match s with [] => false | _ => true end.

(** The attribute is set apart by whitespace, its name is made of units
    that are neither whitespace nor one of [/], [>], [=], the quotes and
    [<], and its value is between two double or two single quotes and
    holds neither that quote nor an ampersand. *)
Definition wfAttribute (a : PlainAttribute) : bool :=
  nonEmpty (pa_space a) && forallb isSpace (pa_space a)
  && nonEmpty (pa_name a) && forallb isNameChar (pa_name a)
  && forallb isSpace (pa_sp1 a) && forallb isSpace (pa_sp2 a)
  && ((pa_quote a =? 34) || (pa_quote a =? 39))
  && forallb (fun x => negb ((x =? pa_quote a) || (x =? 38))) (pa_value a).

(** The end of a start tag: [/>] when it closes itself, [>] otherwise. *)
Definition tagCloser (self : bool) : jsstring :=
  if self then js "/>" else js ">".

(** The start of a start tag: [<], the name, the attributes, the
    whitespace after them and the end of the tag. *)
Definition startTagText (tg : jsstring) (attrs : list PlainAttribute)
    (sp : jsstring) (self : bool) : jsstring :=
  js "<" ++ tg ++ renderAttributes attrs ++ sp ++ tagCloser self.

(** A run of plain text: not empty, with no [<], no ampersand and no
    [{{]. *)
Definition plainText (t : jsstring) : bool :=
  nonEmpty t && forallb (fun x => negb ((x =? 60) || (x =? 38))) t
  && (indexOf t (js "{{") 0 =? -1).

(** What follows is the end of the input or starts with [<]. *)
Definition startsMarkup (R : jsstring) : Prop :=
  match R with
  | [] => True
  | x :: _ => x = 60
  end.

(** A plain document: text, elements with an end tag of the same name,
    and elements that close themselves. *)
Inductive PlainNode :=
| PText (t : jsstring)
| PElement (tg : jsstring) (attrs : list PlainAttribute) (sp : jsstring)
    (kids : list PlainNode)
| PSelfClosing (tg : jsstring) (attrs : list PlainAttribute) (sp : jsstring).

(** The document as it is written. *)
Fixpoint render (d : PlainNode) : jsstring :=
  match d with
  | PText t => t
  | PElement tg attrs sp kids =>
      startTagText tg attrs sp false
      ++ List.concat (map render kids) ++ js "</" ++ tg ++ js ">"
  | PSelfClosing tg attrs sp => startTagText tg attrs sp true
  end.

Definition renderAll (ds : list PlainNode) : jsstring :=
  List.concat (map render ds).

(** The number of texts, elements and attributes of the document. *)
Fixpoint weight (d : PlainNode) : nat :=
  match d with
  | PText _ => 1
  | PElement _ attrs _ kids =>
      S (List.length attrs + list_sum (map weight kids))
  | PSelfClosing _ attrs _ => S (List.length attrs)
  end.

Definition weightAll (ds : list PlainNode) : nat := list_sum (map weight ds).

(** No two texts stand side by side: they would be one text. *)
Fixpoint noTwoTexts (ds : list PlainNode) : bool :=
  match ds with
  | [] => true
  | d :: r =>
      match d, r with
      | PText _, PText _ :: _ => false
      | _, _ => noTwoTexts r
      end
  end.

(** The texts are plain, the tag names are names, the attributes have
    quoted values without ampersand, at every depth. *)
Fixpoint wfPlain (d : PlainNode) : bool :=
  match d with
  | PText t => plainText t
  | PElement tg attrs sp kids =>
      isTagName tg && forallb wfAttribute attrs && forallb isSpace sp
      && forallb wfPlain kids && noTwoTexts kids
  | PSelfClosing tg attrs sp =>
      isTagName tg && forallb wfAttribute attrs && forallb isSpace sp
  end.

Definition wfAll (ds : list PlainNode) : bool :=
  forallb wfPlain ds && noTwoTexts ds.

(** None of the texts of the list, those between and around its elements,
    is whitespace only. *)
Definition noBlankText (ds : list PlainNode) : bool :=
  forallb (fun d => match d with
                    | PText t => negb (isBlank t)
                    | _ => true
                    end) ds.

(** What stands after the children: nothing at the root, the end tag of
    the parent inside an element. *)
Definition closes (ancestors : list ElementNode) (close : jsstring) : Prop :=
  match last ancestors with
  | Some p => exists rest, close = js "</" ++ tag p ++ js ">" ++ rest
  | None => close = []
  end.

(** The document of scenario 1, <div id=[dq]a[dq]>hello</div>. *)
Definition scenarioOne : list PlainNode :=
  [ PElement (js "div")
      [mkPlainAttribute (js " ") (js "id") [] [] 34 (js "a")] []
      [PText (js "hello")] ].

(** The document <div id=[dq]a[dq]> <b>x</b></div><br/>text: an element
    with an attribute and, inside it, a whitespace-only text and an
    element; an element that closes itself; a text. *)
Definition plainDocument : list PlainNode :=
  [ PElement (js "div")
      [mkPlainAttribute (js " ") (js "id") [] [] 34 (js "a")] []
      [PText (js " "); PElement (js "b") [] [] [PText (js "x")]];
    PSelfClosing (js "br") [] [];
    PText (js "text") ].

(** The attributes of the start tag of scenario 7. *)
Definition divTwiceAttributes : list PlainAttribute :=
  [ mkPlainAttribute (js " ") (js "a") [] [] 34 (js "1");
    mkPlainAttribute (js " ") (js "a") [] [] 34 (js "2") ].
(** * Properties *)

(** ** Scenarios *)

(** C6: parsing [{{ foo }}] with the default delimiters gives one
    INTERPOLATION child whose expression has content [foo], is not static
    and spans the offsets 3 to 6, and no diagnostic. *)
Theorem parse_interpolation_foo :
  forall toLowerCase DEV,
  exists root i,
    parse toLowerCase DEV 10 (js "{{ foo }}") noOptions = Some (root, [])
    /\ root_children root = [INTERPOLATION i]
    /\ exp_content (interp_content i) = js "foo"
    /\ exp_isStatic (interp_content i) = false
    /\ offset (loc_start (exp_loc (interp_content i))) = 3
    /\ offset (loc_end (exp_loc (interp_content i))) = 6
    /\ loc_source (exp_loc (interp_content i)) = js "foo".
Proof.
  intros toLowerCase DEV. destruct DEV.
  all: do 2 eexists; split; [vm_compute; reflexivity|];
       repeat (split; try reflexivity).
Qed.

(** C5: parsing [<MyComp :prop="x" @click.stop="f" v-if="ok"/>] gives one
    root child, a self-closing COMPONENT element [MyComp] with exactly
    three DIRECTIVE props, in order bind (arg prop, exp x), on (arg click,
    modifier stop, exp f) and if (exp ok), no exp being static. *)
Theorem parse_component_directives :
  forall toLowerCase DEV,
  exists root e d1 d2 d3,
    parse toLowerCase DEV 50 myComp noOptions = Some (root, [])
    /\ root_children root = [ELEMENT e]
    /\ tag e = js "MyComp" /\ tagType e = ET_COMPONENT
    /\ isSelfClosing e = true
    /\ props e = [DIRECTIVE d1; DIRECTIVE d2; DIRECTIVE d3]
    /\ (dir_name d1 = js "bind" /\ arg_content d1 = Some (js "prop")
        /\ dir_exp_content d1 = Some (js "x")
        /\ dir_exp_isStatic d1 = Some false)
    /\ (dir_name d2 = js "on" /\ arg_content d2 = Some (js "click")
        /\ dir_modifiers d2 = [js "stop"]
        /\ dir_exp_content d2 = Some (js "f")
        /\ dir_exp_isStatic d2 = Some false)
    /\ (dir_name d3 = js "if" /\ dir_exp_content d3 = Some (js "ok")
        /\ dir_exp_isStatic d3 = Some false).
Proof.
  intros toLowerCase DEV. destruct DEV.
  all: do 5 eexists; split; [vm_compute; reflexivity|];
       repeat (split; try reflexivity).
Qed.
(** ** Positions *)

Lemma walk_noLineFeed (n : nat) :
  forall s l c,
    noLineFeed (firstn n s) = true ->
    walk n s l c = (l, c + Z.of_nat n).
Proof.
  induction n as [|n IH]; intros s l c H.
  - cbn. f_equal. lia.
  - destruct s as [|ch s]; cbn [walk].
    + rewrite IH by (destruct n; reflexivity). f_equal. lia.
    + cbn in H. apply andb_prop in H as [Hc H].
      apply negb_true_iff in Hc. rewrite Hc.
      rewrite IH by exact H. f_equal. lia.
Qed.

Lemma noLineFeed_firstn (k : nat) :
  forall s, noLineFeed s = true -> noLineFeed (firstn k s) = true.
Proof.
  induction k as [|k IH]; intros [|c s] H; try reflexivity.
  cbn in *. apply andb_prop in H as [Hc H]. now rewrite Hc, IH.
Qed.

Lemma firstn_firstn_le {A} (i j : nat) (l : list A) :
  (i <= j)%nat -> firstn i (firstn j l) = firstn i l.
Proof. intros H. rewrite firstn_firstn. f_equal. lia. Qed.

(** Away from line feeds [getNewPosition] does advance [start] over the
    characters that follow it: the positions inside an attribute name,
    which holds no line feed, are the intended ones. *)
Lemma getNewPosition_noLineFeed context start n :
  0 <= n -> 0 <= offset start ->
  noLineFeed (slice (originalSource context) (offset start)
                    (offset start + n)) = true ->
  getNewPosition context start n
  = advancedOver (originalSource context) start n.
Proof.
  intros Hn Ho H.
  unfold getNewPosition, advancedOver, advancePositionWithClone,
    advancePositionWithMutation.
  destruct (n <? 0) eqn:E; [reflexivity|].
  rewrite (walk_noLineFeed _ (slice _ _ (offset start + n))).
  2:{ apply noLineFeed_firstn. exact H. }
  rewrite walk_noLineFeed; [reflexivity|].
  revert H. unfold slice.
  set (orig := originalSource context).
  set (a := rel_index (len orig) (offset start)).
  set (t := skipn (Z.to_nat a) orig).
  intros H.
  assert (Hle : (Z.to_nat (rel_index (len orig) n - a)
                 <= Z.to_nat (rel_index (len orig) (offset start + n) - a))%nat).
  { unfold rel_index.
    destruct (n <? 0) eqn:E1; [lia|].
    destruct (offset start + n <? 0) eqn:E2; [lia|]. lia. }
  rewrite firstn_firstn.
  rewrite <- (firstn_firstn_le _ _ t
                (Nat.le_trans _ _ _ (Nat.le_min_r _ _) Hle)).
  apply noLineFeed_firstn. exact H.
Qed.

(** The argument [click] of [@click.stop] in scenario 4 is located by
    [getNewPosition] at the offsets 19 to 24 of the source. *)
Lemma directive_argument_span :
  exists root e d1 d2 d3 arg,
    parse asciiToLowerCase true 50 myComp noOptions = Some (root, [])
    /\ root_children root = [ELEMENT e]
    /\ props e = [DIRECTIVE d1; DIRECTIVE d2; DIRECTIVE d3]
    /\ dir_arg d2 = Some arg
    /\ exp_loc arg = {| loc_start := mkPosition 19 1 20;
                         loc_end := mkPosition 24 1 25;
                         loc_source := js "click" |}.
Proof.
  do 6 eexists; split; [vm_compute; reflexivity|];
    repeat (split; try reflexivity).
Qed.

(** Called on its own, [getNewPosition] slices the original source up
    to the index [n] instead of [start.offset + n]: on the source of
    [lineFeedContext], from the position of the line feed (offset 1, line
    1, column 2) and with [n = 1], it returns line 1, column 3, while
    advancing over the line feed gives line 2, column 1.  The parser calls
    it inside an attribute name only, where [getNewPosition_noLineFeed]
    applies. *)
Lemma getNewPosition_misses_line_feed :
  let start := mkPosition 1 1 2 in
  originalSource lineFeedContext = [97; 10; 98]
  /\ getNewPosition lineFeedContext start 1 = mkPosition 2 1 3
  /\ advancedOver (originalSource lineFeedContext) start 1 = mkPosition 2 2 1
  /\ getNewPosition lineFeedContext start 1
     <> advancedOver (originalSource lineFeedContext) start 1.
Proof.
  cbv zeta. repeat split; try reflexivity.
  vm_compute. discriminate.
Qed.

(** C1: the argument of a directive is located by [getNewPosition] from
    the length of the text before the first occurrence of the argument in
    the attribute name, not from the place of the argument.  In
    <a v-bind:v=[dq]x[dq]/> the name [v-bind:v] stands at the offsets 3 to
    11 and its argument [v] at 10 to 11, while the span given to the
    argument is 3 to 4, the [v] of [v-bind]. *)
Theorem directive_argument_span_misplaced :
  forall toLowerCase DEV,
  exists root e d arg,
    parse toLowerCase DEV 50 bindV noOptions = Some (root, [])
    /\ root_children root = [ELEMENT e]
    /\ props e = [DIRECTIVE d]
    /\ dir_name d = js "bind"
    /\ dir_arg d = Some arg
    /\ exp_content arg = js "v"
    /\ slice bindV 3 11 = js "v-bind:v"
    /\ slice bindV 3 10 = js "v-bind:"
    /\ slice bindV 10 11 = js "v"
    /\ exp_loc arg = {| loc_start := mkPosition 3 1 4;
                         loc_end := mkPosition 4 1 5;
                         loc_source := js "v" |}
    /\ offset (loc_start (exp_loc arg)) <> 10.
Proof.
  intros toLowerCase DEV. destruct DEV.
  all: do 4 eexists; split; [vm_compute; reflexivity|];
       repeat (split; try reflexivity); discriminate.
Qed.

(** ** Diagnostics *)

(** C10: a diagnostic built by [emitError] has its start equal to its end
    and an empty source; given a nonzero offset [k] it reports the cursor
    with [k] added to offset and column and the line unchanged, also when
    the [k] characters skipped hold a line feed: on the source of
    [lineFeedContext], with [k = 2], it reports line 1, column 3 at offset
    2, where the cursor advanced over the two characters is at line 2,
    column 1. *)
Theorem emitError_location :
  (forall context code k,
     exists e,
       reported (emitError context code k) = reported context ++ [e]
       /\ err_code e = code
       /\ loc_start (err_loc e) = loc_end (err_loc e)
       /\ loc_source (err_loc e) = [])
  /\ (forall context code k,
        k <> 0 ->
        exists e,
          reported (emitError context code (Some k)) = reported context ++ [e]
          /\ loc_start (err_loc e)
             = mkPosition (offset (cursor context) + k)
                          (line (cursor context))
                          (column (cursor context) + k))
  /\ (exists e,
        reported (emitError lineFeedContext EOF_BEFORE_TAG_NAME (Some 2)) = [e]
        /\ loc_start (err_loc e) = mkPosition 2 1 3
        /\ advancePositionWithClone (cursor lineFeedContext)
             (source lineFeedContext) 2 = mkPosition 2 2 1).
Proof.
  split; [|split].
  - intros context code k. eexists. repeat split.
  - intros context code k Hk. eexists. split; [reflexivity|].
    cbn. apply Z.eqb_neq in Hk. now rewrite Hk.
  - eexists. repeat split.
Qed.

Lemma emitError_location_witness :
  exists e,
    reported (emitError lineFeedContext DUPLICATE_ATTRIBUTE (Some 1)) =
      reported lineFeedContext ++ [e]
    /\ loc_start (err_loc e)
       = mkPosition (offset (cursor lineFeedContext) + 1)
                    (line (cursor lineFeedContext))
                    (column (cursor lineFeedContext) + 1).
Proof.
  apply (proj1 (proj2 emitError_location)). lia.
Defined.

(** ** Proof automation *)

(** Case analysis on the scrutinee of a match in the hypothesis [H], which
    states that a run of the parser returned something. *)
Ltac break_in H :=
  match type of H with
  | context [match ?x with _ => _ end] =>
      let E := fresh "E" in destruct x eqn:E
  | context [if ?x then _ else _] =>
      let E := fresh "E" in destruct x eqn:E
  end.

Ltac some_inv H :=
  first [ discriminate H
        | injection H as H; subst ].

Ltac break_all H :=
  repeat (first [ discriminate H | break_in H ]).

(** Case analysis on an innermost scrutinee: one that does not itself
    contain a match. *)
Ltac break_inner_in H :=
  match type of H with
  | context [match ?x with _ => _ end] =>
      lazymatch x with
      | context [match _ with _ => _ end] => fail
      | _ => let E := fresh "E" in destruct x eqn:E
      end
  end.

Ltac break_inner :=
  match goal with
  | |- context [match ?x with _ => _ end] =>
      lazymatch x with
      | context [match _ with _ => _ end] => fail
      | _ => let E := fresh "E" in destruct x eqn:E
      end
  end.

(** Replaces the ASCII literals of the goal and of the hypotheses by
    their code units. *)
Ltac eval_js :=
  repeat match goal with
         | |- context [js ?s] =>
             let v := eval vm_compute in (js s) in change (js s) with v
         | H : context [js ?s] |- _ =>
             let v := eval vm_compute in (js s) in change (js s) with v in H
         end.

Lemma startsWith_nil s : startsWith s [] = true.
Proof. now destruct s. Qed.

Lemma startsWith_1 c t x : startsWith (c :: t) [x] = (x =? c).
Proof. cbn [startsWith]. now rewrite startsWith_nil, andb_true_r. Qed.

(** The scrutinee at the head of a term: the one a run evaluates first. *)
Ltac head_scrut x :=
  lazymatch x with
  | match ?y with _ => _ end => head_scrut y
  | _ => x
  end.

(** Applies [tac] to the head scrutinee of the left-hand side of [H]. *)
Ltac step_in H tac :=
  lazymatch type of H with
  | match ?y with _ => _ end = _ => let x := head_scrut y in tac x
  end.

Ltac step_goal tac :=
  lazymatch goal with
  | |- exists _, match ?y with _ => _ end = _ =>
      let x := head_scrut y in tac x
  | |- exists _ _, match ?y with _ => _ end = _ =>
      let x := head_scrut y in tac x
  end.

(** Evaluates the comparisons between numerals, leaving those on a
    variable as they are. *)
Ltac eval_eqb :=
  repeat match goal with
         | |- context [Z.eqb (Z.pos ?p) (Z.pos ?q)] =>
             let v := eval vm_compute in (Z.eqb (Z.pos p) (Z.pos q)) in
             change (Z.eqb (Z.pos p) (Z.pos q)) with v
         end.

(** ** Merging of TEXT siblings *)

Lemma last_snoc {A} (l : list A) (x : A) : last (l ++ [x]) = Some x.
Proof. unfold last. now rewrite rev_unit. Qed.

Lemma last_nil {A} : @last A [] = None.
Proof. reflexivity. Qed.

Lemma noTouching_snoc (l : list TemplateChildNode) :
  forall a b,
    noTouching (l ++ [a]) = true ->
    touching a b = false ->
    noTouching ((l ++ [a]) ++ [b]) = true.
Proof.
  induction l as [|x l IH]; intros a b H Hab.
  - cbn [app noTouching]. now rewrite Hab.
  - destruct l as [|y l]; cbn [app noTouching] in *.
    + apply andb_prop in H as [H1 _]. now rewrite H1, Hab.
    + apply andb_prop in H as [H1 H2]. rewrite H1. cbn [andb].
      apply (IH a b H2 Hab).
Qed.

Lemma noTouching_replace_last (l : list TemplateChildNode) :
  forall p q,
    noTouching (l ++ [TEXT p]) = true ->
    loc_start (text_loc q) = loc_start (text_loc p) ->
    noTouching (l ++ [TEXT q]) = true.
Proof.
  induction l as [|x l IH]; intros p q H Hs; [reflexivity|].
  destruct l as [|y l]; cbn [app noTouching] in *.
  - apply andb_prop in H as [H1 _]. rewrite andb_true_r in *.
    destruct x; cbn in *; try reflexivity.
    rewrite Hs. exact H1.
  - apply andb_prop in H as [H1 H2]. rewrite H1. cbn [andb].
    apply (IH p q H2 Hs).
Qed.

Lemma forallb_snoc {A} (f : A -> bool) l x :
  forallb f (l ++ [x]) = forallb f l && f x.
Proof. rewrite forallb_app. cbn. now rewrite andb_true_r. Qed.

Lemma rev_eq_cons {A} (l : list A) x r :
  rev l = x :: r -> l = rev r ++ [x].
Proof.
  intros H. rewrite <- (rev_involutive l), H. reflexivity.
Qed.

(** What [pushNode] does with a node it keeps. *)
Lemma pushNode_kept DEV context nodes node :
  dropped DEV context node = false ->
  pushNode DEV context nodes node =
    match rev nodes, node with
    | TEXT prev :: before, TEXT t =>
        if touching (TEXT prev) (TEXT t)
        then rev before ++ [TEXT (mergeText prev t)]
        else nodes ++ [node]
    | _, _ => nodes ++ [node]
    end.
Proof.
  unfold dropped, pushNode. intros H.
  apply orb_false_elim in H as [H1 H2]. rewrite H1, H2.
  destruct (rev nodes) as [|[| prev | |] before]; try reflexivity.
  destruct node as [| t | |]; try reflexivity.
  cbn [touching]. destruct (_ =? _); [|reflexivity].
  unfold mergeText. do 3 f_equal.
  now destruct (trim _).
Qed.

Lemma pushNode_dropped DEV context nodes node :
  dropped DEV context node = true ->
  pushNode DEV context nodes node = nodes.
Proof.
  unfold dropped, pushNode. intros H.
  destruct (negb DEV && _); [reflexivity|].
  cbn in H. now rewrite H.
Qed.

Lemma pushNode_wellMerged DEV context nodes node :
  wellMerged nodes = true -> merged node = true ->
  wellMerged (pushNode DEV context nodes node) = true.
Proof.
  intros Hn Hm.
  destruct (dropped DEV context node) eqn:Hd.
  { now rewrite pushNode_dropped. }
  rewrite pushNode_kept by exact Hd.
  unfold wellMerged in *. apply andb_prop in Hn as [Hn1 Hn2].
  assert (Hpush : forall x, touchesLast nodes x = false -> merged x = true ->
            noTouching (nodes ++ [x]) && forallb merged (nodes ++ [x]) = true).
  { intros x Hx Hmx. rewrite forallb_snoc, Hn2, Hmx, andb_true_r.
    unfold touchesLast, last in Hx.
    destruct (rev nodes) as [|y r] eqn:Er.
    - apply (f_equal (@rev _)) in Er. rewrite rev_involutive in Er.
      subst nodes. reflexivity.
    - apply rev_eq_cons in Er. subst nodes.
      apply noTouching_snoc; assumption. }
  destruct (rev nodes) as [|y r] eqn:Er.
  { apply Hpush; [|exact Hm]. unfold touchesLast, last. now rewrite Er. }
  destruct y as [e | prev | c | i].
  2:{ destruct node as [e | t | c | i].
      2:{ destruct (touching (TEXT prev) (TEXT t)) eqn:Et.
          - apply rev_eq_cons in Er. subst nodes.
            rewrite forallb_snoc in *. apply andb_prop in Hn2 as [Hn2 _].
            rewrite Hn2. cbn [merged andb]. rewrite andb_true_r.
            apply (noTouching_replace_last _ prev); [exact Hn1|reflexivity].
          - apply Hpush; [|exact Hm].
            unfold touchesLast, last. now rewrite Er. }
      all: apply Hpush; [|exact Hm];
        unfold touchesLast, last; now rewrite Er. }
  all: destruct node; apply Hpush; try exact Hm;
    unfold touchesLast, last; now rewrite Er.
Qed.

Lemma fold_pushNode_wellMerged DEV context ns :
  forall nodes,
    wellMerged nodes = true -> forallb merged ns = true ->
    wellMerged (fold_left (pushNode DEV context) ns nodes) = true.
Proof.
  induction ns as [|n ns IH]; intros nodes Hn Hm; [exact Hn|].
  cbn in *. apply andb_prop in Hm as [Hm1 Hm2].
  apply IH; [|exact Hm2]. now apply pushNode_wellMerged.
Qed.

Lemma wellMerged_forallb nodes :
  wellMerged nodes = true -> forallb merged nodes = true.
Proof. unfold wellMerged. intros H. now apply andb_prop in H. Qed.

Lemma parseTag_children fuel context type parent e context' :
  parseTag fuel context type parent = Some (e, context') ->
  children e = [].
Proof.
  unfold parseTag. intros H. break_all H.
  all: injection H as <- _; reflexivity.
Qed.

Section MergedChildren.

Variable toLowerCase : jsstring -> jsstring.
Variable DEV : bool.
Variable parseChildren :
  ParserContext -> TextModes -> list ElementNode ->
  option (list TemplateChildNode * ParserContext).
Hypothesis parseChildren_wellMerged :
  forall context mode ancestors nodes context',
    parseChildren context mode ancestors = Some (nodes, context') ->
    wellMerged nodes = true.

Lemma parseElement_merged fuel context ancestors e context' :
  parseElement toLowerCase parseChildren fuel context ancestors
  = Some (e, context') ->
  merged (ELEMENT e) = true.
Proof.
  unfold parseElement. intros H.
  destruct (parseTag _ _ _ _) as [[el c1]|] eqn:Et; [|discriminate].
  apply parseTag_children in Et.
  destruct (_ || _).
  { injection H as <- _. cbn. now rewrite Et. }
  destruct (parseChildren _ _ _) as [[ch c2]|] eqn:Ec; [|discriminate].
  apply parseChildren_wellMerged in Ec.
  match type of H with
  | match ?x with _ => _ end = _ => destruct x; [|discriminate]
  end.
  injection H as <- _. exact Ec.
Qed.

Lemma parseCDATA_merged context ancestors nodes context' :
  parseCDATA parseChildren context ancestors = Some (nodes, context') ->
  forallb merged nodes = true.
Proof.
  unfold parseCDATA. intros H.
  destruct (parseChildren _ _ _) as [[ns c]|] eqn:Ec; [|discriminate].
  apply parseChildren_wellMerged, wellMerged_forallb in Ec.
  destruct (source c); injection H as <- _; exact Ec.
Qed.

Lemma parseChildren_turn_merged fuel context mode ancestors nodes context' :
  parseChildren_turn toLowerCase parseChildren fuel context mode ancestors
  = Some (Produced nodes, context') ->
  forallb merged nodes = true.
Proof.
  unfold parseChildren_turn. intros H.
  repeat
    (first
       [ discriminate H
       | match type of H with
         | context [parseElement ?a ?b ?c ?d ?e] =>
             let E := fresh "E" in
             destruct (parseElement a b c d e) as [[? ?]|] eqn:E;
             [apply parseElement_merged in E|]
         | context [parseCDATA ?a ?b ?c] =>
             let E := fresh "E" in
             destruct (parseCDATA a b c) as [[? ?]|] eqn:E;
             [apply parseCDATA_merged in E|]
         end
       | break_in H ]).
  all: injection H as <- _; try reflexivity.
  all: cbn [forallb]; try rewrite andb_true_r; assumption.
Qed.

Lemma parseChildren_iteration_wellMerged fuel context mode ancestors nodes
    nodes' context' :
  parseChildren_iteration toLowerCase DEV parseChildren fuel context mode
    ancestors nodes = Some (nodes', context') ->
  wellMerged nodes = true -> wellMerged nodes' = true.
Proof.
  unfold parseChildren_iteration. intros H Hn.
  destruct (parseChildren_turn _ _ _ _ _ _) as [[turn c1]|] eqn:Et;
    [|discriminate].
  destruct turn as [| | ns].
  - now injection H as <- _.
  - destruct (parseText _ _ _) as [[t c2]|]; [|discriminate].
    injection H as <- _. now apply pushNode_wellMerged.
  - injection H as <- _.
    apply fold_pushNode_wellMerged; [exact Hn|].
    eapply parseChildren_turn_merged. exact Et.
Qed.

End MergedChildren.

Lemma parseChildren_loop_wellMerged toLowerCase DEV fuel :
  forall context mode ancestors nodes nodes' context',
    parseChildren_loop toLowerCase DEV fuel context mode ancestors nodes
    = Some (nodes', context') ->
    wellMerged nodes = true ->
    wellMerged nodes' = true.
Proof.
  induction fuel as [|fuel IH]; intros context mode ancestors nodes nodes'
    context' H Hn; cbn [parseChildren_loop] in H.
  - destruct (isEnd _ _ _ _); [|discriminate].
    now injection H as <- _.
  - destruct (isEnd _ _ _ _); [now injection H as <- _|].
    destruct (parseChildren_iteration _ _ _ _ _ _ _ _) as [[ns c1]|] eqn:Ei;
      [|discriminate].
    eapply IH; [exact H|].
    eapply parseChildren_iteration_wellMerged; [|exact Ei|exact Hn].
    intros c m a r c' Hr. eapply IH; [exact Hr|reflexivity].
Qed.

(** C8: in every children list of the AST that [parse] returns, no two
    consecutive children are TEXT nodes with touching spans; and
    [pushNode], for a node it does not drop, merges it into the previous
    sibling exactly when both are TEXT nodes and the previous one ends at
    the offset at which the new one starts: the merged node has the
    contents and the sources concatenated, the end of the new node and
    [isEmpty] recomputed from the trimmed content; otherwise the node is
    pushed. *)
Theorem text_siblings_merged :
  (forall toLowerCase DEV fuel content options root errors,
     parse toLowerCase DEV fuel content options = Some (root, errors) ->
     wellMerged (root_children root) = true)
  /\ (forall DEV context nodes node,
        dropped DEV context node = false ->
        (touchesLast nodes node = true ->
         exists before prev t,
           nodes = before ++ [TEXT prev] /\ node = TEXT t
           /\ pushNode DEV context nodes node
              = before ++ [TEXT (mergeText prev t)])
        /\ (touchesLast nodes node = false ->
            pushNode DEV context nodes node = nodes ++ [node])).
Proof.
  split.
  - intros toLowerCase DEV fuel content options root errors H.
    unfold parse, parseChildren in H.
    destruct (parseChildren_loop _ _ _ _ _ _ _) as [[nodes c]|] eqn:E;
      [|discriminate].
    injection H as <- _. cbn.
    eapply parseChildren_loop_wellMerged; [exact E|reflexivity].
  - intros DEV context nodes node Hd.
    rewrite pushNode_kept by exact Hd.
    unfold touchesLast, last.
    destruct (rev nodes) as [|y r] eqn:Er.
    { split; [discriminate|reflexivity]. }
    apply rev_eq_cons in Er. subst nodes.
    destruct y as [e | prev | c | i]; destruct node as [e' | t | c' | i'];
      try (split; [discriminate|reflexivity]).
    split; intros Ht; rewrite Ht; [|reflexivity].
    now exists (rev r), prev, t.
Qed.

Lemma text_siblings_merged_witness :
  exists root errors,
    parse asciiToLowerCase true 10 (js "a < b") noOptions
    = Some (root, errors)
    /\ wellMerged (root_children root) = true.
Proof.
  destruct (parse asciiToLowerCase true 10 (js "a < b") noOptions)
    as [[root errors]|] eqn:E.
  - exists root, errors. split; [reflexivity|].
    exact (proj1 text_siblings_merged _ _ _ _ _ _ _ E).
  - vm_compute in E. discriminate E.
Defined.

(** ** The context along a run *)

Lemma len_nonneg s : 0 <= len s.
Proof. unfold len. lia. Qed.

Lemma len_app a b : len (a ++ b) = len a + len b.
Proof. unfold len. rewrite length_app. lia. Qed.

Lemma len_cons c s : len (c :: s) = 1 + len s.
Proof. unfold len. cbn [List.length]. lia. Qed.

Lemma slice_from_skipn s n :
  0 <= n -> slice_from s n = skipn (Z.to_nat n) s.
Proof.
  intros Hn. unfold slice_from, rel_index.
  destruct (n <? 0) eqn:E; [lia|].
  destruct (Z.min_spec n (len s)) as [[H ->]|[H ->]]; [reflexivity|].
  unfold len in *. rewrite Nat2Z.id.
  rewrite !skipn_all2; [reflexivity|lia|lia].
Qed.

Lemma length_slice_from s n :
  (List.length (slice_from s n) <= List.length s)%nat.
Proof. unfold slice_from. rewrite length_skipn. lia. Qed.

Lemma slice_0 s n : 0 <= n -> slice s 0 n = firstn (Z.to_nat n) s.
Proof.
  intros Hn. unfold slice, rel_index. cbn [Z.ltb Z.compare].
  destruct (n <? 0) eqn:E; [lia|].
  rewrite (Z.min_l 0) by apply len_nonneg. cbn [Z.to_nat skipn].
  rewrite Z.sub_0_r.
  destruct (Z.min_spec n (len s)) as [[H ->]|[H ->]]; [reflexivity|].
  unfold len in *. rewrite Nat2Z.id.
  rewrite !firstn_all2; [reflexivity|lia|lia].
Qed.

Lemma offset_advance pos s n :
  offset (advancePositionWithMutation pos s n) = offset pos + n.
Proof.
  unfold advancePositionWithMutation.
  destruct (n <? 0); [reflexivity|]. now destruct (walk _ _ _ _).
Qed.

Lemma source_advanceBy c n : source (advanceBy c n) = slice_from (source c) n.
Proof. reflexivity. Qed.

Lemma offset_advanceBy c n :
  offset (cursor (advanceBy c n)) = offset (cursor c) + n.
Proof. unfold advanceBy. cbn. apply offset_advance. Qed.

Lemma advances_refl c : advances c c.
Proof.
  unfold advances. repeat split; try lia.
  - now rewrite Z.sub_diag.
  - exists []. now rewrite app_nil_r.
Qed.

Lemma advances_trans a b c : advances a b -> advances b c -> advances a c.
Proof.
  unfold advances.
  intros (H1 & H2 & H3 & H4 & H5 & n1 & H6) (K1 & K2 & K3 & K4 & K5 & n2 & K6).
  repeat split; try congruence; try lia.
  - rewrite K5, H5, skipn_skipn. f_equal. lia.
  - exists (n1 ++ n2). now rewrite K6, H6, app_assoc.
Qed.

Lemma advances_emitError a c code o :
  advances a c -> advances a (emitError c code o).
Proof.
  intros H. eapply advances_trans; [exact H|].
  unfold advances, emitError, report. cbn. repeat split; try lia.
  - now rewrite Z.sub_diag.
  - eexists. reflexivity.
Qed.

Lemma advances_advanceBy a c n :
  advances a c -> 0 <= n -> advances a (advanceBy c n).
Proof.
  intros H Hn. eapply advances_trans; [exact H|].
  unfold advances. rewrite offset_advanceBy, source_advanceBy.
  cbn. repeat split; try lia.
  - rewrite slice_from_skipn by exact Hn. f_equal. lia.
  - exists []. now rewrite app_nil_r.
Qed.

Lemma advances_advanceSpaces a c :
  advances a c -> advances a (advanceSpaces c).
Proof.
  intros H. unfold advanceSpaces.
  destruct (fst (span isSpace (source c))) eqn:E; [exact H|].
  apply advances_advanceBy; [exact H|apply len_nonneg].
Qed.

Lemma advances_emitErrorsAt code indices :
  forall a c, advances a c -> advances a (emitErrorsAt c code indices).
Proof.
  unfold emitErrorsAt.
  induction indices as [|i l IH]; intros a c H; [exact H|].
  cbn. apply IH. now apply advances_emitError.
Qed.

Lemma advances_length a c :
  advances a c -> (List.length (source c) <= List.length (source a))%nat.
Proof.
  intros (_ & _ & _ & _ & H & _). rewrite H, length_skipn. lia.
Qed.

(** Progress: when the offset has grown and the source was not empty, the
    source has become shorter. *)
Lemma advances_shorter a c :
  advances a c -> offset (cursor a) < offset (cursor c) ->
  source a <> [] ->
  (List.length (source c) < List.length (source a))%nat.
Proof.
  intros (_ & _ & _ & _ & H & _) Ho Hs. rewrite H, length_skipn.
  destruct (source a); [congruence|]. cbn [List.length]. lia.
Qed.

(** *** Searches *)

Lemma find_from_spec p s :
  forall base,
    find_from p s base = -1
    \/ (base <= find_from p s base <= base + len s
        /\ p (skipn (Z.to_nat (find_from p s base - base)) s) = true).
Proof.
  induction s as [|c s IH]; intros base; cbn [find_from].
  - destruct (p []) eqn:E; [right|now left].
    rewrite Z.sub_diag. cbn. split; [lia|exact E].
  - destruct (p (c :: s)) eqn:E.
    + right. rewrite Z.sub_diag. cbn [Z.to_nat skipn].
      split; [rewrite len_cons; pose proof (len_nonneg s); lia|exact E].
    + destruct (IH (base + 1)) as [H|[H1 H2]]; [now left|right].
      rewrite len_cons. split; [lia|].
      replace (Z.to_nat (find_from p s (base + 1) - base))
        with (S (Z.to_nat (find_from p s (base + 1) - (base + 1)))) by lia.
      exact H2.
Qed.

Lemma indexOf_spec s p position :
  indexOf s p position = -1
  \/ (0 <= indexOf s p position <= len s
      /\ Z.min (Z.max position 0) (len s) <= indexOf s p position
      /\ startsWith (skipn (Z.to_nat (indexOf s p position)) s) p = true).
Proof.
  unfold indexOf.
  set (k := Z.min (Z.max position 0) (len s)).
  assert (Hk : 0 <= k <= len s) by (pose proof (len_nonneg s); lia).
  destruct (find_from_spec (fun t => startsWith t p)
              (skipn (Z.to_nat k) s) k) as [H|[H1 H2]]; [now left|right].
  assert (Hl : len (skipn (Z.to_nat k) s) = len s - k).
  { unfold len in *. rewrite length_skipn. lia. }
  rewrite Hl in H1. split; [lia|]. split; [lia|].
  rewrite skipn_skipn in H2.
  replace (Z.to_nat (find_from _ _ k - k) + Z.to_nat k)%nat
    with (Z.to_nat (find_from (fun t => startsWith t p)
                      (skipn (Z.to_nat k) s) k)) in H2 by lia.
  exact H2.
Qed.

Lemma startsWith_length s p :
  startsWith s p = true -> (List.length p <= List.length s)%nat.
Proof.
  revert s. induction p as [|c p IH]; intros [|d s] H; cbn in *;
    try lia; try discriminate.
  apply andb_prop in H as [_ H]. apply IH in H. lia.
Qed.

Lemma startsWith_cons s c p :
  startsWith s (c :: p) = true -> exists s', s = c :: s'.
Proof.
  destruct s as [|d s]; cbn; [discriminate|].
  intros H. apply andb_prop in H as [H _]. apply Z.eqb_eq in H.
  subst. now eexists.
Qed.

Lemma execHead_spec s i h :
  execHead s = Some (i, h) ->
  0 <= i /\ h <> [] /\ exists t, skipn (Z.to_nat i) s = 38 :: t.
Proof.
  unfold execHead.
  destruct (find_from_spec (fun t => startsWith t [38]) s 0) as [H|[H1 H2]].
  { rewrite H. discriminate. }
  destruct (_ <? 0) eqn:E; [discriminate|].
  rewrite Z.sub_0_r in H2.
  apply startsWith_cons in H2 as [t Ht]. rewrite Ht.
  intros H.
  assert (Hi : i = find_from (fun t => startsWith t [38]) s 0 /\ h <> []).
  { destruct t as [|x [|y t]];
      repeat (match type of H with
              | context [if ?b then _ else _] => destruct b
              end); injection H as <- <-; (split; [reflexivity|discriminate]). }
  destruct Hi as [-> Hh].
  split; [lia|]. split; [exact Hh|now exists t].
Qed.

Lemma span_app p s : fst (span p s) ++ snd (span p s) = s.
Proof.
  induction s as [|c s IH]; [reflexivity|]. cbn.
  destruct (p c); [|reflexivity].
  destruct (span p s). cbn in *. now rewrite IH.
Qed.

Lemma execNumeric_spec hex s body1 body0 :
  execNumeric hex s = Some (body1, body0) -> 1 <= len body0.
Proof.
  unfold execNumeric. destruct (if hex then _ else _); [|discriminate].
  destruct (span _ _) as [digits rest].
  destruct digits as [|d digits]; [discriminate|].
  intros H. injection H as _ <-.
  rewrite len_app, len_cons.
  match goal with
  | |- 1 <= len ?a + (1 + len ?b) =>
      pose proof (len_nonneg a); pose proof (len_nonneg b)
  end.
  lia.
Qed.

(** *** Text data *)

Lemma len_pos_nonempty (s : jsstring) : s <> [] -> 1 <= len s.
Proof.
  destruct s; [congruence|]. intros _. rewrite len_cons.
  pose proof (len_nonneg s). lia.
Qed.

Lemma cursor_emitError c code o : cursor (emitError c code o) = cursor c.
Proof. reflexivity. Qed.

Lemma checkCodePoint_advances c cp c' cp' :
  checkCodePoint c cp = (c', cp') ->
  advances c c' /\ cursor c' = cursor c.
Proof.
  unfold checkCodePoint. intros H.
  repeat match type of H with
         | context [if ?b then _ else _] => destruct b
         end;
    injection H as <- _;
    (split; [|reflexivity]);
    first [apply advances_refl | apply advances_emitError, advances_refl].
Qed.

Lemma parseReference_advances c mode head0 text :
  head0 <> [] ->
  let c' := snd (parseReference c mode head0 text) in
  advances c c' /\ offset (cursor c) < offset (cursor c').
Proof.
  intros Hh. cbv zeta. unfold parseReference.
  pose proof (len_pos_nonempty _ Hh) as Hl.
  repeat match goal with
         | |- context [if ?b then _ else _] => destruct b
         | |- context [match ?x with _ => _ end] => destruct x eqn:?
         end;
    cbn [snd fst];
    repeat match goal with
           | H : execNumeric _ _ = Some _ |- _ =>
               apply execNumeric_spec in H
           | H : checkCodePoint _ _ = _ |- _ =>
               apply checkCodePoint_advances in H as [? ?]
           end;
    (split;
     [ repeat first [ apply advances_emitError
                    | apply advances_advanceBy
                    | apply advances_refl
                    | assumption ]
     | unfold emitError, report; cbn [cursor];
       rewrite ?offset_advanceBy; cbn [cursor] ]);
    try match goal with
        | |- context [len ?n] => pose proof (len_nonneg n)
        end;
    try match goal with
        | H : cursor _ = cursor _ |- _ => rewrite H
        end; try lia.
Qed.

Lemma parseTextData_loop_advances fuel :
  forall c end_ mode text r c',
    parseTextData_loop fuel c end_ mode text = Some (r, c') ->
    advances c c' /\ (offset (cursor c) < end_ ->
                      offset (cursor c) < offset (cursor c')).
Proof.
  induction fuel as [|fuel IH]; intros c end_ mode text r c' H;
    cbn [parseTextData_loop] in H;
    destruct (offset (cursor c) <? end_) eqn:Eo;
    try discriminate;
    try (injection H as _ <-; split; [apply advances_refl|lia]).
  assert (Hstop :
    forall t, Some (t, advanceBy c (end_ - offset (cursor c))) = Some (r, c') ->
         advances c c' /\ (offset (cursor c) < end_ ->
                           offset (cursor c) < offset (cursor c'))).
  { intros t Ht. injection Ht as _ <-. split.
    - apply advances_advanceBy; [apply advances_refl|lia].
    - rewrite offset_advanceBy. lia. }
  destruct (execHead (source c)) as [[index head0]|] eqn:Eh;
    [|now apply Hstop in H].
  destruct (end_ <=? offset (cursor c) + index); [now apply Hstop in H|].
  apply execHead_spec in Eh as (Hi & Hh & _).
  pose proof (parseReference_advances (advanceBy c index) mode head0
                (text ++ slice (source c) 0 index) Hh) as [Ha Hp].
  destruct (parseReference _ _ _ _) as [text' c2]. cbn [snd] in *.
  apply IH in H as [H _].
  rewrite offset_advanceBy in Hp.
  assert (Hc : advances c c2).
  { eapply advances_trans; [|exact Ha].
    apply advances_advanceBy; [apply advances_refl|exact Hi]. }
  split; [eapply advances_trans; eassumption|].
  intros _. destruct H as (_ & _ & _ & H & _). lia.
Qed.

Lemma parseTextData_loop_total fuel :
  forall c end_ mode text,
    (List.length (source c) < fuel)%nat ->
    exists r c', parseTextData_loop fuel c end_ mode text = Some (r, c').
Proof.
  induction fuel as [|fuel IH]; intros c end_ mode text Hf; [lia|].
  cbn [parseTextData_loop].
  destruct (offset (cursor c) <? end_); [|now eauto].
  destruct (execHead (source c)) as [[index head0]|] eqn:Eh; [|now eauto].
  destruct (end_ <=? offset (cursor c) + index); [now eauto|].
  apply execHead_spec in Eh as (Hi & Hh & t & Ht).
  pose proof (parseReference_advances (advanceBy c index) mode head0
                (text ++ slice (source c) 0 index) Hh) as [Ha Hp].
  destruct (parseReference _ _ _ _) as [text' c2]. cbn [snd] in *.
  apply IH.
  assert (Hs : source (advanceBy c index) = 38 :: t).
  { rewrite source_advanceBy, slice_from_skipn by exact Hi. exact Ht. }
  apply advances_shorter in Ha; [|exact Hp|rewrite Hs; discriminate].
  pose proof (length_slice_from (source c) index) as Hl.
  rewrite <- source_advanceBy in Hl. lia.
Qed.

Lemma parseTextData_advances fuel c length mode r c' :
  parseTextData fuel c length mode = Some (r, c') ->
  0 <= length ->
  advances c c' /\ (0 < length -> offset (cursor c) < offset (cursor c')).
Proof.
  unfold parseTextData. intros H Hl.
  destruct (negb (isEntityMode mode)).
  - injection H as _ <-. split.
    + apply advances_advanceBy; [apply advances_refl|exact Hl].
    + rewrite offset_advanceBy. lia.
  - apply parseTextData_loop_advances in H as [H1 H2].
    split; [exact H1|]. intros H. apply H2. lia.
Qed.

Lemma parseTextData_total fuel c length mode :
  (List.length (source c) < fuel)%nat ->
  exists r c', parseTextData fuel c length mode = Some (r, c').
Proof.
  unfold parseTextData. intros Hf.
  destruct (negb (isEntityMode mode)); [now eauto|].
  now apply parseTextData_loop_total.
Qed.

(** *** Text nodes *)

Lemma min_candidates lo d l :
  lo <= d -> Forall (fun n => n = -1 \/ lo <= n) l ->
  lo <= fold_right Z.min d (filter (fun n => negb (n =? -1)) l).
Proof.
  intros Hd. induction 1 as [|n l Hn _ IH]; [exact Hd|].
  cbn. destruct (n =? -1) eqn:E; cbn; [exact IH|].
  apply Z.eqb_neq in E. lia.
Qed.

Lemma indexOf_from_1 s p :
  s <> [] -> indexOf s p 1 = -1 \/ 1 <= indexOf s p 1.
Proof.
  intros Hs. apply len_pos_nonempty in Hs.
  destruct (indexOf_spec s p 1) as [H|(_ & H & _)]; [now left|right]. lia.
Qed.

Lemma indexOf_nonneg s p k : indexOf s p k = -1 \/ 0 <= indexOf s p k.
Proof. destruct (indexOf_spec s p k) as [H|(H & _)]; [now left|right; lia]. Qed.

Lemma parseText_advances fuel c mode t c' :
  parseText fuel c mode = Some (t, c') ->
  advances c c' /\ text_loc t = getSelection c' (cursor c) None.
Proof.
  unfold parseText. intros H.
  destruct (parseTextData _ _ _ _) as [[content c1]|] eqn:E; [|discriminate].
  injection H as <- <-.
  split; [|reflexivity].
  apply parseTextData_advances in E as [E _]; [exact E|].
  apply min_candidates; [apply len_nonneg|].
  repeat (apply Forall_cons; [|]); try apply Forall_nil;
    try apply indexOf_nonneg.
  destruct mode; try (now left); apply indexOf_nonneg.
Qed.

Lemma parseText_progress fuel c mode t c' :
  parseText fuel c mode = Some (t, c') ->
  source c <> [] ->
  (mode = CDATA -> startsWith (source c) (js "]]>") = false) ->
  offset (cursor c) < offset (cursor c').
Proof.
  unfold parseText. intros H Hs Hm.
  destruct (parseTextData _ _ _ _) as [[content c1]|] eqn:E; [|discriminate].
  injection H as _ <-.
  assert (He : 1 <= fold_right Z.min (len (source c))
            (filter (fun n => negb (n =? -1))
               [indexOf (source c) (js "<") 1;
                indexOf (source c) (fst (delimiters (options c))) 1;
                match mode with
                | CDATA => indexOf (source c) (js "]]>") 0
                | _ => -1
                end])).
  { apply min_candidates; [now apply len_pos_nonempty|].
    repeat (apply Forall_cons; [|]); try apply Forall_nil;
      try (now apply indexOf_from_1).
    destruct mode; try (now left).
    destruct (indexOf_spec (source c) (js "]]>") 0) as [H|(H1 & _ & H2)];
      [now left|right].
    destruct (Z.eq_dec (indexOf (source c) (js "]]>") 0) 0) as [E0|E0];
      [|lia].
    rewrite E0 in H2. cbn [Z.to_nat skipn] in H2.
    rewrite Hm in H2 by reflexivity. discriminate. }
  apply parseTextData_advances in E as [_ E]; [|lia].
  apply E. lia.
Qed.

Lemma parseText_total fuel c mode :
  (List.length (source c) < fuel)%nat ->
  exists t c', parseText fuel c mode = Some (t, c').
Proof.
  unfold parseText. intros Hf.
  match goal with
  | |- context [parseTextData fuel c ?e mode] =>
      destruct (parseTextData_total fuel c e mode Hf) as (r & c1 & ->)
  end.
  now eauto.
Qed.

(** *** Interpolations *)

Lemma parseInterpolation_advances fuel c mode node c' :
  parseInterpolation fuel c mode = Some (node, c') ->
  startsWith (source c) (fst (delimiters (options c))) = true ->
  advances c c'
  /\ match node with
     | Some i =>
         interp_loc i = getSelection c' (cursor c) None
         /\ (delimiters (options c) <> ([], []) ->
             offset (cursor c) < offset (cursor c'))
     | None => source c' = source c /\ cursor c' = cursor c
     end.
Proof.
  unfold parseInterpolation. intros H Hs.
  destruct (delimiters (options c)) as [open close] eqn:Ed.
  cbn [fst] in Hs.
  destruct (indexOf_spec (source c) close (len open)) as [Hi|(_ & Hi & _)].
  { rewrite Hi in H. cbn in H. injection H as <- <-.
    split; [apply advances_emitError, advances_refl|now split]. }
  destruct (_ =? -1); [injection H as <- <-;
    split; [apply advances_emitError, advances_refl|now split]|].
  destruct (parseTextData _ _ _ _) as [[pre c1]|] eqn:E; [|discriminate].
  injection H as <- <-.
  apply startsWith_length in Hs.
  assert (Hlen : len open <= len (source c)) by (unfold len; lia).
  pose proof (len_nonneg open) as Ho. pose proof (len_nonneg close) as Hc.
  apply parseTextData_advances in E as [E _]; [|lia].
  assert (Ha : advances c c1).
  { eapply advances_trans; [|exact E].
    apply advances_advanceBy; [apply advances_refl|exact Ho]. }
  split; [apply advances_advanceBy; assumption|].
  split; [reflexivity|].
  intros Hne. rewrite offset_advanceBy.
  destruct E as (_ & _ & _ & E & _). rewrite offset_advanceBy in E.
  assert (1 <= len open + len close); [|lia].
  destruct open as [|x open]; [|rewrite len_cons; pose proof (len_nonneg open); lia].
  destruct close as [|y close]; [now elim Hne|].
  rewrite len_cons. pose proof (len_nonneg close).
  change (len []) with 0. lia.
Qed.

Lemma parseInterpolation_total fuel c mode :
  (List.length (source c) < fuel)%nat ->
  exists node c', parseInterpolation fuel c mode = Some (node, c').
Proof.
  unfold parseInterpolation. intros Hf.
  destruct (delimiters (options c)) as [open close].
  destruct (_ =? -1); [now eauto|].
  match goal with
  | |- context [parseTextData fuel ?a ?e mode] =>
      destruct (parseTextData_total fuel a e mode) as (r & c1 & ->)
  end; [|now eauto].
  pose proof (length_slice_from (source c) (len open)).
  rewrite source_advanceBy. lia.
Qed.

(** *** Attributes *)

Lemma parseAttributeValue_advances fuel c v c' :
  parseAttributeValue fuel c = Some (v, c') -> advances c c'.
Proof.
  unfold parseAttributeValue. intros H.
  destruct (match charAt (source c) 0 with Some q => _ | None => false end).
  - set (c1 := advanceBy c 1) in *.
    assert (H1 : advances c c1)
      by (apply advances_advanceBy; [apply advances_refl|lia]).
    destruct (indexOf_nonneg (source c1)
                (match charAt (source c) 0 with Some q => [q] | None => [] end)
                0) as [Hi|Hi].
    + rewrite Hi in H. cbn [Z.eqb] in H.
      destruct (parseTextData _ _ _ _) as [[content c2]|] eqn:E;
        [|discriminate].
      injection H as _ <-.
      apply parseTextData_advances in E as [E _]; [|apply len_nonneg].
      eapply advances_trans; eassumption.
    + destruct (_ =? -1).
      * destruct (parseTextData _ _ _ _) as [[content c2]|] eqn:E;
          [|discriminate].
        injection H as _ <-.
        apply parseTextData_advances in E as [E _]; [|apply len_nonneg].
        eapply advances_trans; eassumption.
      * destruct (parseTextData _ _ _ _) as [[content c2]|] eqn:E;
          [|discriminate].
        injection H as _ <-.
        apply parseTextData_advances in E as [E _]; [|exact Hi].
        apply advances_advanceBy; [|lia].
        eapply advances_trans; eassumption.
  - destruct (execUnquoted (source c)) as [m|];
      [|injection H as _ <-; apply advances_refl].
    destruct (parseTextData _ _ _ _) as [[content c2]|] eqn:E;
      [|discriminate].
    injection H as _ <-.
    apply parseTextData_advances in E as [E _]; [|apply len_nonneg].
    eapply advances_trans; [|exact E].
    apply advances_emitErrorsAt, advances_refl.
Qed.

Lemma source_emitErrorsAt code indices :
  forall c, source (emitErrorsAt c code indices) = source c.
Proof.
  unfold emitErrorsAt. induction indices as [|i l IH]; intros c;
    [reflexivity|].
  cbn. now rewrite IH.
Qed.

Lemma parseAttributeValue_total fuel c :
  (List.length (source c) < fuel)%nat ->
  exists v c', parseAttributeValue fuel c = Some (v, c').
Proof.
  unfold parseAttributeValue. intros Hf.
  pose proof (length_slice_from (source c) 1) as Hl.
  rewrite <- source_advanceBy in Hl.
  destruct (match charAt (source c) 0 with Some q => _ | None => false end).
  - destruct (_ =? -1);
      match goal with
      | |- context [parseTextData fuel ?a ?e ?m] =>
          destruct (parseTextData_total fuel a e m) as (r & c1 & ->)
      end; try lia; now eauto.
  - destruct (execUnquoted (source c)) as [m|]; [|now eauto].
    match goal with
    | |- context [parseTextData fuel ?a ?e ?m] =>
        destruct (parseTextData_total fuel a e m) as (r & c1 & ->)
    end; [|now eauto].
    now rewrite source_emitErrorsAt.
Qed.

Lemma execAttrName_spec s name :
  execAttrName s = Some name ->
  exists ch rest, name = ch :: rest /\ exists t, s = name ++ t.
Proof.
  unfold execAttrName. destruct s as [|c r]; [discriminate|].
  destruct (isTagEnd c); [discriminate|].
  intros H. injection H as <-. do 2 eexists. split; [reflexivity|].
  eexists. cbn. f_equal. symmetry. apply span_app.
Qed.

Lemma length_slice_from_lt s n :
  1 <= n -> s <> [] ->
  (List.length (slice_from s n) < List.length s)%nat.
Proof.
  intros Hn Hs. rewrite slice_from_skipn by lia. rewrite length_skipn.
  destruct s; [congruence|]. cbn [List.length]. lia.
Qed.

Lemma advances_if a (b : bool) c1 c2 :
  advances a c1 -> advances a c2 -> advances a (if b then c1 else c2).
Proof. now destruct b. Qed.

Lemma cursor_emitErrorsAt code indices :
  forall c, cursor (emitErrorsAt c code indices) = cursor c.
Proof.
  unfold emitErrorsAt. induction indices as [|i l IH]; intros c;
    [reflexivity|].
  cbn. now rewrite IH.
Qed.

Lemma cursor_if_emitError (b : bool) c code o :
  cursor (if b then emitError c code o else c) = cursor c.
Proof. now destruct b. Qed.

Lemma source_if_emitError (b : bool) c code o :
  source (if b then emitError c code o else c) = source c.
Proof. now destruct b. Qed.

(** Solves [advances a (f (g (... a)))] for a chain of cursor steps. *)
Ltac advances_chain :=
  repeat first
    [ apply advances_refl
    | assumption
    | apply advances_emitError
    | apply advances_emitErrorsAt
    | apply advances_advanceSpaces
    | apply advances_if
    | apply advances_advanceBy;
      [|try first
          [ apply len_nonneg
          | lia
          | match goal with
            | |- 0 <= (if ?b then _ else _) => destruct b; lia
            end ]] ].

Lemma parseAttribute_advances fuel c nameSet p nameSet' c' :
  parseAttribute fuel c nameSet = Some (p, nameSet', c') ->
  advances c c' /\ offset (cursor c) < offset (cursor c').
Proof.
  unfold parseAttribute. intros H.
  destruct (execAttrName (source c)) as [name|] eqn:En; [|discriminate].
  apply execAttrName_spec in En as (ch & rest & Hname & _).
  assert (Hn : 1 <= len name)
    by (subst name; rewrite len_cons; pose proof (len_nonneg rest); lia).
  match type of H with
  | context [advanceBy ?a (len name)] => set (c1 := advanceBy a (len name)) in *
  end.
  assert (H1 : advances c c1) by (unfold c1; advances_chain).
  assert (H2 : offset (cursor c) < offset (cursor c1)).
  { unfold c1. rewrite offset_advanceBy, cursor_emitErrorsAt,
      !cursor_if_emitError. lia. }
  clearbody c1.
  match type of H with
  | match ?v with _ => _ end = _ =>
      destruct v as [[value c2]|] eqn:Ev; [|discriminate]
  end.
  assert (H3 : advances c1 c2).
  { destruct (testSpacesEquals (source c1)).
    - destruct (parseAttributeValue _ _) as [[v c3]|] eqn:E; [|discriminate].
      apply parseAttributeValue_advances in E.
      assert (advances c1 c3)
        by (eapply advances_trans; [|exact E]; advances_chain).
      destruct v; injection Ev as _ <-; advances_chain.
    - injection Ev as _ <-. apply advances_refl. }
  clear Ev.
  assert (H4 : advances c2 c' /\ cursor c' = cursor c2).
  { repeat break_inner_in H;
      injection H as _ _ <-; (split; [advances_chain|reflexivity]). }
  destruct H4 as [H4 H5].
  split; [eapply advances_trans; [exact H1|];
          eapply advances_trans; eassumption|].
  rewrite H5. destruct H3 as (_ & _ & _ & H3 & _). lia.
Qed.

Lemma advances_bound a c n :
  advances a c -> (List.length (source a) <= n)%nat ->
  (List.length (source c) <= n)%nat.
Proof. intros H Hn. apply advances_length in H. lia. Qed.

Lemma parseAttribute_total fuel c nameSet :
  (List.length (source c) <= fuel)%nat ->
  (exists ch t, source c = ch :: t /\ isTagEnd ch = false) ->
  exists p nameSet' c', parseAttribute fuel c nameSet
                        = Some (p, nameSet', c').
Proof.
  intros Hf (ch & t & Hs & Hch). unfold parseAttribute.
  assert (En : exists name, execAttrName (source c) = Some name).
  { unfold execAttrName. rewrite Hs, Hch. now eexists. }
  destruct En as [name En]. rewrite En.
  apply execAttrName_spec in En as (x & rest & Hname & _).
  assert (Hn : 1 <= len name)
    by (subst name; rewrite len_cons; pose proof (len_nonneg rest); lia).
  match goal with
  | |- context [advanceBy ?a (len name)] => set (c1 := advanceBy a (len name))
  end.
  assert (H1 : (List.length (source c1) < fuel)%nat).
  { unfold c1. rewrite source_advanceBy, source_emitErrorsAt,
      !source_if_emitError.
    pose proof (length_slice_from_lt (source c) (len name) Hn) as Hl.
    rewrite Hs in Hl at 1. specialize (Hl ltac:(discriminate)). lia. }
  clearbody c1.
  destruct (testSpacesEquals (source c1)).
  - match goal with
    | |- context [parseAttributeValue fuel ?a] =>
        destruct (parseAttributeValue_total fuel a) as (v & c3 & ->)
    end.
    + assert (Ha : advances c1 (advanceSpaces (advanceBy (advanceSpaces c1) 1)))
        by advances_chain.
      apply advances_length in Ha. lia.
    + destruct v; repeat break_inner; now eauto.
  - repeat break_inner; now eauto.
Qed.

(** *** Tags *)

Lemma span_snd_head p s :
  match snd (span p s) with
  | ch :: _ => p ch = false
  | [] => True
  end.
Proof.
  induction s as [|c s IH]; [exact I|]. cbn.
  destruct (p c) eqn:E; [|exact E].
  now destruct (span p s).
Qed.

Lemma skipn_length_app {A} (a b : list A) :
  skipn (List.length a) (a ++ b) = b.
Proof. induction a; [reflexivity|assumption]. Qed.

Lemma source_advanceSpaces c :
  source (advanceSpaces c) = snd (span isSpace (source c)).
Proof.
  unfold advanceSpaces.
  pose proof (span_app isSpace (source c)) as H.
  destruct (fst (span isSpace (source c))) as [|x m] eqn:E.
  - exact (eq_sym H).
  - rewrite source_advanceBy, slice_from_skipn by apply len_nonneg.
    unfold len. rewrite Nat2Z.id. rewrite <- H at 1.
    apply skipn_length_app.
Qed.

Lemma advanceSpaces_noLeadingSpace c :
  noLeadingSpace (source (advanceSpaces c)).
Proof. rewrite source_advanceSpaces. apply span_snd_head. Qed.

Lemma parseTag_loop_advances fuel :
  forall c type nameSet props props' c',
    parseTag_loop fuel c type nameSet props = Some (props', c') ->
    advances c c'.
Proof.
  induction fuel as [|fuel IH]; intros c type nameSet props props' c' H;
    cbn [parseTag_loop] in H;
    destruct (negb _ && negb _ && negb _);
    try discriminate;
    try (injection H as _ <-; apply advances_refl).
  destruct (startsWith (source c) (js "/")).
  - apply IH in H. eapply advances_trans; [|exact H]. advances_chain.
  - destruct (parseAttribute _ _ _) as [[[attr ns'] c1]|] eqn:Ea;
      [|discriminate].
    apply parseAttribute_advances in Ea as [Ea _].
    apply IH in H. eapply advances_trans; [|exact H].
    assert (advances c c1).
    { eapply advances_trans; [|exact Ea]. destruct type; advances_chain. }
    destruct (source c1) as [|x t]; [advances_chain|].
    destruct (negb (isTagEnd x)); advances_chain.
Qed.

Lemma parseTag_loop_total fuel :
  forall c type nameSet props,
    (List.length (source c) < fuel)%nat ->
    noLeadingSpace (source c) ->
    exists props' c',
      parseTag_loop fuel c type nameSet props = Some (props', c').
Proof.
  induction fuel as [|fuel IH]; intros c type nameSet props Hf Hs; [lia|].
  cbn [parseTag_loop].
  destruct (negb _ && negb _ && negb _) eqn:Ec; [|now eauto].
  apply andb_prop in Ec as [Ec E3]. apply andb_prop in Ec as [E1 E2].
  destruct (source c) as [|ch t] eqn:Es; [discriminate|].
  destruct (startsWith (ch :: t) (js "/")) eqn:E4.
  - apply IH; [|apply advanceSpaces_noLeadingSpace].
    assert (Ha : advances (advanceBy (emitError c UNEXPECTED_SOLIDUS_IN_TAG None) 1)
              (advanceSpaces
                 (advanceBy (emitError c UNEXPECTED_SOLIDUS_IN_TAG None) 1)))
      by advances_chain.
    apply advances_length in Ha.
    pose proof (length_slice_from_lt (source c) 1) as Hl.
    rewrite Es in Hl at 1. specialize (Hl ltac:(lia) ltac:(discriminate)).
    rewrite source_advanceBy in Ha. cbn [source emitError report] in Ha.
    rewrite Es in *. cbn [List.length] in *. lia.
  - set (c0 := match type with
               | TagEnd => emitError c END_TAG_WITH_ATTRIBUTES None
               | TagStart => c
               end).
    assert (Hc0 : source c0 = ch :: t) by (unfold c0; now destruct type).
    destruct (parseAttribute_total fuel c0 nameSet) as (p & ns' & c1 & Ea).
    { rewrite Hc0. cbn [List.length] in *. lia. }
    { exists ch, t. split; [exact Hc0|].
      eval_js. rewrite startsWith_1 in E2, E4.
      cbn in Hs. unfold isTagEnd. rewrite Hs.
      apply negb_true_iff in E2. rewrite Z.eqb_sym in E2, E4.
      now rewrite E2, E4. }
    rewrite Ea.
    apply parseAttribute_advances in Ea as [Ea Ep].
    apply advances_shorter in Ea; [|exact Ep|rewrite Hc0; discriminate].
    apply IH; [|apply advanceSpaces_noLeadingSpace].
    match goal with
    | |- (List.length (source (advanceSpaces ?x)) < _)%nat =>
        assert (Ha : advances c1 (advanceSpaces x))
    end.
    { destruct (source c1) as [|x t']; [advances_chain|].
      destruct (negb (isTagEnd x)); advances_chain. }
    apply advances_length in Ha. rewrite Hc0 in Ea.
    cbn [List.length] in *. lia.
Qed.

Lemma execTagOpen_spec s match0 tag :
  execTagOpen s = Some (match0, tag) -> 1 <= len match0.
Proof.
  unfold execTagOpen. destruct (startsWith s (js "<")); [|discriminate].
  destruct (skipn _ s) as [|c r]; [discriminate|].
  destruct (isAlpha c); [|discriminate].
  intros H. injection H as <- _. eval_js. cbn [app]. rewrite len_cons.
  match goal with |- 1 <= 1 + len ?a => pose proof (len_nonneg a) end. lia.
Qed.

Lemma parseTag_advances fuel c type parent e c' :
  parseTag fuel c type parent = Some (e, c') ->
  advances c c' /\ offset (cursor c) < offset (cursor c')
  /\ loc e = getSelection c' (cursor c) None.
Proof.
  unfold parseTag. intros H.
  destruct (execTagOpen (source c)) as [[match0 tg]|] eqn:Et; [|discriminate].
  apply execTagOpen_spec in Et.
  destruct (parseTag_loop _ _ _ _ _) as [[props' c1]|] eqn:El; [|discriminate].
  apply parseTag_loop_advances in El.
  assert (Ha : advances c c1).
  { eapply advances_trans; [|exact El]. advances_chain. }
  assert (Hp : offset (cursor c) < offset (cursor c1)).
  { destruct El as (_ & _ & _ & El & _).
    assert (Hs : advances (advanceBy c (len match0))
                   (advanceSpaces (advanceBy c (len match0))))
      by advances_chain.
    destruct Hs as (_ & _ & _ & Hs & _).
    rewrite offset_advanceBy in Hs. lia. }
  destruct (source c1) as [|x t] eqn:Es.
  - injection H as <- <-. split; [advances_chain|]. split; [exact Hp|].
    reflexivity.
  - injection H as <- <-.
    split; [destruct type; advances_chain|].
    split; [|reflexivity].
    rewrite offset_advanceBy.
    destruct type;
      repeat match goal with
             | |- context [if ?b then _ else _] => destruct b
             end; cbn [cursor emitError report]; lia.
Qed.

Lemma parseTag_total fuel c type parent :
  (List.length (source c) <= fuel)%nat ->
  execTagOpen (source c) <> None ->
  exists e c', parseTag fuel c type parent = Some (e, c').
Proof.
  unfold parseTag. intros Hf Ht.
  destruct (execTagOpen (source c)) as [[match0 tg]|] eqn:Et; [|congruence].
  pose proof (execTagOpen_spec _ _ _ Et) as Hm.
  destruct (parseTag_loop_total fuel
              (advanceSpaces (advanceBy c (len match0))) type [] [])
    as (props' & c1 & ->).
  - assert (Hs : advances (advanceBy c (len match0))
                   (advanceSpaces (advanceBy c (len match0))))
      by advances_chain.
    apply advances_length in Hs. rewrite source_advanceBy in Hs.
    pose proof (length_slice_from_lt (source c) (len match0) Hm) as Hl.
    unfold execTagOpen in Et.
    destruct (source c); [discriminate|].
    specialize (Hl ltac:(discriminate)). lia.
  - apply advanceSpaces_noLeadingSpace.
  - destruct (source c1); now eauto.
Qed.

(** *** Comments *)

Lemma indexOf_found s p position :
  indexOf s p position <> -1 -> 0 <= position ->
  0 <= indexOf s p position
  /\ indexOf s p position + len p <= len s
  /\ (len p <> 0 -> position <= indexOf s p position).
Proof.
  intros Hi Hp.
  destruct (indexOf_spec s p position) as [H|(H1 & H2 & H3)]; [congruence|].
  apply startsWith_length in H3. rewrite length_skipn in H3.
  split; [lia|]. split; [unfold len in *; lia|].
  intros Hl. unfold len in *. lia.
Qed.

Lemma parseComment_loop_advances fuel :
  forall c s prevIndex r c',
    parseComment_loop fuel c s prevIndex = Some (r, c') ->
    0 <= prevIndex ->
    advances c c' /\ prevIndex <= r <= Z.max prevIndex (len s - 3)
    /\ offset (cursor c') - offset (cursor c) = r - prevIndex.
Proof.
  induction fuel as [|fuel IH]; intros c s prevIndex r c' H Hp;
    cbn [parseComment_loop] in H;
    destruct (indexOf s (js "<!--") prevIndex =? -1) eqn:E;
    try discriminate;
    try (injection H as <- <-; split; [apply advances_refl|lia]).
  apply Z.eqb_neq in E.
  apply indexOf_found in E as (E1 & E2 & E3); [|exact Hp].
  change (len (js "<!--")) with 4 in *. specialize (E3 ltac:(lia)).
  set (i := indexOf s (js "<!--") prevIndex) in *.
  apply IH in H as (H1 & H2 & H3); [|lia].
  assert (Ho : offset (cursor
             (if i + 4 <? len s
              then emitError (advanceBy c (i - prevIndex + 1))
                     NESTED_COMMENT None
              else advanceBy c (i - prevIndex + 1)))
           = offset (cursor c) + (i - prevIndex + 1)).
  { destruct (_ <? len s); cbn [cursor emitError report];
      apply offset_advanceBy. }
  split.
  - eapply advances_trans; [|exact H1].
    destruct (_ <? len s); advances_chain.
  - split; [lia|]. rewrite Ho in H3. lia.
Qed.

Lemma parseComment_loop_total fuel :
  forall c s prevIndex,
    0 <= prevIndex -> len s - prevIndex < Z.of_nat fuel ->
    exists r c', parseComment_loop fuel c s prevIndex = Some (r, c').
Proof.
  induction fuel as [|fuel IH]; intros c s prevIndex Hp Hf;
    cbn [parseComment_loop];
    destruct (indexOf s (js "<!--") prevIndex =? -1) eqn:E;
    try (now eauto);
    apply Z.eqb_neq in E;
    (apply indexOf_found in E as (E1 & E2 & E3); [|exact Hp]);
    change (len (js "<!--")) with 4 in *; specialize (E3 ltac:(lia)).
  - lia.
  - apply IH; lia.
Qed.

Lemma len_slice_0 s n : 0 <= n -> len (slice s 0 n) <= n.
Proof.
  intros Hn. rewrite slice_0 by exact Hn. unfold len.
  rewrite length_firstn. lia.
Qed.

Lemma len_slice_0_le s n : len (slice s 0 n) <= len s.
Proof.
  unfold slice, len. rewrite length_firstn, length_skipn. lia.
Qed.

Lemma execCommentEnd_spec s index bang matchLength :
  execCommentEnd s = Some (index, bang, matchLength) ->
  0 <= index /\ 3 <= matchLength.
Proof.
  unfold execCommentEnd.
  destruct (find_from_spec
              (fun t => startsWith t (js "-->") || startsWith t (js "--!>"))
              s 0) as [H|[H _]]; [rewrite H; discriminate|].
  destruct (_ <? 0); [discriminate|].
  destruct (startsWith _ _); intros E; injection E as <- _ <-; lia.
Qed.

Lemma parseComment_advances fuel c node c' :
  parseComment fuel c = Some (node, c') ->
  advances c c'
  /\ (source c <> [] -> offset (cursor c) < offset (cursor c'))
  /\ comment_loc node = getSelection c' (cursor c) None.
Proof.
  unfold parseComment. intros H.
  destruct (execCommentEnd (source c)) as [[[index bang] mlen]|] eqn:Ee.
  - apply execCommentEnd_spec in Ee as [Hi Hm].
    destruct (parseComment_loop _ _ _ _) as [[prevIndex c1]|] eqn:El;
      [|discriminate].
    apply parseComment_loop_advances in El as (L1 & L2 & L3); [|lia].
    injection H as <- <-.
    match type of L2 with
    | context [len (slice ?a 0 index)] =>
        pose proof (len_slice_0 a index Hi) as Hs
    end.
    set (c0 := if bang then _ else _) in *.
    assert (H0 : advances c c0 /\ cursor c0 = cursor c).
    { unfold c0. destruct bang, (index <=? 3);
        (split; [advances_chain|reflexivity]). }
    destruct H0 as [H0 H0'].
    split; [|split; [|reflexivity]].
    + apply advances_advanceBy; [|lia].
      eapply advances_trans; eassumption.
    + intros _. rewrite offset_advanceBy. rewrite H0' in L3. lia.
  - injection H as <- <-.
    split; [advances_chain|]. split; [|reflexivity].
    intros Hs. cbn [cursor emitError report]. rewrite offset_advanceBy.
    apply len_pos_nonempty in Hs. lia.
Qed.

Lemma parseComment_total fuel c :
  (List.length (source c) < fuel)%nat ->
  exists node c', parseComment fuel c = Some (node, c').
Proof.
  unfold parseComment. intros Hf.
  destruct (execCommentEnd (source c)) as [[[index bang] mlen]|];
    [|now eauto].
  match goal with
  | |- context [parseComment_loop fuel ?a ?s 1] =>
      destruct (parseComment_loop_total fuel a s 1) as (r & c1 & ->)
  end; [lia| |now eauto].
  match goal with
  | |- len (slice ?a 0 index) - 1 < _ =>
      pose proof (len_slice_0_le a index) as Hs;
      assert (Ha : List.length a = List.length (source c))
        by (now destruct bang, (index <=? 3))
  end.
  unfold len in *. lia.
Qed.

Lemma parseBogusComment_advances c :
  let '(node, c') := parseBogusComment c in
  advances c c'
  /\ (source c <> [] -> offset (cursor c) < offset (cursor c'))
  /\ comment_loc node = getSelection c' (cursor c) None.
Proof.
  unfold parseBogusComment.
  destruct (indexOf_nonneg (source c) (js ">") 0) as [Hi|Hi].
  - rewrite Hi. cbn [Z.eqb].
    split; [advances_chain|]. split; [|reflexivity].
    intros Hs. rewrite offset_advanceBy.
    apply len_pos_nonempty in Hs. lia.
  - destruct (_ =? -1).
    + split; [advances_chain|]. split; [|reflexivity].
      intros Hs. rewrite offset_advanceBy.
      apply len_pos_nonempty in Hs. lia.
    + split; [advances_chain|]. split; [|reflexivity].
      intros Hs. rewrite offset_advanceBy. lia.
Qed.

(** *** Children *)

Lemma advances_from_emitError c code o p :
  advances (emitError c code o) p -> advances c p.
Proof.
  intros H. eapply advances_trans; [|exact H].
  apply advances_emitError, advances_refl.
Qed.

Section AdvancesChildren.

Variable toLowerCase : jsstring -> jsstring.
Variable parseChildren :
  ParserContext -> TextModes -> list ElementNode ->
  option (list TemplateChildNode * ParserContext).
Hypothesis parseChildren_advances :
  forall c mode ancestors nodes c',
    parseChildren c mode ancestors = Some (nodes, c') -> advances c c'.

Lemma parseCDATA_advances c ancestors nodes c' :
  parseCDATA parseChildren c ancestors = Some (nodes, c') ->
  advances c c' /\ offset (cursor c) < offset (cursor c').
Proof.
  unfold parseCDATA. intros H.
  destruct (parseChildren _ _ _) as [[ns c1]|] eqn:E; [|discriminate].
  apply parseChildren_advances in E.
  assert (Ha : advances c c1)
    by (eapply advances_trans; [|exact E]; advances_chain).
  assert (Hp : offset (cursor c) < offset (cursor c1)).
  { destruct E as (_ & _ & _ & E & _). rewrite offset_advanceBy in E. lia. }
  destruct (source c1); injection H as _ <-.
  - split; [advances_chain|exact Hp].
  - split; [advances_chain|]. rewrite offset_advanceBy. lia.
Qed.

Lemma parseElement_advances fuel c ancestors e c' :
  parseElement toLowerCase parseChildren fuel c ancestors = Some (e, c') ->
  advances c c' /\ offset (cursor c) < offset (cursor c')
  /\ loc e = getSelection c' (cursor c) None.
Proof.
  unfold parseElement. intros H.
  destruct (parseTag _ _ _ _) as [[el c1]|] eqn:Et; [|discriminate].
  apply parseTag_advances in Et as (T1 & T2 & T3).
  destruct (_ || _); [injection H as <- <-; exact (conj T1 (conj T2 T3))|].
  destruct (parseChildren _ _ _) as [[ch c2]|] eqn:Ec; [|discriminate].
  apply parseChildren_advances in Ec.
  assert (Ha : advances c c2) by (eapply advances_trans; eassumption).
  assert (Hp : offset (cursor c) < offset (cursor c2))
    by (destruct Ec as (_ & _ & _ & Ec & _); lia).
  match type of H with
  | match ?x with _ => _ end = _ =>
      destruct x as [c3|] eqn:E3; [|discriminate]
  end.
  injection H as <- <-.
  assert (H3 : advances c2 c3).
  { destruct (startsWithEndTagOpen _ _ _).
    - destruct (parseTag _ _ _ _) as [[el' c4]|] eqn:Et'; [|discriminate].
      apply parseTag_advances in Et' as (T & _). now injection E3 as <-.
    - repeat break_inner_in E3; injection E3 as <-; advances_chain. }
  split; [eapply advances_trans; eassumption|].
  split; [destruct H3 as (_ & _ & _ & H3 & _); lia|].
  cbn [loc]. now rewrite T3.
Qed.

Lemma parseChildren_turn_advances fuel c mode ancestors turn c' :
  parseChildren_turn toLowerCase parseChildren fuel c mode ancestors
  = Some (turn, c') ->
  advances c c'
  /\ match turn with
     | Undefined => source c' = source c /\ cursor c' = cursor c
     | Continue => offset (cursor c) < offset (cursor c')
     | Produced _ =>
         source c <> [] -> delimiters (options c) <> ([], []) ->
         offset (cursor c) < offset (cursor c')
     end.
Proof.
  unfold parseChildren_turn. intros H.
  destruct (startsWith (source c) (fst (delimiters (options c)))) eqn:Ed.
  { destruct (parseInterpolation _ _ _) as [[node c1]|] eqn:Ei;
      [|discriminate].
    apply parseInterpolation_advances in Ei as [I1 I2]; [|exact Ed].
    destruct node; injection H as <- <-; (split; [exact I1|]);
      [intros _; apply I2|exact I2]. }
  clear Ed. cbv beta zeta in H.
  repeat (first [discriminate H | step_in H ltac:(fun x =>
    lazymatch x with
    | parseElement _ _ _ _ _ =>
        let E := fresh "E" in
        destruct x as [[? ?]|] eqn:E;
        [apply parseElement_advances in E as (? & ? & ?)|]
    | parseCDATA _ _ _ =>
        let E := fresh "E" in
        destruct x as [[? ?]|] eqn:E;
        [apply parseCDATA_advances in E as (? & ?)|]
    | parseComment _ _ =>
        let E := fresh "E" in
        destruct x as [[? ?]|] eqn:E;
        [apply parseComment_advances in E as (? & ? & ?)|]
    | parseTag _ _ _ _ =>
        let E := fresh "E" in
        destruct x as [[? ?]|] eqn:E;
        [apply parseTag_advances in E as (? & ? & ?)|]
    | parseBogusComment ?b =>
        let B := fresh "B" in
        pose proof (parseBogusComment_advances b) as B;
        destruct x as [? ?]; destruct B as (? & ? & ?)
    | _ => let E := fresh "E" in destruct x eqn:E
    end)]).
  all: injection H as <- <-.
  all: split;
    [first [eapply advances_from_emitError; eassumption | advances_chain]|].
  all: try (now split).
  all: intros; cbn [source cursor emitError report] in *;
    rewrite ?offset_advanceBy; cbn [source cursor emitError report] in *;
    auto with zarith.
Qed.

Lemma parseChildren_iteration_advances DEV fuel c mode ancestors nodes
    nodes' c' :
  parseChildren_iteration toLowerCase DEV parseChildren fuel c mode
    ancestors nodes = Some (nodes', c') ->
  advances c c'
  /\ (source c <> [] ->
      (mode = CDATA -> startsWith (source c) (js "]]>") = false) ->
      delimiters (options c) <> ([], []) ->
      offset (cursor c) < offset (cursor c')).
Proof.
  unfold parseChildren_iteration. intros H.
  destruct (parseChildren_turn _ _ _ _ _ _) as [[turn c1]|] eqn:Et;
    [|discriminate].
  apply parseChildren_turn_advances in Et as [Ha Ht].
  destruct turn as [| | ns].
  - injection H as _ <-. split; [exact Ha|]. intros _ _ _. exact Ht.
  - destruct Ht as [Ht1 Ht2].
    destruct (parseText _ _ _) as [[t c2]|] eqn:Ex; [|discriminate].
    injection H as _ <-.
    pose proof (parseText_progress _ _ _ _ _ Ex) as Hp.
    apply parseText_advances in Ex as [Ex _].
    split; [eapply advances_trans; eassumption|].
    intros Hs Hc _. rewrite Ht1, Ht2 in Hp. now apply Hp.
  - injection H as _ <-. split; [exact Ha|]. intros Hs _ Hd. now apply Ht.
Qed.

End AdvancesChildren.

Lemma parseChildren_loop_advances toLowerCase DEV fuel :
  forall c mode ancestors nodes nodes' c',
    parseChildren_loop toLowerCase DEV fuel c mode ancestors nodes
    = Some (nodes', c') ->
    advances c c'.
Proof.
  induction fuel as [|fuel IH]; intros c mode ancestors nodes nodes' c' H;
    cbn [parseChildren_loop] in H;
    (destruct (isEnd _ _ _ _);
     [injection H as _ <-; apply advances_refl|]);
    [discriminate|].
  destruct (parseChildren_iteration _ _ _ _ _ _ _ _) as [[ns c1]|] eqn:Ei;
    [|discriminate].
  apply parseChildren_iteration_advances in Ei as [Ha _].
  2:{ intros c0 m a ns0 c0' H0. eapply IH. exact H0. }
  apply IH in H. eapply advances_trans; eassumption.
Qed.

(** *** Termination *)

Lemma parseTag_tag fuel c type parent e c' :
  parseTag fuel c type parent = Some (e, c') -> headAlpha (tag e) = true.
Proof.
  unfold parseTag. intros H.
  destruct (execTagOpen (source c)) as [[match0 tg]|] eqn:Et; [|discriminate].
  assert (Hh : headAlpha tg = true).
  { unfold execTagOpen in Et.
    destruct (startsWith _ _); [|discriminate].
    destruct (skipn _ _) as [|x r]; [discriminate|].
    destruct (isAlpha x) eqn:Ex; [|discriminate].
    injection Et as _ <-. exact Ex. }
  destruct (parseTag_loop _ _ _ _ _) as [[props' c1]|]; [|discriminate].
  destruct (source c1); injection H as <- _; exact Hh.
Qed.

Lemma headAlpha_firstn n s :
  headAlpha (firstn n s) = true -> headAlpha s = true.
Proof. destruct n, s; cbn; congruence. Qed.

Lemma execTagOpen_end s :
  startsWith s (js "</") = true ->
  headAlpha (skipn 2 s) = true ->
  execTagOpen s <> None.
Proof.
  intros H1 H2. unfold execTagOpen.
  destruct s as [|a [|b s]]; try discriminate.
  eval_js. cbn [startsWith] in H1.
  apply andb_prop in H1 as [Ha H1]. apply andb_prop in H1 as [Hb _].
  apply Z.eqb_eq in Ha, Hb. subst a b.
  cbn [startsWith Z.eqb Pos.eqb andb List.length app Nat.add skipn] in *.
  rewrite startsWith_nil. cbn [andb List.length Nat.add skipn].
  destruct s as [|x s]; [discriminate|]. cbn in H2. rewrite H2.
  discriminate.
Qed.

Lemma execTagOpen_start s s1 :
  startsWith s (js "<") = true -> charAt s 1 = Some s1 ->
  isAlpha s1 = true ->
  execTagOpen s <> None.
Proof.
  intros H1 H2 H3. unfold execTagOpen. rewrite H1.
  destruct s as [|a [|b s]]; try discriminate.
  cbn in H2. injection H2 as ->.
  eval_js. cbn [startsWith].
  destruct (60 =? a); cbn [andb].
  2:{ cbn. rewrite H3. discriminate. }
  destruct (47 =? s1) eqn:E.
  - apply Z.eqb_eq in E. subst s1. discriminate.
  - cbn. rewrite H3. discriminate.
Qed.

Lemma startsWithEndTagOpen_execTagOpen toLowerCase s tg :
  lowerKeepsLetters toLowerCase ->
  startsWithEndTagOpen toLowerCase s tg = true ->
  headAlpha tg = true ->
  execTagOpen s <> None.
Proof.
  intros Hl H Ht. unfold startsWithEndTagOpen in H.
  apply andb_prop in H as [H _]. apply andb_prop in H as [H1 H2].
  apply execTagOpen_end; [exact H1|].
  pose proof (Hl _ _ H2 Ht) as H3.
  unfold substr in H3. apply headAlpha_firstn in H3.
  rewrite slice_from_skipn in H3 by lia. exact H3.
Qed.

Section TotalChildren.

Variable toLowerCase : jsstring -> jsstring.
Hypothesis lower : lowerKeepsLetters toLowerCase.
Variable parseChildren :
  ParserContext -> TextModes -> list ElementNode ->
  option (list TemplateChildNode * ParserContext).
Variable bound : nat.
Variable opts : RequiredOptions.
Hypothesis parseChildren_advances :
  forall c mode ancestors nodes c',
    parseChildren c mode ancestors = Some (nodes, c') -> advances c c'.
Hypothesis parseChildren_total :
  forall c mode ancestors,
    options c = opts ->
    (List.length (source c) < bound)%nat ->
    exists nodes c', parseChildren c mode ancestors = Some (nodes, c').

Lemma parseCDATA_total c ancestors :
  options c = opts ->
  (List.length (source c) <= bound)%nat -> source c <> [] ->
  exists nodes c', parseCDATA parseChildren c ancestors = Some (nodes, c').
Proof.
  unfold parseCDATA. intros Ho Hf Hs.
  destruct (parseChildren_total (advanceBy c 9) CDATA ancestors)
    as (ns & c1 & ->).
  - exact Ho.
  - rewrite source_advanceBy.
    pose proof (length_slice_from_lt (source c) 9 ltac:(lia) Hs). lia.
  - destruct (source c1); now eauto.
Qed.

Lemma parseElement_total fuel c ancestors :
  options c = opts ->
  (List.length (source c) <= bound)%nat -> (bound <= fuel)%nat ->
  execTagOpen (source c) <> None ->
  exists e c',
    parseElement toLowerCase parseChildren fuel c ancestors = Some (e, c').
Proof.
  unfold parseElement. intros Ho Hb Hf Ht.
  destruct (parseTag_total fuel c TagStart (last ancestors))
    as (el & c1 & Et); [lia|exact Ht|].
  rewrite Et.
  pose proof (parseTag_tag _ _ _ _ _ _ Et) as Htag.
  apply parseTag_advances in Et as (T1 & T2 & _).
  destruct (_ || _); [now eauto|].
  assert (Ho1 : options c1 = opts)
    by (destruct T1 as (T1 & _); congruence).
  assert (Hs : source c <> [])
    by (unfold execTagOpen in Ht; destruct (source c);
        [now elim Ht|discriminate]).
  apply advances_shorter in T1; [|exact T2|exact Hs].
  destruct (parseChildren_total c1
              (getTextMode (options c1) (tag el) (ns el))
              (ancestors ++ [el])) as (ch & c2 & Ec); [exact Ho1|lia|].
  rewrite Ec. apply parseChildren_advances, advances_length in Ec.
  destruct (startsWithEndTagOpen _ _ _) eqn:Ee.
  - destruct (parseTag_total fuel c2 TagEnd (last ancestors))
      as (el' & c3 & ->); [lia| |now eauto].
    eapply startsWithEndTagOpen_execTagOpen; eassumption.
  - repeat break_inner; now eauto.
Qed.

Lemma charAt_1_startsWith s a b :
  startsWith s [a] = true -> charAt s 1 = Some b ->
  exists t, s = a :: b :: t.
Proof.
  destruct s as [|x [|y t]]; try discriminate.
  rewrite startsWith_1. intros H1 H2. apply Z.eqb_eq in H1.
  cbn in H2. injection H2 as ->. subst. now eexists.
Qed.

Lemma parseChildren_turn_total fuel c mode ancestors :
  options c = opts ->
  (List.length (source c) <= bound)%nat -> (bound < fuel)%nat ->
  source c <> [] ->
  exists turn c',
    parseChildren_turn toLowerCase parseChildren fuel c mode ancestors
    = Some (turn, c').
Proof.
  unfold parseChildren_turn. intros Ho Hb Hf Hs. cbv beta zeta.
  destruct (startsWith (source c) (fst (delimiters (options c)))).
  { destruct (parseInterpolation_total fuel c mode) as (n & c1 & ->);
      [lia|]. destruct n; now eauto. }
  destruct (_ && startsWith (source c) (js "<")) eqn:E0; [|now eauto].
  apply andb_prop in E0 as [_ E0].
  destruct (charAt (source c) 1) as [s1|] eqn:E1; [|now eauto].
  destruct (s1 =? 33).
  { destruct (startsWith (source c) (js "<!--")).
    { destruct (parseComment_total fuel c) as (n & c1 & ->); [lia|].
      now eauto. }
    destruct (startsWith (source c) (js "<!DOCTYPE")).
    { destruct (parseBogusComment c); now eauto. }
    destruct (startsWith (source c) (js "<![CDATA[")).
    - destruct (negb _).
      + destruct (parseCDATA_total c ancestors) as (n & c1 & ->);
          [exact Ho|lia|exact Hs|now eauto].
      + destruct (parseBogusComment _); now eauto.
    - destruct (parseBogusComment _); now eauto. }
  destruct (s1 =? 47) eqn:E2.
  { destruct (charAt (source c) 2) as [s2|] eqn:E3; [|now eauto].
    destruct (s2 =? 62); [now eauto|].
    destruct (isAlpha s2) eqn:E4.
    - destruct (parseTag_total fuel
                  (emitError c X_INVALID_END_TAG None) TagEnd
                  (last ancestors)) as (el & c1 & ->);
        [cbn [source emitError report]; lia| |now eauto].
      cbn [source emitError report].
      apply Z.eqb_eq in E2. subst s1.
      destruct (charAt_1_startsWith _ _ _ E0 E1) as (t & Hsrc).
      rewrite Hsrc in *. apply execTagOpen_end.
      + cbn. now rewrite startsWith_nil.
      + cbn in E3. destruct t; [discriminate|].
        injection E3 as ->. exact E4.
    - destruct (parseBogusComment _); now eauto. }
  destruct (isAlpha s1) eqn:E3.
  { destruct (parseElement_total fuel c ancestors) as (el & c1 & ->);
      [exact Ho|lia|lia| |now eauto].
    eapply execTagOpen_start; eassumption. }
  destruct (s1 =? 63); [|now eauto].
  destruct (parseBogusComment _); now eauto.
Qed.

Lemma parseChildren_iteration_total DEV fuel c mode ancestors nodes :
  options c = opts ->
  (List.length (source c) <= bound)%nat -> (bound < fuel)%nat ->
  source c <> [] ->
  exists nodes' c',
    parseChildren_iteration toLowerCase DEV parseChildren fuel c mode
      ancestors nodes = Some (nodes', c').
Proof.
  unfold parseChildren_iteration. intros Ho Hb Hf Hs.
  destruct (parseChildren_turn_total fuel c mode ancestors Ho Hb Hf Hs)
    as (turn & c1 & Et).
  rewrite Et.
  apply parseChildren_turn_advances in Et as [Ha Ht];
    [|exact parseChildren_advances].
  destruct turn as [| | ns]; try (now eauto).
  destruct Ht as [Ht1 _].
  destruct (parseText_total fuel c1 mode) as (t & c2 & ->);
    [rewrite Ht1; lia|now eauto].
Qed.

End TotalChildren.

Lemma isEnd_false toLowerCase c mode ancestors :
  isEnd toLowerCase c mode ancestors = false ->
  source c <> []
  /\ (mode = CDATA -> startsWith (source c) (js "]]>") = false).
Proof.
  unfold isEnd. intros H.
  match type of H with
  | (if ?b then _ else _) = _ => destruct b eqn:E; [discriminate|]
  end.
  split; [destruct (source c); [discriminate|discriminate]|].
  intros ->. exact E.
Qed.

Lemma parseChildren_loop_total toLowerCase DEV :
  lowerKeepsLetters toLowerCase ->
  forall fuel c mode ancestors nodes,
    delimiters (options c) <> ([], []) ->
    (List.length (source c) < fuel)%nat ->
    exists nodes' c',
      parseChildren_loop toLowerCase DEV fuel c mode ancestors nodes
      = Some (nodes', c').
Proof.
  intros lower fuel.
  induction fuel as [|fuel IH]; intros c mode ancestors nodes Hd Hf; [lia|].
  cbn [parseChildren_loop].
  destruct (isEnd _ _ _ _) eqn:Ee; [now eauto|].
  apply isEnd_false in Ee as [Hs Hc].
  set (pc := fun context mode ancestors =>
               parseChildren_loop toLowerCase DEV fuel context mode
                 ancestors []).
  assert (Hadv : forall c0 m a ns c0',
             pc c0 m a = Some (ns, c0') -> advances c0 c0').
  { intros c0 m a ns c0' H0. eapply parseChildren_loop_advances. exact H0. }
  destruct (parseChildren_iteration_total toLowerCase lower pc fuel
              (options c) Hadv) with (DEV := DEV) (fuel := S fuel) (c := c)
              (mode := mode) (ancestors := ancestors) (nodes := nodes)
    as (ns & c1 & Ei); [|reflexivity|lia|lia|exact Hs|].
  { intros c0 m a Ho Hl. apply IH; [now rewrite Ho|exact Hl]. }
  rewrite Ei.
  apply parseChildren_iteration_advances in Ei as [Ha Hp]; [|exact Hadv].
  specialize (Hp Hs Hc Hd).
  apply IH.
  - destruct Ha as (Ha & _). now rewrite Ha.
  - apply advances_shorter in Ha; [lia|exact Hp|exact Hs].
Qed.

(** ** Termination of the parser *)

Lemma parseChildren_loop_isEnd toLowerCase DEV fuel :
  forall c mode ancestors nodes nodes' c',
    parseChildren_loop toLowerCase DEV fuel c mode ancestors nodes
    = Some (nodes', c') ->
    isEnd toLowerCase c' mode ancestors = true.
Proof.
  induction fuel as [|fuel IH]; intros c mode ancestors nodes nodes' c' H;
    cbn [parseChildren_loop] in H;
    (destruct (isEnd _ c _ _) eqn:E;
     [injection H as _ <-; exact E|]);
    [discriminate|].
  destruct (parseChildren_iteration _ _ _ _ _ _ _ _) as [[ns c1]|];
    [|discriminate].
  eapply IH. exact H.
Qed.

Lemma isEnd_root toLowerCase c :
  isEnd toLowerCase c DATA [] = true -> source c = [].
Proof.
  unfold isEnd. cbn [rev existsb]. rewrite andb_false_r.
  now destruct (source c).
Qed.

Lemma slice_whole s n :
  (List.length s <= Z.to_nat n)%nat -> slice s 0 n = s.
Proof.
  intros H. destruct (Z.ltb_spec n 0) as [Hn|Hn].
  - destruct s; [|cbn in H; lia]. unfold slice. now rewrite firstn_nil.
  - rewrite slice_0 by exact Hn. now apply firstn_all2.
Qed.

(** The diverging run: with both delimiters empty every turn of the loop
    parses an empty interpolation and leaves the context as it was. *)
Lemma empty_interpolation_forever toLowerCase DEV fuel :
  forall nodes,
    parseChildren_loop toLowerCase DEV fuel
      (createParserContext (js "a") emptyDelimiters) DATA [] nodes = None.
Proof.
  induction fuel as [|fuel IH]; intros nodes; [reflexivity|].
  cbn [parseChildren_loop].
  change (isEnd toLowerCase (createParserContext (js "a") emptyDelimiters)
            DATA []) with false.
  cbv iota.
  match goal with
  | |- match ?it with _ => _ end = None =>
      assert (Hi : exists ns,
                it = Some (ns, createParserContext (js "a") emptyDelimiters))
  end.
  { eexists. reflexivity. }
  destruct Hi as [ns ->]. apply IH.
Qed.

Lemma ascii_lowerKeepsLetters : lowerKeepsLetters asciiToLowerCase.
Proof.
  intros [|d s] [|c t] H Ht; try discriminate.
  cbn in *. apply andb_prop in H as [H _]. apply Z.eqb_eq in H.
  revert H Ht. unfold isAlpha, isUpper, isLower. intros H Ht.
  apply orb_prop in Ht.
  repeat match goal with
         | H : context [(?a <=? ?b)] |- _ =>
             destruct (Z.leb_spec a b)
         | |- context [(?a <=? ?b)] => destruct (Z.leb_spec a b)
         end; cbn in *; try reflexivity; try lia;
    destruct Ht; discriminate.
Qed.

(** When the two delimiters are not both empty and the case mapping
    keeps letters apart from the other code units, [parse] returns a root
    for every input, with a fuel of one more than the length of the input,
    and the root spans the whole input; every turn of the loop of
    parseChildren that returns makes the source shorter, and the loop
    returns only in a context where [isEnd] holds. *)
Lemma parse_terminates :
  forall toLowerCase DEV,
    lowerKeepsLetters toLowerCase ->
    (forall content options,
       delimiters (mergeOptions options) <> ([], []) ->
       exists root errors,
         parse toLowerCase DEV (S (List.length content)) content options
         = Some (root, errors)
         /\ loc_source (root_loc root) = content)
    /\ (forall fuel' fuel c mode ancestors nodes nodes' c',
          isEnd toLowerCase c mode ancestors = false ->
          delimiters (options c) <> ([], []) ->
          parseChildren_iteration toLowerCase DEV
            (fun context mode ancestors =>
               parseChildren_loop toLowerCase DEV fuel' context mode
                 ancestors [])
            fuel c mode ancestors nodes = Some (nodes', c') ->
          (List.length (source c') < List.length (source c))%nat)
    /\ (forall fuel c mode ancestors nodes nodes' c',
          parseChildren_loop toLowerCase DEV fuel c mode ancestors nodes
          = Some (nodes', c') ->
          isEnd toLowerCase c' mode ancestors = true).
Proof.
  intros toLowerCase DEV lower. split; [|split].
  - intros content options Hd. unfold parse, parseChildren.
    set (c0 := createParserContext content options).
    destruct (parseChildren_loop_total toLowerCase DEV lower
                (S (List.length content)) c0 DATA [] [])
      as (nodes & c' & E); [exact Hd|cbn; lia|].
    rewrite E. do 2 eexists. split; [reflexivity|].
    cbn [root_loc getSelection orElse loc_source].
    pose proof (parseChildren_loop_isEnd _ _ _ _ _ _ _ _ _ E) as He.
    apply isEnd_root in He.
    apply parseChildren_loop_advances in E as (_ & E2 & _ & E4 & E5 & _).
    rewrite E2. cbn [getCursor cursor c0 createParserContext offset
                     originalSource source] in *.
    apply slice_whole.
    rewrite He, Z.sub_0_r in E5.
    apply (f_equal (@List.length _)) in E5. rewrite length_skipn in E5.
    cbn [List.length] in E5. unfold getCursor. lia.
  - intros fuel' fuel c mode ancestors nodes nodes' c' He Hd H.
    apply isEnd_false in He as [Hs Hc].
    apply parseChildren_iteration_advances in H as [Ha Hp].
    + apply advances_shorter; [exact Ha|now apply Hp|exact Hs].
    + intros c0 m a ns c0' H0. eapply parseChildren_loop_advances. exact H0.
  - intros fuel c mode ancestors nodes nodes' c' H.
    eapply parseChildren_loop_isEnd. exact H.
Qed.

Lemma parse_terminates_witness :
  exists root errors,
    parse asciiToLowerCase true 9 (js "<a>x</a>") noOptions
    = Some (root, errors)
    /\ loc_source (root_loc root) = js "<a>x</a>".
Proof.
  apply (proj1 (parse_terminates asciiToLowerCase true
                  ascii_lowerKeepsLetters) (js "<a>x</a>") noOptions).
  vm_compute. discriminate.
Defined.

(** With both delimiters empty [parse] does not return on the input [a],
    whatever the fuel. *)
Lemma parse_empty_delimiters_diverges :
  ~ exists fuel root errors,
      parse asciiToLowerCase true fuel (js "a") emptyDelimiters
      = Some (root, errors).
Proof.
  intros (fuel & root & errors & H). unfold parse, parseChildren in H.
  rewrite empty_interpolation_forever in H. discriminate.
Qed.

(** ** Duplicate attributes *)

Lemma duplicates_emitError c code o :
  duplicates (emitError c code o)
  = (duplicates c + if ErrorCodes_beq code DUPLICATE_ATTRIBUTE then 1 else 0)%nat.
Proof.
  unfold duplicates, count_code, emitError, report. cbn [reported err_code].
  rewrite filter_app, length_app. cbn [filter err_code].
  now destruct (ErrorCodes_beq code DUPLICATE_ATTRIBUTE).
Qed.

Lemma duplicates_advanceBy c n : duplicates (advanceBy c n) = duplicates c.
Proof. reflexivity. Qed.

Lemma duplicates_advanceSpaces c : duplicates (advanceSpaces c) = duplicates c.
Proof. unfold advanceSpaces. now destruct (fst _). Qed.

Lemma duplicates_emitErrorsAt code indices :
  ErrorCodes_beq code DUPLICATE_ATTRIBUTE = false ->
  forall c, duplicates (emitErrorsAt c code indices) = duplicates c.
Proof.
  intros Hc. unfold emitErrorsAt.
  induction indices as [|i l IH]; intros c; [reflexivity|].
  cbn. rewrite IH, duplicates_emitError, Hc. lia.
Qed.

(** Rewrites the count of duplicates through the cursor steps. *)
Ltac duplicates_steps :=
  repeat first
    [ rewrite duplicates_advanceBy
    | rewrite duplicates_advanceSpaces
    | rewrite duplicates_emitErrorsAt by reflexivity
    | rewrite duplicates_emitError; cbn [ErrorCodes_beq] ].

Lemma duplicates_checkCodePoint c cp c' cp' :
  checkCodePoint c cp = (c', cp') -> duplicates c' = duplicates c.
Proof.
  unfold checkCodePoint. intros H.
  repeat break_inner_in H; injection H as <- _; duplicates_steps; lia.
Qed.

Lemma duplicates_parseReference c mode head0 text :
  duplicates (snd (parseReference c mode head0 text)) = duplicates c.
Proof.
  unfold parseReference.
  repeat break_inner; cbn [snd];
    repeat match goal with
           | H : checkCodePoint _ _ = _ |- _ =>
               apply duplicates_checkCodePoint in H
           end;
    duplicates_steps; lia.
Qed.

Lemma duplicates_parseTextData_loop fuel :
  forall c end_ mode text r c',
    parseTextData_loop fuel c end_ mode text = Some (r, c') ->
    duplicates c' = duplicates c.
Proof.
  induction fuel as [|fuel IH]; intros c end_ mode text r c' H;
    cbn [parseTextData_loop] in H;
    destruct (offset (cursor c) <? end_);
    try discriminate; try (now injection H as _ <-).
  destruct (execHead (source c)) as [[index head0]|];
    [|now injection H as _ <-].
  destruct (end_ <=? _); [now injection H as _ <-|].
  pose proof (duplicates_parseReference (advanceBy c index) mode head0
                (text ++ slice (source c) 0 index)) as Hr.
  destruct (parseReference _ _ _ _) as [text' c2]. cbn [snd] in Hr.
  apply IH in H. rewrite H, Hr. reflexivity.
Qed.

Lemma duplicates_parseTextData fuel c length mode r c' :
  parseTextData fuel c length mode = Some (r, c') ->
  duplicates c' = duplicates c.
Proof.
  unfold parseTextData. intros H.
  destruct (negb _); [now injection H as _ <-|].
  now apply duplicates_parseTextData_loop in H.
Qed.

Lemma duplicates_parseAttributeValue fuel c v c' :
  parseAttributeValue fuel c = Some (v, c') ->
  duplicates c' = duplicates c.
Proof.
  unfold parseAttributeValue. intros H.
  repeat (first [discriminate H | step_in H ltac:(fun x =>
    lazymatch x with
    | parseTextData _ _ _ _ =>
        let E := fresh "E" in
        destruct x as [[? ?]|] eqn:E;
        [apply duplicates_parseTextData in E|]
    | _ => let E := fresh "E" in destruct x eqn:E
    end)]).
  all: injection H as _ <-; duplicates_steps; try congruence.
  all: etransitivity; [eassumption|]; duplicates_steps; reflexivity.
Qed.

Lemma parseAttribute_name fuel c nameSet p nameSet' c' :
  parseAttribute fuel c nameSet = Some (p, nameSet', c') ->
  exists name,
    execAttrName (source c) = Some name
    /\ prop_named name p
    /\ nameSet' = set_add nameSet name
    /\ duplicates c'
       = (duplicates c + if set_has nameSet name then 1 else 0)%nat.
Proof.
  unfold parseAttribute. intros H.
  destruct (execAttrName (source c)) as [name|] eqn:En; [|discriminate].
  exists name. split; [reflexivity|].
  match type of H with
  | context [advanceBy ?a (len name)] => set (c1 := advanceBy a (len name)) in *
  end.
  assert (H1 : duplicates c1
               = (duplicates c + if set_has nameSet name then 1 else 0)%nat).
  { unfold c1. duplicates_steps.
    destruct (startsWith name (js "=")), (set_has nameSet name);
      duplicates_steps; lia. }
  clearbody c1.
  match type of H with
  | match ?v with _ => _ end = _ =>
      destruct v as [[value c2]|] eqn:Ev; [|discriminate]
  end.
  assert (H2 : duplicates c2 = duplicates c1).
  { destruct (testSpacesEquals (source c1)).
    - destruct (parseAttributeValue _ _) as [[v c3]|] eqn:E; [|discriminate].
      apply duplicates_parseAttributeValue in E.
      destruct v; injection Ev as _ <-; duplicates_steps;
        rewrite E; duplicates_steps; lia.
    - now injection Ev as _ <-. }
  clear Ev.
  destruct (testDirectivePrefix name) eqn:Ed.
  - repeat break_inner_in H; injection H as <- <- <-;
      (split; [exact Ed|split; [reflexivity|]]);
      duplicates_steps; lia.
  - injection H as <- <- <-.
    split; [reflexivity|split; [reflexivity|]]. lia.
Qed.

Lemma length_set_add nameSet name :
  List.length (set_add nameSet name)
  = (List.length nameSet + if set_has nameSet name then 0 else 1)%nat.
Proof.
  unfold set_add. destruct (set_has nameSet name); [lia|].
  rewrite length_app. reflexivity.
Qed.

(** ** Numeric character references *)

Lemma land_fffe_small cp :
  0 <= cp -> cp < 0x8000 -> (Z.land cp 0xfffe =? 0xfffe) = false.
Proof.
  intros H0 H1. apply Z.eqb_neq. intros H.
  apply (f_equal (fun z => Z.testbit z 15)) in H.
  rewrite Z.land_spec in H.
  destruct (Z.eq_dec cp 0) as [->|Hn]; [discriminate|].
  rewrite (Z.bits_above_log2 cp 15) in H; [discriminate|lia|].
  apply Z.log2_lt_pow2; lia.
Qed.

Lemma lookupCCR_nonzero cp r :
  lookupCCR CCR_REPLACEMENTS cp = Some r -> (r =? 0) = false.
Proof.
  unfold CCR_REPLACEMENTS. cbn [lookupCCR].
  repeat match goal with
         | |- (if ?b then _ else _) = _ -> _ =>
             destruct b; [intros H; injection H as <-; reflexivity|]
         end.
  discriminate.
Qed.

Lemma count_code_emitError c code code' o :
  count_code code (reported (emitError c code' o))
  = (count_code code (reported c)
     + if ErrorCodes_beq code' code then 1 else 0)%nat.
Proof.
  unfold count_code, emitError, report. cbn [reported err_code].
  rewrite filter_app, length_app. cbn [filter err_code].
  now destruct (ErrorCodes_beq code' code).
Qed.

(** The chain of checks reports CONTROL_CHARACTER_REFERENCE for the code
    points of [isReportedControl] and for no other, and remaps those
    through the table. *)
Lemma checkCodePoint_control c cp :
  0 <= cp ->
  count_code CONTROL_CHARACTER_REFERENCE
    (reported (fst (checkCodePoint c cp)))
  = (count_code CONTROL_CHARACTER_REFERENCE (reported c)
     + if isReportedControl cp then 1 else 0)%nat
  /\ (isReportedControl cp = true ->
      snd (checkCodePoint c cp) = remapped cp
      /\ reported (fst (checkCodePoint c cp))
         = reported c
           ++ [mkError CONTROL_CHARACTER_REFERENCE
                 (mkLoc (cursor c) (cursor c) [])]).
Proof.
  intros H0. unfold checkCodePoint, isReportedControl.
  destruct (cp =? 0) eqn:E0.
  { apply Z.eqb_eq in E0. subst cp. cbn [fst snd].
    rewrite count_code_emitError. cbn. split; [lia|discriminate]. }
  destruct (0x10ffff <? cp) eqn:E1.
  { cbn [fst snd]. rewrite count_code_emitError.
    replace (_ || _ || _ || _) with false; [cbn; split; [lia|discriminate]|].
    symmetry. apply Z.ltb_lt in E1.
    repeat (apply orb_false_intro); try (apply andb_false_intro2);
      try apply Z.leb_gt; try apply Z.eqb_neq; lia. }
  destruct ((0xd800 <=? cp) && (cp <=? 0xdfff)) eqn:E2.
  { cbn [fst snd]. rewrite count_code_emitError.
    apply andb_prop in E2 as [E2 _]. apply Z.leb_le in E2.
    replace (_ || _ || _ || _) with false; [cbn; split; [lia|discriminate]|].
    symmetry.
    repeat (apply orb_false_intro); try (apply andb_false_intro2);
      try apply Z.leb_gt; try apply Z.eqb_neq; lia. }
  destruct (((0xfdd0 <=? cp) && (cp <=? 0xfdef))
            || (Z.land cp 0xfffe =? 0xfffe)) eqn:E3.
  { cbn [fst snd]. rewrite count_code_emitError.
    assert (Hbig : 0x8000 <= cp).
    { destruct (Z.lt_ge_cases cp 0x8000) as [Hlt|]; [|assumption].
      rewrite land_fffe_small in E3 by lia. rewrite orb_false_r in E3.
      apply andb_prop in E3 as [E3 _]. apply Z.leb_le in E3. lia. }
    replace (_ || _ || _ || _) with false; [cbn; split; [lia|discriminate]|].
    symmetry.
    repeat (apply orb_false_intro); try (apply andb_false_intro2);
      try apply Z.leb_gt; try apply Z.eqb_neq; lia. }
  destruct (_ || _ || _ || _) eqn:E4; cbn [fst snd].
  - rewrite count_code_emitError. cbn [ErrorCodes_beq]. split; [lia|].
    intros _.
    split; [|reflexivity].
    unfold remapped.
    destruct (lookupCCR CCR_REPLACEMENTS cp) as [r|] eqn:El; [|reflexivity].
    now rewrite (lookupCCR_nonzero _ _ El).
  - split; [lia|discriminate].
Qed.

Lemma span_all p digits rest :
  forallb p digits = true ->
  match rest with c :: _ => p c = false | [] => True end ->
  span p (digits ++ rest) = (digits, rest).
Proof.
  intros Hd Hr. induction digits as [|d ds IH]; cbn in *.
  - destruct rest as [|c r]; [reflexivity|]. cbn. now rewrite Hr.
  - apply andb_prop in Hd as [Hd1 Hd2]. now rewrite Hd1, IH.
Qed.

Lemma parseTextData_loop_done fuel c end_ mode text :
  end_ <= offset (cursor c) ->
  parseTextData_loop fuel c end_ mode text = Some (text, c).
Proof.
  intros H. apply Z.ltb_ge in H. destruct fuel; cbn; now rewrite H.
Qed.

Lemma digitValue_nonneg hex d : isDigitOf hex d = true -> 0 <= digitValue d.
Proof.
  unfold isDigitOf, digitValue, isHexDigit, isDigit, isLower.
  destruct hex; intros H;
    repeat match goal with
           | |- context [(?a <=? ?b)] => destruct (Z.leb_spec a b)
           | H : context [(?a <=? ?b)] |- _ => destruct (Z.leb_spec a b)
           end; cbn in *; try lia; discriminate.
Qed.

Lemma parseInt_nonneg hex digits :
  forallb (isDigitOf hex) digits = true ->
  0 <= parseInt digits (radixOf hex).
Proof.
  unfold parseInt. intros H.
  assert (G : forall acc, 0 <= acc ->
            0 <= fold_left (fun acc c => acc * radixOf hex + digitValue c)
                   digits acc); [|apply G; lia].
  induction digits as [|d ds IH]; intros acc Ha; [exact Ha|].
  cbn in *. apply andb_prop in H as [H1 H2]. apply IH; [exact H2|].
  apply digitValue_nonneg in H1. unfold radixOf. destruct hex; lia.
Qed.

Lemma isDigitOf_semicolon hex : isDigitOf hex 59 = false.
Proof. now destruct hex. Qed.

Lemma isDigit_not_x hex d :
  isDigitOf hex d = true -> hex = false -> (d =? 120) || (d =? 88) = false.
Proof.
  intros H ->. cbn in H. unfold isDigit in H.
  apply andb_prop in H as [H1 H2]. apply Z.leb_le in H1, H2.
  apply orb_false_intro; apply Z.eqb_neq; lia.
Qed.

Lemma execHead_numeric hex digits rest :
  digits <> [] -> forallb (isDigitOf hex) digits = true ->
  execHead (numericReference hex digits ++ rest)
  = Some (0, if hex then js "&#x" else js "&#").
Proof.
  intros Hn Hd. destruct digits as [|d ds]; [congruence|].
  cbn in Hd. apply andb_prop in Hd as [Hd _].
  unfold numericReference, execHead.
  destruct hex; eval_js; cbn [app find_from startsWith Z.eqb Pos.eqb andb].
  - reflexivity.
  - cbn [Z.ltb Z.compare Z.to_nat skipn].
    change (35 =? 35) with true. cbv iota.
    now rewrite (isDigit_not_x false d Hd eq_refl).
Qed.

Lemma endsWith_snoc s c : endsWith (s ++ [c]) [c] = true.
Proof.
  unfold endsWith. rewrite rev_unit. cbn. now rewrite Z.eqb_refl, startsWith_nil.
Qed.

Lemma execNumeric_numeric hex digits rest :
  digits <> [] -> forallb (isDigitOf hex) digits = true ->
  execNumeric hex (numericReference hex digits ++ rest)
  = Some (digits, numericReference hex digits).
Proof.
  intros Hn Hd. unfold execNumeric, numericReference.
  assert (Hs : span (isDigitOf hex) (digits ++ js ";" ++ rest)
               = (digits, js ";" ++ rest)).
  { apply span_all; [exact Hd|]. apply isDigitOf_semicolon. }
  destruct hex; eval_js; cbn [app startsWith Z.eqb Pos.eqb andb orb skipn
                              firstn] in *;
    rewrite ?startsWith_nil; cbn [andb orb];
    rewrite <- app_assoc; cbn [app];
    unfold isDigitOf in Hs; rewrite Hs;
    (destruct digits; [congruence|]);
    rewrite startsWith_1; reflexivity.
Qed.

Lemma slice_from_0 s : slice_from s 0 = s.
Proof. now rewrite slice_from_skipn by lia. Qed.

Lemma slice_0_0 s : slice s 0 0 = [].
Proof. now rewrite slice_0 by lia. Qed.

Lemma len_numericReference hex digits :
  1 <= len (numericReference hex digits).
Proof.
  unfold numericReference. rewrite len_app.
  pose proof (len_nonneg (digits ++ js ";")).
  destruct hex; eval_js; rewrite !len_cons; change (len []) with 0; lia.
Qed.

(** A numeric character reference in an entity-decoding mode: the text is
    the character of the code point that [checkCodePoint] returns, and the
    context is the one it returns, advanced over the reference. *)
Lemma parseTextData_numeric fuel c mode hex digits rest :
  isEntityMode mode = true ->
  digits <> [] -> forallb (isDigitOf hex) digits = true ->
  source c = numericReference hex digits ++ rest ->
  let checked :=
    checkCodePoint (advanceBy c 0) (parseInt digits (radixOf hex)) in
  parseTextData (S fuel) c (len (numericReference hex digits)) mode
  = Some (fromCodePoint (snd checked),
          advanceBy (fst checked) (len (numericReference hex digits))).
Proof.
  intros Hm Hn Hd Hs. cbv zeta.
  pose proof (len_numericReference hex digits) as Hl.
  unfold parseTextData. rewrite Hm. cbn [negb parseTextData_loop].
  replace (offset (cursor c) <? offset (cursor c) + _) with true
    by (symmetry; apply Z.ltb_lt; lia).
  rewrite Hs, (execHead_numeric hex digits rest Hn Hd).
  replace (_ <=? offset (cursor c) + 0) with false
    by (symmetry; apply Z.leb_gt; lia).
  rewrite <- Hs.
  unfold parseReference.
  assert (H1 : str_eqb (if hex then js "&#x" else js "&#") (js "&") = false)
    by now destruct hex.
  assert (H2 : str_eqb (if hex then js "&#x" else js "&#") (js "&#x") = hex)
    by now destruct hex.
  rewrite H1, H2, source_advanceBy, slice_from_0, Hs,
    (execNumeric_numeric hex digits rest Hn Hd).
  fold (radixOf hex).
  destruct (checkCodePoint (advanceBy c 0) (parseInt digits (radixOf hex)))
    as [c2 cp'] eqn:Ec.
  cbn [fst snd].
  assert (He : endsWith (numericReference hex digits) (js ";") = true).
  { unfold numericReference. rewrite app_assoc. apply endsWith_snoc. }
  rewrite He. cbn [negb].
  rewrite parseTextData_loop_done.
  - rewrite <- Hs, slice_0_0. reflexivity.
  - rewrite offset_advanceBy.
    apply checkCodePoint_advances in Ec as [_ Ec]. rewrite Ec.
    rewrite offset_advanceBy. lia.
Qed.

(** The carriage return is whitespace for the parser, and its reference is
    reported as a control; NUL is a control other than whitespace, and its
    reference is reported as NULL_CHARACTER_REFERENCE instead. *)
Lemma control_reference_not_by_whitespace :
  isControlNotSpace 13 = false
  /\ (exists c',
        parseTextData 1 (createParserContext (js "&#13;") noOptions) 5 DATA
        = Some ([13], c')
        /\ codes (reported c') = [CONTROL_CHARACTER_REFERENCE])
  /\ isControlNotSpace 0 = true
  /\ (exists c',
        parseTextData 1 (createParserContext (js "&#0;") noOptions) 4 DATA
        = Some ([0xfffd], c')
        /\ codes (reported c') = [NULL_CHARACTER_REFERENCE]).
Proof.
  split; [reflexivity|]. split; [|split; [reflexivity|]].
  - eexists. split; [vm_compute; reflexivity|reflexivity].
  - eexists. split; [vm_compute; reflexivity|reflexivity].
Qed.

(** ** Named character references in attribute values *)

Lemma substr_1 s n : substr s 1 n = firstn (Z.to_nat n) (skipn 1 s).
Proof. unfold substr. now rewrite slice_from_skipn by lia. Qed.

Lemma lookupName_default c x rest :
  source c = ampThen x rest ->
  namedCharacterReferences (options c)
  = namedCharacterReferences defaultParserOptions ->
  lookupName c 5 [] None
  = if x =? 59 then (js "amp;", Some (js "&")) else (js "a", None).
Proof.
  intros Hs Ht. unfold ampThen in Hs. eval_js.
  cbn [lookupName truthy]. rewrite !substr_1, Hs, Ht.
  cbn [defaultParserOptions namedCharacterReferences]. eval_js.
  change (Z.of_nat 5) with 5. change (Z.of_nat 4) with 4.
  change (Z.of_nat 3) with 3. change (Z.of_nat 2) with 2.
  change (Z.of_nat 1) with 1.
  change (Z.to_nat 5) with 5%nat. change (Z.to_nat 4) with 4%nat.
  change (Z.to_nat 3) with 3%nat. change (Z.to_nat 2) with 2%nat.
  change (Z.to_nat 1) with 1%nat.
  cbn [skipn firstn app lookupCR str_eqb]. eval_eqb.
  cbn [andb truthy].
  destruct (59 =? x) eqn:E.
  - apply Z.eqb_eq in E. subst x. change (59 =? 59) with true.
    destruct rest as [|r rest]; cbn [firstn str_eqb andb truthy];
      reflexivity.
  - rewrite Z.eqb_sym, E. cbn [andb truthy]. reflexivity.
Qed.

Lemma lookupName_amp c x rest :
  source c = ampThen x rest ->
  namedCharacterReferences (options c) = ampTable ->
  lookupName c 5 [] None
  = if x =? 59 then (js "amp;", Some (js "&")) else (js "amp", Some (js "&")).
Proof.
  intros Hs Ht. unfold ampThen in Hs. eval_js.
  cbn [lookupName truthy]. rewrite !substr_1, Hs, Ht.
  unfold ampTable.
  cbn [defaultParserOptions namedCharacterReferences app]. eval_js.
  change (Z.of_nat 5) with 5. change (Z.of_nat 4) with 4.
  change (Z.of_nat 3) with 3. change (Z.of_nat 2) with 2.
  change (Z.of_nat 1) with 1.
  change (Z.to_nat 5) with 5%nat. change (Z.to_nat 4) with 4%nat.
  change (Z.to_nat 3) with 3%nat. change (Z.to_nat 2) with 2%nat.
  change (Z.to_nat 1) with 1%nat.
  cbn [skipn firstn app lookupCR str_eqb]. eval_eqb.
  cbn [andb truthy].
  destruct (59 =? x) eqn:E.
  - apply Z.eqb_eq in E. subst x. change (59 =? 59) with true.
    destruct rest as [|r rest]; cbn [firstn str_eqb andb truthy];
      reflexivity.
  - rewrite Z.eqb_sym, E. cbn [andb truthy]. reflexivity.
Qed.

Lemma execHead_amp x rest : execHead (ampThen x rest) = Some (0, js "&").
Proof. reflexivity. Qed.

(** No ampersand among the first [k] units: the head expression matches
    at [k] or later, if at all. *)
Lemma find_amp_after (pre s : jsstring) base :
  forallb (fun c => negb (c =? 38)) pre = true ->
  find_from (fun t => startsWith t [38]) (pre ++ s) base = -1
  \/ base + len pre <= find_from (fun t => startsWith t [38]) (pre ++ s) base.
Proof.
  revert base. induction pre as [|c pre IH]; intros base Hp.
  - cbn [app]. change (len []) with 0.
    destruct (find_from_spec (fun t => startsWith t [38]) s base)
      as [H|[H _]]; [now left|right; lia].
  - cbn in Hp. apply andb_prop in Hp as [Hc Hp].
    apply negb_true_iff in Hc.
    cbn [app find_from]. rewrite startsWith_1, Z.eqb_sym, Hc.
    destruct (IH (base + 1) Hp) as [H|H]; [now left|right].
    rewrite len_cons. lia.
Qed.

Lemma execHead_after (pre s : jsstring) i h :
  forallb (fun c => negb (c =? 38)) pre = true ->
  execHead (pre ++ s) = Some (i, h) -> len pre <= i.
Proof.
  intros Hp. unfold execHead.
  destruct (find_amp_after pre s 0 Hp) as [H|H].
  - rewrite H. discriminate.
  - destruct (_ <? 0); [discriminate|].
    intros E.
    assert (Hi : i = find_from (fun t => startsWith t [38]) (pre ++ s) 0).
    { repeat break_inner_in E; first [discriminate E | now injection E as <- _]. }
    lia.
Qed.

(** The loop copies the rest of the text when the next ampersand, if any,
    lies at or beyond the end. *)
Lemma parseTextData_loop_stop fuel c end_ mode text :
  offset (cursor c) < end_ ->
  (forall i h, execHead (source c) = Some (i, h) ->
               end_ <= offset (cursor c) + i) ->
  parseTextData_loop (S fuel) c end_ mode text
  = Some (text ++ slice (source c) 0 (end_ - offset (cursor c)),
          advanceBy c (end_ - offset (cursor c))).
Proof.
  intros Ho Hh. cbn [parseTextData_loop].
  apply Z.ltb_lt in Ho. rewrite Ho.
  destruct (execHead (source c)) as [[i h]|]; [|reflexivity].
  specialize (Hh i h eq_refl). apply Z.leb_le in Hh. now rewrite Hh.
Qed.

(** One turn of the loop on a character reference inside the text. *)
Lemma parseTextData_loop_reference fuel c end_ mode text index head0 :
  execHead (source c) = Some (index, head0) ->
  offset (cursor c) + index < end_ -> 0 <= index ->
  parseTextData_loop (S fuel) c end_ mode text
  = let '(text, context) :=
      parseReference (advanceBy c index) mode head0
        (text ++ slice (source c) 0 index) in
    parseTextData_loop fuel context end_ mode text.
Proof.
  intros Hh Hi H0. cbn [parseTextData_loop]. rewrite Hh.
  replace (offset (cursor c) <? end_) with true
    by (symmetry; apply Z.ltb_lt; lia).
  replace (end_ <=? offset (cursor c) + index) with false
    by (symmetry; apply Z.leb_gt; lia).
  reflexivity.
Qed.

Lemma parseTextData_amp_default fuel c x rest :
  source c = ampThen x rest ->
  namedCharacterReferences (options c)
  = namedCharacterReferences defaultParserOptions ->
  maxCRNameLength c = 5 ->
  x <> 38 ->
  exists c',
    parseTextData (S (S fuel)) c 5 ATTRIBUTE_VALUE
    = Some (if x =? 59 then js "&" else js "&amp" ++ [x], c')
    /\ codes (reported c')
       = codes (reported c)
         ++ if x =? 59 then [] else [UNKNOWN_NAMED_CHARACTER_REFERENCE].
Proof.
  intros Hs Ht Hm Hx.
  unfold parseTextData. cbn [isEntityMode negb].
  rewrite (parseTextData_loop_reference _ _ _ _ _ 0 (js "&"));
    [|rewrite Hs; apply execHead_amp|lia|lia].
  set (c1 := advanceBy c 0).
  assert (Hs1 : source c1 = ampThen x rest)
    by (unfold c1; now rewrite source_advanceBy, slice_from_0).
  assert (Ho1 : offset (cursor c1) = offset (cursor c))
    by (unfold c1; rewrite offset_advanceBy; lia).
  rewrite slice_0_0. cbn [app].
  unfold parseReference.
  change (str_eqb (js "&") (js "&")) with true. cbv iota.
  rewrite Hs1. change (charAt (ampThen x rest) 1) with (Some 97).
  cbv iota. change (isAlnum 97) with true. cbv iota.
  change (maxCRNameLength c1) with (maxCRNameLength c). rewrite Hm.
  change (Z.to_nat 5) with 5%nat.
  rewrite (lookupName_default c1 x rest Hs1 Ht).
  destruct (x =? 59) eqn:E.
  - change (truthy (Some (js "&"))) with true.
    change (endsWith (js "amp;") (js ";")) with true.
    cbn [negb andb orElse app isAttributeValue]. cbv iota.
    rewrite parseTextData_loop_done.
    + eexists. split; [reflexivity|]. cbn. now rewrite app_nil_r.
    + rewrite offset_advanceBy, Ho1. change (len (js "amp;")) with 4. lia.
  - cbn [truthy app]. cbv iota.
    set (c2 := advanceBy (emitError c1 UNKNOWN_NAMED_CHARACTER_REFERENCE None)
                 (1 + len (js "a"))).
    assert (Hs2 : source c2 = js "mp" ++ x :: rest).
    { unfold c2. rewrite source_advanceBy. cbn [source emitError report].
      rewrite Hs1. change (1 + len (js "a")) with 2.
      now rewrite slice_from_skipn by lia. }
    assert (Ho2 : offset (cursor c2) = offset (cursor c) + 2).
    { unfold c2. rewrite offset_advanceBy. cbn [cursor emitError report].
      rewrite Ho1. reflexivity. }
    rewrite parseTextData_loop_stop.
    + eexists. split.
      * rewrite Ho2, Hs2.
        replace (offset (cursor c) + 5 - (offset (cursor c) + 2)) with 3
          by lia.
        rewrite slice_0 by lia. reflexivity.
      * cbn. unfold codes. rewrite map_app. reflexivity.
    + lia.
    + intros i h Hh. rewrite Hs2 in Hh.
      apply (execHead_after (js "mp" ++ [x]) rest) in Hh.
      * rewrite len_app in Hh. change (len (js "mp")) with 2 in Hh.
        change (len [x]) with 1 in Hh. lia.
      * eval_js. cbn [app forallb]. eval_eqb.
        apply Z.eqb_neq in Hx. rewrite Hx. reflexivity.
Qed.

Lemma parseTextData_amp_table fuel c x rest :
  source c = ampThen x rest ->
  namedCharacterReferences (options c) = ampTable ->
  maxCRNameLength c = 5 ->
  x <> 38 ->
  exists c',
    parseTextData (S (S fuel)) c 5 ATTRIBUTE_VALUE
    = Some (if x =? 59 then js "&"
            else if (x =? 61) || isAlnum x then js "&amp" ++ [x]
                 else js "&" ++ [x], c').
Proof.
  intros Hs Ht Hm Hx.
  unfold parseTextData. cbn [isEntityMode negb].
  rewrite (parseTextData_loop_reference _ _ _ _ _ 0 (js "&"));
    [|rewrite Hs; apply execHead_amp|lia|lia].
  set (c1 := advanceBy c 0).
  assert (Hs1 : source c1 = ampThen x rest)
    by (unfold c1; now rewrite source_advanceBy, slice_from_0).
  assert (Ho1 : offset (cursor c1) = offset (cursor c))
    by (unfold c1; rewrite offset_advanceBy; lia).
  rewrite slice_0_0. cbn [app].
  unfold parseReference.
  change (str_eqb (js "&") (js "&")) with true. cbv iota.
  rewrite Hs1. change (charAt (ampThen x rest) 1) with (Some 97).
  cbv iota. change (isAlnum 97) with true. cbv iota.
  change (maxCRNameLength c1) with (maxCRNameLength c). rewrite Hm.
  change (Z.to_nat 5) with 5%nat.
  rewrite (lookupName_amp c1 x rest Hs1 Ht).
  destruct (x =? 59) eqn:E.
  - change (truthy (Some (js "&"))) with true.
    change (endsWith (js "amp;") (js ";")) with true.
    cbn [negb andb orElse app isAttributeValue]. cbv iota.
    rewrite parseTextData_loop_done.
    + eexists. reflexivity.
    + rewrite offset_advanceBy, Ho1. change (len (js "amp;")) with 4. lia.
  - change (truthy (Some (js "&"))) with true.
    change (endsWith (js "amp") (js ";")) with false.
    change (1 + len (js "amp")) with 4.
    change (charAt (ampThen x rest) 4) with (Some x).
    cbn [negb andb orElse isAttributeValue]. cbv iota.
    assert (Hstop : forall c2 text,
               source c2 = x :: rest ->
               offset (cursor c2) = offset (cursor c) + 4 ->
               parseTextData_loop (S fuel) c2 (offset (cursor c) + 5)
                 ATTRIBUTE_VALUE text
               = Some (text ++ [x], advanceBy c2 1)).
    { intros c2 text Hs2 Ho2. rewrite parseTextData_loop_stop.
      - rewrite Ho2, Hs2.
        replace (offset (cursor c) + 5 - (offset (cursor c) + 4)) with 1
          by lia.
        rewrite slice_0 by lia. reflexivity.
      - lia.
      - intros i h Hh. rewrite Hs2 in Hh.
        apply (execHead_after [x] rest) in Hh.
        + change (len [x]) with 1 in Hh. lia.
        + cbn [forallb]. apply Z.eqb_neq in Hx. now rewrite Hx. }
    assert (Hs2 : source (advanceBy c1 4) = x :: rest).
    { rewrite source_advanceBy, Hs1. now rewrite slice_from_skipn by lia. }
    assert (Ho2 : offset (cursor (advanceBy c1 4)) = offset (cursor c) + 4)
      by (rewrite offset_advanceBy; lia).
    destruct ((x =? 61) || isAlnum x).
    + rewrite Hstop by assumption. eexists. reflexivity.
    + rewrite Hstop by assumption. eexists. reflexivity.
Qed.

(** With the default options the value of [b] in <a b="&amp "/> is
    [&amp ] as written, not decoded. *)
Lemma amp_before_space_kept :
  exists root errors e a v,
    parse asciiToLowerCase true 30 ampSpace noOptions = Some (root, errors)
    /\ root_children root = [ELEMENT e]
    /\ props e = [ATTRIBUTE a]
    /\ attr_value a = Some v
    /\ text_content v = js "&amp "
    /\ text_content v <> js "& "
    /\ codes errors = [UNKNOWN_NAMED_CHARACTER_REFERENCE].
Proof.
  do 5 eexists. split; [vm_compute; reflexivity|].
  repeat (split; try reflexivity). discriminate.
Qed.

(** ** Round trip *)

Lemma sources_snoc nodes n :
  sources (nodes ++ [n]) = sources nodes ++ loc_source (node_loc n).
Proof.
  unfold sources. rewrite map_app, concat_app. cbn. now rewrite app_nil_r.
Qed.

Lemma sources_pushNode DEV c nodes n :
  ignoreSpaces (options c) = false ->
  DEV = true \/ notComment n = true ->
  sources (pushNode DEV c nodes n)
  = sources nodes ++ loc_source (node_loc n).
Proof.
  intros Hi Hd. rewrite pushNode_kept.
  2:{ unfold dropped. rewrite Hi.
      destruct Hd as [->|Hd]; [reflexivity|].
      destruct n; try discriminate; now rewrite andb_false_r. }
  destruct (rev nodes) as [|y before] eqn:Er; [apply sources_snoc|].
  destruct y as [| prev | |]; try apply sources_snoc.
  destruct n as [| t | |]; try apply sources_snoc.
  destruct (touching _ _); [|apply sources_snoc].
  apply rev_eq_cons in Er. subst nodes.
  rewrite !sources_snoc. cbn [node_loc mergeText text_loc loc_source].
  now rewrite app_assoc.
Qed.

Lemma sources_fold_pushNode DEV c ns :
  ignoreSpaces (options c) = false ->
  DEV = true \/ forallb notComment ns = true ->
  forall nodes,
    sources (fold_left (pushNode DEV c) ns nodes)
    = sources nodes ++ sources ns.
Proof.
  intros Hi. induction ns as [|n ns IH]; intros Hd nodes.
  - cbn. now rewrite app_nil_r.
  - cbn [fold_left]. rewrite IH, sources_pushNode; try exact Hi.
    + rewrite <- app_assoc. reflexivity.
    + destruct Hd as [Hd|Hd]; [now left|right].
      cbn in Hd. now apply andb_prop in Hd.
    + destruct Hd as [Hd|Hd]; [now left|right].
      cbn in Hd. now apply andb_prop in Hd.
Qed.

Lemma slice_slice s a b d :
  0 <= a -> a <= b -> b <= d ->
  slice s a b ++ slice s b d = slice s a d.
Proof.
  intros Ha Hab Hbd. unfold slice, rel_index.
  destruct (a <? 0) eqn:E1; [lia|]. destruct (b <? 0) eqn:E2; [lia|].
  destruct (d <? 0) eqn:E3; [lia|].
  set (l := len s).
  assert (Hl : 0 <= l) by apply len_nonneg.
  replace (skipn (Z.to_nat (Z.min b l)) s)
    with (skipn (Z.to_nat (Z.min b l - Z.min a l))
            (skipn (Z.to_nat (Z.min a l)) s)).
  2:{ rewrite skipn_skipn. f_equal. lia. }
  set (t := skipn (Z.to_nat (Z.min a l)) s).
  rewrite <- (firstn_skipn (Z.to_nat (Z.min b l - Z.min a l))
                (firstn (Z.to_nat (Z.min d l - Z.min a l)) t)).
  rewrite firstn_firstn, skipn_firstn_comm. f_equal.
  - f_equal. lia.
  - f_equal. lia.
Qed.

Lemma advances_reported a c e :
  advances a c -> In e (reported a) -> In e (reported c).
Proof.
  intros (_ & _ & _ & _ & _ & new & H) Hin. rewrite H.
  apply in_or_app. now left.
Qed.

Lemma noStrayEndTag_In errors e :
  noStrayEndTag errors = true -> In e errors ->
  strayEndTag (err_code e) = false.
Proof.
  unfold noStrayEndTag. intros H Hin.
  rewrite forallb_forall in H. apply H in Hin.
  now apply negb_true_iff in Hin.
Qed.

Lemma In_reported_emitError c code o :
  exists e, In e (reported (emitError c code o)) /\ err_code e = code.
Proof.
  unfold emitError, report. cbn [reported].
  eexists. split; [apply in_or_app; right; left; reflexivity|reflexivity].
Qed.

Lemma advances_originalSource a c :
  advances a c -> originalSource c = originalSource a.
Proof. now intros (_ & H & _). Qed.

Lemma selection_source a c :
  advances a c ->
  loc_source (getSelection c (cursor a) None)
  = slice (originalSource a) (offset (cursor a)) (offset (cursor c)).
Proof.
  intros H. cbn [getSelection loc_source orElse].
  now rewrite (advances_originalSource _ _ H).
Qed.

Lemma charAt_In s i x : charAt s i = Some x -> In x s.
Proof.
  unfold charAt. destruct (i <? 0); [discriminate|]. apply nth_error_In.
Qed.

Lemma advances_source_In a c x :
  advances a c -> In x (source c) -> In x (source a).
Proof.
  intros (_ & _ & _ & _ & H & _) Hin. rewrite H in Hin.
  rewrite <- (firstn_skipn (Z.to_nat (offset (cursor c) - offset (cursor a)))
                (source a)).
  apply in_or_app. now right.
Qed.

Section CoverChildren.

Variable toLowerCase : jsstring -> jsstring.
Variable parseChildren :
  ParserContext -> TextModes -> list ElementNode ->
  option (list TemplateChildNode * ParserContext).
Hypothesis parseChildren_advances :
  forall c mode ancestors nodes c',
    parseChildren c mode ancestors = Some (nodes, c') -> advances c c'.

(** What a turn of the loop leaves behind: a skipped end tag has its
    diagnostic; the nodes produced span the input consumed, and a comment
    among them comes with a diagnostic or from a [<!]. *)
Lemma parseChildren_turn_cover fuel c mode ancestors turn c1 :
  parseChildren_turn toLowerCase parseChildren fuel c mode ancestors
  = Some (turn, c1) ->
  match last ancestors with
  | Some p => ns p = Namespaces_HTML
  | None => True
  end ->
  match turn with
  | Continue =>
      exists e, In e (reported c1) /\ strayEndTag (err_code e) = true
  | Undefined => True
  | Produced nodes =>
      sources nodes
      = slice (originalSource c) (offset (cursor c)) (offset (cursor c1))
      /\ (forallb notComment nodes = true
          \/ reported c1 <> [] \/ In 33 (source c))
  end.
Proof.
  unfold parseChildren_turn. intros H Hns.
  cbv beta zeta in H.
  match type of H with
  | context [negb (?t =? Namespaces_HTML)] =>
      assert (Hns' : (t =? Namespaces_HTML) = true)
        by (destruct (last ancestors); [rewrite Hns|]; reflexivity)
  end.
  rewrite Hns' in H. cbn [negb] in H. clear Hns Hns'.
  destruct (startsWith (source c) (fst (delimiters (options c)))) eqn:Ed.
  { destruct (parseInterpolation _ _ _) as [[node c2]|] eqn:Ei;
      [|discriminate].
    apply parseInterpolation_advances in Ei as [I1 I2]; [|exact Ed].
    destruct node; injection H as <- <-; [|exact I].
    destruct I2 as [I2 _]. split; [|now left].
    unfold sources. cbn [map List.concat node_loc].
    rewrite I2, app_nil_r. now apply selection_source. }
  clear Ed.
  repeat (first [discriminate H | step_in H ltac:(fun x =>
    lazymatch x with
    | parseElement _ _ _ _ _ =>
        let E := fresh "E" in
        destruct x as [[? ?]|] eqn:E;
        [apply (parseElement_advances toLowerCase parseChildren
                  parseChildren_advances) in E as (? & ? & ?)|]
    | parseComment _ _ =>
        let E := fresh "E" in
        destruct x as [[? ?]|] eqn:E;
        [apply parseComment_advances in E as (? & ? & ?)|]
    | parseTag _ _ _ _ =>
        let E := fresh "E" in
        destruct x as [[? ?]|] eqn:E;
        [apply parseTag_advances in E as (? & ? & ?)|]
    | parseBogusComment ?b =>
        let B := fresh "B" in
        pose proof (parseBogusComment_advances b) as B;
        destruct x as [? ?]; destruct B as (? & ? & ?)
    | _ => let E := fresh "E" in destruct x eqn:E
    end)]).
  all: injection H as <- <-.
  all: try exact I.
  all: try (split;
            [ unfold sources; cbn [map List.concat node_loc];
              rewrite app_nil_r;
              match goal with
              | H : _ = getSelection _ _ None |- _ => rewrite H
              end;
              match goal with
              | Ha : advances ?a ?p |- context [getSelection ?p _ None] =>
                  exact (selection_source a p Ha)
              end
            | ]).
  all: try (left; reflexivity).
  all: try (right; right;
            match goal with
            | E : (?z =? 33) = true, E0 : charAt _ 1 = Some ?z |- _ =>
                apply Z.eqb_eq in E; subst z; exact (charAt_In _ _ _ E0)
            end).
  all: try (right; left;
            match goal with
            | Ha : advances (emitError ?c0 ?code ?o) ?p |- reported ?p <> [] =>
                let e := fresh "e" in
                let He := fresh "He" in
                destruct (In_reported_emitError c0 code o) as (e & He & _);
                apply (advances_reported _ _ _ Ha) in He;
                intros Hnil; rewrite Hnil in He; exact He
            end).
  - destruct (In_reported_emitError c MISSING_END_TAG_NAME (Some 2))
      as (e & He1 & He2).
    exists e. split; [exact He1|now rewrite He2].
  - destruct (In_reported_emitError c X_INVALID_END_TAG None)
      as (err & He1 & He2).
    exists err. split; [|now rewrite He2].
    eapply advances_reported; eassumption.
Qed.

Lemma parseChildren_iteration_cover DEV fuel c mode ancestors nodes nodes'
    c1 :
  parseChildren_iteration toLowerCase DEV parseChildren fuel c mode
    ancestors nodes = Some (nodes', c1) ->
  ignoreSpaces (options c) = false ->
  match last ancestors with
  | Some p => ns p = Namespaces_HTML
  | None => True
  end ->
  (exists e, In e (reported c1) /\ strayEndTag (err_code e) = true)
  \/ (DEV = false /\ (reported c1 <> [] \/ In 33 (source c)))
  \/ sources nodes'
     = sources nodes
       ++ slice (originalSource c) (offset (cursor c)) (offset (cursor c1)).
Proof.
  unfold parseChildren_iteration. intros H Hi Hns.
  destruct (parseChildren_turn _ _ _ _ _ _) as [[turn c2]|] eqn:Et;
    [|discriminate].
  pose proof (parseChildren_turn_cover _ _ _ _ _ _ Et Hns) as Hc.
  apply parseChildren_turn_advances in Et as [Ha Ht];
    [|exact parseChildren_advances].
  assert (Hi2 : ignoreSpaces (options c2) = false)
    by (destruct Ha as (Ha & _); now rewrite Ha).
  destruct turn as [| | ns].
  - injection H as <- <-. now left.
  - destruct Ht as [Ht1 Ht2].
    destruct (parseText _ _ _) as [[t c3]|] eqn:Ex; [|discriminate].
    injection H as <- <-. right. right.
    apply parseText_advances in Ex as [Ex Hl].
    rewrite sources_pushNode; [| |now right].
    2:{ destruct Ex as (Ex & _). now rewrite Ex. }
    cbn [node_loc]. rewrite Hl, selection_source by exact Ex.
    now rewrite (advances_originalSource _ _ Ha), Ht2.
  - injection H as <- <-. destruct Hc as [Hc Hn].
    destruct DEV eqn:Edev.
    + right. right.
      rewrite sources_fold_pushNode; [|exact Hi2|now left]. now rewrite Hc.
    + destruct Hn as [Hn|Hn].
      * right. right.
        rewrite sources_fold_pushNode; [|exact Hi2|now right].
        now rewrite Hc.
      * right. left. now split.
Qed.

End CoverChildren.

Lemma parseChildren_loop_cover toLowerCase DEV fuel :
  forall c mode ancestors nodes nodes' c',
    parseChildren_loop toLowerCase DEV fuel c mode ancestors nodes
    = Some (nodes', c') ->
    ignoreSpaces (options c) = false ->
    0 <= offset (cursor c) ->
    match last ancestors with
    | Some p => ns p = Namespaces_HTML
    | None => True
    end ->
    noStrayEndTag (reported c') = true ->
    DEV = true \/ (reported c' = [] /\ ~ In 33 (source c)) ->
    sources nodes'
    = sources nodes
      ++ slice (originalSource c) (offset (cursor c)) (offset (cursor c')).
Proof.
  induction fuel as [|fuel IH];
    intros c mode ancestors nodes nodes' c' H Hi H0 Hns He Hd;
    cbn [parseChildren_loop] in H;
    (destruct (isEnd _ _ _ _);
     [injection H as <- <-; unfold slice;
      rewrite Z.sub_diag; cbn [Z.to_nat firstn];
      now rewrite app_nil_r|]);
    [discriminate|].
  destruct (parseChildren_iteration _ _ _ _ _ _ _ _) as [[ns c1]|] eqn:Ei;
    [|discriminate].
  assert (Hadv : forall c0 m a ns0 c0',
             parseChildren_loop toLowerCase DEV fuel c0 m a [] = Some (ns0, c0')
             -> advances c0 c0').
  { intros c0 m a ns0 c0' Hr. eapply parseChildren_loop_advances. exact Hr. }
  pose proof (parseChildren_iteration_cover toLowerCase _ Hadv _ _ _ _ _ _ _ _
                Ei Hi Hns) as Hc.
  apply parseChildren_iteration_advances in Ei as [Ha _]; [|exact Hadv].
  pose proof (parseChildren_loop_advances _ _ _ _ _ _ _ _ _ H) as Ha2.
  destruct Hc as [(e & He1 & He2)|[(Hf & Hc)|Hc]].
  { apply (advances_reported _ _ _ Ha2) in He1.
    rewrite (noStrayEndTag_In _ _ He He1) in He2. discriminate. }
  { destruct Hd as [Hd|[Hd1 Hd2]]; [congruence|].
    destruct Hc as [Hc|Hc]; [|contradiction].
    destruct (reported c1) as [|e l] eqn:Er; [now elim Hc|].
    assert (Hin : In e (reported c')).
    { apply (advances_reported _ _ _ Ha2). rewrite Er. now left. }
    rewrite Hd1 in Hin. contradiction. }
  apply IH in H; [|destruct Ha as (Ha & _); now rewrite Ha
                  |destruct Ha as (_ & _ & _ & Ha & _); lia
                  |exact Hns|exact He|].
  - rewrite H, Hc, <- app_assoc. f_equal.
    rewrite (advances_originalSource _ _ Ha).
    apply slice_slice; [exact H0| |].
    + now destruct Ha as (_ & _ & _ & Ha & _).
    + now destruct Ha2 as (_ & _ & _ & Ha2 & _).
  - destruct Hd as [Hd|[Hd1 Hd2]]; [now left|right].
    split; [exact Hd1|]. intros Hin. apply Hd2.
    eapply advances_source_In; eassumption.
Qed.

(** With [ignoreSpaces] off, when the parse reports no stray end tag
    (neither X_INVALID_END_TAG nor MISSING_END_TAG_NAME) and, in a
    production build, where comments are dropped, reports nothing at all
    on an input without an exclamation mark, the sources of the children of
    the root, put end to end in document order, are the original
    source. *)
Lemma sources_cover_content :
  forall toLowerCase DEV fuel content options root errors,
    parse toLowerCase DEV fuel content options = Some (root, errors) ->
    ignoreSpaces (mergeOptions options) = false ->
    noStrayEndTag errors = true ->
    DEV = true \/ (errors = [] /\ ~ In 33 content) ->
    sources (root_children root) = content.
Proof.
  intros toLowerCase DEV fuel content options root errors H Hi He Hd.
  unfold parse, parseChildren in H.
  destruct (parseChildren_loop _ _ _ _ _ _ _) as [[nodes c']|] eqn:E;
    [|discriminate].
  injection H as <- <-. cbn [root_children].
  pose proof (parseChildren_loop_isEnd _ _ _ _ _ _ _ _ _ E) as Hend.
  apply isEnd_root in Hend.
  pose proof (parseChildren_loop_advances _ _ _ _ _ _ _ _ _ E)
    as (_ & _ & _ & A4 & A5 & _).
  apply parseChildren_loop_cover in E;
    [|exact Hi|cbn; lia|exact I|exact He|exact Hd].
  rewrite E. cbn [sources map List.concat app createParserContext
                  originalSource cursor offset] in *.
  apply slice_whole.
  rewrite Hend, Z.sub_0_r in A5.
  apply (f_equal (@List.length _)) in A5. rewrite length_skipn in A5.
  cbn [List.length source createParserContext] in A5. lia.
Qed.

Lemma sources_cover_content_example :
  exists root errors,
    parse asciiToLowerCase false 40 divHello keepSpaces = Some (root, errors)
    /\ sources (root_children root) = divHello.
Proof.
  destruct (parse asciiToLowerCase false 40 divHello keepSpaces)
    as [[root errors]|] eqn:E.
  - exists root, errors. split; [reflexivity|].
    pose proof E as E'. vm_compute in E'. injection E' as <- <-.
    apply (sources_cover_content asciiToLowerCase false 40 divHello keepSpaces
             _ _ E); [reflexivity|reflexivity|].
    right. split; [reflexivity|].
    vm_compute. intros H.
    repeat (destruct H as [H|H]; [discriminate H|]). exact H.
  - vm_compute in E. discriminate E.
Defined.

(** With the default options the space between the two elements of
    <a></a> <b></b> is dropped: the sources of the two children do not
    make up the input. *)
Lemma spaces_between_elements_dropped :
  exists root,
    parse asciiToLowerCase true 20 twoElements noOptions = Some (root, [])
    /\ sources (root_children root) = js "<a></a><b></b>"
    /\ sources (root_children root) <> twoElements.
Proof.
  eexists. split; [vm_compute; reflexivity|].
  split; [reflexivity|]. vm_compute. discriminate.
Qed.

(** ** Round trip up to whitespace *)

Lemma sources_pushNode_kept DEV c nodes n :
  dropped DEV c n = false ->
  sources (pushNode DEV c nodes n)
  = sources nodes ++ loc_source (node_loc n).
Proof.
  intros Hd. rewrite pushNode_kept by exact Hd.
  destruct (rev nodes) as [|y before] eqn:Er; [apply sources_snoc|].
  destruct y as [| prev | |]; try apply sources_snoc.
  destruct n as [| t | |]; try apply sources_snoc.
  destruct (touching _ _); [|apply sources_snoc].
  apply rev_eq_cons in Er. subst nodes.
  rewrite !sources_snoc. cbn [node_loc mergeText text_loc loc_source].
  now rewrite app_assoc.
Qed.

Lemma strip_app a b : strip (a ++ b) = strip a ++ strip b.
Proof. apply filter_app. Qed.

Lemma trimStart_blank s :
  trimStart s = [] -> forall x, In x s -> isTrimSpace x = true.
Proof.
  induction s as [|c s IH]; intros H x Hin; [contradiction|].
  cbn [trimStart] in H. destruct (isTrimSpace c) eqn:E; [|discriminate].
  destruct Hin as [<-|Hin]; [exact E|now apply IH].
Qed.

Lemma trimStart_head s c r :
  trimStart s = c :: r -> isTrimSpace c = false.
Proof.
  induction s as [|d s IH]; intros H; [discriminate|].
  cbn [trimStart] in H. destruct (isTrimSpace d) eqn:E; [now apply IH|].
  now injection H as <- _.
Qed.

Lemma blank_strip s :
  (forall x, In x s -> isTrimSpace x = true) -> strip s = [].
Proof.
  induction s as [|c s IH]; intros H; [reflexivity|].
  unfold strip. cbn [filter]. rewrite (H c) by now left. cbn [negb].
  apply IH. intros x Hx. apply H. now right.
Qed.

Lemma trim_nil_strip s : trim s = [] -> strip s = [].
Proof.
  unfold trim. intros H.
  apply (f_equal (@rev Z)) in H. rewrite rev_involutive in H. cbn [rev] in H.
  destruct (trimStart s) as [|c r] eqn:E.
  - apply blank_strip. now apply trimStart_blank.
  - apply trimStart_head in E.
    rewrite (trimStart_blank _ H c) in E; [discriminate|].
    apply in_rev. rewrite rev_involutive. now left.
Qed.

Lemma synced_advances a c : synced a -> advances a c -> synced c.
Proof.
  intros [H0 Hs] (_ & Ho & _ & Hle & Hsrc & _). split; [lia|].
  rewrite Hsrc, Hs, skipn_skipn, Ho. f_equal. lia.
Qed.

Lemma execHead_plain s : ~ In 38 s -> execHead s = None.
Proof.
  intros Hn. destruct (execHead s) as [[i h]|] eqn:E; [|reflexivity].
  apply execHead_spec in E as (_ & _ & t & Ht). elim Hn.
  rewrite <- (firstn_skipn (Z.to_nat i) s), Ht.
  apply in_or_app. right. now left.
Qed.

Lemma parseTextData_plain fuel c length mode text c' :
  parseTextData fuel c length mode = Some (text, c') ->
  ~ In 38 (source c) -> 0 <= length ->
  text = slice (source c) 0 length
  /\ offset (cursor c') = offset (cursor c) + length.
Proof.
  unfold parseTextData. intros H Hn Hl.
  destruct (negb (isEntityMode mode)).
  { injection H as <- <-. now rewrite offset_advanceBy. }
  destruct (Z.eq_dec length 0) as [->|Hz].
  { rewrite parseTextData_loop_done in H by lia. injection H as <- <-.
    split; [|lia]. unfold slice. now rewrite Z.sub_diag. }
  destruct fuel as [|fuel]; cbn [parseTextData_loop] in H.
  { destruct (_ <? _) eqn:E; [discriminate|]. apply Z.ltb_ge in E. lia. }
  destruct (_ <? _) eqn:E; [|apply Z.ltb_ge in E; lia].
  rewrite (execHead_plain _ Hn) in H. injection H as <- <-.
  rewrite offset_advanceBy. cbn [app].
  replace (offset (cursor c) + length - offset (cursor c)) with length by lia.
  split; [reflexivity|lia].
Qed.

Lemma slice_synced s o n :
  0 <= o -> 0 <= n ->
  slice (skipn (Z.to_nat o) s) 0 n = slice s o (o + n).
Proof.
  intros Ho Hn. rewrite slice_0 by exact Hn.
  unfold slice, rel_index.
  destruct (o <? 0) eqn:E1; [lia|]. destruct (o + n <? 0) eqn:E2; [lia|].
  pose proof (len_nonneg s) as Hs. unfold len in *.
  destruct (Z.le_gt_cases o (Z.of_nat (List.length s))) as [Hle|Hgt].
  - rewrite (Z.min_l o) by exact Hle.
    destruct (Z.le_gt_cases (o + n) (Z.of_nat (List.length s))) as [Hb|Hb].
    + rewrite Z.min_l by exact Hb. f_equal. lia.
    + rewrite Z.min_r by lia.
      rewrite !firstn_all2; try reflexivity; rewrite length_skipn; lia.
  - rewrite !Z.min_r by lia. rewrite Z.sub_diag. cbn [Z.to_nat firstn].
    rewrite skipn_all2 by lia. now destruct (Z.to_nat n).
Qed.

Lemma parseText_plain fuel c mode t c' :
  parseText fuel c mode = Some (t, c') ->
  synced c -> ~ In 38 (source c) ->
  text_content t = loc_source (text_loc t)
  /\ (text_isEmpty t = true -> strip (loc_source (text_loc t)) = []).
Proof.
  intros H [H0 Hs] Hn.
  assert (Hc : text_content t = loc_source (text_loc t)).
  { unfold parseText in H.
    destruct (parseTextData _ _ _ _) as [[content c1]|] eqn:E; [|discriminate].
    injection H as <- <-. cbn [text_content text_loc].
    assert (Hl : 0 <= fold_right Z.min (len (source c))
                   (filter (fun n => negb (n =? -1))
                      [indexOf (source c) (js "<") 1;
                       indexOf (source c) (fst (delimiters (options c))) 1;
                       match mode with
                       | CDATA => indexOf (source c) (js "]]>") 0
                       | _ => -1
                       end])).
    { apply min_candidates; [apply len_nonneg|].
      repeat (apply Forall_cons; [|]); try apply Forall_nil;
        try apply indexOf_nonneg.
      destruct mode; try (now left); apply indexOf_nonneg. }
    pose proof (parseTextData_advances _ _ _ _ _ _ E Hl) as [Ha _].
    apply parseTextData_plain in E as [-> Ho]; [|exact Hn|exact Hl].
    cbn [getSelection loc_source orElse]. unfold getCursor.
    rewrite Ho, (advances_originalSource _ _ Ha).
    rewrite Hs at 1. now apply slice_synced. }
  split; [exact Hc|]. intros He. rewrite <- Hc.
  apply trim_nil_strip.
  unfold parseText in H.
  destruct (parseTextData _ _ _ _) as [[content c1]|]; [|discriminate].
  injection H as <- <-. cbn [text_isEmpty text_content] in *.
  now destruct (trim content).
Qed.

Lemma strip_pushNode DEV c nodes n :
  DEV = true \/ notComment n = true ->
  (forall t, n = TEXT t -> text_isEmpty t = true ->
             strip (loc_source (text_loc t)) = []) ->
  strip (sources (pushNode DEV c nodes n))
  = strip (sources nodes) ++ strip (loc_source (node_loc n)).
Proof.
  intros Hd Ht. destruct (dropped DEV c n) eqn:D.
  - rewrite pushNode_dropped by exact D.
    unfold dropped in D. apply orb_prop in D as [D|D].
    + apply andb_prop in D as [D1 D2].
      destruct Hd as [->|Hd]; [discriminate|].
      destruct n; discriminate.
    + apply andb_prop in D as [_ D]. destruct n as [|t| |]; try discriminate.
      cbn [node_loc]. now rewrite (Ht t eq_refl D), app_nil_r.
  - now rewrite sources_pushNode_kept, strip_app.
Qed.

Lemma strip_fold_pushNode DEV c ns :
  DEV = true \/ forallb notComment ns = true ->
  forallb notText ns = true ->
  forall nodes,
    strip (sources (fold_left (pushNode DEV c) ns nodes))
    = strip (sources nodes) ++ strip (sources ns).
Proof.
  induction ns as [|n ns IH]; intros Hd Ht nodes.
  - cbn. now rewrite app_nil_r.
  - cbn [fold_left]. cbn [forallb] in Ht. apply andb_prop in Ht as [Ht1 Ht2].
    rewrite IH, strip_pushNode.
    + rewrite <- app_assoc, <- strip_app. reflexivity.
    + destruct Hd as [Hd|Hd]; [now left|right].
      cbn in Hd. now apply andb_prop in Hd.
    + intros t ->. discriminate.
    + destruct Hd as [Hd|Hd]; [now left|right].
      cbn in Hd. now apply andb_prop in Hd.
    + exact Ht2.
Qed.

Section StripChildren.

Variable toLowerCase : jsstring -> jsstring.
Variable parseChildren :
  ParserContext -> TextModes -> list ElementNode ->
  option (list TemplateChildNode * ParserContext).
Hypothesis parseChildren_advances :
  forall c mode ancestors nodes c',
    parseChildren c mode ancestors = Some (nodes, c') -> advances c c'.

Lemma parseChildren_turn_notText fuel c mode ancestors nodes c1 :
  parseChildren_turn toLowerCase parseChildren fuel c mode ancestors
  = Some (Produced nodes, c1) ->
  match last ancestors with
  | Some p => ns p = Namespaces_HTML
  | None => True
  end ->
  forallb notText nodes = true.
Proof.
  unfold parseChildren_turn. intros H Hns.
  cbv beta zeta in H.
  match type of H with
  | context [negb (?t =? Namespaces_HTML)] =>
      assert (Hns' : (t =? Namespaces_HTML) = true)
        by (destruct (last ancestors); [rewrite Hns|]; reflexivity)
  end.
  rewrite Hns' in H. cbn [negb] in H. clear Hns Hns'.
  repeat (first [discriminate H | step_in H ltac:(fun x =>
    let E := fresh "E" in destruct x eqn:E)]).
  all: injection H as <- <-; reflexivity.
Qed.

Lemma parseChildren_iteration_strip DEV fuel c mode ancestors nodes nodes'
    c1 :
  parseChildren_iteration toLowerCase DEV parseChildren fuel c mode
    ancestors nodes = Some (nodes', c1) ->
  synced c -> ~ In 38 (source c) ->
  match last ancestors with
  | Some p => ns p = Namespaces_HTML
  | None => True
  end ->
  (exists e, In e (reported c1) /\ strayEndTag (err_code e) = true)
  \/ (DEV = false /\ (reported c1 <> [] \/ In 33 (source c)))
  \/ strip (sources nodes')
     = strip (sources nodes)
       ++ strip (slice (originalSource c) (offset (cursor c))
                   (offset (cursor c1))).
Proof.
  unfold parseChildren_iteration. intros H Hs Hn Hns.
  destruct (parseChildren_turn _ _ _ _ _ _) as [[turn c2]|] eqn:Et;
    [|discriminate].
  pose proof (parseChildren_turn_cover _ _ parseChildren_advances
                _ _ _ _ _ _ Et Hns) as Hc.
  pose proof Et as Et'.
  apply parseChildren_turn_advances in Et as [Ha Ht];
    [|exact parseChildren_advances].
  destruct turn as [| | ns].
  - injection H as <- <-. now left.
  - destruct Ht as [Ht1 Ht2].
    destruct (parseText _ _ _) as [[t c3]|] eqn:Ex; [|discriminate].
    injection H as <- <-. right. right.
    assert (Hn2 : ~ In 38 (source c2)) by (now rewrite Ht1).
    pose proof (parseText_plain _ _ _ _ _ Ex (synced_advances _ _ Hs Ha) Hn2)
      as [_ Hp].
    apply parseText_advances in Ex as [Ex Hl].
    rewrite strip_pushNode; [|now right|now intros t0 [= <-]].
    cbn [node_loc]. rewrite Hl, selection_source by exact Ex.
    now rewrite (advances_originalSource _ _ Ha), Ht2.
  - injection H as <- <-. destruct Hc as [Hc Hcm].
    apply parseChildren_turn_notText in Et'; [|exact Hns].
    destruct DEV eqn:Edev.
    + right. right.
      rewrite strip_fold_pushNode; [|now left|exact Et']. now rewrite Hc.
    + destruct Hcm as [Hcm|Hcm].
      * right. right.
        rewrite strip_fold_pushNode; [|now right|exact Et'].
        now rewrite Hc.
      * right. left. now split.
Qed.

End StripChildren.

Lemma parseChildren_loop_strip toLowerCase DEV fuel :
  forall c mode ancestors nodes nodes' c',
    parseChildren_loop toLowerCase DEV fuel c mode ancestors nodes
    = Some (nodes', c') ->
    synced c -> ~ In 38 (source c) ->
    match last ancestors with
    | Some p => ns p = Namespaces_HTML
    | None => True
    end ->
    noStrayEndTag (reported c') = true ->
    DEV = true \/ (reported c' = [] /\ ~ In 33 (source c)) ->
    strip (sources nodes')
    = strip (sources nodes)
      ++ strip (slice (originalSource c) (offset (cursor c))
                  (offset (cursor c'))).
Proof.
  induction fuel as [|fuel IH];
    intros c mode ancestors nodes nodes' c' H Hs Hn Hns He Hd;
    cbn [parseChildren_loop] in H;
    (destruct (isEnd _ _ _ _);
     [injection H as <- <-; unfold slice;
      rewrite Z.sub_diag; cbn [Z.to_nat firstn strip filter];
      now rewrite app_nil_r|]);
    [discriminate|].
  destruct (parseChildren_iteration _ _ _ _ _ _ _ _) as [[ns c1]|] eqn:Ei;
    [|discriminate].
  assert (Hadv : forall c0 m a ns0 c0',
             parseChildren_loop toLowerCase DEV fuel c0 m a [] = Some (ns0, c0')
             -> advances c0 c0').
  { intros c0 m a ns0 c0' Hr. eapply parseChildren_loop_advances. exact Hr. }
  pose proof (parseChildren_iteration_strip toLowerCase _ Hadv _ _ _ _ _ _ _ _
                Ei Hs Hn Hns) as Hc.
  apply parseChildren_iteration_advances in Ei as [Ha _]; [|exact Hadv].
  pose proof (parseChildren_loop_advances _ _ _ _ _ _ _ _ _ H) as Ha2.
  destruct Hc as [(e & He1 & He2)|[(Hf & Hc)|Hc]].
  { apply (advances_reported _ _ _ Ha2) in He1.
    rewrite (noStrayEndTag_In _ _ He He1) in He2. discriminate. }
  { destruct Hd as [Hd|[Hd1 Hd2]]; [congruence|].
    destruct Hc as [Hc|Hc]; [|contradiction].
    destruct (reported c1) as [|e l] eqn:Er; [now elim Hc|].
    assert (Hin : In e (reported c')).
    { apply (advances_reported _ _ _ Ha2). rewrite Er. now left. }
    rewrite Hd1 in Hin. contradiction. }
  apply IH in H; [|exact (synced_advances _ _ Hs Ha)
                  |intros Hin; apply Hn;
                   eapply advances_source_In; eassumption
                  |exact Hns|exact He|].
  - rewrite H, Hc, <- app_assoc, <- strip_app. f_equal. f_equal.
    rewrite (advances_originalSource _ _ Ha).
    apply slice_slice; [now destruct Hs| |].
    + now destruct Ha as (_ & _ & _ & Ha & _).
    + now destruct Ha2 as (_ & _ & _ & Ha2 & _).
  - destruct Hd as [Hd|[Hd1 Hd2]]; [now left|right].
    split; [exact Hd1|]. intros Hin. apply Hd2.
    eapply advances_source_In; eassumption.
Qed.


(** X1: whatever the options, the default ones included, when the parse
    reports no stray end tag and, in a production build, nothing at all on
    an input without an exclamation mark, the sources of the children of
    the root of an input without an ampersand, put end to end, are the
    input up to whitespace: the two are the same once the whitespace is
    removed from both. *)
Theorem sources_up_to_whitespace :
  forall toLowerCase DEV fuel content options root errors,
    parse toLowerCase DEV fuel content options = Some (root, errors) ->
    ~ In 38 content ->
    noStrayEndTag errors = true ->
    DEV = true \/ (errors = [] /\ ~ In 33 content) ->
    strip (sources (root_children root)) = strip content.
Proof.
  intros toLowerCase DEV fuel content options root errors H Hn He Hd.
  unfold parse, parseChildren in H.
  destruct (parseChildren_loop _ _ _ _ _ _ _) as [[nodes c']|] eqn:E;
    [|discriminate].
  injection H as <- <-. cbn [root_children].
  pose proof (parseChildren_loop_isEnd _ _ _ _ _ _ _ _ _ E) as Hend.
  apply isEnd_root in Hend.
  pose proof (parseChildren_loop_advances _ _ _ _ _ _ _ _ _ E)
    as (_ & _ & _ & A4 & A5 & _).
  assert (Hw : slice content 0 (offset (cursor c')) = content).
  { apply slice_whole.
    rewrite Hend in A5. cbn [createParserContext cursor offset source] in A5.
    rewrite Z.sub_0_r in A5.
    apply (f_equal (@List.length _)) in A5. rewrite length_skipn in A5.
    cbn [List.length] in A5. lia. }
  apply parseChildren_loop_strip in E;
    [|split; [cbn; lia|reflexivity]|exact Hn|exact I|exact He|exact Hd].
  rewrite E. cbn [sources map List.concat app createParserContext
                  originalSource cursor offset strip filter].
  now rewrite Hw.
Qed.

Lemma sources_up_to_whitespace_witness :
  exists root errors,
    parse asciiToLowerCase false 40 divHello noOptions = Some (root, errors)
    /\ strip (sources (root_children root)) = strip divHello.
Proof.
  destruct (parse asciiToLowerCase false 40 divHello noOptions)
    as [[root errors]|] eqn:E.
  - exists root, errors. split; [reflexivity|].
    pose proof E as E'. vm_compute in E'. injection E' as <- <-.
    apply (sources_up_to_whitespace asciiToLowerCase false 40 divHello
             noOptions _ _ E); [|reflexivity|].
    + vm_compute. intros H.
      repeat (destruct H as [H|H]; [discriminate H|]). exact H.
    + right. split; [reflexivity|].
      vm_compute. intros H.
      repeat (destruct H as [H|H]; [discriminate H|]). exact H.
  - vm_compute in E. discriminate E.
Defined.

(** ** Invariants of the tree *)
Lemma dropped_notText_notComment DEV c n :
  notText n = true -> notComment n = true -> dropped DEV c n = false.
Proof.
  unfold dropped. destruct n; try discriminate; intros _ _;
    now rewrite !andb_false_r.
Qed.

Section TreeInvariant.

Variable toLowerCase : jsstring -> jsstring.
Variable DEV : bool.
Variable inv : ParserContext -> Prop.
Variable keep : TemplateChildNode -> bool.

Hypothesis inv_advances : forall a c, inv a -> advances a c -> inv c.
Hypothesis keep_merge :
  forall prev t,
    keep (TEXT prev) = true -> keep (TEXT t) = true ->
    touching (TEXT prev) (TEXT t) = true ->
    keep (TEXT (mergeText prev t)) = true.
Hypothesis keep_text :
  forall fuel c mode t c',
    inv c -> parseText fuel c mode = Some (t, c') ->
    dropped DEV c' (TEXT t) = false -> keep (TEXT t) = true.
Hypothesis keep_other :
  forall c c' n,
    inv c -> advances c c' -> notText n = true ->
    node_loc n = getSelection c' (cursor c) None ->
    dropped DEV c' n = false -> keep n = true.

Lemma pushNode_everywhere c nodes n :
  forallb (everywhere keep) nodes = true ->
  (dropped DEV c n = false -> everywhere keep n = true) ->
  forallb (everywhere keep) (pushNode DEV c nodes n) = true.
Proof.
  intros Hn Hk. destruct (dropped DEV c n) eqn:Hd.
  { now rewrite pushNode_dropped. }
  specialize (Hk eq_refl). rewrite pushNode_kept by exact Hd.
  assert (Hpush : forallb (everywhere keep) (nodes ++ [n]) = true)
    by (now rewrite forallb_snoc, Hn, Hk).
  destruct (rev nodes) as [|y r] eqn:Er; [exact Hpush|].
  destruct y as [| prev | |]; try exact Hpush.
  destruct n as [| t | |]; try exact Hpush.
  destruct (touching _ _) eqn:Et; [|exact Hpush].
  apply rev_eq_cons in Er. subst nodes.
  rewrite forallb_snoc in *. apply andb_prop in Hn as [Hn1 Hn2].
  rewrite Hn1. cbn [everywhere andb] in *. rewrite andb_true_r in *.
  now apply keep_merge.
Qed.

Lemma fold_pushNode_everywhere c ns :
  forall nodes,
    forallb (everywhere keep) nodes = true ->
    (forall n, In n ns -> dropped DEV c n = false ->
               everywhere keep n = true) ->
    forallb (everywhere keep) (fold_left (pushNode DEV c) ns nodes) = true.
Proof.
  induction ns as [|n ns IH]; intros nodes Hn Hk; [exact Hn|].
  cbn [fold_left]. apply IH.
  - apply pushNode_everywhere; [exact Hn|]. apply Hk. now left.
  - intros m Hm. apply Hk. now right.
Qed.

Section Children.

Variable parseChildren :
  ParserContext -> TextModes -> list ElementNode ->
  option (list TemplateChildNode * ParserContext).
Hypothesis parseChildren_advances :
  forall c mode ancestors nodes c',
    parseChildren c mode ancestors = Some (nodes, c') -> advances c c'.
Hypothesis parseChildren_everywhere :
  forall c mode ancestors nodes c',
    inv c -> parseChildren c mode ancestors = Some (nodes, c') ->
    forallb (everywhere keep) nodes = true.

Lemma parseElement_everywhere fuel c ancestors e c' :
  inv c ->
  parseElement toLowerCase parseChildren fuel c ancestors = Some (e, c') ->
  everywhere keep (ELEMENT e) = true.
Proof.
  intros Hi H. cbn [everywhere].
  pose proof (parseElement_advances _ _ parseChildren_advances _ _ _ _ _ H)
    as (Ha & _ & Hl).
  rewrite (keep_other c c' (ELEMENT e) Hi Ha eq_refl Hl)
    by (now apply dropped_notText_notComment).
  cbn [andb]. unfold parseElement in H.
  destruct (parseTag _ _ _ _) as [[el c1]|] eqn:Et; [|discriminate].
  pose proof (parseTag_children _ _ _ _ _ _ Et) as Hc.
  apply parseTag_advances in Et as (Ha1 & _).
  destruct (_ || _).
  { injection H as <- _. now rewrite Hc. }
  destruct (parseChildren _ _ _) as [[ch c2]|] eqn:Ec; [|discriminate].
  apply parseChildren_everywhere in Ec; [|now apply (inv_advances c)].
  match type of H with
  | match ?x with _ => _ end = _ => destruct x; [|discriminate]
  end.
  injection H as <- _. exact Ec.
Qed.

Lemma parseChildren_turn_everywhere fuel c mode ancestors ns c1 :
  inv c ->
  parseChildren_turn toLowerCase parseChildren fuel c mode ancestors
  = Some (Produced ns, c1) ->
  forall n, In n ns -> dropped DEV c1 n = false -> everywhere keep n = true.
Proof.
  unfold parseChildren_turn. intros Hi H.
  cbv beta zeta in H.
  destruct (startsWith (source c) (fst (delimiters (options c)))) eqn:Ed.
  { destruct (parseInterpolation _ _ _) as [[node c2]|] eqn:Ei;
      [|discriminate].
    apply parseInterpolation_advances in Ei as [I1 I2]; [|exact Ed].
    destruct node; [|discriminate]. injection H as <- <-.
    destruct I2 as [I2 _].
    intros n [<-|[]] Hd. cbn [everywhere]. rewrite andb_true_r.
    now apply (keep_other c c2). }
  clear Ed.
  repeat (first [discriminate H | step_in H ltac:(fun x =>
    lazymatch x with
    | parseElement _ _ _ _ _ =>
        let E := fresh "E" in
        destruct x as [[? ?]|] eqn:E;
        [apply (parseElement_everywhere _ _ _ _ _ Hi) in E|]
    | parseCDATA _ _ _ =>
        let E := fresh "E" in
        destruct x as [[? ?]|] eqn:E
    | parseComment _ _ =>
        let E := fresh "E" in
        destruct x as [[? ?]|] eqn:E;
        [apply parseComment_advances in E as (? & ? & ?)|]
    | parseTag _ _ _ _ =>
        let E := fresh "E" in
        destruct x as [[? ?]|] eqn:E
    | parseBogusComment ?b =>
        let B := fresh "B" in
        pose proof (parseBogusComment_advances b) as B;
        destruct x as [? ?]; destruct B as (? & ? & ?)
    | _ => let E := fresh "E" in destruct x eqn:E
    end)]).
  all: injection H as <- <-.
  all: try (intros n [<-|[]] Hd; first
    [ assumption
    | cbn [everywhere]; rewrite andb_true_r;
      match goal with
      | Ha : advances (emitError ?a ?code ?o) ?p |- _ =>
          apply (keep_other a p);
          [exact Hi|exact (advances_from_emitError _ _ _ _ Ha)
          |reflexivity| |exact Hd]
      | Ha : advances ?a ?p |- _ =>
          apply (keep_other a p); [exact Hi|exact Ha|reflexivity| |exact Hd]
      end; cbn [node_loc]; assumption ]).
  (* CDATA *)
  unfold parseCDATA in *.
  match goal with
  | E : match parseChildren ?a ?m ?anc with _ => _ end = _ |- _ =>
      destruct (parseChildren a m anc) as [[ch c2]|] eqn:Ec; [|discriminate];
      apply parseChildren_everywhere in Ec;
      [|apply (inv_advances c); [exact Hi|];
        apply advances_advanceBy; [apply advances_refl|lia]];
      destruct (source c2); injection E as <- _
  end.
  all: intros n Hn _; rewrite forallb_forall in Ec; now apply Ec.
Qed.

Lemma parseChildren_iteration_everywhere fuel c mode ancestors nodes nodes'
    c1 :
  inv c ->
  parseChildren_iteration toLowerCase DEV parseChildren fuel c mode
    ancestors nodes = Some (nodes', c1) ->
  forallb (everywhere keep) nodes = true ->
  forallb (everywhere keep) nodes' = true.
Proof.
  unfold parseChildren_iteration. intros Hi H Hn.
  destruct (parseChildren_turn _ _ _ _ _ _) as [[turn c2]|] eqn:Et;
    [|discriminate].
  pose proof Et as Et'.
  apply parseChildren_turn_advances in Et as [Ha Ht];
    [|exact parseChildren_advances].
  destruct turn as [| | ns].
  - now injection H as <- _.
  - destruct (parseText _ _ _) as [[t c3]|] eqn:Ex; [|discriminate].
    injection H as <- <-. apply pushNode_everywhere; [exact Hn|].
    intros Hd. cbn [everywhere]. rewrite andb_true_r.
    eapply keep_text; [|exact Ex|exact Hd]. now apply (inv_advances c).
  - injection H as <- <-. apply fold_pushNode_everywhere; [exact Hn|].
    now apply (parseChildren_turn_everywhere _ _ _ _ _ _ Hi Et').
Qed.

End Children.

Lemma parseChildren_loop_everywhere fuel :
  forall c mode ancestors nodes nodes' c',
    inv c ->
    parseChildren_loop toLowerCase DEV fuel c mode ancestors nodes
    = Some (nodes', c') ->
    forallb (everywhere keep) nodes = true ->
    forallb (everywhere keep) nodes' = true.
Proof.
  induction fuel as [|fuel IH]; intros c mode ancestors nodes nodes' c'
    Hi H Hn; cbn [parseChildren_loop] in H.
  - destruct (isEnd _ _ _ _); [|discriminate].
    now injection H as <- _.
  - destruct (isEnd _ _ _ _); [now injection H as <- _|].
    destruct (parseChildren_iteration _ _ _ _ _ _ _ _) as [[ns c1]|] eqn:Ei;
      [|discriminate].
    assert (Hadv : forall c0 m a ns0 c0',
               parseChildren_loop toLowerCase DEV fuel c0 m a []
               = Some (ns0, c0') -> advances c0 c0').
    { intros c0 m a ns0 c0' Hr. eapply parseChildren_loop_advances.
      exact Hr. }
    pose proof (parseChildren_iteration_advances _ _ Hadv _ _ _ _ _ _ _ _ Ei)
      as [Ha _].
    eapply IH; [|exact H|].
    + now apply (inv_advances c).
    + eapply parseChildren_iteration_everywhere; [exact Hadv| |exact Hi
                                                  |exact Ei|exact Hn].
      intros c0 m a r c0' Hi0 Hr. eapply IH; [exact Hi0|exact Hr|reflexivity].
Qed.

Lemma parse_everywhere fuel content options root errors :
  inv (createParserContext content options) ->
  parse toLowerCase DEV fuel content options = Some (root, errors) ->
  forallb (everywhere keep) (root_children root) = true.
Proof.
  intros Hi H. unfold parse, parseChildren in H.
  destruct (parseChildren_loop _ _ _ _ _ _ _) as [[nodes c]|] eqn:E;
    [|discriminate].
  injection H as <- _. cbn [root_children].
  eapply parseChildren_loop_everywhere; [exact Hi|exact E|reflexivity].
Qed.

End TreeInvariant.

Lemma str_eqb_eq a : forall b, str_eqb a b = true <-> a = b.
Proof.
  induction a as [|x a IH]; intros [|y b]; cbn [str_eqb];
    try (split; [discriminate|discriminate]); [now split|].
  rewrite andb_true_iff, Z.eqb_eq, IH.
  split; [intros [-> ->]; reflexivity|intros [= -> ->]; now split].
Qed.

Lemma located_selection orig c c' n :
  originalSource c = orig -> 0 <= offset (cursor c) -> advances c c' ->
  node_loc n = getSelection c' (cursor c) None ->
  located orig n = true.
Proof.
  intros Ho H0 Ha Hl. unfold located. rewrite Hl.
  cbn [getSelection loc_start loc_end loc_source orElse]. unfold getCursor.
  rewrite (advances_originalSource _ _ Ha), Ho.
  destruct Ha as (_ & _ & _ & Ha & _).
  apply andb_true_intro. split; [apply andb_true_intro; split|].
  - now apply Z.leb_le.
  - now apply Z.leb_le.
  - now apply str_eqb_eq.
Qed.

(** X2: every node of a children list that [parse] returns, at every
    depth (the children of the root, their children, and so on), has for
    source the part of the input between the offsets of its start and of
    its end, which are in this order; the TEXT nodes that [pushNode]
    merged too.  The props of an element and what they hold are not
    children and are not covered. *)
Theorem children_located :
  forall toLowerCase DEV fuel content options root errors,
    parse toLowerCase DEV fuel content options = Some (root, errors) ->
    forallb (everywhere (located content)) (root_children root) = true.
Proof.
  intros toLowerCase DEV fuel content options root errors H.
  apply (parse_everywhere toLowerCase DEV
           (fun c => originalSource c = content /\ 0 <= offset (cursor c))
           (located content)) in H; [exact H| | | | |].
  - intros a c [Ho H0] Ha. split.
    + now rewrite (advances_originalSource _ _ Ha).
    + destruct Ha as (_ & _ & _ & Ha & _). lia.
  - intros prev t Hp Ht Htouch. unfold located in *.
    cbn [node_loc mergeText text_loc loc_start loc_end loc_source] in *.
    cbn [touching] in Htouch. apply Z.eqb_eq in Htouch.
    apply andb_prop in Hp as [Hp Hp3]. apply andb_prop in Hp as [Hp1 Hp2].
    apply andb_prop in Ht as [Ht Ht3]. apply andb_prop in Ht as [Ht1 Ht2].
    apply Z.leb_le in Hp1, Hp2, Ht1, Ht2.
    apply str_eqb_eq in Hp3, Ht3.
    apply andb_true_intro. split; [apply andb_true_intro; split|].
    + now apply Z.leb_le.
    + apply Z.leb_le. lia.
    + apply str_eqb_eq. rewrite Hp3, Ht3, Htouch.
      apply slice_slice; lia.
  - intros f c mode t c' [Ho H0] Hx _.
    apply parseText_advances in Hx as [Ha Hl].
    now apply (located_selection content c c').
  - intros c c' n [Ho H0] Ha _ Hl _.
    now apply (located_selection content c c').
  - split; [reflexivity|cbn; lia].
Qed.

Lemma children_located_witness :
  exists root errors,
    parse asciiToLowerCase false 40 divHello noOptions = Some (root, errors)
    /\ forallb (everywhere (located divHello)) (root_children root) = true.
Proof.
  destruct (parse asciiToLowerCase false 40 divHello noOptions)
    as [[root errors]|] eqn:E.
  - exists root, errors. split; [reflexivity|].
    exact (children_located asciiToLowerCase false 40 divHello noOptions
             root errors E).
  - vm_compute in E. discriminate E.
Defined.

(** X3: in a production build the tree that [parse] returns holds no
    COMMENT node, at any depth. *)
Theorem production_has_no_comment :
  forall toLowerCase fuel content options root errors,
    parse toLowerCase false fuel content options = Some (root, errors) ->
    forallb (everywhere notComment) (root_children root) = true.
Proof.
  intros toLowerCase fuel content options root errors H.
  apply (parse_everywhere toLowerCase false (fun _ => True) notComment)
    in H; [exact H| | | | |].
  - trivial.
  - reflexivity.
  - reflexivity.
  - intros c c' n _ _ _ _ Hd. unfold dropped in Hd.
    apply orb_false_elim in Hd as [Hd _]. now destruct n.
  - exact I.
Qed.

Lemma production_has_no_comment_witness :
  exists root errors,
    parse asciiToLowerCase false 40 (js "<!--x--><p><!--y-->a</p>") noOptions
    = Some (root, errors)
    /\ forallb (everywhere notComment) (root_children root) = true.
Proof.
  destruct (parse asciiToLowerCase false 40 (js "<!--x--><p><!--y-->a</p>")
              noOptions) as [[root errors]|] eqn:E.
  - exists root, errors. split; [reflexivity|].
    exact (production_has_no_comment asciiToLowerCase 40
             (js "<!--x--><p><!--y-->a</p>") noOptions root errors E).
  - vm_compute in E. discriminate E.
Defined.

Lemma trimStart_all s :
  forallb isTrimSpace s = true -> trimStart s = [].
Proof.
  induction s as [|c s IH]; [reflexivity|]. cbn [forallb trimStart].
  intros H. apply andb_prop in H as [-> H]. now apply IH.
Qed.

Lemma trim_nil_iff s : trim s = [] <-> forallb isTrimSpace s = true.
Proof.
  split.
  - intros H. apply forallb_forall. intros x Hx.
    unfold trim in H.
    apply (f_equal (@rev Z)) in H. rewrite rev_involutive in H.
    cbn [rev] in H.
    destruct (trimStart s) as [|c r] eqn:E.
    + now apply (trimStart_blank s).
    + apply trimStart_head in E.
      rewrite (trimStart_blank _ H c) in E; [discriminate|].
      apply in_rev. rewrite rev_involutive. now left.
  - intros H. unfold trim. now rewrite (trimStart_all _ H).
Qed.

Lemma nonspace_trim s :
  existsb (fun c => negb (isTrimSpace c)) s = true <-> trim s <> [].
Proof.
  rewrite trim_nil_iff. split.
  - intros H Hall. apply existsb_exists in H as (x & Hx & Hn).
    rewrite forallb_forall in Hall. rewrite (Hall x Hx) in Hn. discriminate.
  - intros H. destruct (existsb _ s) eqn:E; [reflexivity|]. elim H.
    apply forallb_forall. intros x Hx.
    destruct (isTrimSpace x) eqn:Ex; [reflexivity|].
    assert (existsb (fun c => negb (isTrimSpace c)) s = true).
    { apply existsb_exists. exists x. split; [exact Hx|now rewrite Ex]. }
    congruence.
Qed.

(** X4: under [ignoreSpaces] no children list of the tree that [parse]
    returns, at any depth, holds a whitespace-only TEXT node: every TEXT
    child is marked not empty and its content has a unit that is not
    whitespace.  The TEXT value of an attribute is no child and is not
    covered. *)
Theorem ignoreSpaces_leaves_no_blank_text :
  forall toLowerCase DEV fuel content options root errors,
    parse toLowerCase DEV fuel content options = Some (root, errors) ->
    ignoreSpaces (mergeOptions options) = true ->
    forallb (everywhere nonBlank) (root_children root) = true.
Proof.
  intros toLowerCase DEV fuel content opts root errors H Hi.
  apply (parse_everywhere toLowerCase DEV
           (fun c => ignoreSpaces (options c) = true) nonBlank)
    in H; [exact H| | | | |].
  - intros a c Ha (Ho & _). now rewrite Ho.
  - intros prev t Hp Ht _. cbn [nonBlank mergeText text_isEmpty text_content]
      in *.
    apply andb_prop in Hp as [_ Hp].
    assert (He : existsb (fun c => negb (isTrimSpace c))
                   (text_content prev ++ text_content t) = true)
      by (now rewrite existsb_app, Hp).
    rewrite He, andb_true_r.
    apply nonspace_trim in He. apply negb_true_iff, Z.eqb_neq.
    destruct (trim _) as [|x l]; [now elim He|]. rewrite len_cons.
    pose proof (len_nonneg l). lia.
  - intros f c mode t c' Hc Hx Hd.
    pose proof (parseText_advances _ _ _ _ _ Hx) as [(Ho & _) _].
    unfold dropped in Hd. rewrite Ho, Hc in Hd.
    apply orb_false_elim in Hd as [_ Hd]. cbn [andb] in Hd.
    cbn [nonBlank]. rewrite Hd. cbn [negb andb].
    unfold parseText in Hx.
    destruct (parseTextData _ _ _ _) as [[text c1]|]; [|discriminate].
    injection Hx as <- _. cbn [text_content text_isEmpty] in *.
    apply nonspace_trim. now destruct (trim text).
  - intros c c' n _ _ Hn _ _. now destruct n.
  - exact Hi.
Qed.

Lemma ignoreSpaces_leaves_no_blank_text_witness :
  exists root errors,
    parse asciiToLowerCase true 20 twoElements noOptions
    = Some (root, errors)
    /\ forallb (everywhere nonBlank) (root_children root) = true.
Proof.
  destruct (parse asciiToLowerCase true 20 twoElements noOptions)
    as [[root errors]|] eqn:E.
  - exists root, errors. split; [reflexivity|].
    exact (ignoreSpaces_leaves_no_blank_text asciiToLowerCase true 20
             twoElements noOptions root errors E eq_refl).
  - vm_compute in E. discriminate E.
Defined.

(** ** Plain text *)

Lemma find_from_none p s :
  forall base, 0 <= base ->
    (find_from p s base = -1
     <-> forall k, (k <= List.length s)%nat -> p (skipn k s) = false).
Proof.
  induction s as [|c s IH]; intros base Hb; cbn [find_from].
  - destruct (p []) eqn:E.
    + split; [lia|]. intros H. specialize (H 0%nat (Nat.le_refl _)).
      cbn in H. congruence.
    + split; [|reflexivity]. intros _ k _. now destruct k.
  - destruct (p (c :: s)) eqn:E.
    + split; [lia|]. intros H. specialize (H 0%nat (Nat.le_0_l _)).
      cbn in H. congruence.
    + rewrite IH by lia. split.
      * intros H [|k] Hk; [exact E|]. cbn [skipn]. apply H.
        cbn in Hk. lia.
      * intros H k Hk. apply (H (S k)). cbn. lia.
Qed.

Lemma indexOf_none s p position :
  indexOf s p position = -1
  <-> forall k, (Z.to_nat (Z.min (Z.max position 0) (len s)) <= k
                 <= List.length s)%nat ->
                startsWith (skipn k s) p = false.
Proof.
  unfold indexOf.
  set (j := Z.min (Z.max position 0) (len s)).
  assert (Hj : 0 <= j <= len s) by (pose proof (len_nonneg s); lia).
  rewrite find_from_none by lia. rewrite length_skipn.
  unfold len in Hj. split.
  - intros H k Hk.
    specialize (H (k - Z.to_nat j)%nat ltac:(lia)).
    rewrite skipn_skipn in H.
    now replace (k - Z.to_nat j + Z.to_nat j)%nat with k in H by lia.
  - intros H k Hk. rewrite skipn_skipn. apply H. lia.
Qed.

Lemma indexOf_none_later s p position position' :
  indexOf s p position = -1 -> position <= position' ->
  indexOf s p position' = -1.
Proof.
  rewrite !indexOf_none. intros H Hp k Hk. apply H. lia.
Qed.

Lemma indexOf_absent s x position : ~ In x s -> indexOf s [x] position = -1.
Proof.
  intros Hn. apply indexOf_none. intros k _.
  destruct (skipn k s) as [|y t] eqn:E; [reflexivity|].
  rewrite startsWith_1. apply Z.eqb_neq. intros ->. apply Hn.
  rewrite <- (firstn_skipn k s), E. apply in_or_app. right. now left.
Qed.

Lemma In_firstn {A} (x : A) n l : In x (firstn n l) -> In x l.
Proof.
  intros H. rewrite <- (firstn_skipn n l). apply in_or_app. now left.
Qed.

Lemma parseTextData_copy fuel c length mode :
  ~ In 38 (firstn (Z.to_nat length) (source c)) -> 0 < length ->
  parseTextData (S fuel) c length mode
  = Some (slice (source c) 0 length, advanceBy c length).
Proof.
  intros Hn Hl. unfold parseTextData.
  destruct (negb (isEntityMode mode)); [reflexivity|].
  rewrite parseTextData_loop_stop.
  - cbn [app]. now replace (offset (cursor c) + length - offset (cursor c))
      with length by lia.
  - lia.
  - intros i h Hh. apply execHead_spec in Hh as (H0 & _ & t & Ht).
    destruct (Z.le_gt_cases length i) as [Hle|Hgt]; [lia|]. elim Hn.
    assert (Hi : nth_error (source c) (Z.to_nat i) = Some 38).
    { rewrite <- (firstn_skipn (Z.to_nat i) (source c)), Ht.
      rewrite nth_error_app2; rewrite length_firstn.
      - replace (_ - _)%nat with 0%nat; [reflexivity|].
        assert (List.length (skipn (Z.to_nat i) (source c)) <> 0)%nat
          by (rewrite Ht; discriminate).
        rewrite length_skipn in H. lia.
      - lia. }
    apply (nth_error_In _ (Z.to_nat i)).
    rewrite nth_error_firstn.
    replace (Z.to_nat i <? Z.to_nat length)%nat with true; [exact Hi|].
    symmetry. apply Nat.ltb_lt. lia.
Qed.

Lemma trim_isBlank s :
  match trim s with [] => true | _ => false end = isBlank s.
Proof.
  unfold isBlank. destruct (forallb isTrimSpace s) eqn:E.
  - apply trim_nil_iff in E. now rewrite E.
  - destruct (trim s) eqn:Et; [|reflexivity].
    apply trim_nil_iff in Et. congruence.
Qed.

Lemma slice_from_len s : slice_from s (len s) = [].
Proof.
  rewrite slice_from_skipn by apply len_nonneg.
  apply skipn_all2. unfold len. lia.
Qed.

(** X5: an input that is not empty and has no [<], no ampersand and no
    occurrence of the opening delimiter is parsed into one TEXT node that
    holds the input as it is and spans it, with no diagnostic; when the
    input is whitespace only and [ignoreSpaces] is on, into no node. *)
Theorem plain_text_parse :
  forall toLowerCase DEV fuel content options,
    content <> [] -> ~ In 60 content -> ~ In 38 content ->
    indexOf content (fst (delimiters (mergeOptions options))) 0 = -1 ->
    exists loc,
      parse toLowerCase DEV (S fuel) content options
      = Some ({| root_children :=
                   if ignoreSpaces (mergeOptions options) && isBlank content
                   then []
                   else [TEXT {| text_content := content;
                                 text_isEmpty := isBlank content;
                                 text_loc := loc |}];
                 root_loc := loc |}, [])
      /\ loc_source loc = content
      /\ offset (loc_start loc) = 0 /\ offset (loc_end loc) = len content.
Proof.
  intros toLowerCase DEV fuel content opts Hne Hlt Hamp Hopen.
  set (c := createParserContext content opts).
  assert (Hs : source c = content) by reflexivity.
  assert (Ho : options c = mergeOptions opts) by reflexivity.
  assert (Hend : isEnd toLowerCase c DATA [] = false).
  { unfold isEnd. rewrite Hs. cbn [rev existsb]. rewrite andb_false_r.
    destruct content; [congruence|reflexivity]. }
  assert (Hd : startsWith content (fst (delimiters (mergeOptions opts)))
               = false).
  { rewrite indexOf_none in Hopen.
    apply (Hopen 0%nat). cbn. pose proof (len_nonneg content).
    rewrite Z.min_l by lia. cbn. lia. }
  assert (Hl : startsWith content (js "<") = false).
  { destruct content as [|x r]; [congruence|]. eval_js.
    rewrite startsWith_1. apply Z.eqb_neq. intros <-. apply Hlt. now left. }
  assert (Hturn : parseChildren_turn toLowerCase
                    (fun context mode ancestors =>
                       parseChildren_loop toLowerCase DEV fuel context mode
                         ancestors [])
                    (S fuel) c DATA [] = Some (Undefined, c)).
  { unfold parseChildren_turn. rewrite Hs, Ho, Hd, Hl. reflexivity. }
  assert (Hlen : 0 < len content).
  { destruct content; [congruence|]. rewrite len_cons.
    pose proof (len_nonneg content). lia. }
  assert (Htext : parseText (S fuel) c DATA
                  = Some ({| text_content := content;
                             text_loc :=
                               getSelection (advanceBy c (len content))
                                 (cursor c) None;
                             text_isEmpty := isBlank content |},
                          advanceBy c (len content))).
  { unfold parseText. rewrite Hs, Ho.
    rewrite (indexOf_absent content 60 1 Hlt : indexOf content (js "<") 1 = -1).
    rewrite (indexOf_none_later _ _ 0 1 Hopen) by lia.
    change (filter (fun n => negb (n =? -1)) [-1; -1; -1]) with (@nil Z).
    cbn [fold_right].
    rewrite parseTextData_copy;
      [|rewrite Hs; intros H; apply Hamp;
        exact (In_firstn _ _ _ H)
       |exact Hlen].
    rewrite Hs, slice_whole by (unfold len; lia).
    unfold getCursor. now rewrite trim_isBlank. }
  exists (getSelection (advanceBy c (len content)) (cursor c) None).
  split.
  - unfold parse, parseChildren. fold c. cbn [parseChildren_loop].
    rewrite Hend. unfold parseChildren_iteration. rewrite Hturn, Htext.
    assert (Hend2 : forall nodes,
               parseChildren_loop toLowerCase DEV fuel
                 (advanceBy c (len content)) DATA [] nodes
               = Some (nodes, advanceBy c (len content))).
    { intros nodes.
      assert (He : isEnd toLowerCase (advanceBy c (len content)) DATA []
                   = true).
      { unfold isEnd. rewrite source_advanceBy, Hs, slice_from_len.
        reflexivity. }
      destruct fuel; cbn [parseChildren_loop]; now rewrite He. }
    rewrite Hend2. unfold getCursor. f_equal. f_equal.
    unfold pushNode. cbn [options advanceBy set_source].
    rewrite Ho. cbn [text_isEmpty andb negb].
    rewrite andb_false_r.
    destruct (ignoreSpaces (mergeOptions opts) && isBlank content);
      reflexivity.
  - cbn [getSelection loc_source loc_start loc_end orElse]. unfold getCursor.
    rewrite offset_advanceBy. cbn [c createParserContext cursor offset
                                   originalSource].
    split; [|split; [reflexivity|lia]].
    apply slice_whole. unfold len. lia.
Qed.

Lemma plain_text_parse_witness :
  exists loc,
    parse asciiToLowerCase true 1 (js "a b") noOptions
    = Some ({| root_children := [TEXT {| text_content := js "a b";
                                         text_isEmpty := false;
                                         text_loc := loc |}];
               root_loc := loc |}, []).
Proof.
  destruct (plain_text_parse asciiToLowerCase true 0 (js "a b") noOptions)
    as (loc & H & _).
  - discriminate.
  - vm_compute. intros H.
    repeat (destruct H as [H|H]; [discriminate H|]). exact H.
  - vm_compute. intros H.
    repeat (destruct H as [H|H]; [discriminate H|]). exact H.
  - reflexivity.
  - exists loc. exact H.
Defined.

(** ** Checks on numeric character references *)

Lemma land_fffe cp :
  0 <= cp ->
  (Z.land cp 0xfffe =? 0xfffe) = (0xfffe <=? cp mod 0x10000).
Proof.
  intros H0.
  assert (H : Z.land cp 0xfffe = 2 * ((cp / 2) mod 32768)).
  { change 0xfffe with (Z.land (Z.lnot (Z.ones 1)) (Z.shiftl (Z.ones 15) 1)).
    rewrite Z.land_assoc, <- Z.ldiff_land.
    rewrite Z.ldiff_ones_r by lia.
    rewrite <- Z.shiftl_land, Z.land_ones by lia.
    rewrite Z.shiftl_mul_pow2, Z.shiftr_div_pow2 by lia.
    change (2 ^ 1) with 2. change (2 ^ 15) with 32768. lia. }
  rewrite H.
  destruct (Z.eqb_spec (2 * ((cp / 2) mod 32768)) 65534) as [E|E];
    destruct (Z.leb_spec 65534 (cp mod 65536)) as [L|L];
    try reflexivity; exfalso; Z.div_mod_to_equations; lia.
Qed.

Lemma codes_emitError c code o :
  codes (reported (emitError c code o)) = codes (reported c) ++ [code].
Proof. unfold codes, emitError, report. cbn. now rewrite map_app. Qed.

Lemma checkCodePoint_checked c cp :
  0 <= cp ->
  snd (checkCodePoint c cp) = fst (checked cp)
  /\ codes (reported (fst (checkCodePoint c cp)))
     = codes (reported c) ++ snd (checked cp)
  /\ source (fst (checkCodePoint c cp)) = source c.
Proof.
  intros H0. unfold checkCodePoint, checked, isSurrogate, isNoncharacter.
  rewrite (land_fffe cp H0).
  fold (isReportedControl cp). unfold remapped.
  repeat match goal with
         | |- context [if ?b then _ else _] =>
             lazymatch b with
             | context [if _ then _ else _] => fail
             | _ => destruct b eqn:?
             end
         end; cbn [fst snd]; rewrite ?codes_emitError, ?app_nil_r;
    try (split; [reflexivity|split; reflexivity]).
  all: destruct (lookupCCR CCR_REPLACEMENTS cp) as [r|] eqn:El;
    cbn [orElse]; try (split; [reflexivity|split; reflexivity]).
  all: try (rewrite (lookupCCR_nonzero _ _ El);
            split; [reflexivity|split; reflexivity]).
Qed.

(** X6: a numeric character reference with its semicolon, decimal or
    hexadecimal, is decoded to U+FFFD when its code point is NUL, above
    0x10FFFF or a surrogate, to the character of the code point otherwise
    (remapped through the C0/C1 table for a reported control), and reports
    the one diagnostic of its kind: none for a code point that is neither a
    noncharacter nor a reported control. *)
Theorem numeric_reference_checked :
  forall fuel c mode hex digits rest,
    isEntityMode mode = true ->
    digits <> [] -> forallb (isDigitOf hex) digits = true ->
    source c = numericReference hex digits ++ rest ->
    exists c',
      parseTextData (S fuel) c (len (numericReference hex digits)) mode
      = Some (fromCodePoint (fst (checked (parseInt digits (radixOf hex)))),
              c')
      /\ codes (reported c')
         = codes (reported c)
           ++ snd (checked (parseInt digits (radixOf hex)))
      /\ source c' = rest.
Proof.
  intros fuel c mode hex digits rest Hm Hn Hd Hs.
  pose proof (parseTextData_numeric fuel c mode hex digits rest Hm Hn Hd Hs)
    as H. cbv zeta in H.
  destruct (checkCodePoint_checked (advanceBy c 0)
              (parseInt digits (radixOf hex)) (parseInt_nonneg hex digits Hd))
    as (H1 & H2 & H3).
  eexists. split; [rewrite H, H1; reflexivity|]. split.
  - exact H2.
  - rewrite source_advanceBy, H3, source_advanceBy, slice_from_0, Hs.
    rewrite slice_from_skipn by apply len_nonneg.
    unfold len. rewrite Nat2Z.id. apply skipn_length_app.
Qed.

Lemma numeric_reference_checked_witness :
  exists c',
    parseTextData 1 (createParserContext (js "&#xD800;z") noOptions) 8 DATA
    = Some ([0xfffd], c')
    /\ codes (reported c') = [SURROGATE_CHARACTER_REFERENCE]
    /\ source c' = js "z".
Proof.
  exact (numeric_reference_checked 0
           (createParserContext (js "&#xD800;z") noOptions) DATA true
           (js "D800") (js "z") eq_refl ltac:(discriminate) eq_refl
           eq_refl).
Defined.

(** ** Ampersands that start no reference *)

Lemma lookupName_nothing c n :
  (forall k, substr (source c) 1 k = []) ->
  truthy (lookupCR (namedCharacterReferences (options c)) []) = false ->
  forall value,
    truthy value = false ->
    exists v, lookupName c n [] value = ([], v) /\ truthy v = false.
Proof.
  intros Hs Ht. induction n as [|n IH]; intros value Hv.
  - exists value. now split.
  - cbn [lookupName]. rewrite Hv, Hs. now apply IH.
Qed.

Lemma parseTextData_reference_only fuel c mode head0 n :
  isEntityMode mode = true ->
  execHead (source c) = Some (0, head0) -> 0 < n ->
  offset (cursor (snd (parseReference (advanceBy c 0) mode head0 [])))
  = offset (cursor c) + n ->
  parseTextData (S fuel) c n mode
  = Some (parseReference (advanceBy c 0) mode head0 []).
Proof.
  intros Hm Hh Hn Ho. unfold parseTextData. rewrite Hm. cbn [negb].
  rewrite (parseTextData_loop_reference _ _ _ _ _ 0 head0 Hh) by lia.
  rewrite slice_0_0. cbn [app].
  destruct (parseReference (advanceBy c 0) mode head0 []) as [text c1].
  cbn [snd] in Ho. apply parseTextData_loop_done. lia.
Qed.

(** X7: an ampersand followed by a unit that is neither alphanumeric nor
    [#] is text and reports nothing; an ampersand that ends the source is
    kept as text too, but UNKNOWN_NAMED_CHARACTER_REFERENCE is reported
    for it. *)
Theorem ampersand_without_name :
  forall fuel c mode,
    isEntityMode mode = true ->
    (source c = js "&" ->
     truthy (lookupCR (namedCharacterReferences (options c)) []) = false ->
     exists c',
       parseTextData (S fuel) c 1 mode = Some (js "&", c')
       /\ codes (reported c')
          = codes (reported c) ++ [UNKNOWN_NAMED_CHARACTER_REFERENCE]
       /\ source c' = [])
    /\ (forall x rest,
          source c = js "&" ++ x :: rest -> isAlnum x = false -> x <> 35 ->
          exists c',
            parseTextData (S fuel) c 1 mode = Some (js "&", c')
            /\ reported c' = reported c
            /\ source c' = x :: rest).
Proof.
  intros fuel c mode Hm. split.
  - intros Hs Ht.
    assert (Hsub : forall k, substr (source (advanceBy c 0)) 1 k = []).
    { intros k. rewrite source_advanceBy, slice_from_0, Hs, substr_1.
      cbn. apply firstn_nil. }
    destruct (lookupName_nothing (advanceBy c 0)
                (Z.to_nat (maxCRNameLength (advanceBy c 0))) Hsub Ht None
                eq_refl) as (v & Hl & Hv).
    assert (Hr : parseReference (advanceBy c 0) mode (js "&") []
                 = (js "&",
                    advanceBy (emitError (advanceBy c 0)
                                 UNKNOWN_NAMED_CHARACTER_REFERENCE None) 1)).
    { unfold parseReference.
      change (str_eqb (js "&") (js "&")) with true. cbv iota.
      rewrite source_advanceBy, slice_from_0, Hs.
      change (charAt (js "&") 1) with (@None Z). cbv iota.
      rewrite Hl, Hv. reflexivity. }
    eexists. split; [|split].
    + rewrite (parseTextData_reference_only fuel c mode (js "&") 1 Hm);
        [rewrite Hr; reflexivity|now rewrite Hs|lia|].
      rewrite Hr. cbn [snd]. rewrite offset_advanceBy.
      cbn [cursor emitError report]. rewrite offset_advanceBy. lia.
    + cbn [reported advanceBy set_source]. rewrite codes_emitError.
      reflexivity.
    + rewrite source_advanceBy. cbn [source emitError report].
      rewrite source_advanceBy, slice_from_0, Hs. reflexivity.
  - intros x rest Hs Hx Hh.
    assert (He : execHead (source c) = Some (0, js "&")).
    { rewrite Hs. unfold execHead. eval_js. cbn [app find_from startsWith].
      eval_eqb. cbn [andb Z.ltb Z.compare Z.to_nat skipn].
      apply Z.eqb_neq in Hh. rewrite Hh. now destruct rest. }
    assert (Hr : parseReference (advanceBy c 0) mode (js "&") []
                 = (js "&", advanceBy (advanceBy c 0) 1)).
    { unfold parseReference.
      change (str_eqb (js "&") (js "&")) with true. cbv iota.
      rewrite source_advanceBy, slice_from_0, Hs.
      change (charAt (js "&" ++ x :: rest) 1) with (Some x). cbv iota.
      rewrite Hx. reflexivity. }
    eexists. split; [|split].
    + rewrite (parseTextData_reference_only fuel c mode (js "&") 1 Hm);
        [rewrite Hr; reflexivity|exact He|lia|].
      rewrite Hr. cbn [snd]. rewrite !offset_advanceBy. lia.
    + reflexivity.
    + rewrite !source_advanceBy, slice_from_0, Hs.
      now rewrite slice_from_skipn by lia.
Qed.

Lemma ampersand_without_name_witness :
  (exists c',
     parseTextData 1 (createParserContext (js "&") noOptions) 1 DATA
     = Some (js "&", c')
     /\ codes (reported c') = [UNKNOWN_NAMED_CHARACTER_REFERENCE])
  /\ (exists c',
        parseTextData 1 (createParserContext (js "& b") noOptions) 1 DATA
        = Some (js "&", c')
        /\ reported c' = []).
Proof.
  split.
  - destruct (proj1 (ampersand_without_name 0
                       (createParserContext (js "&") noOptions) DATA eq_refl)
                eq_refl eq_refl) as (c' & H1 & H2 & _).
    exists c'. split; [exact H1|exact H2].
  - destruct (proj2 (ampersand_without_name 0
                       (createParserContext (js "& b") noOptions) DATA
                       eq_refl)
                32 (js "b") eq_refl eq_refl ltac:(discriminate))
      as (c' & H1 & H2 & _).
    exists c'. split; [exact H1|exact H2].
Defined.

(** ** References without digits *)

Lemma startsWith_app p s : startsWith (p ++ s) p = true.
Proof.
  induction p as [|x p IH]; [apply startsWith_nil|].
  cbn. now rewrite Z.eqb_refl, IH.
Qed.

Lemma span_none p s :
  match s with x :: _ => p x = false | [] => True end ->
  span p s = ([], s).
Proof. destruct s as [|x s]; [reflexivity|]. cbn. now intros ->. Qed.

(** X8: [&#] before a unit that is neither a digit nor [x] or [X], [&#x]
    before a unit that is no hexadecimal digit, and [&#X] before anything:
    the prefix is kept as text and
    ABSENCE_OF_DIGITS_IN_NUMERIC_CHARACTER_REFERENCE is reported; the
    uppercase [X] does not start a hexadecimal reference. *)
Theorem reference_without_digits :
  forall fuel c mode head rest,
    isEntityMode mode = true ->
    source c = head ++ rest ->
    (head = js "&#" /\ noDigitAhead false rest
     /\ ~ startsWith rest (js "x") = true
     /\ ~ startsWith rest (js "X") = true)
    \/ (head = js "&#x" /\ noDigitAhead true rest)
    \/ head = js "&#X" ->
    exists c',
      parseTextData (S fuel) c (len head) mode = Some (head, c')
      /\ codes (reported c')
         = codes (reported c)
           ++ [ABSENCE_OF_DIGITS_IN_NUMERIC_CHARACTER_REFERENCE]
      /\ source c' = rest.
Proof.
  intros fuel c mode head rest Hm Hs Hcase.
  assert (He : execHead (source c) = Some (0, head)
               /\ execNumeric (str_eqb head (js "&#x")) (source c) = None
               /\ str_eqb head (js "&") = false /\ 0 < len head).
  { rewrite Hs. destruct Hcase as [(-> & Hd & Hx1 & Hx2)|[(-> & Hd)| ->]].
    - split; [|split; [|split; [reflexivity|reflexivity]]].
      + destruct rest as [|x rest]; [reflexivity|].
        unfold execHead. eval_js.
        cbn [app find_from startsWith Z.ltb Z.compare Z.to_nat skipn].
        eval_eqb. cbn [andb]. cbn [Z.ltb Z.compare Z.to_nat skipn].
        change (35 =? 35) with true. cbv iota.
        eval_js. rewrite !startsWith_1 in *.
        rewrite (Z.eqb_sym x 120), (Z.eqb_sym x 88).
        destruct (120 =? x); [now elim Hx1|].
        destruct (88 =? x); [now elim Hx2|]. reflexivity.
      + change (str_eqb (js "&#") (js "&#x")) with false.
        unfold execNumeric. rewrite startsWith_app.
        change (skipn 2 (js "&#" ++ rest)) with rest.
        now rewrite (span_none isDigit rest Hd).
    - split; [|split; [|split; [reflexivity|reflexivity]]].
      + now destruct rest.
      + change (str_eqb (js "&#x") (js "&#x")) with true.
        unfold execNumeric. rewrite startsWith_app.
        cbn [orb]. cbv iota.
        change (skipn 3 (js "&#x" ++ rest)) with rest.
        now rewrite (span_none isHexDigit rest Hd).
    - split; [|split; [|split; [reflexivity|reflexivity]]].
      + now destruct rest.
      + reflexivity. }
  destruct He as (He1 & He2 & He3 & He4).
  assert (Hr : parseReference (advanceBy c 0) mode head []
               = (head,
                  advanceBy
                    (emitError (advanceBy c 0)
                       ABSENCE_OF_DIGITS_IN_NUMERIC_CHARACTER_REFERENCE None)
                    (len head))).
  { unfold parseReference. rewrite He3, source_advanceBy, slice_from_0, He2.
    reflexivity. }
  eexists. split; [|split].
  - rewrite (parseTextData_reference_only fuel c mode head (len head) Hm);
      [rewrite Hr; reflexivity|exact He1|exact He4|].
    rewrite Hr. cbn [snd]. rewrite offset_advanceBy.
    cbn [cursor emitError report]. rewrite offset_advanceBy. lia.
  - cbn [reported advanceBy set_source]. rewrite codes_emitError.
    reflexivity.
  - rewrite source_advanceBy. cbn [source emitError report].
    rewrite source_advanceBy, slice_from_0, Hs.
    rewrite slice_from_skipn by apply len_nonneg.
    unfold len. rewrite Nat2Z.id. apply skipn_length_app.
Qed.

Lemma reference_without_digits_witness :
  exists c',
    parseTextData 1 (createParserContext (js "&#X41;") noOptions) 3 DATA
    = Some (js "&#X", c')
    /\ codes (reported c')
       = [ABSENCE_OF_DIGITS_IN_NUMERIC_CHARACTER_REFERENCE]
    /\ source c' = js "41;".
Proof.
  exact (reference_without_digits 0
           (createParserContext (js "&#X41;") noOptions) DATA (js "&#X")
           (js "41;") eq_refl eq_refl (or_intror (or_intror eq_refl))).
Defined.

(** ** Named character references *)

Lemma lookupName_stays c n name value :
  truthy value = true -> lookupName c n name value = (name, value).
Proof. intros H. destruct n; [reflexivity|]. cbn [lookupName]. now rewrite H. Qed.

Lemma startsWith_firstn_app n (name rest : jsstring) :
  (List.length name <= n)%nat ->
  startsWith (firstn n (name ++ rest)) name = true.
Proof.
  revert n. induction name as [|x name IH]; intros n Hn.
  - apply startsWith_nil.
  - destruct n as [|n]; [cbn in Hn; lia|]. cbn [app firstn startsWith].
    rewrite Z.eqb_refl. apply IH. cbn in Hn. lia.
Qed.

Lemma lookupName_longest c name value rest :
  source c = js "&" ++ name ++ rest ->
  lookupCR (namedCharacterReferences (options c)) name = Some value ->
  value <> [] -> name <> [] ->
  (forall k, lookupCR (namedCharacterReferences (options c)) k <> None ->
             startsWith k name = true -> k = name) ->
  forall n, (List.length name <= n)%nat ->
    forall name0 value0,
      truthy value0 = false ->
      lookupName c n name0 value0 = (name, Some value).
Proof.
  intros Hs Hl Hv Hn Hp.
  assert (Ht : truthy (Some value) = true) by (now destruct value).
  induction n as [|n IH]; intros Hle name0 value0 H0.
  { destruct name; [congruence|cbn in Hle; lia]. }
  cbn [lookupName]. rewrite H0, substr_1, Hs.
  change (skipn 1 (js "&" ++ name ++ rest)) with (name ++ rest).
  rewrite Nat2Z.id.
  pose proof (startsWith_firstn_app (S n) name rest Hle) as Hsw.
  destruct (lookupCR _ (firstn (S n) (name ++ rest))) as [v|] eqn:E.
  - assert (Hk : firstn (S n) (name ++ rest) = name)
      by (apply Hp; [congruence|exact Hsw]).
    rewrite Hk in E |- *.
    rewrite Hl in E. injection E as <-. now apply lookupName_stays.
  - apply IH; [|reflexivity].
    destruct (Nat.eq_dec (List.length name) (S n)) as [Heq|Hneq]; [|lia].
    rewrite <- Heq, firstn_app, Nat.sub_diag, firstn_all in E.
    cbn [firstn] in E. rewrite app_nil_r in E. congruence.
Qed.

(** X9: a named character reference whose name ends in a semicolon and
    has a value in the table, no longer name of the table starting with
    it, is decoded to that value in DATA, RCDATA and ATTRIBUTE_VALUE mode
    alike and reports nothing. *)
Theorem named_reference_decoded :
  forall fuel c mode name value rest,
    isEntityMode mode = true ->
    source c = js "&" ++ name ++ rest ->
    lookupCR (namedCharacterReferences (options c)) name = Some value ->
    value <> [] ->
    match name with x :: _ => isAlnum x = true | [] => False end ->
    endsWith name (js ";") = true ->
    len name <= maxCRNameLength c ->
    (forall k, lookupCR (namedCharacterReferences (options c)) k <> None ->
               startsWith k name = true -> k = name) ->
    exists c',
      parseTextData (S fuel) c (1 + len name) mode = Some (value, c')
      /\ reported c' = reported c
      /\ source c' = rest.
Proof.
  intros fuel c mode name value rest Hm Hs Hl Hv Hh Hsemi Hmax Hp.
  destruct name as [|x name']; [contradiction|].
  set (name := x :: name') in *.
  assert (Hx : x <> 35) by (intros ->; discriminate Hh).
  assert (He : execHead (source c) = Some (0, js "&")).
  { rewrite Hs. unfold execHead, name. eval_js.
    cbn [app find_from startsWith]. eval_eqb.
    cbn [andb Z.ltb Z.compare Z.to_nat skipn].
    apply Z.eqb_neq in Hx. rewrite Hx. now destruct (name' ++ rest). }
  assert (Hr : parseReference (advanceBy c 0) mode (js "&") []
               = (value, advanceBy (advanceBy c 0) (1 + len name))).
  { unfold parseReference.
    change (str_eqb (js "&") (js "&")) with true. cbv iota.
    rewrite source_advanceBy, slice_from_0, Hs.
    change (charAt (js "&" ++ name ++ rest) 1) with (Some x). cbv iota.
    rewrite Hh.
    assert (Hs0 : source (advanceBy c 0) = js "&" ++ name ++ rest)
      by (now rewrite source_advanceBy, slice_from_0).
    assert (Hle : (List.length name <= Z.to_nat (maxCRNameLength c))%nat)
      by (unfold len in Hmax; lia).
    change (maxCRNameLength (advanceBy c 0)) with (maxCRNameLength c).
    rewrite (lookupName_longest (advanceBy c 0) name value rest Hs0 Hl Hv
               ltac:(discriminate) Hp _ Hle [] None eq_refl).
    replace (truthy (Some value)) with true by (now destruct value).
    rewrite Hsemi. cbn [negb andb orElse app]. rewrite andb_false_r.
    reflexivity. }
  pose proof (len_nonneg name) as Hlen.
  eexists. split; [|split].
  - rewrite (parseTextData_reference_only fuel c mode (js "&") (1 + len name)
               Hm); [rewrite Hr; reflexivity|exact He|lia|].
    rewrite Hr. cbn [snd]. rewrite !offset_advanceBy. lia.
  - reflexivity.
  - rewrite !source_advanceBy, slice_from_0, Hs.
    rewrite slice_from_skipn by lia.
    replace (Z.to_nat (1 + len name)) with (S (List.length name))
      by (unfold len; lia).
    change (js "&" ++ name ++ rest) with (38 :: (name ++ rest)).
    cbn [skipn]. apply skipn_length_app.
Qed.

Lemma named_reference_decoded_witness :
  exists c',
    parseTextData 1 (createParserContext (js "&lt;b") noOptions) 4 RCDATA
    = Some (js "<", c')
    /\ reported c' = [] /\ source c' = js "b".
Proof.
  apply (named_reference_decoded 0
           (createParserContext (js "&lt;b") noOptions) RCDATA (js "lt;")
           (js "<") (js "b")); try reflexivity.
  - discriminate.
  - cbn. lia.
  - intros k Hk Hsw.
    cbn [createParserContext options mergeOptions noOptions orElse
         opt_namedCharacterReferences namedCharacterReferences
         defaultParserOptions lookupCR] in Hk.
    repeat match type of Hk with
           | context [str_eqb ?a k] =>
               let E := fresh "E" in
               destruct (str_eqb a k) eqn:E;
               [apply str_eqb_eq in E; subst k;
                first [reflexivity | discriminate Hsw]|]
           end.
    now elim Hk.
Defined.

Lemma lookupName_found c name value rest :
  source c = js "&" ++ name ++ rest ->
  lookupCR (namedCharacterReferences (options c)) name = Some value ->
  value <> [] -> name <> [] ->
  (forall k, len name < k <= maxCRNameLength c ->
             truthy (lookupCR (namedCharacterReferences (options c))
                       (substr (source c) 1 k)) = false) ->
  forall n, (List.length name <= n)%nat -> Z.of_nat n <= maxCRNameLength c ->
    forall name0 value0,
      truthy value0 = false ->
      lookupName c n name0 value0 = (name, Some value).
Proof.
  intros Hs Hl Hv Hn Hp.
  assert (Ht : truthy (Some value) = true) by (now destruct value).
  induction n as [|n IH]; intros Hle Hmax name0 value0 H0.
  { destruct name; [congruence|cbn in Hle; lia]. }
  cbn [lookupName]. rewrite H0.
  destruct (Nat.eq_dec (List.length name) (S n)) as [Heq|Hneq].
  - rewrite substr_1, Hs.
    change (skipn 1 (js "&" ++ name ++ rest)) with (name ++ rest).
    rewrite Nat2Z.id, <- Heq, firstn_app, Nat.sub_diag, firstn_all.
    cbn [firstn]. rewrite app_nil_r, Hl. now apply lookupName_stays.
  - apply IH; [lia|lia|].
    apply Hp. unfold len. lia.
Qed.

(** [&amp] before a unit other than the ampersand in ATTRIBUTE_VALUE mode,
    with a table that has the name [amp] and no longer name that begins
    the text after the ampersand. *)
Lemma parseTextData_amp_name fuel c x rest v :
  source c = ampThen x rest -> x <> 38 ->
  lookupCR (namedCharacterReferences (options c)) (js "amp") = Some v ->
  v <> [] ->
  3 <= maxCRNameLength c ->
  (forall k, 3 < k <= maxCRNameLength c ->
             truthy (lookupCR (namedCharacterReferences (options c))
                       (substr (source c) 1 k)) = false) ->
  exists c',
    parseTextData (S (S fuel)) c 5 ATTRIBUTE_VALUE
    = Some ((if (x =? 61) || isAlnum x then js "&amp" else v) ++ [x], c')
    /\ codes (reported c')
       = codes (reported c)
         ++ (if (x =? 61) || isAlnum x then []
             else [MISSING_SEMICOLON_AFTER_CHARACTER_REFERENCE]).
Proof.
  intros Hs Hx Hl Hv Hm Hp.
  unfold parseTextData. cbn [isEntityMode negb].
  rewrite (parseTextData_loop_reference _ _ _ _ _ 0 (js "&"));
    [|rewrite Hs; apply execHead_amp|lia|lia].
  set (c1 := advanceBy c 0).
  assert (Hs1 : source c1 = ampThen x rest)
    by (unfold c1; now rewrite source_advanceBy, slice_from_0).
  assert (Ho1 : offset (cursor c1) = offset (cursor c))
    by (unfold c1; rewrite offset_advanceBy; lia).
  rewrite slice_0_0. cbn [app].
  unfold parseReference.
  change (str_eqb (js "&") (js "&")) with true. cbv iota.
  rewrite Hs1. change (charAt (ampThen x rest) 1) with (Some 97).
  cbv iota. change (isAlnum 97) with true. cbv iota.
  assert (Hfound : lookupName c1 (Z.to_nat (maxCRNameLength c1)) [] None
                   = (js "amp", Some v)).
  { apply (lookupName_found c1 (js "amp") v (x :: rest)).
    - exact Hs1.
    - exact Hl.
    - exact Hv.
    - discriminate.
    - intros k Hk. change (source c1) with (slice_from (source c) 0).
      rewrite slice_from_0. apply Hp. exact Hk.
    - change (maxCRNameLength c1) with (maxCRNameLength c).
      change (List.length (js "amp")) with 3%nat. lia.
    - change (maxCRNameLength c1) with (maxCRNameLength c). lia.
    - reflexivity. }
  rewrite Hfound.
  replace (truthy (Some v)) with true by (now destruct v).
  change (endsWith (js "amp") (js ";")) with false.
  change (1 + len (js "amp")) with 4.
  change (charAt (ampThen x rest) 4) with (Some x).
  cbn [negb andb orElse isAttributeValue]. cbv iota.
  assert (Hstop : forall c2 text,
             source c2 = x :: rest ->
             offset (cursor c2) = offset (cursor c) + 4 ->
             parseTextData_loop (S fuel) c2 (offset (cursor c) + 5)
               ATTRIBUTE_VALUE text
             = Some (text ++ [x], advanceBy c2 1)).
  { intros c2 text Hs2 Ho2. rewrite parseTextData_loop_stop.
    - rewrite Ho2, Hs2.
      replace (offset (cursor c) + 5 - (offset (cursor c) + 4)) with 1
        by lia.
      rewrite slice_0 by lia. reflexivity.
    - lia.
    - intros i h Hh. rewrite Hs2 in Hh.
      apply (execHead_after [x] rest) in Hh.
      + change (len [x]) with 1 in Hh. lia.
      + cbn [forallb]. apply Z.eqb_neq in Hx. now rewrite Hx. }
  assert (Hs2 : source (advanceBy c1 4) = x :: rest).
  { rewrite source_advanceBy, Hs1. now rewrite slice_from_skipn by lia. }
  assert (Ho2 : offset (cursor (advanceBy c1 4)) = offset (cursor c) + 4)
    by (rewrite offset_advanceBy; lia).
  destruct ((x =? 61) || isAlnum x).
  - rewrite Hstop by assumption. eexists. split; [reflexivity|].
    cbn. now rewrite app_nil_r.
  - rewrite Hstop by assumption. eexists. split; [reflexivity|].
    cbn. unfold codes. now rewrite map_app.
Qed.

(** C3: decoding [&amp] followed by a unit [x] other than the ampersand,
    in ATTRIBUTE_VALUE mode.  With the default table, whose names all end
    in a semicolon, [&amp;] is decoded to [&] and [&amp] before any other
    unit is kept literal, an unknown reference being reported.  With any
    table that has the name [amp], when no longer name of the table begins
    the text after the ampersand, [&amp] before [=] or an alphanumeric is
    kept literal and nothing is reported, and before any other unit it is
    decoded to the value of [amp], the missing semicolon being
    reported. *)
Theorem amp_in_attribute_value :
  forall fuel c x rest,
    source c = ampThen x rest -> x <> 38 ->
    (namedCharacterReferences (options c)
     = namedCharacterReferences defaultParserOptions ->
     maxCRNameLength c = 5 ->
     exists c',
       parseTextData (S (S fuel)) c 5 ATTRIBUTE_VALUE
       = Some (if x =? 59 then js "&" else js "&amp" ++ [x], c')
       /\ codes (reported c')
          = codes (reported c)
            ++ if x =? 59 then [] else [UNKNOWN_NAMED_CHARACTER_REFERENCE])
    /\ (forall v,
          lookupCR (namedCharacterReferences (options c)) (js "amp") = Some v ->
          v <> [] ->
          3 <= maxCRNameLength c ->
          (forall k, 3 < k <= maxCRNameLength c ->
                     truthy (lookupCR (namedCharacterReferences (options c))
                               (substr (source c) 1 k)) = false) ->
          exists c',
            parseTextData (S (S fuel)) c 5 ATTRIBUTE_VALUE
            = Some ((if (x =? 61) || isAlnum x then js "&amp" else v) ++ [x],
                    c')
            /\ codes (reported c')
               = codes (reported c)
                 ++ (if (x =? 61) || isAlnum x then []
                     else [MISSING_SEMICOLON_AFTER_CHARACTER_REFERENCE])).
Proof.
  intros fuel c x rest Hs Hx. split.
  - intros Ht Hm. now apply (parseTextData_amp_default fuel c x rest).
  - intros v Hl Hv Hm Hp. now apply (parseTextData_amp_name fuel c x rest v).
Qed.

Lemma amp_in_attribute_value_witness :
  (exists c',
     parseTextData 2 (createParserContext (js "&amp;x") noOptions) 5
       ATTRIBUTE_VALUE
     = Some (js "&", c'))
  /\ (exists c',
        parseTextData 2 (createParserContext (js "&amp=x") ampOptions) 5
          ATTRIBUTE_VALUE
        = Some (js "&amp=", c')
        /\ codes (reported c') = [])
  /\ (exists c',
        parseTextData 2 (createParserContext (js "&amp x") ampOptions) 5
          ATTRIBUTE_VALUE
        = Some (js "& ", c')
        /\ codes (reported c')
           = [MISSING_SEMICOLON_AFTER_CHARACTER_REFERENCE]).
Proof.
  assert (Hlong : forall s k,
            s = js "&amp=x" \/ s = js "&amp x" ->
            3 < k <= 5 ->
            truthy (lookupCR ampTable (substr s 1 k)) = false).
  { intros s k Hs Hk.
    assert (Hk' : k = 4 \/ k = 5) by lia.
    destruct Hs as [-> | ->], Hk' as [-> | ->]; reflexivity. }
  split; [|split].
  - destruct (proj1 (amp_in_attribute_value 0
                       (createParserContext (js "&amp;x") noOptions)
                       59 (js "x") eq_refl ltac:(discriminate))
                eq_refl eq_refl) as (c' & H & _).
    exists c'. exact H.
  - destruct (proj2 (amp_in_attribute_value 0
                       (createParserContext (js "&amp=x") ampOptions)
                       61 (js "x") eq_refl ltac:(discriminate))
                (js "&") eq_refl ltac:(discriminate) ltac:(cbn; lia)
                (fun k Hk => Hlong (js "&amp=x") k (or_introl eq_refl) Hk))
      as (c' & H1 & H2).
    exists c'. split; [exact H1|exact H2].
  - destruct (proj2 (amp_in_attribute_value 0
                       (createParserContext (js "&amp x") ampOptions)
                       32 (js "x") eq_refl ltac:(discriminate))
                (js "&") eq_refl ltac:(discriminate) ltac:(cbn; lia)
                (fun k Hk => Hlong (js "&amp x") k (or_intror eq_refl) Hk))
      as (c' & H1 & H2).
    exists c'. split; [exact H1|exact H2].
Defined.

(** ** Comments *)

Lemma find_from_first p s :
  forall k base,
    (k <= List.length s)%nat ->
    p (skipn k s) = true ->
    (forall j, (j < k)%nat -> p (skipn j s) = false) ->
    find_from p s base = base + Z.of_nat k.
Proof.
  induction s as [|c s IH]; intros k base Hk Hp Hn.
  - cbn in Hk. assert (k = 0%nat) by lia. subst k. cbn in *.
    rewrite Hp. lia.
  - cbn [find_from]. destruct k as [|k].
    + cbn in Hp. rewrite Hp. lia.
    + pose proof (Hn 0%nat ltac:(lia)) as H0. cbn [skipn] in H0. rewrite H0.
      rewrite (IH k (base + 1)); [lia|cbn in Hk; lia|exact Hp|].
      intros j Hj. apply (Hn (S j)). lia.
Qed.

Lemma startsWith_nth t p :
  startsWith t p = true ->
  forall i x, nth_error p i = Some x -> nth_error t i = Some x.
Proof.
  revert t. induction p as [|y p IH]; intros t H i x Hi.
  - now destruct i.
  - destruct t as [|z t]; [discriminate|]. cbn in H.
    apply andb_prop in H as [H1 H2]. apply Z.eqb_eq in H1. subst z.
    destruct i as [|i]; [exact Hi|]. cbn in *. now apply IH.
Qed.

Lemma nth_error_skipn_add {A} (l : list A) n i :
  nth_error (skipn n l) i = nth_error l (n + i).
Proof.
  revert l. induction n as [|n IH]; intros l; [reflexivity|].
  destruct l as [|a l]; [now destruct i|]. apply IH.
Qed.

Lemma slice_middle (a b d : jsstring) :
  slice (a ++ b ++ d) (len a) (len a + len b) = b.
Proof.
  unfold slice, rel_index. pose proof (len_nonneg a). pose proof (len_nonneg b).
  pose proof (len_nonneg d).
  destruct (len a <? 0) eqn:E1; [lia|].
  destruct (len a + len b <? 0) eqn:E2; [lia|].
  rewrite !len_app. rewrite !Z.min_l by lia.
  replace (Z.to_nat (len a)) with (List.length a) by (unfold len; lia).
  rewrite skipn_length_app.
  replace (Z.to_nat (len a + len b - len a)) with (List.length b)
    by (unfold len; lia).
  rewrite firstn_app, Nat.sub_diag, firstn_all. cbn. apply app_nil_r.
Qed.

Lemma execCommentEnd_closed body rest :
  ~ In 62 body ->
  execCommentEnd (js "<!--" ++ body ++ js "-->" ++ rest)
  = Some (4 + len body, false, 3).
Proof.
  intros Hb.
  remember (js "<!--" ++ body ++ js "-->" ++ rest) as s eqn:Hs0.
  remember (js "<!--" ++ body ++ js "--") as pre eqn:Hp0.
  assert (Hs : s = pre ++ js ">" ++ rest).
  { subst s pre. rewrite <- !app_assoc. reflexivity. }
  assert (Hpre : ~ In 62 pre).
  { subst pre. intros H. apply in_app_or in H as [H|H].
    - vm_compute in H. repeat (destruct H as [H|H]; [discriminate H|]).
      exact H.
    - apply in_app_or in H as [H|H]; [now apply Hb|].
      vm_compute in H. repeat (destruct H as [H|H]; [discriminate H|]).
      exact H. }
  assert (Hlen : List.length pre = (6 + List.length body)%nat).
  { subst pre. rewrite !length_app. cbn. lia. }
  assert (Hlast : nth_error pre (5 + List.length body) = Some 45).
  { subst pre. rewrite app_assoc, nth_error_app2;
      rewrite length_app; cbn [List.length js map list_ascii_of_string];
      [|lia].
    now replace (5 + List.length body - (4 + List.length body))%nat
      with 1%nat by lia. }
  assert (Hsk : skipn (4 + List.length body) s = js "-->" ++ rest).
  { subst s. change (js "<!--" ++ body ++ js "-->" ++ rest)
      with (60 :: 33 :: 45 :: 45 :: (body ++ js "-->" ++ rest)).
    cbn [Nat.add skipn]. apply skipn_length_app. }
  assert (Hls : List.length s = (7 + List.length body + List.length rest)%nat).
  { subst s. rewrite !length_app. cbn. lia. }
  assert (Hno : forall j, (j < 4 + List.length body)%nat ->
            (startsWith (skipn j s) (js "-->")
             || startsWith (skipn j s) (js "--!>")) = false).
  { intros j Hj. apply orb_false_intro.
    - destruct (startsWith (skipn j s) (js "-->")) eqn:E; [|reflexivity].
      pose proof (startsWith_nth _ _ E 2%nat 62 eq_refl) as Hn.
      rewrite nth_error_skipn_add, Hs in Hn.
      rewrite nth_error_app1 in Hn by lia.
      apply nth_error_In in Hn. contradiction.
    - destruct (startsWith (skipn j s) (js "--!>")) eqn:E; [|reflexivity].
      pose proof (startsWith_nth _ _ E 3%nat 62 eq_refl) as Hn.
      pose proof (startsWith_nth _ _ E 2%nat 33 eq_refl) as Hm.
      rewrite nth_error_skipn_add, Hs in Hn, Hm.
      destruct (Nat.eq_dec (j + 3) (List.length pre)) as [Heq|Hne].
      + rewrite nth_error_app1 in Hm by lia.
        replace (j + 2)%nat with (5 + List.length body)%nat in Hm by lia.
        congruence.
      + rewrite nth_error_app1 in Hn by lia.
        apply nth_error_In in Hn. contradiction. }
  unfold execCommentEnd.
  rewrite (find_from_first _ s (4 + List.length body) 0).
  - replace (0 + Z.of_nat (4 + List.length body)) with (4 + len body)
      by (unfold len; lia).
    pose proof (len_nonneg body).
    replace (4 + len body <? 0) with false by (symmetry; apply Z.ltb_ge; lia).
    replace (Z.to_nat (4 + len body)) with (4 + List.length body)%nat
      by (unfold len; lia).
    rewrite Hsk. reflexivity.
  - lia.
  - rewrite Hsk, startsWith_app. reflexivity.
  - exact Hno.
Qed.

(** X10: a comment [<!--body-->] whose body has no [>] is parsed into a
    COMMENT node whose content is the body, and the context is left right
    after it, however many nested openers the loop of parseComment
    advanced over; when the body has no [<] either, nothing is
    reported. *)
Theorem comment_round_trip :
  forall fuel c body rest,
    source c = js "<!--" ++ body ++ js "-->" ++ rest ->
    ~ In 62 body -> (List.length (source c) < fuel)%nat ->
    exists node c',
      parseComment fuel c = Some (node, c')
      /\ comment_content node = body
      /\ source c' = rest
      /\ offset (cursor c') = offset (cursor c) + len body + 7
      /\ (~ In 60 body -> reported c' = reported c).
Proof.
  intros fuel c body rest Hs Hb Hf.
  destruct (parseComment_total fuel c Hf) as (node & c' & H).
  exists node, c'. split; [exact H|].
  pose proof (len_nonneg body) as Hlb.
  unfold parseComment in H.
  rewrite Hs, (execCommentEnd_closed body rest Hb) in H.
  remember (4 + len body) as index eqn:Hi.
  replace (index <=? 3) with false in H
    by (symmetry; apply Z.leb_gt; lia).
  assert (Hsl : slice (source c) 0 index = js "<!--" ++ body).
  { rewrite Hs, slice_0 by lia.
    replace (Z.to_nat index) with (List.length (js "<!--" ++ body))
      by (rewrite length_app; change (List.length (js "<!--")) with 4%nat;
          unfold len in Hi; lia).
    rewrite app_assoc. rewrite firstn_app, Nat.sub_diag, firstn_all.
    cbn [firstn]. apply app_nil_r. }
  rewrite Hsl in H.
  destruct (parseComment_loop fuel c (js "<!--" ++ body) 1)
    as [[prevIndex c1]|] eqn:El; [|discriminate].
  pose proof El as El'.
  apply parseComment_loop_advances in El as (L1 & L2 & L3); [|lia].
  rewrite len_app in L2. change (len (js "<!--")) with 4 in L2.
  injection H as <- <-.
  split; [|split; [|split]].
  - unfold comment_content. rewrite Hs, Hi.
    change 4 with (len (js "<!--")). apply slice_middle.
  - rewrite source_advanceBy, slice_from_skipn by lia.
    destruct L1 as (_ & _ & _ & _ & L1 & _). rewrite L1, skipn_skipn, Hs.
    replace (Z.to_nat (index + 3 - prevIndex + 1)
             + Z.to_nat (offset (cursor c1) - offset (cursor c)))%nat
      with (List.length (js "<!--" ++ body ++ js "-->")).
    + replace (js "<!--" ++ body ++ js "-->" ++ rest)
        with ((js "<!--" ++ body ++ js "-->") ++ rest)
        by (now rewrite <- !app_assoc).
      apply skipn_length_app.
    + rewrite !length_app. change (List.length (js "<!--")) with 4%nat.
      change (List.length (js "-->")) with 3%nat. unfold len in *. lia.
  - rewrite offset_advanceBy. lia.
  - intros Hlt.
    assert (Hnone : indexOf (js "<!--" ++ body) (js "<!--") 1 = -1).
    { apply indexOf_none. intros k Hk.
      destruct (startsWith (skipn k (js "<!--" ++ body)) (js "<!--")) eqn:E;
        [|reflexivity].
      pose proof (startsWith_nth _ _ E 0%nat 60 eq_refl) as Hn.
      rewrite nth_error_skipn_add, Nat.add_0_r in Hn.
      assert (Hk1 : (1 <= k)%nat).
      { destruct Hk as [Hk _]. rewrite len_app in Hk.
        change (len (js "<!--")) with 4 in Hk.
        rewrite Z.min_l in Hk by lia. cbn in Hk. lia. }
      destruct k as [|k]; [lia|].
      change (nth_error (33 :: 45 :: 45 :: body) k = Some 60) in Hn.
      apply nth_error_In in Hn.
      repeat (destruct Hn as [Hn|Hn]; [discriminate Hn|]).
      contradiction. }
    destruct fuel; cbn [parseComment_loop] in El'; rewrite Hnone in El';
      injection El' as _ <-; reflexivity.
Qed.

Lemma comment_round_trip_witness :
  exists node c',
    parseComment 20 (createParserContext (js "<!-- a -->b") noOptions)
    = Some (node, c')
    /\ comment_content node = js " a "
    /\ source c' = js "b"
    /\ reported c' = [].
Proof.
  destruct (comment_round_trip 20
              (createParserContext (js "<!-- a -->b") noOptions)
              (js " a ") (js "b") eq_refl)
    as (node & c' & H1 & H2 & H3 & _ & H5).
  - vm_compute. intros H.
    repeat (destruct H as [H|H]; [discriminate H|]). exact H.
  - cbn. lia.
  - exists node, c'. repeat split; try assumption. apply H5.
    vm_compute. intros H.
    repeat (destruct H as [H|H]; [discriminate H|]). exact H.
Defined.

Lemma execCommentEnd_open s : ~ In 62 s -> execCommentEnd s = None.
Proof.
  intros Hn. unfold execCommentEnd.
  assert (H : find_from (fun t => startsWith t (js "-->")
                                  || startsWith t (js "--!>")) s 0 = -1).
  { apply find_from_none; [lia|]. intros k _. apply orb_false_intro.
    - destruct (startsWith (skipn k s) (js "-->")) eqn:E; [|reflexivity].
      pose proof (startsWith_nth _ _ E 2%nat 62 eq_refl) as H.
      rewrite nth_error_skipn_add in H. apply nth_error_In in H.
      contradiction.
    - destruct (startsWith (skipn k s) (js "--!>")) eqn:E; [|reflexivity].
      pose proof (startsWith_nth _ _ E 3%nat 62 eq_refl) as H.
      rewrite nth_error_skipn_add in H. apply nth_error_In in H.
      contradiction. }
  now rewrite H.
Qed.

(** X11: a comment that is not closed, the source having no [>] from
    its opener on, takes the rest of the source: the content of the
    COMMENT node is everything after the opener, the source is left
    empty, and EOF_IN_COMMENT is the one diagnostic reported. *)
Theorem comment_unterminated :
  forall fuel c body,
    source c = js "<!--" ++ body -> ~ In 62 body ->
    exists node c',
      parseComment fuel c = Some (node, c')
      /\ comment_content node = body
      /\ source c' = []
      /\ codes (reported c') = codes (reported c) ++ [EOF_IN_COMMENT].
Proof.
  intros fuel c body Hs Hb. unfold parseComment.
  rewrite execCommentEnd_open.
  - do 2 eexists. split; [reflexivity|]. unfold comment_content.
    split; [|split].
    + rewrite Hs, slice_from_skipn by lia. reflexivity.
    + cbn [source emitError report]. rewrite source_advanceBy.
      apply slice_from_len.
    + rewrite codes_emitError. reflexivity.
  - rewrite Hs. intros H. apply in_app_or in H as [H|H]; [|contradiction].
    vm_compute in H. repeat (destruct H as [H|H]; [discriminate H|]).
    exact H.
Qed.

Lemma comment_unterminated_witness :
  exists node c',
    parseComment 0 (createParserContext (js "<!-- a") noOptions)
    = Some (node, c')
    /\ comment_content node = js " a"
    /\ source c' = []
    /\ codes (reported c') = [EOF_IN_COMMENT].
Proof.
  apply (comment_unterminated 0 (createParserContext (js "<!-- a") noOptions)
           (js " a") eq_refl).
  vm_compute. intros H.
  repeat (destruct H as [H|H]; [discriminate H|]). exact H.
Defined.

(** ** Tags *)

Lemma parseTag_loop_end fuel :
  forall c nameSet props props' c',
    parseTag_loop fuel c TagEnd nameSet props = Some (props', c') ->
    props' = props.
Proof.
  induction fuel as [|fuel IH]; intros c nameSet props props' c' H;
    cbn [parseTag_loop] in H;
    destruct (negb _ && negb _ && negb _);
    try discriminate;
    try (now injection H as <- _).
  destruct (startsWith (source c) (js "/")).
  - now apply IH in H.
  - destruct (parseAttribute _ _ _) as [[[attr ns'] c1]|]; [|discriminate].
    now apply IH in H.
Qed.

(** X12: an end tag keeps none of the attributes written in it, and no
    tag comes with children out of parseTag: the element of an end tag
    has no props. *)
Theorem end_tag_keeps_no_props :
  forall fuel c parent e c',
    parseTag fuel c TagEnd parent = Some (e, c') ->
    props e = [] /\ children e = [].
Proof.
  intros fuel c parent e c' H. split; [|exact (parseTag_children _ _ _ _ _ _ H)].
  unfold parseTag in H.
  destruct (execTagOpen (source c)) as [[match0 tg]|]; [|discriminate].
  destruct (parseTag_loop _ _ _ _ _) as [[ps c1]|] eqn:El; [|discriminate].
  apply parseTag_loop_end in El. subst ps.
  destruct (source c1); injection H as <- _; reflexivity.
Qed.

Lemma end_tag_keeps_no_props_witness :
  exists e c',
    parseTag 20 (createParserContext (js "</div id=a>") noOptions) TagEnd None
    = Some (e, c')
    /\ props e = [] /\ children e = []
    /\ codes (reported c') = [END_TAG_WITH_ATTRIBUTES].
Proof.
  destruct (parseTag 20 (createParserContext (js "</div id=a>") noOptions)
              TagEnd None) as [[e c']|] eqn:E.
  - exists e, c'. split; [reflexivity|].
    destruct (end_tag_keeps_no_props _ _ _ _ _ E) as [H1 H2].
    split; [exact H1|]. split; [exact H2|].
    vm_compute in E. injection E as <- <-. reflexivity.
  - vm_compute in E. discriminate E.
Defined.

(** What [isEnd] takes for the end tag of [tag]: [</], then as many
    units as [tag] has that lowercase to the same as [tag], then the end
    of the source or one of tab, line feed, form feed, space, [/] and
    [>]; a carriage return after the name does not make an end tag. *)
Lemma end_tag_open :
  forall toLowerCase t tag rest,
    List.length t = List.length tag ->
    startsWithEndTagOpen toLowerCase (js "</" ++ t ++ rest) tag
    = str_eqb (toLowerCase t) (toLowerCase tag)
      && match rest with
         | [] => true
         | x :: _ => existsb (Z.eqb x) [9; 10; 12; 32; 47; 62]
         end.
Proof.
  intros toLowerCase t tag rest Hl. unfold startsWithEndTagOpen.
  rewrite startsWith_app. cbn [andb].
  assert (Hsub : substr (js "</" ++ t ++ rest) 2 (len tag) = t).
  { unfold substr. rewrite slice_from_skipn by lia.
    change (skipn (Z.to_nat 2) (js "</" ++ t ++ rest)) with (t ++ rest).
    unfold len. rewrite Nat2Z.id, <- Hl, firstn_app, Nat.sub_diag, firstn_all.
    cbn [firstn]. apply app_nil_r. }
  rewrite Hsub. f_equal.
  assert (Hc : charAt (js "</" ++ t ++ rest) (2 + len tag)
               = match rest with [] => None | x :: _ => Some x end).
  { unfold charAt. pose proof (len_nonneg tag).
    destruct (2 + len tag <? 0) eqn:E; [lia|].
    replace (Z.to_nat (2 + len tag)) with (2 + List.length t)%nat
      by (unfold len; lia).
    change (js "</" ++ t ++ rest) with (60 :: 47 :: (t ++ rest)).
    cbn [Nat.add nth_error].
    rewrite nth_error_app2, Nat.sub_diag by lia. now destruct rest. }
  rewrite Hc. destruct rest as [|x rest]; [reflexivity|].
  cbn [orElse existsb]. unfold isTagEndNoCR.
  now rewrite orb_false_r, !orb_assoc.
Qed.

(** X13: whatever parseChildren parses, in any mode and under any
    ancestors, it only moves forward: the options, the original source
    and the table bound are left as they were, the cursor does not go
    back, the diagnostics reported before are kept in front of the new
    ones, and the source left is the original source from the cursor
    on. *)
Theorem parseChildren_keeps_context :
  forall toLowerCase DEV fuel c mode ancestors nodes c',
    parseChildren toLowerCase DEV fuel c mode ancestors = Some (nodes, c') ->
    synced c ->
    synced c' /\ advances c c'.
Proof.
  intros toLowerCase DEV fuel c mode ancestors nodes c'.
  unfold parseChildren. intros H Hs.
  apply parseChildren_loop_advances in H.
  split; [exact (synced_advances _ _ Hs H)|exact H].
Qed.

Lemma parseChildren_keeps_context_witness :
  exists nodes c',
    parseChildren asciiToLowerCase false 40
      (createParserContext divHello noOptions) DATA [] = Some (nodes, c')
    /\ synced c'
    /\ advances (createParserContext divHello noOptions) c'.
Proof.
  destruct (parseChildren asciiToLowerCase false 40
              (createParserContext divHello noOptions) DATA [])
    as [[nodes c']|] eqn:E.
  - exists nodes, c'. split; [reflexivity|].
    apply (parseChildren_keeps_context asciiToLowerCase false 40
             (createParserContext divHello noOptions) DATA [] nodes c' E).
    split; [cbn; lia|reflexivity].
  - vm_compute in E. discriminate E.
Defined.

(** ** Attributes *)

Lemma matchIndices_none p s :
  forallb (fun c => negb (p c)) s = true ->
  forall i, matchIndices p s i = [].
Proof.
  induction s as [|c s IH]; intros H i; [reflexivity|].
  cbn in *. apply andb_prop in H as [H1 H2].
  apply negb_true_iff in H1. rewrite H1. now apply IH.
Qed.

Lemma forallb_impl {A} (p q : A -> bool) l :
  (forall x, p x = true -> q x = true) ->
  forallb p l = true -> forallb q l = true.
Proof.
  intros Hpq. induction l as [|a l IH]; [reflexivity|]. cbn.
  intros H. apply andb_prop in H as [H1 H2]. now rewrite (Hpq a H1), IH.
Qed.

Lemma isNameChar_spec c :
  isNameChar c = true ->
  isTagEnd c = false /\ (c =? 61) = false /\ isBadNameChar c = false.
Proof.
  unfold isNameChar. intros H. apply negb_true_iff in H.
  apply orb_false_elim in H as [H H3]. apply orb_false_elim in H as [H1 H2].
  now repeat split.
Qed.

Lemma execAttrName_name name rest :
  name <> [] -> forallb isNameChar name = true ->
  match rest with
  | x :: _ => isTagEnd x || (x =? 61) = true
  | [] => True
  end ->
  execAttrName (name ++ rest) = Some name.
Proof.
  intros Hn Hc Hr. destruct name as [|x name]; [congruence|].
  cbn [forallb] in Hc. apply andb_prop in Hc as [Hx Hc].
  apply isNameChar_spec in Hx as (Hx & _).
  unfold execAttrName. cbn [app]. rewrite Hx.
  rewrite (span_all _ name rest); [reflexivity| |].
  - revert Hc. apply forallb_impl. intros y Hy.
    apply isNameChar_spec in Hy as (H1 & H2 & _). now rewrite H1, H2.
  - destruct rest as [|y rest]; [exact I|]. now rewrite Hr.
Qed.

Lemma advanceBy_prefix c pre rest :
  source c = pre ++ rest ->
  source (advanceBy c (len pre)) = rest
  /\ offset (cursor (advanceBy c (len pre))) = offset (cursor c) + len pre.
Proof.
  intros Hs. rewrite source_advanceBy, offset_advanceBy, Hs.
  split; [|reflexivity].
  rewrite slice_from_skipn by apply len_nonneg.
  unfold len. rewrite Nat2Z.id. apply skipn_length_app.
Qed.

Lemma advanceSpaces_run c sp rest :
  source c = sp ++ rest -> forallb isSpace sp = true ->
  noLeadingSpace rest ->
  source (advanceSpaces c) = rest
  /\ offset (cursor (advanceSpaces c)) = offset (cursor c) + len sp
  /\ reported (advanceSpaces c) = reported c
  /\ options (advanceSpaces c) = options c
  /\ originalSource (advanceSpaces c) = originalSource c
  /\ maxCRNameLength (advanceSpaces c) = maxCRNameLength c.
Proof.
  intros Hs Hsp Hr. unfold advanceSpaces.
  rewrite Hs, (span_all isSpace sp rest Hsp).
  2:{ destruct rest; [exact I|exact Hr]. }
  cbn [fst]. destruct sp as [|x sp].
  - cbn [app] in Hs. change (len []) with 0. rewrite Hs.
    repeat split. lia.
  - destruct (advanceBy_prefix c (x :: sp) rest Hs) as [H1 H2].
    now repeat split.
Qed.

Lemma indexOf_first (value rest : jsstring) q :
  ~ In q value -> indexOf (value ++ q :: rest) [q] 0 = len value.
Proof.
  intros Hn. unfold indexOf.
  rewrite Z.max_id, Z.min_l by apply len_nonneg.
  cbn [Z.to_nat skipn].
  rewrite (find_from_first _ _ (List.length value) 0).
  - unfold len. lia.
  - rewrite length_app. lia.
  - rewrite skipn_length_app, startsWith_1. apply Z.eqb_refl.
  - intros j Hj.
    destruct (skipn j (value ++ q :: rest)) as [|y t] eqn:E; [reflexivity|].
    rewrite startsWith_1. apply Z.eqb_neq. intros <-. apply Hn.
    assert (Hy : nth_error (value ++ q :: rest) j = Some q).
    { rewrite <- (firstn_skipn j (value ++ q :: rest)), E.
      rewrite nth_error_app2; rewrite length_firstn, length_app.
      - replace (_ - _)%nat with 0%nat by lia. reflexivity.
      - lia. }
    rewrite nth_error_app1 in Hy by lia. now apply nth_error_In in Hy.
Qed.

Lemma parseAttributeValue_quoted fuel c q value rest :
  source c = q :: value ++ q :: rest ->
  q = 34 \/ q = 39 -> ~ In q value -> ~ In 38 value ->
  exists c',
    parseAttributeValue (S fuel) c
    = Some (Some (mkValue value true (getSelection c' (cursor c) None)), c')
    /\ source c' = rest
    /\ offset (cursor c') = offset (cursor c) + len value + 2
    /\ reported c' = reported c
    /\ advances c c'.
Proof.
  intros Hs Hq Hnq Hna. unfold parseAttributeValue. cbv zeta.
  replace (charAt (source c) 0) with (Some q) by (now rewrite Hs).
  assert (Hqq : (q =? 34) || (q =? 39) = true)
    by (destruct Hq as [-> | ->]; reflexivity).
  rewrite Hqq.
  set (c1 := advanceBy c 1).
  assert (Hs1 : source c1 = value ++ q :: rest).
  { unfold c1. rewrite source_advanceBy, slice_from_skipn, Hs by lia.
    reflexivity. }
  assert (Ho1 : offset (cursor c1) = offset (cursor c) + 1)
    by apply offset_advanceBy.
  replace (indexOf (source c1) [q] 0) with (len value)
    by (rewrite Hs1; symmetry; apply indexOf_first; exact Hnq).
  pose proof (len_nonneg value) as Hl.
  replace (len value =? -1) with false by (symmetry; apply Z.eqb_neq; lia).
  assert (Ht : parseTextData (S fuel) c1 (len value) ATTRIBUTE_VALUE
               = Some (value, advanceBy c1 (len value))
               \/ parseTextData (S fuel) c1 (len value) ATTRIBUTE_VALUE
                  = Some (value, c1) /\ value = []).
  { destruct value as [|v value'] eqn:Ev.
    - right. split; [|reflexivity]. unfold parseTextData.
      cbn [isEntityMode negb]. apply parseTextData_loop_done.
      change (len []) with 0. lia.
    - left. rewrite <- Ev in *. rewrite parseTextData_copy.
      + rewrite Hs1, slice_0 by lia.
        unfold len. rewrite Nat2Z.id, firstn_app, Nat.sub_diag, firstn_all.
        cbn [firstn]. now rewrite app_nil_r.
      + rewrite Hs1. unfold len.
        rewrite Nat2Z.id, firstn_app, Nat.sub_diag, firstn_all.
        cbn [firstn]. now rewrite app_nil_r.
      + rewrite Ev, len_cons. pose proof (len_nonneg value'). lia. }
  destruct Ht as [Ht|[Ht Hv]]; rewrite Ht.
  - eexists. split; [reflexivity|].
    destruct (advanceBy_prefix c1 value (q :: rest) Hs1) as [H1 H2].
    split; [|split; [|split]].
    + rewrite source_advanceBy, H1, slice_from_skipn by lia. reflexivity.
    + rewrite offset_advanceBy, H2. lia.
    + reflexivity.
    + unfold c1. advances_chain.
  - eexists. split; [reflexivity|]. subst value.
    split; [|split; [|split]].
    + rewrite source_advanceBy, Hs1, slice_from_skipn by lia. reflexivity.
    + rewrite offset_advanceBy. change (len []) with 0. lia.
    + reflexivity.
    + unfold c1. advances_chain.
Qed.

Lemma noLeadingSpace_cons x rest : isSpace x = false -> noLeadingSpace (x :: rest).
Proof. intros H. exact H. Qed.

Lemma selection_synced c c' (pre : jsstring) rest :
  synced c -> advances c c' -> source c = pre ++ rest ->
  offset (cursor c') = offset (cursor c) + len pre ->
  loc_source (getSelection c' (cursor c) None) = pre.
Proof.
  intros [H0 Hs] Ha Hsrc Ho.
  rewrite (selection_source _ _ Ha), Ho.
  rewrite <- slice_synced by (try apply len_nonneg; lia).
  rewrite <- Hs, Hsrc, slice_0 by apply len_nonneg.
  unfold len. rewrite Nat2Z.id, firstn_app, Nat.sub_diag, firstn_all.
  cbn [firstn]. apply app_nil_r.
Qed.

(** X15: an attribute written [name = 'value'], the name made of units
    that are neither whitespace nor one of [/], [>], [=], the quotes and
    [<], not met before in the tag and with no directive prefix, the
    spaces around [=] optional, the value between two double or two
    single quotes and without that quote and ampersand, is parsed into an
    ATTRIBUTE node with this name and this value as content; nothing is
    reported; the node spans the attribute and its value the quoted
    text. *)
Theorem attribute_quoted :
  forall fuel c nameSet name sp1 sp2 q value rest,
    source c = name ++ sp1 ++ js "=" ++ sp2 ++ q :: value ++ q :: rest ->
    name <> [] -> forallb isNameChar name = true ->
    testDirectivePrefix name = false ->
    set_has nameSet name = false ->
    forallb isSpace sp1 = true -> forallb isSpace sp2 = true ->
    q = 34 \/ q = 39 -> ~ In q value -> ~ In 38 value ->
    exists loc vloc c',
      parseAttribute (S fuel) c nameSet
      = Some (ATTRIBUTE
                {| attr_name := name;
                   attr_value :=
                     Some {| text_content := value;
                             text_isEmpty := isBlank value;
                             text_loc := vloc |};
                   attr_loc := loc |},
              nameSet ++ [name], c')
      /\ source c' = rest /\ reported c' = reported c
      /\ (synced c ->
          loc_source loc
          = name ++ sp1 ++ js "=" ++ sp2 ++ q :: value ++ [q]
          /\ loc_source vloc = q :: value ++ [q]).
Proof.
  intros fuel c nameSet name sp1 sp2 q value rest Hs Hn Hc Hd Hset Hsp1 Hsp2
    Hq Hnq Hna.
  assert (Hqs : isSpace q = false) by (destruct Hq as [-> | ->]; reflexivity).
  assert (Hex : execAttrName (source c) = Some name).
  { rewrite Hs. apply execAttrName_name; [exact Hn|exact Hc|].
    destruct sp1 as [|x sp1]; [reflexivity|].
    cbn in Hsp1 |- *. apply andb_prop in Hsp1 as [Hx _].
    unfold isTagEnd. now rewrite Hx. }
  assert (Heq : startsWith name (js "=") = false).
  { destruct name as [|x name']; [congruence|]. cbn in Hc.
    apply andb_prop in Hc as [Hx _]. apply isNameChar_spec in Hx as (_ & Hx & _).
    eval_js. rewrite startsWith_1. now rewrite Z.eqb_sym. }
  assert (Hbad : matchIndices isBadNameChar name 0 = []).
  { apply matchIndices_none. revert Hc. apply forallb_impl.
    intros y Hy. apply isNameChar_spec in Hy as (_ & _ & Hy). now rewrite Hy. }
  set (c1 := advanceBy c (len name)).
  destruct (advanceBy_prefix c name _ Hs) as [Hs1 Ho1]. fold c1 in Hs1, Ho1.
  assert (Htest : testSpacesEquals (source c1) = true).
  { unfold testSpacesEquals. rewrite Hs1, (span_all isSpace sp1 _ Hsp1);
      [apply startsWith_app|reflexivity]. }
  set (c2 := advanceSpaces c1).
  destruct (advanceSpaces_run c1 sp1 _ Hs1 Hsp1 ltac:(reflexivity))
    as (Hs2 & Ho2 & Hr2 & Hop2 & Hor2 & _). fold c2 in Hs2, Ho2, Hr2, Hop2, Hor2.
  set (c3 := advanceBy c2 1).
  destruct (advanceBy_prefix c2 (js "=") _ Hs2) as [Hs3 Ho3].
  change (len (js "=")) with 1 in Hs3, Ho3. fold c3 in Hs3, Ho3.
  set (c4 := advanceSpaces c3).
  destruct (advanceSpaces_run c3 sp2 _ Hs3 Hsp2 (noLeadingSpace_cons _ _ Hqs))
    as (Hs4 & Ho4 & Hr4 & Hop4 & Hor4 & _). fold c4 in Hs4, Ho4, Hr4, Hop4, Hor4.
  destruct (parseAttributeValue_quoted fuel c4 q value rest Hs4 Hq Hnq Hna)
    as (c5 & Hv & Hs5 & Ho5 & Hr5 & Ha5).
  unfold parseAttribute. cbv zeta. rewrite Hex. cbv beta iota.
  rewrite Hset, Heq, Hbad. unfold set_add. rewrite Hset.
  cbn [emitErrorsAt fold_left]. fold c1. rewrite Htest.
  fold c2. fold c3. fold c4. rewrite Hv. cbv beta iota. rewrite Hd.
  cbn [value_content value_loc]. rewrite trim_isBlank.
  exists (getSelection c5 (getCursor c) None),
    (getSelection c5 (cursor c4) None), c5.
  split; [reflexivity|]. split; [exact Hs5|]. split.
  { rewrite Hr5, Hr4. change (reported c3) with (reported c2).
    now rewrite Hr2. }
  intros Hsy.
  assert (Ha4 : advances c c4).
  { unfold c4, c3, c2, c1. advances_chain. }
  pose proof (len_nonneg name). pose proof (len_nonneg sp1).
  pose proof (len_nonneg sp2). pose proof (len_nonneg value).
  split.
  - apply (selection_synced c c5 _ rest Hsy).
    + eapply advances_trans; eassumption.
    + rewrite Hs. rewrite <- !app_assoc. cbn [app].
      repeat (f_equal; try (rewrite <- !app_assoc; cbn [app])).
    + rewrite !len_app, !len_cons, !len_app, !len_cons.
      change (len (js "=")) with 1. change (len []) with 0. lia.
  - apply (selection_synced c4 c5 _ rest (synced_advances _ _ Hsy Ha4) Ha5).
    + rewrite Hs4. cbn [app]. now rewrite <- app_assoc.
    + rewrite len_cons, len_app, len_cons. change (len []) with 0. lia.
Qed.

Lemma attribute_quoted_witness :
  exists loc vloc c',
    parseAttribute 1 (createParserContext (js "id = 'a b'>") noOptions) []
    = Some (ATTRIBUTE
              {| attr_name := js "id";
                 attr_value :=
                   Some {| text_content := js "a b";
                           text_isEmpty := false;
                           text_loc := vloc |};
                 attr_loc := loc |},
            [js "id"], c')
    /\ source c' = js ">" /\ reported c' = []
    /\ loc_source loc = js "id = 'a b'"
    /\ loc_source vloc = js "'a b'".
Proof.
  destruct (attribute_quoted 0
              (createParserContext (js "id = 'a b'>") noOptions) []
              (js "id") (js " ") (js " ") 39 (js "a b") (js ">"))
    as (loc & vloc & c' & H1 & H2 & H3 & H4);
    try reflexivity.
  - discriminate.
  - now right.
  - vm_compute. intros H.
    repeat (destruct H as [H|H]; [discriminate H|]). exact H.
  - vm_compute. intros H.
    repeat (destruct H as [H|H]; [discriminate H|]). exact H.
  - exists loc, vloc, c'. split; [exact H1|]. split; [exact H2|].
    split; [exact H3|]. apply H4. split; [cbn; lia|reflexivity].
Defined.

(** ** Directives *)

Lemma dirTail_mods mods :
  forallb (fun c => negb (isLineTerminator c)) mods = true ->
  dirTail mods = Some (match mods with [] => None | _ => Some mods end).
Proof. intros H. unfold dirTail. destruct mods; [reflexivity|]. now rewrite H. Qed.

Lemma greedy_S n : greedy (S n) = S n :: greedy n.
Proof. unfold greedy. rewrite seq_S, rev_app_distr. reflexivity. Qed.

Lemma firstn_length_app {A} (a b : list A) :
  firstn (List.length a) (a ++ b) = a.
Proof.
  rewrite firstn_app, Nat.sub_diag, firstn_all. cbn. apply app_nil_r.
Qed.

Lemma dirArg_absent atStart mods :
  dotAhead mods ->
  forallb (fun c => negb (isLineTerminator c)) mods = true ->
  dirArg atStart mods
  = Some (None, match mods with [] => None | _ => Some mods end).
Proof.
  intros Hd Hl. unfold dirArg. rewrite (dirTail_mods mods Hl).
  destruct mods as [|x mods]; [reflexivity|]. cbn in Hd. subst x.
  change (46 =? 58) with false. change (46 =? 64) with false.
  change (46 =? 35) with false. now rewrite andb_false_r.
Qed.

Lemma dirArg_present atStart p a mods :
  (p =? 58) || (atStart && ((p =? 64) || (p =? 35))) = true ->
  a <> [] -> ~ In 46 a -> dotAhead mods ->
  forallb (fun c => negb (isLineTerminator c)) mods = true ->
  dirArg atStart (p :: a ++ mods)
  = Some (Some a, match mods with [] => None | _ => Some mods end).
Proof.
  intros Hp Ha Hdot Hd Hl. unfold dirArg. rewrite Hp.
  assert (Hrun : span (fun x => negb (x =? 46)) (a ++ mods) = (a, mods)).
  { apply span_all.
    - apply forallb_forall. intros x Hx. apply negb_true_iff, Z.eqb_neq.
      intros ->. contradiction.
    - destruct mods as [|x mods]; [exact I|]. cbn in Hd. now subst x. }
  rewrite Hrun. cbn [fst].
  destruct a as [|x a'] eqn:Ea; [congruence|]. rewrite <- Ea in *.
  replace (List.length a) with (S (List.length a')) by (now rewrite Ea).
  rewrite greedy_S. cbn [firstSome].
  replace (S (List.length a')) with (List.length a) by (now rewrite Ea).
  rewrite skipn_length_app, (dirTail_mods mods Hl), firstn_all.
  reflexivity.
Qed.

Lemma dirName_present n tail m2 m3 :
  n <> [] -> forallb isDirChar n = true ->
  match tail with x :: _ => isDirChar x = false | [] => True end ->
  dirArg false tail = Some (m2, m3) ->
  dirName true (js "v-" ++ n ++ tail) = Some (Some n, m2, m3).
Proof.
  intros Hn Hc Ht Ha. unfold dirName.
  rewrite startsWith_app. cbn [andb].
  change (skipn 2 (js "v-" ++ n ++ tail)) with (n ++ tail).
  change (fun x => isAlnum x || (x =? 45)) with isDirChar.
  rewrite (span_all isDirChar n tail Hc Ht). cbn [fst].
  destruct n as [|x n'] eqn:En; [congruence|]. rewrite <- En in *.
  replace (List.length n) with (S (List.length n')) by (now rewrite En).
  rewrite greedy_S. cbn [firstSome].
  replace (S (List.length n')) with (List.length n) by (now rewrite En).
  now rewrite skipn_length_app, Ha, firstn_all.
Qed.

Lemma execDirective_first name r :
  dirName true name = Some r -> execDirective name = r.
Proof.
  intros H. unfold execDirective. cbn [seq firstSome Nat.eqb skipn].
  now rewrite H.
Qed.

Lemma execDirective_head h a mods :
  headFor h a -> ~ In 46 a -> dotAhead mods ->
  forallb (fun c => negb (isLineTerminator c)) mods = true ->
  execDirective (headText h ++ a ++ mods)
  = (match h with VDash n | VDashArg n => Some n | _ => None end,
     match a with [] => None | _ => Some a end,
     match mods with [] => None | _ => Some mods end).
Proof.
  intros Hh Hdot Hd Hl. apply execDirective_first.
  destruct h as [n|n| | |]; cbn [headFor headText] in *.
  - destruct Hh as (Hn & Hc & ->). cbn [app]. rewrite <- app_assoc.
    apply dirName_present; [exact Hn|exact Hc| |].
    + destruct mods as [|x mods]; [exact I|]. cbn in Hd. now subst x.
    + now apply dirArg_absent.
  - destruct Hh as (Hn & Hc & Ha). rewrite <- !app_assoc.
    replace (match a with [] => None | _ :: _ => Some a end) with (Some a)
      by (destruct a; congruence).
    apply dirName_present; [exact Hn|exact Hc|reflexivity|].
    cbn [js app]. change (js ":" ++ a ++ mods) with (58 :: a ++ mods).
    now apply dirArg_present.
  - replace (match a with [] => None | _ :: _ => Some a end) with (Some a)
      by (destruct a; congruence).
    unfold dirName. change (js ":" ++ a ++ mods) with (58 :: a ++ mods).
    cbn [startsWith js]. change (startsWith (58 :: a ++ mods) (js "v-"))
      with false. cbn [andb].
    now rewrite (dirArg_present true 58 a mods).
  - replace (match a with [] => None | _ :: _ => Some a end) with (Some a)
      by (destruct a; congruence).
    unfold dirName. change (js "@" ++ a ++ mods) with (64 :: a ++ mods).
    change (startsWith (64 :: a ++ mods) (js "v-")) with false. cbn [andb].
    now rewrite (dirArg_present true 64 a mods).
  - replace (match a with [] => None | _ :: _ => Some a end) with (Some a)
      by (destruct a; congruence).
    unfold dirName. change (js "#" ++ a ++ mods) with (35 :: a ++ mods).
    change (startsWith (35 :: a ++ mods) (js "v-")) with false. cbn [andb].
    now rewrite (dirArg_present true 35 a mods).
Qed.

Lemma split_on_dotted ms :
  Forall (fun m => ~ In 46 m) ms ->
  forall m cur,
    ~ In 46 m ->
    split_on 46 (m ++ dotted ms) cur = (rev cur ++ m) :: ms.
Proof.
  induction 1 as [|m1 ms Hm1 Hms IH]; intros m.
  - unfold dotted. cbn [map List.concat]. rewrite app_nil_r.
    induction m as [|y m IHm]; intros cur Hm.
    + cbn. now rewrite app_nil_r.
    + cbn [split_on].
      replace (y =? 46) with false
        by (symmetry; apply Z.eqb_neq; intros ->; apply Hm; now left).
      rewrite IHm by (intros H; apply Hm; now right).
      cbn [rev]. now rewrite <- app_assoc.
  - unfold dotted. cbn [map List.concat]. fold (dotted ms).
    induction m as [|y m IHm]; intros cur Hm.
    + cbn [app split_on]. change (46 =? 46) with true. cbv iota.
      rewrite (IH m1 [] Hm1). now rewrite app_nil_r.
    + cbn [app split_on].
      replace (y =? 46) with false
        by (symmetry; apply Z.eqb_neq; intros ->; apply Hm; now left).
      rewrite IHm by (intros H; apply Hm; now right).
      cbn [rev]. now rewrite <- app_assoc.
Qed.

Lemma offset_getNewPosition c start n :
  offset (getNewPosition c start n) = offset start + n.
Proof. unfold getNewPosition, advancePositionWithClone. apply offset_advance. Qed.

Lemma headText_nonempty h a : headFor h a -> headText h <> [].
Proof. destruct h; cbn; discriminate. Qed.

Lemma testDirectivePrefix_head h s :
  testDirectivePrefix (headText h ++ s) = true.
Proof.
  unfold testDirectivePrefix.
  destruct h; cbn [headText]; rewrite <- ?app_assoc;
    rewrite ?(startsWith_app (js "v-")), ?(startsWith_app (js ":")),
      ?(startsWith_app (js "@")), ?(startsWith_app (js "#"));
    rewrite ?orb_true_r; reflexivity.
Qed.

Lemma dir_name_head h s :
  match match h with VDash n | VDashArg n => Some n | _ => None end with
  | Some m1 => m1
  | None =>
      if startsWith (headText h ++ s) (js ":") then js "bind"
      else if startsWith (headText h ++ s) (js "@") then js "on"
           else js "slot"
  end = headName h.
Proof.
  destruct h; cbn [headText headName]; try reflexivity.
  - now rewrite startsWith_app.
  - change (startsWith (js "@" ++ s) (js ":")) with false.
    now rewrite startsWith_app.
Qed.

Lemma modifiers_dotted ms :
  Forall (fun m => ~ In 46 m) ms ->
  match match dotted ms with [] => None | _ => Some (dotted ms) end with
  | Some m3 => split_on 46 (slice_from m3 1) []
  | None => []
  end = ms.
Proof.
  intros Hms. destruct Hms as [|m ms' Hm Hms']; [reflexivity|].
  unfold dotted. cbn [map List.concat]. fold (dotted ms'). cbn [app].
  rewrite slice_from_skipn by lia.
  change (skipn (Z.to_nat 1) (46 :: m ++ dotted ms')) with (m ++ dotted ms').
  now rewrite split_on_dotted.
Qed.

Lemma slice_nonneg s i j :
  0 <= i -> i <= j ->
  slice s i j = firstn (Z.to_nat (j - i)) (skipn (Z.to_nat i) s).
Proof.
  intros Hi Hj. unfold slice, rel_index.
  destruct (i <? 0) eqn:E1; [lia|]. destruct (j <? 0) eqn:E2; [lia|].
  pose proof (len_nonneg s) as Hl. unfold len in *.
  destruct (Z.le_gt_cases (Z.of_nat (List.length s)) i) as [Hge|Hlt].
  - rewrite !Z.min_r by lia. rewrite Z.sub_diag.
    rewrite (skipn_all2 (n := Z.to_nat i)) by lia.
    now rewrite firstn_nil.
  - rewrite (Z.min_l i) by lia.
    destruct (Z.le_gt_cases j (Z.of_nat (List.length s))) as [Hjl|Hjg].
    + now rewrite Z.min_l by lia.
    + rewrite Z.min_r by lia.
      rewrite !firstn_all2; try reflexivity; rewrite length_skipn; lia.
Qed.

Lemma slice_shift s o i j :
  0 <= o -> 0 <= i -> i <= j ->
  slice (skipn (Z.to_nat o) s) i j = slice s (o + i) (o + j).
Proof.
  intros Ho Hi Hj. rewrite !slice_nonneg by lia.
  rewrite skipn_skipn. f_equal; [lia|]. f_equal. lia.
Qed.

Lemma slice_app_l (s t : jsstring) i j :
  0 <= i -> i <= j -> j <= len s ->
  slice (s ++ t) i j = slice s i j.
Proof.
  intros Hi Hj Hl. rewrite !slice_nonneg by lia. unfold len in Hl.
  rewrite skipn_app, firstn_app, length_skipn.
  replace (Z.to_nat (j - i) - (List.length s - Z.to_nat i))%nat with 0%nat
    by lia.
  cbn [firstn]. now rewrite app_nil_r.
Qed.

Lemma indexOf_occurs (pre a post : jsstring) :
  0 <= indexOf (pre ++ a ++ post) a 0 <= len pre
  /\ slice (pre ++ a ++ post) (indexOf (pre ++ a ++ post) a 0)
           (indexOf (pre ++ a ++ post) a 0 + len a) = a.
Proof.
  set (s := pre ++ a ++ post).
  assert (Hocc : startsWith (skipn (List.length pre) s) a = true).
  { unfold s. rewrite skipn_length_app. apply startsWith_app. }
  destruct (indexOf_spec s a 0) as [H|(H1 & H2 & H3)].
  - rewrite indexOf_none in H.
    rewrite H in Hocc; [discriminate|].
    unfold s. rewrite !length_app. pose proof (len_nonneg (pre ++ a ++ post)).
    rewrite Z.min_l by lia. cbn. lia.
  - set (i := indexOf s a 0) in *.
    assert (Hle : i <= len pre).
    { destruct (Z.le_gt_cases i (len pre)) as [Hle|Hgt]; [exact Hle|].
      exfalso. unfold i, indexOf in Hgt.
      rewrite Z.max_id, Z.min_l in Hgt by apply len_nonneg.
      cbn [Z.to_nat skipn] in Hgt.
      assert (Hex : exists k, (k <= List.length pre)%nat
                    /\ startsWith (skipn k s) a = true
                    /\ forall j, (j < k)%nat ->
                                 startsWith (skipn j s) a = false).
      { clear -Hocc. generalize dependent s. intros s.
        generalize (List.length pre). intros n. revert s.
        induction n as [|n IH]; intros s Hocc.
        - exists 0%nat. split; [lia|]. split; [exact Hocc|]. intros j Hj. lia.
        - destruct (startsWith s a) eqn:E.
          + exists 0%nat. split; [lia|]. split; [exact E|]. intros j Hj. lia.
          + destruct s as [|x s'].
            * cbn [skipn] in Hocc. congruence.
            * cbn [skipn] in Hocc. destruct (IH s' Hocc) as (k & Hk & Hp & Hj).
              exists (S k). split; [lia|]. split; [exact Hp|].
              intros [|j] Hlt; [exact E|]. cbn [skipn]. apply Hj. lia. }
      destruct Hex as (k & Hk & Hp & Hj).
      rewrite (find_from_first _ s k 0) in Hgt; [unfold len in Hgt; lia| |exact Hp|exact Hj].
      unfold s. rewrite length_app. lia. }
    split; [lia|].
    apply startsWith_length in H3 as Hl3. rewrite length_skipn in Hl3.
    unfold slice, rel_index.
    pose proof (len_nonneg a).
    destruct (i <? 0) eqn:E1; [lia|]. destruct (i + len a <? 0) eqn:E2; [lia|].
    rewrite !Z.min_l by (unfold len in *; lia).
    replace (Z.to_nat (i + len a - i)) with (List.length a)
      by (unfold len; lia).
    clear -H3. revert H3. generalize (skipn (Z.to_nat i) s). intros t.
    revert t. induction a as [|x a IH]; intros t H; [reflexivity|].
    destruct t as [|y t]; [discriminate|]. cbn in H.
    apply andb_prop in H as [H1 H2]. apply Z.eqb_eq in H1. subst y.
    cbn [List.length firstn]. f_equal. now apply IH.
Qed.

(** X16: a directive attribute written [head arg .mod1 .mod2 = 'value']
    without spaces in its name, the head being [v-name], [v-name:], [:],
    [@] or [#], the argument static and without dot, is parsed into a
    DIRECTIVE node: its name is the one after [v-], or bind, on, slot for
    the shorthands; its argument is the text between the head and the
    first dot; its modifiers are the texts between the dots; its
    expression is the value, not static.  Nothing is reported, and the
    sources of the node, of the argument and of the expression are the
    attribute, the argument and the value without its quotes. *)
Theorem directive_quoted :
  forall fuel c nameSet h a ms sp1 sp2 q value rest,
    let name := headText h ++ a ++ dotted ms in
    source c = name ++ sp1 ++ js "=" ++ sp2 ++ q :: value ++ q :: rest ->
    headFor h a -> ~ In 46 a -> startsWith a (js "[") = false ->
    Forall (fun m => ~ In 46 m) ms ->
    forallb (fun x => negb (isLineTerminator x)) (dotted ms) = true ->
    forallb isNameChar name = true ->
    set_has nameSet name = false ->
    forallb isSpace sp1 = true -> forallb isSpace sp2 = true ->
    q = 34 \/ q = 39 -> ~ In q value -> ~ In 38 value ->
    exists loc aloc vloc c',
      parseAttribute (S fuel) c nameSet
      = Some (DIRECTIVE
                {| dir_name := headName h;
                   dir_exp := Some (mkExpression value false vloc);
                   dir_arg := match a with
                              | [] => None
                              | _ => Some (mkExpression a true aloc)
                              end;
                   dir_modifiers := ms;
                   dir_loc := loc |},
              nameSet ++ [name], c')
      /\ source c' = rest /\ reported c' = reported c
      /\ (synced c ->
          loc_source loc
          = name ++ sp1 ++ js "=" ++ sp2 ++ q :: value ++ [q]
          /\ loc_source vloc = value
          /\ (a <> [] -> loc_source aloc = a)).
Proof.
  intros fuel c nameSet h a ms sp1 sp2 q value rest name Hs Hh Hdot Hst Hms
    Hlt Hc Hset Hsp1 Hsp2 Hq Hnq Hna.
  assert (Hname : name = headText h ++ a ++ dotted ms) by reflexivity.
  clearbody name.
  assert (Hn : name <> []).
  { rewrite Hname. pose proof (headText_nonempty h a Hh).
    destruct (headText h); [congruence|discriminate]. }
  assert (Hd : testDirectivePrefix name = true)
    by (rewrite Hname; apply testDirectivePrefix_head).
  assert (Hqs : isSpace q = false) by (destruct Hq as [-> | ->]; reflexivity).
  assert (Hex : execAttrName (source c) = Some name).
  { rewrite Hs. apply execAttrName_name; [exact Hn|exact Hc|].
    destruct sp1 as [|x sp1]; [reflexivity|].
    cbn in Hsp1 |- *. apply andb_prop in Hsp1 as [Hx _].
    unfold isTagEnd. now rewrite Hx. }
  assert (Heq : startsWith name (js "=") = false).
  { destruct name as [|x name']; [congruence|]. cbn in Hc.
    apply andb_prop in Hc as [Hx _]. apply isNameChar_spec in Hx as (_ & Hx & _).
    eval_js. rewrite startsWith_1. now rewrite Z.eqb_sym. }
  assert (Hbad : matchIndices isBadNameChar name 0 = []).
  { apply matchIndices_none. revert Hc. apply forallb_impl.
    intros y Hy. apply isNameChar_spec in Hy as (_ & _ & Hy). now rewrite Hy. }
  set (c1 := advanceBy c (len name)).
  destruct (advanceBy_prefix c name _ Hs) as [Hs1 Ho1]. fold c1 in Hs1, Ho1.
  assert (Htest : testSpacesEquals (source c1) = true).
  { unfold testSpacesEquals. rewrite Hs1, (span_all isSpace sp1 _ Hsp1);
      [apply startsWith_app|reflexivity]. }
  set (c2 := advanceSpaces c1).
  destruct (advanceSpaces_run c1 sp1 _ Hs1 Hsp1 ltac:(reflexivity))
    as (Hs2 & Ho2 & Hr2 & Hop2 & Hor2 & _). fold c2 in Hs2, Ho2, Hr2, Hop2, Hor2.
  set (c3 := advanceBy c2 1).
  destruct (advanceBy_prefix c2 (js "=") _ Hs2) as [Hs3 Ho3].
  change (len (js "=")) with 1 in Hs3, Ho3. fold c3 in Hs3, Ho3.
  set (c4 := advanceSpaces c3).
  destruct (advanceSpaces_run c3 sp2 _ Hs3 Hsp2 (noLeadingSpace_cons _ _ Hqs))
    as (Hs4 & Ho4 & Hr4 & Hop4 & Hor4 & _). fold c4 in Hs4, Ho4, Hr4, Hop4, Hor4.
  destruct (parseAttributeValue_quoted fuel c4 q value rest Hs4 Hq Hnq Hna)
    as (c5 & Hv & Hs5 & Ho5 & Hr5 & Ha5).
  assert (Hdotahead : dotAhead (dotted ms)).
  { destruct ms; [exact I|reflexivity]. }
  unfold parseAttribute. cbv zeta. rewrite Hex. cbv beta iota.
  rewrite Hset, Heq, Hbad. unfold set_add. rewrite Hset.
  cbn [emitErrorsAt fold_left]. fold c1. rewrite Htest.
  fold c2. fold c3. fold c4. rewrite Hv. cbv beta iota. rewrite Hd.
  assert (Hexd : execDirective name
                 = (match h with VDash n | VDashArg n => Some n | _ => None end,
                    match a with [] => None | _ => Some a end,
                    match dotted ms with
                    | [] => None
                    | _ => Some (dotted ms)
                    end))
    by (rewrite Hname; now apply execDirective_head).
  rewrite Hexd. cbv beta iota.
  rewrite (modifiers_dotted ms Hms).
  assert (Hdn : match match h with
                      | VDash n | VDashArg n => Some n
                      | _ => None
                      end with
                | Some m1 => m1
                | None =>
                    if startsWith name (js ":") then js "bind"
                    else if startsWith name (js "@") then js "on"
                         else js "slot"
                end = headName h)
    by (rewrite Hname; apply dir_name_head).
  rewrite Hdn.
  cbn [value_isQuoted value_content value_loc].
  assert (Hrep : reported c5 = reported c).
  { rewrite Hr5, Hr4. change (reported c3) with (reported c2).
    now rewrite Hr2. }
  assert (Ha4 : advances c c4).
  { unfold c4, c3, c2, c1. advances_chain. }
  assert (Ha05 : advances c c5) by (eapply advances_trans; eassumption).
  pose proof (len_nonneg name). pose proof (len_nonneg sp1).
  pose proof (len_nonneg sp2). pose proof (len_nonneg value).
  assert (Hloc : synced c ->
            loc_source (getSelection c5 (getCursor c) None)
            = name ++ sp1 ++ js "=" ++ sp2 ++ q :: value ++ [q]).
  { intros Hsy. apply (selection_synced c c5 _ rest Hsy Ha05).
    - rewrite Hs. rewrite <- !app_assoc. cbn [app].
      repeat (f_equal; try (rewrite <- !app_assoc; cbn [app])).
    - rewrite !len_app, !len_cons, !len_app, !len_cons.
      change (len (js "=")) with 1. change (len []) with 0. lia. }
  assert (Hvloc : synced c ->
            slice (loc_source (getSelection c5 (cursor c4) None)) 1 (-1)
            = value).
  { intros Hsy.
    rewrite (selection_synced c4 c5 (q :: value ++ [q]) rest
               (synced_advances _ _ Hsy Ha4) Ha5).
    - unfold slice, rel_index. rewrite len_cons, len_app.
      change (len [q]) with 1. change (1 <? 0) with false.
      change (-1 <? 0) with true. cbv iota.
      rewrite Z.min_l, Z.max_l by lia.
      change (Z.to_nat 1) with 1%nat. cbn [skipn].
      replace (Z.to_nat (1 + (len value + 1) + -1 - 1))
        with (List.length value) by (unfold len; lia).
      apply firstn_length_app.
    - rewrite Hs4. cbn [app]. now rewrite <- app_assoc.
    - rewrite len_cons, len_app, len_cons. change (len []) with 0. lia. }
  destruct a as [|xa a'] eqn:Ea.
  - eexists. exists (getSelection c (cursor c) None). do 2 eexists.
    split; [reflexivity|]. split; [exact Hs5|].
    split; [exact Hrep|]. intros Hsy. split; [now apply Hloc|].
    split; [now apply Hvloc|]. congruence.
  - rewrite <- Ea in *. cbv beta iota. rewrite Hst.
    do 4 eexists. split; [reflexivity|]. split; [exact Hs5|].
    split; [exact Hrep|]. intros Hsy. split; [now apply Hloc|].
    split; [now apply Hvloc|]. intros _.
    cbn [getSelection loc_source orElse exp_loc].
    rewrite !offset_getNewPosition. unfold getCursor.
    rewrite (advances_originalSource _ _ Ha05).
    destruct (indexOf_occurs (headText h) a (dotted ms)) as [Hi1 Hi2].
    rewrite <- Hname in Hi1, Hi2.
    assert (Hsf : len (split_first name a) = indexOf name a 0).
    { unfold split_first.
      replace (indexOf name a 0 <? 0) with false
        by (symmetry; apply Z.ltb_ge; lia).
      rewrite slice_0 by lia. unfold len. rewrite length_firstn.
      pose proof (len_nonneg (headText h)).
      assert (len (headText h) <= len name)
        by (rewrite Hname, len_app;
            pose proof (len_nonneg (a ++ dotted ms)); lia).
      unfold len in *. lia. }
    rewrite Hsf. set (i := indexOf name a 0) in *.
    destruct Hsy as [Hoff Hsy].
    pose proof (len_nonneg a).
    rewrite <- slice_shift, <- Hsy, Hs by lia.
    rewrite slice_app_l; [exact Hi2|lia|lia|].
    assert (Hne : indexOf name a 0 <> -1) by (fold i; lia).
    apply indexOf_found in Hne as (_ & Hne & _); [|lia]. exact Hne.
Qed.

Lemma directive_quoted_witness :
  exists loc aloc vloc c',
    parseAttribute 1
      (createParserContext (js "v-on:click.stop.once='f(1)' ") noOptions) []
    = Some (DIRECTIVE
              {| dir_name := js "on";
                 dir_exp := Some (mkExpression (js "f(1)") false vloc);
                 dir_arg := Some (mkExpression (js "click") true aloc);
                 dir_modifiers := [js "stop"; js "once"];
                 dir_loc := loc |},
            [js "v-on:click.stop.once"], c')
    /\ source c' = js " " /\ reported c' = []
    /\ loc_source loc = js "v-on:click.stop.once='f(1)'"
    /\ loc_source vloc = js "f(1)"
    /\ loc_source aloc = js "click".
Proof.
  destruct (directive_quoted 0
              (createParserContext (js "v-on:click.stop.once='f(1)' ")
                 noOptions) []
              (VDashArg (js "on")) (js "click") [js "stop"; js "once"]
              [] [] 39 (js "f(1)") (js " "))
    as (loc & aloc & vloc & c' & H1 & H2 & H3 & H4);
    try reflexivity.
  - repeat split; discriminate.
  - vm_compute. intros H.
    repeat (destruct H as [H|H]; [discriminate H|]). exact H.
  - repeat (apply Forall_cons;
            [vm_compute; intros H;
             repeat (destruct H as [H|H]; [discriminate H|]); exact H|]).
    apply Forall_nil.
  - now right.
  - vm_compute. intros H.
    repeat (destruct H as [H|H]; [discriminate H|]). exact H.
  - vm_compute. intros H.
    repeat (destruct H as [H|H]; [discriminate H|]). exact H.
  - exists loc, aloc, vloc, c'. split; [exact H1|]. split; [exact H2|].
    split; [exact H3|].
    destruct H4 as (H4 & H5 & H6); [split; [cbn; lia|reflexivity]|].
    split; [exact H4|]. split; [exact H5|]. apply H6. discriminate.
Defined.

(** ** Interpolations *)

Lemma trimStart_lead lead s :
  forallb isTrimSpace lead = true ->
  trimStart (lead ++ s) = trimStart s.
Proof.
  induction lead as [|x lead IH]; [reflexivity|]. cbn [forallb app trimStart].
  intros H. apply andb_prop in H as [-> H]. now apply IH.
Qed.

Lemma trimStart_keep x s : isTrimSpace x = false -> trimStart (x :: s) = x :: s.
Proof. intros H. cbn. now rewrite H. Qed.

Lemma trim_trimmedTo lead body trail :
  trimmedTo lead body trail -> trim (lead ++ body ++ trail) = body.
Proof.
  intros (Hl & Ht & Hb). unfold trim. rewrite (trimStart_lead lead _ Hl).
  destruct body as [|x body'] eqn:Eb.
  - cbn [app]. rewrite (trimStart_all _ Ht). reflexivity.
  - destruct Hb as [Hx Hy]. rewrite <- Eb in *.
    replace (trimStart (body ++ trail)) with (body ++ trail)
      by (rewrite Eb; cbn [app]; now rewrite trimStart_keep).
    rewrite rev_app_distr, trimStart_lead.
    + destruct (rev body) as [|y r] eqn:Er.
      * apply (f_equal (@rev Z)) in Er. rewrite rev_involutive in Er.
        cbn in Er. congruence.
      * rewrite trimStart_keep by exact Hy. rewrite <- Er.
        apply rev_involutive.
    + rewrite forallb_forall in *. intros z Hz. apply Ht.
      now apply in_rev.
Qed.

Lemma indexOf_trimmed lead body trail :
  trimmedTo lead body trail ->
  indexOf (lead ++ body ++ trail) body 0 = len lead.
Proof.
  intros (Hl & Ht & Hb). unfold indexOf.
  rewrite Z.max_id, Z.min_l by apply len_nonneg. cbn [Z.to_nat skipn].
  destruct body as [|x body'] eqn:Eb.
  - subst lead. cbn [app]. destruct trail; reflexivity.
  - rewrite <- Eb in *.
    rewrite (find_from_first _ _ (List.length lead) 0).
    + unfold len. lia.
    + rewrite length_app. lia.
    + rewrite skipn_length_app. apply startsWith_app.
    + intros j Hj.
      destruct (skipn j (lead ++ body ++ trail)) as [|y t] eqn:E;
        [now rewrite Eb|].
      assert (Hy : nth_error lead j = Some y).
      { rewrite <- (nth_error_app1 lead (body ++ trail)) by exact Hj.
        rewrite <- (Nat.add_0_r j), <- nth_error_skipn_add, E.
        reflexivity. }
      apply nth_error_In in Hy. rewrite forallb_forall in Hl.
      apply Hl in Hy. rewrite Eb. cbn [startsWith].
      destruct Hb as [Hx _].
      destruct (x =? y) eqn:Exy; [|reflexivity].
      apply Z.eqb_eq in Exy. congruence.
Qed.

Lemma indexOf_close (open raw close' rest : jsstring) x :
  ~ In x raw ->
  indexOf (open ++ raw ++ (x :: close') ++ rest) (x :: close') (len open)
  = len open + len raw.
Proof.
  intros Hn. unfold indexOf. pose proof (len_nonneg open) as Ho.
  rewrite Z.max_l by lia.
  rewrite Z.min_l
    by (rewrite len_app; pose proof (len_nonneg (raw ++ (x :: close') ++ rest));
        lia).
  replace (Z.to_nat (len open)) with (List.length open) by (unfold len; lia).
  rewrite skipn_length_app.
  rewrite (find_from_first _ _ (List.length raw) (len open)).
  - unfold len. lia.
  - rewrite length_app. lia.
  - rewrite skipn_length_app. apply startsWith_app.
  - intros j Hj.
    destruct (skipn j (raw ++ (x :: close') ++ rest)) as [|y t] eqn:E;
      [reflexivity|].
    assert (Hy : nth_error raw j = Some y).
    { rewrite <- (nth_error_app1 raw ((x :: close') ++ rest)) by exact Hj.
      rewrite <- (Nat.add_0_r j), <- nth_error_skipn_add, E. reflexivity. }
    apply nth_error_In in Hy. cbn [startsWith].
    destruct (x =? y) eqn:Exy; [|reflexivity].
    apply Z.eqb_eq in Exy. congruence.
Qed.

Lemma parseTextData_verbatim fuel c mode (text rest : jsstring) :
  source c = text ++ rest -> ~ In 38 text ->
  exists c',
    parseTextData (S fuel) c (len text) mode = Some (text, c')
    /\ source c' = rest
    /\ offset (cursor c') = offset (cursor c) + len text
    /\ reported c' = reported c
    /\ advances c c'.
Proof.
  intros Hs Hn. pose proof (len_nonneg text) as Hl.
  destruct text as [|x text'] eqn:Et.
  - change (len []) with 0. cbn [app] in Hs. unfold parseTextData.
    destruct (negb (isEntityMode mode)).
    + eexists. split; [now rewrite slice_0_0|].
      rewrite source_advanceBy, slice_from_0, offset_advanceBy.
      split; [exact Hs|]. split; [reflexivity|]. split; [reflexivity|].
      apply advances_advanceBy; [apply advances_refl|lia].
    + rewrite parseTextData_loop_done by lia.
      eexists. split; [reflexivity|].
      split; [exact Hs|]. split; [lia|]. split; [reflexivity|].
      apply advances_refl.
  - rewrite <- Et in *.
    assert (Hf : firstn (Z.to_nat (len text)) (source c) = text).
    { rewrite Hs. unfold len. rewrite Nat2Z.id. apply firstn_length_app. }
    rewrite parseTextData_copy.
    + eexists. split; [now rewrite slice_0, Hf by lia|].
      destruct (advanceBy_prefix c text rest Hs) as [H1 H2].
      split; [exact H1|]. split; [exact H2|]. split; [reflexivity|].
      apply advances_advanceBy; [apply advances_refl|lia].
    + now rewrite Hf.
    + rewrite Et, len_cons. pose proof (len_nonneg text'). lia.
Qed.

(** X17: an interpolation [open raw close], where [raw] holds neither the
    first unit of [close] nor an ampersand, is parsed into an
    INTERPOLATION node whose expression is [raw] trimmed, not static;
    nothing is reported.  The expression is located where the trimmed text
    stands in [raw]: it starts after the opening delimiter and the leading
    whitespace, it ends at its length from there, and its source is the
    trimmed text; the node spans the delimiters. *)
Theorem interpolation_trimmed :
  forall fuel c mode open x close' lead body trail rest,
    delimiters (options c) = (open, x :: close') ->
    source c = open ++ (lead ++ body ++ trail) ++ (x :: close') ++ rest ->
    trimmedTo lead body trail ->
    ~ In x (lead ++ body ++ trail) -> ~ In 38 (lead ++ body ++ trail) ->
    exists loc iloc c',
      parseInterpolation (S fuel) c mode
      = Some (Some {| interp_content := mkExpression body false iloc;
                      interp_loc := loc |}, c')
      /\ source c' = rest /\ reported c' = reported c
      /\ offset (loc_start iloc) = offset (cursor c) + len open + len lead
      /\ offset (loc_end iloc) = offset (loc_start iloc) + len body
      /\ (synced c ->
          loc_source iloc = body
          /\ loc_source loc
             = open ++ (lead ++ body ++ trail) ++ x :: close').
Proof.
  intros fuel c mode open x close' lead body trail rest Hdel Hs Htrim Hx Hamp.
  set (raw := lead ++ body ++ trail) in *.
  set (close := x :: close') in *.
  pose proof (len_nonneg open) as Hlo. pose proof (len_nonneg raw) as Hlr.
  pose proof (len_nonneg lead) as Hll. pose proof (len_nonneg body) as Hlb.
  pose proof (len_nonneg trail) as Hlt.
  assert (Hlraw : len raw = len lead + len body + len trail)
    by (unfold raw; rewrite !len_app; lia).
  assert (Hci : indexOf (source c) close (len open) = len open + len raw)
    by (rewrite Hs; now apply indexOf_close).
  set (c1 := advanceBy c (len open)).
  destruct (advanceBy_prefix c open _ Hs) as [Hs1 Ho1]. fold c1 in Hs1, Ho1.
  destruct (parseTextData_verbatim fuel c1 mode raw (close ++ rest) Hs1 Hamp)
    as (c2 & Ht & Hs2 & Ho2 & Hr2 & Ha2).
  assert (Hraw : slice (source c1) 0 (len raw) = raw).
  { rewrite Hs1, slice_0 by lia. unfold len. rewrite Nat2Z.id.
    apply firstn_length_app. }
  unfold parseInterpolation. rewrite Hdel, Hci.
  replace (len open + len raw =? -1) with false
    by (symmetry; apply Z.eqb_neq; lia).
  cbv zeta. fold c1.
  replace (len open + len raw - len open) with (len raw) by lia.
  rewrite Ht, Hraw.
  replace (trim raw) with body by (symmetry; now apply trim_trimmedTo).
  replace (indexOf raw body 0) with (len lead)
    by (symmetry; now apply indexOf_trimmed).
  set (c3 := advanceBy c2 (len close)).
  destruct (advanceBy_prefix c2 close rest Hs2) as [Hs3 Ho3].
  fold c3 in Hs3, Ho3.
  assert (Ha3 : advances c c3).
  { eapply advances_trans; [|apply advances_advanceBy;
                             [exact Ha2|apply len_nonneg]].
    unfold c1. advances_chain. }
  do 3 eexists. split; [reflexivity|].
  split; [exact Hs3|]. split; [exact Hr2|].
  cbn [getSelection loc_start loc_end loc_source orElse exp_loc].
  assert (Hstart : offset (if 0 <? len lead
                           then advancePositionWithMutation (getCursor c1)
                                  raw (len lead)
                           else getCursor c1)
                   = offset (cursor c) + len open + len lead).
  { destruct (0 <? len lead) eqn:E.
    - rewrite offset_advance. unfold getCursor. lia.
    - apply Z.ltb_ge in E. unfold getCursor. lia. }
  split; [exact Hstart|]. split.
  { rewrite Hstart, offset_advance. unfold getCursor. lia. }
  intros Hsy. split.
  - rewrite Hstart, offset_advance. unfold getCursor.
    rewrite (advances_originalSource _ _ Ha3).
    destruct Hsy as [H0 Hsy].
    replace (offset (cursor c1) + (len raw - (len raw - len body - len lead)))
      with (offset (cursor c) + (len open + len lead + len body)) by lia.
    rewrite <- Z.add_assoc, <- slice_shift, <- Hsy, Hs by lia.
    rewrite slice_nonneg by lia.
    replace (Z.to_nat (len open + len lead + len body - (len open + len lead)))
      with (List.length body) by (unfold len; lia).
    replace (Z.to_nat (len open + len lead))
      with (List.length (open ++ lead))
      by (rewrite length_app; unfold len; lia).
    unfold raw. rewrite <- !app_assoc, (app_assoc open lead).
    rewrite skipn_length_app. apply firstn_length_app.
  - apply (selection_synced c c3 _ rest Hsy Ha3).
    + rewrite Hs. now rewrite <- !app_assoc.
    + rewrite Ho3, Ho2, Ho1, !len_app. fold close. lia.
Qed.

Lemma interpolation_trimmed_witness :
  exists loc iloc c',
    parseInterpolation 1 (createParserContext (js "{{  a b }}!") noOptions)
      DATA
    = Some (Some {| interp_content := mkExpression (js "a b") false iloc;
                    interp_loc := loc |}, c')
    /\ source c' = js "!" /\ reported c' = []
    /\ offset (loc_start iloc) = 4 /\ offset (loc_end iloc) = 7
    /\ loc_source iloc = js "a b"
    /\ loc_source loc = js "{{  a b }}".
Proof.
  destruct (interpolation_trimmed 0
              (createParserContext (js "{{  a b }}!") noOptions) DATA
              (js "{{") 125 (js "}") (js "  ") (js "a b") (js " ") (js "!"))
    as (loc & iloc & c' & H1 & H2 & H3 & H4 & H5 & H6);
    try reflexivity.
  - repeat split; reflexivity.
  - vm_compute. intros H.
    repeat (destruct H as [H|H]; [discriminate H|]). exact H.
  - vm_compute. intros H.
    repeat (destruct H as [H|H]; [discriminate H|]). exact H.
  - exists loc, iloc, c'. split; [exact H1|]. split; [exact H2|].
    split; [exact H3|]. split; [exact H4|].
    split; [rewrite H5, H4; reflexivity|].
    apply H6. split; [cbn; lia|reflexivity].
Defined.

(** ** Elements *)

Lemma execTagOpen_simple (slash : bool) tag rest :
  isTagName tag = true ->
  execTagOpen (js "<" ++ (if slash then js "/" else []) ++ tag ++ js ">" ++ rest)
  = Some (js "<" ++ (if slash then js "/" else []) ++ tag, tag).
Proof.
  intros Ht. destruct tag as [|x r]; [discriminate|].
  cbn [isTagName] in Ht. apply andb_prop in Ht as [Hx Hr].
  assert (Hsp : span (fun y => negb (isTagEnd y)) (r ++ js ">" ++ rest)
                = (r, js ">" ++ rest))
    by (apply span_all; [exact Hr|reflexivity]).
  unfold execTagOpen. destruct slash.
  - change (startsWith (js "<" ++ js "/" ++ (x :: r) ++ js ">" ++ rest)
              (js "<")) with true.
    change (startsWith (js "<" ++ js "/" ++ (x :: r) ++ js ">" ++ rest)
              (js "</")) with true.
    cbv iota.
    change (skipn (1 + List.length (js "/"))
              (js "<" ++ js "/" ++ (x :: r) ++ js ">" ++ rest))
      with (x :: r ++ js ">" ++ rest).
    cbv beta iota. now rewrite Hx, Hsp.
  - change (startsWith (js "<" ++ [] ++ (x :: r) ++ js ">" ++ rest) (js "<"))
      with true.
    replace (startsWith (js "<" ++ [] ++ (x :: r) ++ js ">" ++ rest) (js "</"))
      with false.
    2:{ symmetry. eval_js. cbn [app startsWith]. eval_eqb. cbn [andb].
        destruct (47 =? x) eqn:E; [|reflexivity].
        apply Z.eqb_eq in E. subst x. discriminate Hx. }
    cbv iota.
    change (skipn (1 + List.length (@nil Z))
              (js "<" ++ [] ++ (x :: r) ++ js ">" ++ rest))
      with (x :: r ++ js ">" ++ rest).
    cbv beta iota. now rewrite Hx, Hsp.
Qed.

Lemma parseTag_simple fuel c (slash : bool) type parent tg rest :
  source c
  = js "<" ++ (if slash then js "/" else []) ++ tg ++ js ">" ++ rest ->
  isTagName tg = true ->
  exists e c',
    parseTag fuel c type parent = Some (e, c')
    /\ tag e = tg /\ ns e = getNamespace (options c) tg parent
    /\ props e = [] /\ isSelfClosing e = false /\ children e = []
    /\ loc e = getSelection c' (cursor c) None
    /\ source c' = rest /\ reported c' = reported c
    /\ offset (cursor c')
       = offset (cursor c) + len tg + (if slash then 3 else 2)
    /\ advances c c'.
Proof.
  intros Hs Ht.
  set (open := js "<" ++ (if slash then js "/" else []) ++ tg).
  assert (Hs' : source c = open ++ js ">" ++ rest).
  { rewrite Hs. unfold open. now rewrite <- !app_assoc. }
  set (c1 := advanceBy c (len open)).
  destruct (advanceBy_prefix c open _ Hs') as [Hs1 Ho1]. fold c1 in Hs1, Ho1.
  assert (Hsp : advanceSpaces c1 = c1).
  { unfold advanceSpaces. now rewrite Hs1. }
  assert (Hloop : parseTag_loop fuel c1 type [] [] = Some ([], c1)).
  { destruct fuel; cbn [parseTag_loop]; rewrite Hs1;
      change (js ">" ++ rest) with (62 :: rest);
      change (js ">") with [62]; rewrite startsWith_1; reflexivity. }
  unfold parseTag. rewrite Hs, (execTagOpen_simple slash tg rest Ht).
  fold open. fold c1. rewrite Hsp, Hloop, Hs1.
  change (js ">" ++ rest) with (62 :: rest). cbv iota.
  change (startsWith (62 :: rest) (js "/>")) with false.
  assert (Hsrc : source (advanceBy c1 1) = rest)
    by (rewrite source_advanceBy, Hs1, slice_from_skipn by lia; reflexivity).
  assert (Hoff : offset (cursor (advanceBy c1 1))
                 = offset (cursor c) + len tg + (if slash then 3 else 2)).
  { rewrite offset_advanceBy, Ho1. unfold open. rewrite !len_app.
    destruct slash; change (len (js "<")) with 1;
      change (len (js "/")) with 1; change (len []) with 0; lia. }
  assert (Hadv : advances c (advanceBy c1 1)).
  { unfold c1. apply advances_advanceBy; [|lia].
    apply advances_advanceBy; [apply advances_refl|apply len_nonneg]. }
  destruct type; cbv iota; do 2 eexists; (split; [reflexivity|]);
    cbn [tag ns props isSelfClosing children loc];
    repeat (split; [reflexivity|]);
    (split; [exact Hsrc|split; [reflexivity|split; [exact Hoff|exact Hadv]]]).
Qed.

Lemma pushNode_first DEV c (t : TextNode) :
  pushNode DEV c [] (TEXT t)
  = if ignoreSpaces (options c) && text_isEmpty t then [] else [TEXT t].
Proof.
  unfold pushNode. rewrite andb_false_r.
  now destruct (ignoreSpaces (options c) && text_isEmpty t).
Qed.

Lemma indexOf_lt_inner (inner rest : jsstring) :
  inner <> [] -> ~ In 60 inner ->
  indexOf (inner ++ js "<" ++ rest) (js "<") 1 = len inner.
Proof.
  intros Hn Hlt. destruct inner as [|i0 inner']; [congruence|].
  change ((i0 :: inner') ++ js "<" ++ rest)
    with ([i0] ++ inner' ++ (60 :: []) ++ rest).
  change 1 with (len [i0]) at 1. rewrite indexOf_close.
  - rewrite !len_cons. change (len []) with 0. lia.
  - intros H. apply Hlt. now right.
Qed.

Lemma indexOf_open_inner (inner rest : jsstring) o open' k :
  ~ In o inner -> 0 <= k ->
  indexOf (inner ++ rest) (o :: open') k = -1
  \/ len inner <= indexOf (inner ++ rest) (o :: open') k.
Proof.
  intros Ho Hk.
  destruct (indexOf_spec (inner ++ rest) (o :: open') k)
    as [H|(H1 & H2 & H3)]; [now left|right].
  set (i := indexOf (inner ++ rest) (o :: open') k) in *.
  destruct (Z.le_gt_cases (len inner) i) as [Hle|Hgt]; [exact Hle|].
  exfalso. apply Ho.
  pose proof (startsWith_nth _ _ H3 0%nat o eq_refl) as Hn.
  rewrite nth_error_skipn_add, Nat.add_0_r in Hn.
  rewrite nth_error_app1 in Hn by (unfold len in Hgt; lia).
  now apply nth_error_In in Hn.
Qed.

Lemma startsWith_head_neq (s : jsstring) x p :
  match s with y :: _ => y <> x | [] => True end ->
  startsWith s (x :: p) = false.
Proof.
  destruct s as [|y s]; [reflexivity|]. intros H. cbn [startsWith].
  destruct (x =? y) eqn:E; [|reflexivity].
  apply Z.eqb_eq in E. congruence.
Qed.

(** The children of an element whose content is plain text up to its end
    tag. *)
Lemma parseChildren_loop_text toLowerCase DEV fuel c mode
    (ancestors : list ElementNode) (el : ElementNode) inner close o open' :
  source c = inner ++ close ->
  inner <> [] -> ~ In 60 inner -> ~ In 38 inner -> ~ In o inner ->
  fst (delimiters (options c)) = o :: open' ->
  isElementMode mode = true ->
  startsWithEndTagOpen toLowerCase close (tag el) = true ->
  exists c',
    parseChildren_loop toLowerCase DEV (S fuel) c mode (ancestors ++ [el]) []
    = Some (if ignoreSpaces (options c) && isBlank inner then []
            else [TEXT {| text_content := inner;
                          text_loc := getSelection c' (cursor c) None;
                          text_isEmpty := isBlank inner |}], c')
    /\ source c' = close /\ reported c' = reported c
    /\ offset (cursor c') = offset (cursor c) + len inner
    /\ advances c c'.
Proof.
  intros Hs Hn Hlt Hamp Ho Hdel Hmode Hclose.
  destruct inner as [|i0 inner'] eqn:Ei; [congruence|]. rewrite <- Ei in *.
  assert (Hi0 : i0 <> 60 /\ i0 <> o).
  { split; intros ->; [apply Hlt|apply Ho]; rewrite Ei; now left. }
  assert (Hsl : startsWith (source c) (js "</") = false).
  { rewrite Hs, Ei. apply startsWith_head_neq. cbn. tauto. }
  assert (Hclose2 : startsWith close (js "</") = true).
  { unfold startsWithEndTagOpen in Hclose.
    apply andb_prop in Hclose as [Hc _]. now apply andb_prop in Hc. }
  assert (Hend : isEnd toLowerCase c mode (ancestors ++ [el]) = false).
  { unfold isEnd. rewrite last_snoc. unfold startsWithEndTagOpen.
    rewrite Hsl. cbn [andb].
    destruct mode; try discriminate; rewrite Hs, Ei; reflexivity. }
  assert (Hturn : forall pc,
             parseChildren_turn toLowerCase pc (S fuel) c mode
               (ancestors ++ [el]) = Some (Undefined, c)).
  { intros pc. unfold parseChildren_turn. rewrite Hdel.
    replace (startsWith (source c) (o :: open')) with false
      by (symmetry; rewrite Hs, Ei; apply startsWith_head_neq; cbn; tauto).
    replace (startsWith (source c) (js "<")) with false
      by (symmetry; rewrite Hs, Ei; apply startsWith_head_neq; cbn; tauto).
    now rewrite andb_false_r. }
  destruct (parseTextData_verbatim fuel c mode inner close Hs Hamp)
    as (c' & Ht & Hs' & Ho' & Hr' & Ha').
  exists c'.
  assert (Hclose3 : exists rest, close = js "<" ++ rest).
  { destruct close as [|x close']; [discriminate|]. exists close'.
    cbn [startsWith js] in Hclose2. apply andb_prop in Hclose2 as [Hx _].
    apply Z.eqb_eq in Hx. now rewrite <- Hx. }
  destruct Hclose3 as [rest Hrest].
  pose proof (len_nonneg inner) as Hli.
  assert (Hlen : 0 < len inner)
    by (rewrite Ei, len_cons; pose proof (len_nonneg inner'); lia).
  assert (Htext : parseText (S fuel) c mode
                  = Some ({| text_content := inner;
                             text_loc := getSelection c' (cursor c) None;
                             text_isEmpty := isBlank inner |}, c')).
  { unfold parseText. rewrite Hdel.
    assert (Hmin : fold_right Z.min (len (source c))
                     (filter (fun n => negb (n =? -1))
                        [indexOf (source c) (js "<") 1;
                         indexOf (source c) (o :: open') 1;
                         match mode with
                         | CDATA => indexOf (source c) (js "]]>") 0
                         | _ => -1
                         end]) = len inner).
    { replace (match mode with
               | CDATA => indexOf (source c) (js "]]>") 0
               | _ => -1
               end) with (-1) by (destruct mode; try reflexivity; discriminate).
      assert (H0 : indexOf (source c) (js "<") 1 = len inner)
        by (rewrite Hs, Hrest; now apply indexOf_lt_inner).
      rewrite H0, Hs, len_app. pose proof (len_nonneg close).
      cbn [filter].
      replace (len inner =? -1) with false by (symmetry; apply Z.eqb_neq; lia).
      change (-1 =? -1) with true. cbn [negb].
      destruct (indexOf_open_inner inner close o open' 1 Ho ltac:(lia))
        as [H1|H1].
      - rewrite H1. change (-1 =? -1) with true. cbn [negb fold_right]. lia.
      - replace (indexOf (inner ++ close) (o :: open') 1 =? -1) with false
          by (symmetry; apply Z.eqb_neq; lia).
        cbn [negb fold_right]. lia. }
    rewrite Hmin, Ht. unfold getCursor. now rewrite trim_isBlank. }
  assert (Hend2 : isEnd toLowerCase c' mode (ancestors ++ [el]) = true).
  { unfold isEnd. rewrite last_snoc, rev_app_distr, Hs', Hclose2.
    cbn [rev app existsb]. rewrite Hclose. cbn [orb andb].
    destruct mode; try discriminate; reflexivity. }
  assert (Hopt : options c' = options c) by (now destruct Ha').
  refine (conj _ (conj Hs' (conj Hr' (conj Ho' Ha')))).
  cbn [parseChildren_loop]. rewrite Hend.
  unfold parseChildren_iteration. rewrite Hturn, Htext.
  rewrite pushNode_first. cbn [text_isEmpty]. rewrite Hopt.
  destruct fuel; cbn [parseChildren_loop]; rewrite Hend2; reflexivity.
Qed.

Lemma advances_trans3 a b c d :
  advances a b -> advances b c -> advances c d -> advances a d.
Proof.
  intros H1 H2 H3. eapply advances_trans; [|exact H3].
  eapply advances_trans; eassumption.
Qed.

Lemma parseElement_text toLowerCase DEV f c ancestors tg tg' inner rest
    o open' :
  source c
  = js "<" ++ tg ++ js ">" ++ inner ++ js "</" ++ tg' ++ js ">" ++ rest ->
  isTagName tg = true -> isTagName tg' = true ->
  List.length tg' = List.length tg ->
  str_eqb (toLowerCase tg') (toLowerCase tg) = true ->
  isVoidTag (options c) tg = false ->
  isElementMode
    (getTextMode (options c) tg
       (getNamespace (options c) tg (last ancestors))) = true ->
  fst (delimiters (options c)) = o :: open' -> ~ In o inner ->
  inner <> [] -> ~ In 60 inner -> ~ In 38 inner ->
  exists e c' tloc,
    parseElement toLowerCase
      (fun context mode ancestors =>
         parseChildren_loop toLowerCase DEV (S f) context mode ancestors [])
      (S (S f)) c ancestors = Some (e, c')
    /\ tag e = tg /\ ns e = getNamespace (options c) tg (last ancestors)
    /\ props e = [] /\ isSelfClosing e = false
    /\ children e
       = (if ignoreSpaces (options c) && isBlank inner then []
          else [TEXT {| text_content := inner; text_loc := tloc;
                        text_isEmpty := isBlank inner |}])
    /\ source c' = rest /\ reported c' = reported c
    /\ offset (cursor c')
       = offset (cursor c) + len tg + len inner + len tg' + 5
    /\ advances c c'
    /\ offset (loc_start tloc) = offset (cursor c) + len tg + 2
    /\ offset (loc_end tloc) = offset (cursor c) + len tg + 2 + len inner
    /\ (synced c ->
        loc_source (loc e)
        = js "<" ++ tg ++ js ">" ++ inner ++ js "</" ++ tg' ++ js ">"
        /\ loc_source tloc = inner).
Proof.
  intros Hs Htg Htg' Hlen Hcase Hvoid Hmode Hdel Ho Hn Hlt Hamp.
  destruct (parseTag_simple (S (S f)) c false TagStart (last ancestors) tg
              (inner ++ js "</" ++ tg' ++ js ">" ++ rest) Hs Htg)
    as (el & c1 & Hp1 & Htag & Hns & Hprops & Hself & Hch & Hloc & Hs1 & Hr1
        & Ho1 & Ha1).
  assert (Hopt1 : options c1 = options c) by (now destruct Ha1).
  assert (Hclose : startsWithEndTagOpen toLowerCase
                     (js "</" ++ tg' ++ js ">" ++ rest) (tag el) = true).
  { rewrite Htag, end_tag_open by exact Hlen. now rewrite Hcase. }
  destruct (parseChildren_loop_text toLowerCase DEV f c1
              (getTextMode (options c1) (tag el) (ns el)) ancestors el inner
              (js "</" ++ tg' ++ js ">" ++ rest) o open')
    as (c2 & Hp2 & Hs2 & Hr2 & Ho2 & Ha2); auto.
  { now rewrite Hopt1. }
  { now rewrite Hopt1, Htag, Hns. }
  assert (Hopt2 : options c2 = options c1) by (now destruct Ha2).
  destruct (parseTag_simple (S (S f)) c2 true TagEnd (last ancestors) tg'
              rest Hs2 Htg')
    as (el2 & c3 & Hp3 & _ & _ & _ & _ & _ & _ & Hs3 & Hr3 & Ho3 & Ha3).
  pose proof (advances_trans3 _ _ _ _ Ha1 Ha2 Ha3) as Ha.
  eexists _, c3, (getSelection c2 (cursor c1) None).
  split.
  { unfold parseElement. rewrite Hp1. cbn beta iota.
    rewrite Hself, Hopt1, Htag, Hvoid. cbn [orb].
    rewrite Hopt1, Htag in Hp2. rewrite Hp2. cbn beta iota.
    rewrite Htag in Hclose.
    rewrite Hs2, Hclose, Hp3. cbn beta iota. reflexivity. }
  cbn [tag ns props isSelfClosing children loc].
  repeat (split; [first [assumption | congruence | reflexivity]|]).
  split; [lia|]. split; [exact Ha|].
  split; [exact Ho1|].
  split; [change (offset (cursor c2)
                  = offset (cursor c) + len tg + 2 + len inner); lia|].
  intros Hsy. split.
  - rewrite Hloc.
    change (loc_start (getSelection c1 (cursor c) None)) with (cursor c).
    apply (selection_synced c c3 _ rest Hsy Ha).
    + rewrite Hs. now rewrite <- !app_assoc.
    + rewrite !len_app. change (len (js "<")) with 1.
      change (len (js ">")) with 1. change (len (js "</")) with 2. lia.
  - apply (selection_synced c1 c2 inner (js "</" ++ tg' ++ js ">" ++ rest)).
    + exact (synced_advances _ _ Hsy Ha1).
    + exact Ha2.
    + exact Hs1.
    + exact Ho2.
Qed.

Lemma isAlpha_not_punct x : isAlpha x = true -> x <> 33 /\ x <> 47.
Proof.
  unfold isAlpha, isLower, isUpper. intros H.
  split; intros ->; discriminate H.
Qed.

Lemma synced_createParserContext content opts0 :
  synced (createParserContext content opts0).
Proof. split; [cbn; lia|reflexivity]. Qed.

Lemma parseChildren_loop_S toLowerCase DEV fuel c mode ancestors nodes :
  parseChildren_loop toLowerCase DEV (S fuel) c mode ancestors nodes
  = if isEnd toLowerCase c mode ancestors then Some (nodes, c)
    else
      match parseChildren_iteration toLowerCase DEV
              (fun context mode ancestors =>
                 parseChildren_loop toLowerCase DEV fuel context mode
                   ancestors [])
              (S fuel) c mode ancestors nodes with
      | Some (nodes', c') =>
          parseChildren_loop toLowerCase DEV fuel c' mode ancestors nodes'
      | None => None
      end.
Proof. reflexivity. Qed.

Lemma parseChildren_turn_element toLowerCase pc fuel c ancestors t0 rest
    o open' :
  source c = 60 :: t0 :: rest -> isAlpha t0 = true ->
  fst (delimiters (options c)) = o :: open' -> o <> 60 ->
  parseChildren_turn toLowerCase pc fuel c DATA ancestors
  = match parseElement toLowerCase pc fuel c ancestors with
    | Some (e, c') => Some (Produced [ELEMENT e], c')
    | None => None
    end.
Proof.
  intros Hs Ht0 Hdel Ho60.
  destruct (isAlpha_not_punct t0 Ht0) as [H33 H47].
  unfold parseChildren_turn. rewrite Hdel, Hs.
  replace (startsWith (60 :: t0 :: rest) (o :: open')) with false
    by (symmetry; apply startsWith_head_neq; congruence).
  change (startsWith (60 :: t0 :: rest) (js "<")) with true.
  change (charAt (60 :: t0 :: rest) 1) with (Some t0).
  cbn beta iota zeta. cbn [andb].
  replace (t0 =? 33) with false by (symmetry; now apply Z.eqb_neq).
  replace (t0 =? 47) with false by (symmetry; now apply Z.eqb_neq).
  rewrite Ht0. reflexivity.
Qed.

(** X18: an element written as a start tag, text and the end tag of the
    same name in any letter case parses to one element node with that
    text as its only child and no diagnostic; under ignoreSpaces a blank
    text leaves it childless. *)
Theorem element_with_text :
  forall toLowerCase DEV f opts0 tg tg' inner o open',
    isTagName tg = true -> isTagName tg' = true ->
    List.length tg' = List.length tg ->
    str_eqb (toLowerCase tg') (toLowerCase tg) = true ->
    isVoidTag (mergeOptions opts0) tg = false ->
    isElementMode
      (getTextMode (mergeOptions opts0) tg
         (getNamespace (mergeOptions opts0) tg None)) = true ->
    fst (delimiters (mergeOptions opts0)) = o :: open' ->
    o <> 60 -> ~ In o inner ->
    inner <> [] -> ~ In 60 inner -> ~ In 38 inner ->
    exists root e tloc,
      parse toLowerCase DEV (S (S f))
        (js "<" ++ tg ++ js ">" ++ inner ++ js "</" ++ tg' ++ js ">") opts0
      = Some (root, [])
      /\ root_children root = [ELEMENT e]
      /\ tag e = tg /\ props e = [] /\ isSelfClosing e = false
      /\ ns e = getNamespace (mergeOptions opts0) tg None
      /\ children e
         = (if ignoreSpaces (mergeOptions opts0) && isBlank inner then []
            else [TEXT {| text_content := inner; text_loc := tloc;
                          text_isEmpty := isBlank inner |}])
      /\ loc_source (loc e)
         = js "<" ++ tg ++ js ">" ++ inner ++ js "</" ++ tg' ++ js ">"
      /\ loc_source tloc = inner
      /\ offset (loc_start tloc) = 2 + len tg
      /\ offset (loc_end tloc) = 2 + len tg + len inner.
Proof.
  intros toLowerCase DEV f opts0 tg tg' inner o open'
    Htg Htg' Hlen Hcase Hvoid Hmode Hdel Ho60 Ho Hn Hlt Hamp.
  set (content := js "<" ++ tg ++ js ">" ++ inner ++ js "</" ++ tg' ++ js ">").
  set (c0 := createParserContext content opts0).
  assert (Hs0 : source c0
                = js "<" ++ tg ++ js ">" ++ inner ++ js "</" ++ tg'
                  ++ js ">" ++ []).
  { unfold content. now rewrite !app_nil_r. }
  destruct (parseElement_text toLowerCase DEV f c0 [] tg tg' inner [] o open'
              Hs0 Htg Htg' Hlen Hcase Hvoid Hmode Hdel Ho Hn Hlt Hamp)
    as (e & c' & tloc & Hp & Htag & Hns & Hprops & Hself & Hch & Hs' & Hr'
        & Ho' & Ha' & Hts & Hte & Hsy).
  destruct (Hsy (synced_createParserContext content opts0)) as [Hl1 Hl2].
  destruct tg as [|t0 tg1]; [discriminate Htg|].
  assert (Ht0 : isAlpha t0 = true).
  { cbn [isTagName] in Htg. now apply andb_prop in Htg. }
  destruct (isAlpha_not_punct t0 Ht0) as [H33 H47].
  exists {| root_children := [ELEMENT e];
            root_loc := getSelection c' (getCursor c0) None |}, e, tloc.
  split.
  { unfold parse, parseChildren. fold content. fold c0.
    rewrite parseChildren_loop_S.
    assert (Hend : isEnd toLowerCase c0 DATA [] = false).
    { unfold isEnd. cbn [rev existsb]. rewrite andb_false_r. reflexivity. }
    rewrite Hend. unfold parseChildren_iteration.
    rewrite (parseChildren_turn_element toLowerCase _ _ c0 [] t0
               (tg1 ++ js ">" ++ inner ++ js "</" ++ tg' ++ js ">") o open'
               eq_refl Ht0 Hdel Ho60).
    rewrite Hp. cbn beta iota. cbn [fold_left].
    assert (Hend' : isEnd toLowerCase c' DATA [] = true).
    { unfold isEnd. rewrite Hs'. reflexivity. }
    rewrite parseChildren_loop_S, Hend'. rewrite Hr'.
    unfold pushNode. rewrite !andb_false_r. reflexivity. }
  cbn [root_children]. change (offset (cursor c0)) with 0 in Hts, Hte.
  rewrite Hns. change (options c0) with (mergeOptions opts0) in Hch.
  repeat (split; [first [assumption | reflexivity | lia]|]). lia.
Qed.

Lemma element_with_text_witness :
  exists root e tloc,
    parse asciiToLowerCase false 2 (js "<div>hello</DIV>") noOptions
    = Some (root, [])
    /\ root_children root = [ELEMENT e]
    /\ tag e = js "div"
    /\ children e = [TEXT {| text_content := js "hello"; text_loc := tloc;
                             text_isEmpty := false |}]
    /\ loc_source (loc e) = js "<div>hello</DIV>"
    /\ loc_source tloc = js "hello".
Proof.
  assert (Hno : forall x, In x (js "hello") ->
                          x <> 123 /\ x <> 60 /\ x <> 38).
  { intros x H. vm_compute in H.
    repeat (destruct H as [H|H]; [subst x; repeat split; discriminate|]).
    destruct H. }
  destruct (element_with_text asciiToLowerCase false 0 noOptions
              (js "div") (js "DIV") (js "hello") 123 [123]
              eq_refl eq_refl eq_refl eq_refl eq_refl eq_refl eq_refl)
    as (root & e & tloc & H1 & H2 & H3 & _ & _ & _ & H4 & H5 & H6 & _).
  - discriminate.
  - intros H. now apply Hno in H.
  - discriminate.
  - intros H. now apply Hno in H.
  - intros H. now apply Hno in H.
  - exists root, e, tloc. repeat split; assumption.
Defined.

(** ** Elements left open *)

(** The children of an element whose content is plain text up to the end
    of the input. *)
Lemma parseChildren_loop_text_eof toLowerCase DEV fuel c mode
    (ancestors : list ElementNode) (el : ElementNode) inner o open' :
  source c = inner ->
  ~ In 60 inner -> ~ In 38 inner -> ~ In o inner ->
  fst (delimiters (options c)) = o :: open' ->
  isElementMode mode = true ->
  exists c',
    parseChildren_loop toLowerCase DEV (S fuel) c mode (ancestors ++ [el]) []
    = Some (match inner with
            | [] => []
            | _ :: _ =>
                if ignoreSpaces (options c) && isBlank inner then []
                else [TEXT {| text_content := inner;
                              text_loc := getSelection c' (cursor c) None;
                              text_isEmpty := isBlank inner |}]
            end, c')
    /\ source c' = [] /\ reported c' = reported c
    /\ offset (cursor c') = offset (cursor c) + len inner
    /\ advances c c'.
Proof.
  intros Hs Hlt Hamp Ho Hdel Hmode.
  destruct inner as [|i0 inner'] eqn:Ei.
  { exists c. rewrite parseChildren_loop_S.
    assert (Hend : isEnd toLowerCase c mode (ancestors ++ [el]) = true).
    { unfold isEnd. rewrite Hs.
      destruct mode; try discriminate; cbn [startsWith js andb];
        try rewrite last_snoc; reflexivity. }
    rewrite Hend. change (len []) with 0.
    split; [reflexivity|]. split; [exact Hs|]. split; [reflexivity|].
    split; [lia|apply advances_refl]. }
  cbv beta iota. rewrite <- Ei in *.
  assert (Hi0 : i0 <> 60 /\ i0 <> o).
  { split; intros ->; [apply Hlt|apply Ho]; rewrite Ei; now left. }
  assert (Hsl : startsWith (source c) (js "</") = false).
  { rewrite Hs, Ei. apply startsWith_head_neq. cbn. tauto. }
  assert (Hend : isEnd toLowerCase c mode (ancestors ++ [el]) = false).
  { unfold isEnd. rewrite last_snoc. unfold startsWithEndTagOpen.
    rewrite Hsl. cbn [andb].
    destruct mode; try discriminate; rewrite Hs, Ei; reflexivity. }
  assert (Hturn : forall pc,
             parseChildren_turn toLowerCase pc (S fuel) c mode
               (ancestors ++ [el]) = Some (Undefined, c)).
  { intros pc. unfold parseChildren_turn. rewrite Hdel.
    replace (startsWith (source c) (o :: open')) with false
      by (symmetry; rewrite Hs, Ei; apply startsWith_head_neq; cbn; tauto).
    replace (startsWith (source c) (js "<")) with false
      by (symmetry; rewrite Hs, Ei; apply startsWith_head_neq; cbn; tauto).
    now rewrite andb_false_r. }
  assert (Hs0 : source c = inner ++ []) by (now rewrite app_nil_r).
  destruct (parseTextData_verbatim fuel c mode inner [] Hs0 Hamp)
    as (c' & Ht & Hs' & Ho' & Hr' & Ha').
  exists c'.
  pose proof (len_nonneg inner) as Hli.
  assert (Htext : parseText (S fuel) c mode
                  = Some ({| text_content := inner;
                             text_loc := getSelection c' (cursor c) None;
                             text_isEmpty := isBlank inner |}, c')).
  { unfold parseText. rewrite Hdel.
    assert (Hmin : fold_right Z.min (len (source c))
                     (filter (fun n => negb (n =? -1))
                        [indexOf (source c) (js "<") 1;
                         indexOf (source c) (o :: open') 1;
                         match mode with
                         | CDATA => indexOf (source c) (js "]]>") 0
                         | _ => -1
                         end]) = len inner).
    { replace (match mode with
               | CDATA => indexOf (source c) (js "]]>") 0
               | _ => -1
               end) with (-1) by (destruct mode; try reflexivity; discriminate).
      rewrite Hs.
      rewrite (indexOf_absent inner 60 1 Hlt
               : indexOf inner (js "<") 1 = -1).
      cbn [filter]. change (-1 =? -1) with true. cbn [negb].
      destruct (indexOf_open_inner inner [] o open' 1 Ho ltac:(lia))
        as [H1|H1]; rewrite app_nil_r in H1.
      - rewrite H1. change (-1 =? -1) with true. cbn [negb fold_right].
        reflexivity.
      - replace (indexOf inner (o :: open') 1 =? -1) with false
          by (symmetry; apply Z.eqb_neq; lia).
        cbn [negb fold_right]. lia. }
    rewrite Hmin, Ht. unfold getCursor. now rewrite trim_isBlank. }
  assert (Hend2 : isEnd toLowerCase c' mode (ancestors ++ [el]) = true).
  { unfold isEnd. rewrite Hs'.
    destruct mode; try discriminate; cbn [startsWith js andb];
      try rewrite last_snoc; reflexivity. }
  assert (Hopt : options c' = options c) by (now destruct Ha').
  refine (conj _ (conj Hs' (conj Hr' (conj Ho' Ha')))).
  rewrite parseChildren_loop_S, Hend.
  unfold parseChildren_iteration. rewrite Hturn, Htext.
  rewrite pushNode_first. cbn [text_isEmpty]. rewrite Hopt.
  destruct fuel; cbn [parseChildren_loop]; rewrite Hend2; reflexivity.
Qed.

Lemma parse_single_element toLowerCase DEV f opts0 t0 rest o open' e c' :
  isAlpha t0 = true ->
  fst (delimiters (mergeOptions opts0)) = o :: open' -> o <> 60 ->
  parseElement toLowerCase
    (fun context mode ancestors =>
       parseChildren_loop toLowerCase DEV (S f) context mode ancestors [])
    (S (S f)) (createParserContext (60 :: t0 :: rest) opts0) []
  = Some (e, c') ->
  source c' = [] ->
  parse toLowerCase DEV (S (S f)) (60 :: t0 :: rest) opts0
  = Some ({| root_children := [ELEMENT e];
             root_loc :=
               getSelection c'
                 (getCursor (createParserContext (60 :: t0 :: rest) opts0))
                 None |},
          reported c').
Proof.
  intros Ht0 Hdel Ho60 Hp Hs'.
  set (c0 := createParserContext (60 :: t0 :: rest) opts0) in *.
  unfold parse, parseChildren. fold c0. rewrite parseChildren_loop_S.
  assert (Hend : isEnd toLowerCase c0 DATA [] = false).
  { unfold isEnd. cbn [rev existsb]. rewrite andb_false_r. reflexivity. }
  rewrite Hend. unfold parseChildren_iteration.
  rewrite (parseChildren_turn_element toLowerCase _ _ c0 [] t0 rest o open'
             eq_refl Ht0 Hdel Ho60).
  rewrite Hp. cbn beta iota. cbn [fold_left].
  assert (Hend' : isEnd toLowerCase c' DATA [] = true).
  { unfold isEnd. rewrite Hs'. reflexivity. }
  rewrite parseChildren_loop_S, Hend'.
  unfold pushNode. rewrite !andb_false_r. reflexivity.
Qed.

(** X19: an element left open at the end of the input: a start tag and
    text with no end tag parse to the element with that text as its child,
    and the one diagnostic is X_MISSING_END_TAG, located at the end of the
    input. *)
Theorem element_missing_end_tag :
  forall toLowerCase DEV f opts0 tg inner o open',
    isTagName tg = true ->
    isVoidTag (mergeOptions opts0) tg = false ->
    isElementMode
      (getTextMode (mergeOptions opts0) tg
         (getNamespace (mergeOptions opts0) tg None)) = true ->
    fst (delimiters (mergeOptions opts0)) = o :: open' ->
    o <> 60 -> ~ In o inner -> ~ In 60 inner -> ~ In 38 inner ->
    exists root e tloc err,
      parse toLowerCase DEV (S (S f)) (js "<" ++ tg ++ js ">" ++ inner) opts0
      = Some (root, [err])
      /\ err_code err = X_MISSING_END_TAG
      /\ offset (loc_start (err_loc err)) = 2 + len tg + len inner
      /\ root_children root = [ELEMENT e]
      /\ tag e = tg /\ props e = []
      /\ children e
         = match inner with
           | [] => []
           | _ :: _ =>
               if ignoreSpaces (mergeOptions opts0) && isBlank inner then []
               else [TEXT {| text_content := inner; text_loc := tloc;
                             text_isEmpty := isBlank inner |}]
           end
      /\ loc_source (loc e) = js "<" ++ tg ++ js ">" ++ inner.
Proof.
  intros toLowerCase DEV f opts0 tg inner o open'
    Htg Hvoid Hmode Hdel Ho60 Ho Hlt Hamp.
  set (content := js "<" ++ tg ++ js ">" ++ inner).
  set (c0 := createParserContext content opts0).
  pose proof (synced_createParserContext content opts0) as Hsy0. fold c0 in Hsy0.
  destruct (parseTag_simple (S (S f)) c0 false TagStart None tg inner
              eq_refl Htg)
    as (el & c1 & Hp1 & Htag & Hns & Hprops & Hself & Hch & Hloc & Hs1 & Hr1
        & Ho1 & Ha1).
  assert (Hopt1 : options c1 = mergeOptions opts0) by (now destruct Ha1).
  destruct (parseChildren_loop_text_eof toLowerCase DEV f c1
              (getTextMode (mergeOptions opts0) tg (ns el)) [] el inner
              o open')
    as (c2 & Hp2 & Hs2 & Hr2 & Ho2 & Ha2); auto.
  { now rewrite Hopt1. }
  { now rewrite Hns. }
  set (c3 := emitError c2 X_MISSING_END_TAG None).
  assert (Ha3 : advances c2 c3).
  { unfold c3, emitError, report, advances. cbn.
    repeat split; try reflexivity; try lia.
    - now rewrite Z.sub_diag.
    - eexists. reflexivity. }
  pose proof (advances_trans3 _ _ _ _ Ha1 Ha2 Ha3) as Ha.
  set (kids := match inner with
               | [] => []
               | _ :: _ =>
                   if ignoreSpaces (options c1) && isBlank inner then []
                   else [TEXT {| text_content := inner;
                                 text_loc := getSelection c2 (cursor c1) None;
                                 text_isEmpty := isBlank inner |}]
               end) in *.
  assert (Hkids : match kids with
                  | first :: _ =>
                      startsWith (loc_source (node_loc first)) (js "<!--")
                      = false
                  | [] => True
                  end).
  { unfold kids. destruct inner as [|i0 inner'] eqn:Ei; [exact I|].
    rewrite <- Ei in *.
    destruct (ignoreSpaces (options c1) && isBlank inner); [exact I|].
    cbn [node_loc text_loc].
    rewrite (selection_synced c1 c2 inner []
               (synced_advances _ _ Hsy0 Ha1) Ha2
               ltac:(now rewrite app_nil_r) Ho2).
    rewrite Ei. apply startsWith_head_neq.
    intros ->. apply Hlt. rewrite Ei. now left. }
  destruct tg as [|t0 tg1]; [discriminate Htg|].
  assert (Ht0 : isAlpha t0 = true).
  { cbn [isTagName] in Htg. now apply andb_prop in Htg. }
  assert (Hp : parseElement toLowerCase
                 (fun context mode ancestors =>
                    parseChildren_loop toLowerCase DEV (S f) context mode
                      ancestors [])
                 (S (S f)) c0 []
               = Some ({| ns := ns el; tag := tag el; tagType := tagType el;
                          props := props el;
                          isSelfClosing := isSelfClosing el;
                          children := kids;
                          loc := getSelection c3 (loc_start (loc el)) None |},
                       c3)).
  { unfold parseElement.
    change (last []) with (@None ElementNode). rewrite Hp1. cbn beta iota.
    rewrite Hself, Hopt1, Htag, Hvoid. cbn [orb].
    rewrite Hp2. cbn beta iota.
    rewrite Hs2.
    change (startsWithEndTagOpen toLowerCase [] (t0 :: tg1)) with false.
    cbn beta iota. fold c3.
    change (source c3) with (source c2). rewrite Hs2.
    destruct (str_eqb _ _); [|reflexivity].
    destruct kids as [|first kids']; [reflexivity|]. now rewrite Hkids. }
  pose proof (parse_single_element toLowerCase DEV f opts0 t0
                (tg1 ++ js ">" ++ inner) o open' _ c3 Ht0 Hdel Ho60 Hp Hs2)
    as Hparse.
  assert (Hrep : reported c3
                 = [mkError X_MISSING_END_TAG
                      {| loc_start := getCursor c2; loc_end := getCursor c2;
                         loc_source := [] |}]).
  { unfold c3, emitError, report. cbn [reported]. now rewrite Hr2, Hr1. }
  rewrite Hrep in Hparse.
  eexists _, _, (getSelection c2 (cursor c1) None), _.
  split; [exact Hparse|].
  cbn [err_code err_loc loc_start root_children tag props children loc].
  split; [reflexivity|]. unfold getCursor.
  split; [change (offset (cursor c0)) with 0 in Ho1; lia|].
  split; [reflexivity|]. split; [exact Htag|]. split; [exact Hprops|].
  split; [unfold kids; now rewrite Hopt1|].
  rewrite Hloc.
  change (loc_start (getSelection c1 (cursor c0) None)) with (cursor c0).
  apply (selection_synced c0 c3 _ [] Hsy0 Ha).
  - now rewrite app_nil_r.
  - change (offset (cursor c3)) with (offset (cursor c2)).
    change (offset (cursor c0)) with 0 in *.
    unfold content. rewrite !len_app. change (len (js "<")) with 1.
    change (len (js ">")) with 1. lia.
Qed.

Lemma element_missing_end_tag_witness :
  exists root e tloc err,
    parse asciiToLowerCase false 2 (js "<div>hi") noOptions
    = Some (root, [err])
    /\ err_code err = X_MISSING_END_TAG
    /\ offset (loc_start (err_loc err)) = 7
    /\ root_children root = [ELEMENT e]
    /\ children e = [TEXT {| text_content := js "hi"; text_loc := tloc;
                             text_isEmpty := false |}].
Proof.
  assert (Hno : forall x, In x (js "hi") -> x <> 123 /\ x <> 60 /\ x <> 38).
  { intros x H. vm_compute in H.
    repeat (destruct H as [H|H]; [subst x; repeat split; discriminate|]).
    destruct H. }
  destruct (element_missing_end_tag asciiToLowerCase false 0 noOptions
              (js "div") (js "hi") 123 [123] eq_refl eq_refl eq_refl eq_refl)
    as (root & e & tloc & err & H1 & H2 & H3 & H4 & _ & _ & H5 & _).
  - discriminate.
  - intros H. now apply Hno in H.
  - intros H. now apply Hno in H.
  - intros H. now apply Hno in H.
  - exists root, e, tloc, err. repeat split; assumption.
Defined.

(** X20: a void tag takes no children and waits for no end tag:
    parseElement returns right after the start tag, whatever the parser of
    the children would do, and leaves what follows to the siblings. *)
Theorem void_element_takes_no_children :
  forall toLowerCase pc fuel c ancestors tg rest,
    source c = js "<" ++ tg ++ js ">" ++ rest ->
    isTagName tg = true ->
    isVoidTag (options c) tg = true ->
    exists e c',
      parseElement toLowerCase pc fuel c ancestors = Some (e, c')
      /\ tag e = tg /\ props e = [] /\ children e = []
      /\ isSelfClosing e = false
      /\ source c' = rest /\ reported c' = reported c
      /\ offset (cursor c') = offset (cursor c) + len tg + 2.
Proof.
  intros toLowerCase pc fuel c ancestors tg rest Hs Htg Hvoid.
  destruct (parseTag_simple fuel c false TagStart (last ancestors) tg rest
              Hs Htg)
    as (el & c1 & Hp1 & Htag & Hns & Hprops & Hself & Hch & Hloc & Hs1 & Hr1
        & Ho1 & Ha1).
  assert (Hopt1 : options c1 = options c) by (now destruct Ha1).
  exists el, c1. split.
  - unfold parseElement. rewrite Hp1. cbn beta iota.
    now rewrite Hopt1, Htag, Hvoid, orb_true_r.
  - repeat (split; [assumption|]). assumption.
Qed.

Lemma void_element_takes_no_children_witness :
  exists e c',
    parseElement asciiToLowerCase (fun _ _ _ => None) 5
      (createParserContext (js "<br>after") brIsVoid) [] = Some (e, c')
    /\ tag e = js "br" /\ children e = [] /\ source c' = js "after".
Proof.
  destruct (void_element_takes_no_children asciiToLowerCase
              (fun _ _ _ => None) 5
              (createParserContext (js "<br>after") brIsVoid) []
              (js "br") (js "after") eq_refl eq_refl eq_refl)
    as (e & c' & H1 & H2 & _ & H3 & _ & H4 & _).
  exists e, c'. repeat split; assumption.
Defined.

(** ** Bogus comments *)

Lemma parseBogusComment_closed c x body rest :
  source c = 60 :: x :: body ++ 62 :: rest ->
  x <> 62 -> ~ In 62 body ->
  exists c',
    parseBogusComment c
    = ({| comment_content := if x =? 63 then x :: body else body;
          comment_loc := getSelection c' (cursor c) None |}, c')
    /\ source c' = rest /\ reported c' = reported c
    /\ offset (cursor c') = offset (cursor c) + len body + 3
    /\ advances c c'.
Proof.
  intros Hs Hx Hb.
  assert (Hs2 : source c = (60 :: x :: body) ++ 62 :: rest) by exact Hs.
  assert (Hs3 : source c = ((60 :: x :: body) ++ [62]) ++ rest)
    by (rewrite Hs2, <- app_assoc; reflexivity).
  assert (Hraw : ~ In 62 (60 :: x :: body)).
  { intros [H|[H|H]]; [discriminate H|congruence|contradiction]. }
  pose proof (len_nonneg body) as Hlb.
  assert (Hl : len (60 :: x :: body) = 2 + len body)
    by (rewrite !len_cons; lia).
  assert (Hi : indexOf (source c) (js ">") 0 = 2 + len body).
  { rewrite Hs2, <- Hl. exact (indexOf_first _ rest 62 Hraw). }
  destruct (advanceBy_prefix c _ rest Hs3) as [H1 H2].
  rewrite len_app, Hl in H1, H2. change (len [62]) with 1 in H1, H2.
  exists (advanceBy c (2 + len body + 1)).
  split; [|split; [exact H1|split; [reflexivity|split; [lia|]]]].
  - unfold parseBogusComment. rewrite Hi.
    replace (2 + len body =? -1) with false by (symmetry; apply Z.eqb_neq; lia).
    unfold getCursor. f_equal. f_equal.
    rewrite Hs. change (charAt (60 :: x :: body ++ 62 :: rest) 1) with (Some x).
    cbv beta iota zeta. destruct (x =? 63).
    + change (60 :: x :: body ++ 62 :: rest)
        with ([60] ++ (x :: body) ++ 62 :: rest).
      replace (2 + len body) with (len [60] + len (x :: body))
        by (rewrite !len_cons; change (len []) with 0; lia).
      exact (slice_middle [60] (x :: body) (62 :: rest)).
    + change (60 :: x :: body ++ 62 :: rest)
        with ([60; x] ++ body ++ 62 :: rest).
      exact (slice_middle [60; x] body (62 :: rest)).
  - apply advances_advanceBy; [apply advances_refl|lia].
Qed.

Lemma parse_one_turn toLowerCase DEV fuel content opts0 nodes c' :
  content <> [] ->
  parseChildren_turn toLowerCase
    (fun context mode ancestors =>
       parseChildren_loop toLowerCase DEV fuel context mode ancestors [])
    (S fuel) (createParserContext content opts0) DATA []
  = Some (Produced nodes, c') ->
  source c' = [] ->
  parse toLowerCase DEV (S fuel) content opts0
  = Some ({| root_children := fold_left (pushNode DEV c') nodes [];
             root_loc :=
               getSelection c' (getCursor (createParserContext content opts0))
                 None |},
          reported c').
Proof.
  intros Hne Ht Hs'.
  set (c0 := createParserContext content opts0) in *.
  unfold parse, parseChildren. fold c0. rewrite parseChildren_loop_S.
  assert (Hend : isEnd toLowerCase c0 DATA [] = false).
  { unfold isEnd. cbn [rev existsb]. rewrite andb_false_r.
    change (source c0) with content. now destruct content. }
  rewrite Hend. unfold parseChildren_iteration. rewrite Ht.
  assert (Hend' : isEnd toLowerCase c' DATA [] = true).
  { unfold isEnd. rewrite Hs'. reflexivity. }
  destruct fuel; cbn [parseChildren_loop]; rewrite Hend'; reflexivity.
Qed.

Lemma pushNode_comment_first DEV c (cm : CommentNode) :
  pushNode DEV c [] (COMMENT cm) = if DEV then [COMMENT cm] else [].
Proof.
  unfold pushNode. rewrite andb_true_r, andb_false_r. now destruct DEV.
Qed.

Lemma startsWith_before (body rest p : jsstring) x :
  ~ In x p -> startsWith (body ++ x :: rest) p = startsWith body p.
Proof.
  revert body. induction p as [|a p IH]; intros body Hn.
  - now rewrite !startsWith_nil.
  - destruct body as [|b body'].
    + cbn [app startsWith]. replace (a =? x) with false; [reflexivity|].
      symmetry. apply Z.eqb_neq. intros ->. apply Hn. now left.
    + cbn [app startsWith]. rewrite IH; [reflexivity|].
      intros H. apply Hn. now right.
Qed.

Lemma not_In_js (x : Z) (p : jsstring) :
  forallb (fun y => negb (y =? x)) p = true -> ~ In x p.
Proof.
  intros H Hin. rewrite forallb_forall in H. apply H in Hin.
  now rewrite Z.eqb_refl in Hin.
Qed.

(** X21: a markup declaration [<!body>] that opens neither a comment nor
    a CDATA section is kept as a COMMENT node holding [body] (dropped in
    production).  Only the upper-case DOCTYPE is let through without a
    diagnostic: any other declaration, a lower-case doctype included,
    reports INCORRECTLY_OPENED_COMMENT. *)
Theorem markup_declaration_comment :
  forall toLowerCase DEV fuel opts0 body o open',
    ~ In 62 body ->
    startsWith body (js "--") = false ->
    startsWith body (js "[CDATA[") = false ->
    fst (delimiters (mergeOptions opts0)) = o :: open' -> o <> 60 ->
    exists root errors cloc,
      parse toLowerCase DEV (S fuel) (js "<!" ++ body ++ js ">") opts0
      = Some (root, errors)
      /\ root_children root
         = (if DEV then [COMMENT {| comment_content := body;
                                    comment_loc := cloc |}]
            else [])
      /\ codes errors
         = (if startsWith body (js "DOCTYPE") then []
            else [INCORRECTLY_OPENED_COMMENT])
      /\ loc_source cloc = js "<!" ++ body ++ js ">".
Proof.
  intros toLowerCase DEV fuel opts0 body o open' Hb Hc Hcd Hdel Ho60.
  set (content := js "<!" ++ body ++ js ">").
  set (c0 := createParserContext content opts0).
  pose proof (synced_createParserContext content opts0) as Hsy0.
  fold c0 in Hsy0.
  remember (if startsWith body (js "DOCTYPE") then c0
            else emitError c0 INCORRECTLY_OPENED_COMMENT None) as ce eqn:Ece.
  assert (Hse : source ce = 60 :: 33 :: body ++ 62 :: [])
    by (rewrite Ece; destruct (startsWith body (js "DOCTYPE")); reflexivity).
  assert (Hce : cursor ce = cursor c0)
    by (rewrite Ece; destruct (startsWith body (js "DOCTYPE")); reflexivity).
  assert (Hoe : originalSource ce = originalSource c0)
    by (rewrite Ece; destruct (startsWith body (js "DOCTYPE")); reflexivity).
  assert (Hre : codes (reported ce)
                = if startsWith body (js "DOCTYPE") then []
                  else [INCORRECTLY_OPENED_COMMENT])
    by (rewrite Ece; destruct (startsWith body (js "DOCTYPE")); reflexivity).
  assert (Hsye : synced ce).
  { destruct Hsy0 as [H0 H1]. split; rewrite Hce; [exact H0|].
    rewrite Hoe, <- H1. exact Hse. }
  destruct (parseBogusComment_closed ce 33 body [] Hse ltac:(discriminate) Hb)
    as (c' & Hp & Hs' & Hr' & Ho' & Ha').
  change (33 =? 63) with false in Hp. cbv iota in Hp.
  assert (Hturn : parseChildren_turn toLowerCase
                    (fun context mode ancestors =>
                       parseChildren_loop toLowerCase DEV fuel context mode
                         ancestors [])
                    (S fuel) c0 DATA []
                  = Some (Produced
                            [COMMENT {| comment_content := body;
                                        comment_loc :=
                                          getSelection c' (cursor ce) None |}],
                          c')).
  { unfold parseChildren_turn.
    change (options c0) with (mergeOptions opts0). rewrite Hdel.
    change (source c0) with (60 :: 33 :: body ++ js ">").
    replace (startsWith (60 :: 33 :: body ++ js ">") (o :: open')) with false
      by (symmetry; apply startsWith_head_neq; congruence).
    change (startsWith (60 :: 33 :: body ++ js ">") (js "<")) with true.
    change (charAt (60 :: 33 :: body ++ js ">") 1) with (Some 33).
    cbv beta iota zeta. cbn [andb]. change (33 =? 33) with true. cbv iota.
    change (startsWith (60 :: 33 :: body ++ js ">") (js "<!--"))
      with (startsWith (body ++ js ">") (js "--")).
    change (startsWith (60 :: 33 :: body ++ js ">") (js "<!DOCTYPE"))
      with (startsWith (body ++ js ">") (js "DOCTYPE")).
    change (startsWith (60 :: 33 :: body ++ js ">") (js "<![CDATA["))
      with (startsWith (body ++ js ">") (js "[CDATA[")).
    rewrite !(startsWith_before body [] _ 62)
      by (apply not_In_js; reflexivity).
    rewrite Hc, Hcd. fold c0.
    destruct (startsWith body (js "DOCTYPE")); subst ce; now rewrite Hp. }
  assert (Hne : content <> []) by discriminate.
  pose proof (parse_one_turn toLowerCase DEV fuel content opts0 _ c' Hne
                Hturn Hs') as Hparse.
  cbn [fold_left] in Hparse. rewrite pushNode_comment_first in Hparse.
  eexists _, _, (getSelection c' (cursor ce) None).
  split; [exact Hparse|]. cbn [root_children].
  split; [now destruct DEV|].
  split; [now rewrite Hr'|].
  apply (selection_synced ce c' content [] Hsye Ha').
  - rewrite app_nil_r. exact Hse.
  - rewrite Ho'. unfold content. rewrite !len_app.
    change (len (js "<!")) with 2. change (len (js ">")) with 1. lia.
Qed.

Lemma markup_declaration_comment_witness :
  exists root errors cloc,
    parse asciiToLowerCase true 1 (js "<!doctype html>") noOptions
    = Some (root, errors)
    /\ root_children root
       = [COMMENT {| comment_content := js "doctype html";
                     comment_loc := cloc |}]
    /\ codes errors = [INCORRECTLY_OPENED_COMMENT].
Proof.
  destruct (markup_declaration_comment asciiToLowerCase true 0 noOptions
              (js "doctype html") 123 [123])
    as (root & errors & cloc & H1 & H2 & H3 & _).
  - apply not_In_js. reflexivity.
  - reflexivity.
  - reflexivity.
  - reflexivity.
  - discriminate.
  - exists root, errors, cloc. repeat split; assumption.
Defined.

(** X22: [<?body>] is kept as a COMMENT node whose content starts at the
    question mark (dropped in production), and reports
    UNEXPECTED_QUESTION_MARK_INSTEAD_OF_TAG_NAME at the question mark,
    one unit after the start. *)
Theorem question_mark_comment :
  forall toLowerCase DEV fuel opts0 body o open',
    ~ In 62 body ->
    fst (delimiters (mergeOptions opts0)) = o :: open' -> o <> 60 ->
    exists root err cloc,
      parse toLowerCase DEV (S fuel) (js "<?" ++ body ++ js ">") opts0
      = Some (root, [err])
      /\ root_children root
         = (if DEV then [COMMENT {| comment_content := js "?" ++ body;
                                    comment_loc := cloc |}]
            else [])
      /\ err_code err = UNEXPECTED_QUESTION_MARK_INSTEAD_OF_TAG_NAME
      /\ offset (loc_start (err_loc err)) = 1
      /\ loc_source cloc = js "<?" ++ body ++ js ">".
Proof.
  intros toLowerCase DEV fuel opts0 body o open' Hb Hdel Ho60.
  set (content := js "<?" ++ body ++ js ">").
  set (c0 := createParserContext content opts0).
  pose proof (synced_createParserContext content opts0) as Hsy0.
  fold c0 in Hsy0.
  set (ce := emitError c0 UNEXPECTED_QUESTION_MARK_INSTEAD_OF_TAG_NAME
               (Some 1)).
  assert (Hse : source ce = 60 :: 63 :: body ++ 62 :: []) by reflexivity.
  assert (Hsye : synced ce) by exact Hsy0.
  destruct (parseBogusComment_closed ce 63 body [] Hse ltac:(discriminate) Hb)
    as (c' & Hp & Hs' & Hr' & Ho' & Ha').
  change (63 =? 63) with true in Hp. cbv iota in Hp.
  assert (Hturn : parseChildren_turn toLowerCase
                    (fun context mode ancestors =>
                       parseChildren_loop toLowerCase DEV fuel context mode
                         ancestors [])
                    (S fuel) c0 DATA []
                  = Some (Produced
                            [COMMENT {| comment_content := 63 :: body;
                                        comment_loc :=
                                          getSelection c' (cursor ce) None |}],
                          c')).
  { unfold parseChildren_turn.
    change (options c0) with (mergeOptions opts0). rewrite Hdel.
    change (source c0) with (60 :: 63 :: body ++ js ">").
    replace (startsWith (60 :: 63 :: body ++ js ">") (o :: open')) with false
      by (symmetry; apply startsWith_head_neq; congruence).
    change (startsWith (60 :: 63 :: body ++ js ">") (js "<")) with true.
    change (charAt (60 :: 63 :: body ++ js ">") 1) with (Some 63).
    cbv beta iota zeta. cbn [andb].
    change (63 =? 33) with false. change (63 =? 47) with false.
    change (isAlpha 63) with false. change (63 =? 63) with true.
    cbv iota. fold c0. fold ce. now rewrite Hp. }
  assert (Hne : content <> []) by discriminate.
  pose proof (parse_one_turn toLowerCase DEV fuel content opts0 _ c' Hne
                Hturn Hs') as Hparse.
  cbn [fold_left] in Hparse. rewrite pushNode_comment_first in Hparse.
  rewrite Hr' in Hparse.
  eexists _, _, (getSelection c' (cursor ce) None).
  split; [exact Hparse|]. cbn [root_children].
  split; [now destruct DEV|].
  split; [reflexivity|]. split; [reflexivity|].
  apply (selection_synced ce c' content [] Hsye Ha').
  - rewrite app_nil_r. exact Hse.
  - rewrite Ho'. unfold content. rewrite !len_app.
    change (len (js "<?")) with 2. change (len (js ">")) with 1. lia.
Qed.

Lemma question_mark_comment_witness :
  exists root err cloc,
    parse asciiToLowerCase true 1 (js "<?xml?>") noOptions
    = Some (root, [err])
    /\ root_children root
       = [COMMENT {| comment_content := js "?xml?"; comment_loc := cloc |}]
    /\ err_code err = UNEXPECTED_QUESTION_MARK_INSTEAD_OF_TAG_NAME.
Proof.
  destruct (question_mark_comment asciiToLowerCase true 0 noOptions
              (js "xml?") 123 [123])
    as (root & err & cloc & H1 & H2 & H3 & _).
  - apply not_In_js. reflexivity.
  - reflexivity.
  - discriminate.
  - exists root, err, cloc. repeat split; assumption.
Defined.

(** ** CDATA sections *)

Lemma min_candidates_exact a b n L :
  (a = -1 \/ n <= a) -> (b = -1 \/ n <= b) -> 0 <= n <= L ->
  fold_right Z.min L (filter (fun k => negb (k =? -1)) [a; b; n]) = n.
Proof.
  intros Ha Hb Hn. cbn [filter].
  replace (n =? -1) with false by (symmetry; apply Z.eqb_neq; lia).
  destruct Ha as [->|Ha], Hb as [->|Hb];
    repeat change (-1 =? -1) with true;
    try (replace (a =? -1) with false by (symmetry; apply Z.eqb_neq; lia));
    try (replace (b =? -1) with false by (symmetry; apply Z.eqb_neq; lia));
    cbn [negb fold_right]; lia.
Qed.

(** X23: a CDATA section is taken as it stands: the text between
    [<![CDATA[] and []]>] becomes one TEXT node without any character
    reference being decoded, nothing is reported, and the parser goes on
    after the closing mark. *)
Theorem cdata_section_raw :
  forall toLowerCase DEV fuel c ancestors body rest o open',
    source c = js "<![CDATA[" ++ body ++ js "]]>" ++ rest ->
    body <> [] -> ~ In 60 body -> ~ In 93 body -> ~ In o body ->
    fst (delimiters (options c)) = o :: open' ->
    exists c' tloc,
      parseCDATA
        (fun context mode ancestors =>
           parseChildren_loop toLowerCase DEV (S fuel) context mode
             ancestors [])
        c ancestors
      = Some (if ignoreSpaces (options c) && isBlank body then []
              else [TEXT {| text_content := body; text_loc := tloc;
                            text_isEmpty := isBlank body |}], c')
      /\ source c' = rest /\ reported c' = reported c
      /\ offset (cursor c') = offset (cursor c) + len body + 12
      /\ offset (loc_start tloc) = offset (cursor c) + 9
      /\ offset (loc_end tloc) = offset (cursor c) + 9 + len body
      /\ (synced c -> loc_source tloc = body).
Proof.
  intros toLowerCase DEV fuel c ancestors body rest o open'
    Hs Hn Hlt Hbr Ho Hdel.
  destruct (advanceBy_prefix c (js "<![CDATA[") _ Hs) as [Hs1 Ho1].
  change (len (js "<![CDATA[")) with 9 in Hs1, Ho1.
  set (c1 := advanceBy c 9) in *.
  assert (Ha1 : advances c c1)
    by (apply advances_advanceBy; [apply advances_refl|lia]).
  assert (Hopt1 : options c1 = options c) by reflexivity.
  destruct body as [|b0 body'] eqn:Eb; [congruence|]. rewrite <- Eb in *.
  assert (Hb0 : b0 <> 60 /\ b0 <> 93 /\ b0 <> o).
  { repeat split; intros ->; [apply Hlt|apply Hbr|apply Ho]; rewrite Eb;
      now left. }
  pose proof (len_nonneg body) as Hlb. pose proof (len_nonneg rest) as Hlr.
  assert (Hlen : 0 < len body)
    by (rewrite Eb, len_cons; pose proof (len_nonneg body'); lia).
  assert (Hend : isEnd toLowerCase c1 CDATA ancestors = false).
  { unfold isEnd. rewrite Hs1, Eb.
    replace (startsWith ((b0 :: body') ++ js "]]>" ++ rest) (js "]]>"))
      with false; [reflexivity|].
    symmetry. apply startsWith_head_neq. cbn [app]. tauto. }
  assert (Hturn : forall pc,
             parseChildren_turn toLowerCase pc (S fuel) c1 CDATA ancestors
             = Some (Undefined, c1)).
  { intros pc. unfold parseChildren_turn. rewrite Hopt1, Hdel.
    replace (startsWith (source c1) (o :: open')) with false; [reflexivity|].
    symmetry. rewrite Hs1, Eb. apply startsWith_head_neq. cbn [app]. tauto. }
  destruct (advanceBy_prefix c1 body _ Hs1) as [Hs2 Ho2].
  set (c2 := advanceBy c1 (len body)) in *.
  assert (Ha2 : advances c1 c2)
    by (apply advances_advanceBy; [apply advances_refl|lia]).
  assert (Htext : parseText (S fuel) c1 CDATA
                  = Some ({| text_content := body;
                             text_loc := getSelection c2 (cursor c1) None;
                             text_isEmpty := isBlank body |}, c2)).
  { unfold parseText. rewrite Hopt1, Hdel.
    assert (H3 : indexOf (source c1) (js "]]>") 0 = len body).
    { rewrite Hs1.
      pose proof (indexOf_close [] body (js "]>") rest 93 Hbr) as H.
      change (len []) with 0 in H. exact H. }
    rewrite H3, (min_candidates_exact _ _ (len body)).
    - unfold parseTextData. cbn [isEntityMode negb]. fold c2.
      rewrite Hs1, slice_0 by lia.
      replace (Z.to_nat (len body)) with (List.length body)
        by (unfold len; lia).
      rewrite firstn_length_app. unfold getCursor.
      now rewrite trim_isBlank.
    - rewrite Hs1. apply (indexOf_open_inner body _ 60 [] 1 Hlt). lia.
    - rewrite Hs1. apply (indexOf_open_inner body _ o open' 1 Ho). lia.
    - rewrite Hs1, len_app. pose proof (len_nonneg (js "]]>" ++ rest)). lia. }
  assert (Hend2 : isEnd toLowerCase c2 CDATA ancestors = true).
  { unfold isEnd. rewrite Hs2. now rewrite startsWith_app. }
  destruct (advanceBy_prefix c2 (js "]]>") _ Hs2) as [Hs3 Ho3].
  change (len (js "]]>")) with 3 in Hs3, Ho3.
  exists (advanceBy c2 3), (getSelection c2 (cursor c1) None).
  split.
  { unfold parseCDATA. fold c1.
    rewrite parseChildren_loop_S, Hend.
    unfold parseChildren_iteration. rewrite Hturn, Htext.
    rewrite pushNode_first. cbn [text_isEmpty].
    destruct fuel; cbn [parseChildren_loop]; rewrite Hend2; cbn beta iota;
      rewrite Hs2; reflexivity. }
  split; [exact Hs3|]. split; [reflexivity|]. split; [lia|].
  split; [exact Ho1|].
  split; [change (offset (cursor c2) = offset (cursor c) + 9 + len body); lia|].
  intros Hsy.
  apply (selection_synced c1 c2 body _ (synced_advances _ _ Hsy Ha1) Ha2 Hs1
           Ho2).
Qed.

Lemma cdata_section_raw_witness :
  exists c' tloc,
    parseCDATA
      (fun context mode ancestors =>
         parseChildren_loop asciiToLowerCase false 1 context mode ancestors [])
      (createParserContext (js "<![CDATA[a&amp;b]]>c") noOptions) []
    = Some ([TEXT {| text_content := js "a&amp;b"; text_loc := tloc;
                     text_isEmpty := false |}], c')
    /\ source c' = js "c" /\ loc_source tloc = js "a&amp;b".
Proof.
  destruct (cdata_section_raw asciiToLowerCase false 0
              (createParserContext (js "<![CDATA[a&amp;b]]>c") noOptions) []
              (js "a&amp;b") (js "c") 123 [123] eq_refl)
    as (c' & tloc & H1 & H2 & _ & _ & _ & _ & H3).
  - discriminate.
  - apply not_In_js. reflexivity.
  - apply not_In_js. reflexivity.
  - apply not_In_js. reflexivity.
  - reflexivity.
  - exists c', tloc. split; [exact H1|]. split; [exact H2|].
    apply H3. apply synced_createParserContext.
Defined.

(** ** Unquoted attribute values *)

Lemma matchIndices_length p s :
  forall i, List.length (matchIndices p s i) = List.length (filter p s).
Proof.
  induction s as [|x s IH]; intros i; [reflexivity|]. cbn.
  destruct (p x); cbn; now rewrite IH.
Qed.

Lemma reported_emitErrorsAt code indices :
  forall c,
    exists new,
      reported (emitErrorsAt c code indices) = reported c ++ new
      /\ map err_code new = repeat code (List.length indices)
      /\ map (fun e => offset (loc_start (err_loc e))) new
         = map (fun i => offset (cursor c) + i) indices.
Proof.
  unfold emitErrorsAt.
  induction indices as [|i l IH]; intros c.
  - exists []. now rewrite app_nil_r.
  - cbn [fold_left].
    destruct (IH (emitError c code (Some i))) as (new & H1 & H2 & H3).
    rewrite cursor_emitError in H3.
    eexists (_ :: new). split; [|split].
    + rewrite H1. unfold emitError at 1, report. cbn [reported].
      rewrite <- app_assoc. reflexivity.
    + cbn [map repeat List.length err_code]. now rewrite H2.
    + cbn [map err_loc loc_start]. rewrite H3. f_equal.
      unfold getCursor. destruct (Z.eqb_spec i 0) as [->|Hi]; cbn; lia.
Qed.

(** X24: an unquoted attribute value runs up to the next whitespace or
    [>], a [/] included.  It is kept as it stands, and each quote, [<],
    [=] and backquote in it is reported once as
    UNEXPECTED_CHARACTER_IN_UNQUOTED_ATTRIBUTE_VALUE, at its place. *)
Theorem unquoted_value :
  forall fuel c q value rest,
    source c = (q :: value) ++ rest ->
    q <> 34 -> q <> 39 ->
    forallb (fun x => negb (isSpace x || (x =? 62))) (q :: value) = true ->
    match rest with
    | x :: _ => isSpace x || (x =? 62) = true
    | [] => True
    end ->
    ~ In 38 (q :: value) ->
    exists c' new,
      parseAttributeValue (S fuel) c
      = Some (Some (mkValue (q :: value) false
                      (getSelection c' (cursor c) None)), c')
      /\ source c' = rest
      /\ offset (cursor c') = offset (cursor c) + len (q :: value)
      /\ reported c' = reported c ++ new
      /\ codes new
         = repeat UNEXPECTED_CHARACTER_IN_UNQUOTED_ATTRIBUTE_VALUE
             (List.length (filter isBadValueChar (q :: value)))
      /\ map (fun e => offset (loc_start (err_loc e))) new
         = map (fun i => offset (cursor c) + i)
             (matchIndices isBadValueChar (q :: value) 0).
Proof.
  intros fuel c q value rest Hs Hq1 Hq2 Hv Hr Hamp.
  set (v := q :: value) in *.
  assert (Hspan : span (fun x => negb (isSpace x || (x =? 62))) (source c)
                  = (v, rest)).
  { rewrite Hs. apply span_all; [exact Hv|].
    destruct rest as [|x r]; [exact I|]. now rewrite Hr. }
  set (ce := emitErrorsAt c UNEXPECTED_CHARACTER_IN_UNQUOTED_ATTRIBUTE_VALUE
               (matchIndices isBadValueChar v 0)).
  assert (Hse : source ce = v ++ rest)
    by (unfold ce; now rewrite source_emitErrorsAt).
  assert (Hce : cursor ce = cursor c) by apply cursor_emitErrorsAt.
  destruct (parseTextData_verbatim fuel ce ATTRIBUTE_VALUE v rest Hse Hamp)
    as (c' & Ht & Hs' & Ho' & Hr' & Ha').
  destruct (reported_emitErrorsAt
              UNEXPECTED_CHARACTER_IN_UNQUOTED_ATTRIBUTE_VALUE
              (matchIndices isBadValueChar v 0) c)
    as (new & H1 & H2 & H3).
  exists c', new. split.
  - unfold parseAttributeValue. cbv zeta.
    replace (charAt (source c) 0) with (Some q) by (now rewrite Hs).
    replace ((q =? 34) || (q =? 39)) with false
      by (symmetry; apply orb_false_iff; split; now apply Z.eqb_neq).
    unfold execUnquoted. rewrite Hspan. cbn [fst]. unfold v at 1.
    fold v. fold ce. rewrite Ht. reflexivity.
  - split; [exact Hs'|]. split; [now rewrite Ho', Hce|].
    split; [now rewrite Hr'|].
    split; [|exact H3].
    unfold codes. now rewrite H2, matchIndices_length.
Qed.

Lemma unquoted_value_witness :
  exists c' new,
    parseAttributeValue 1 (createParserContext (js "a=b/>") noOptions)
    = Some (Some (mkValue (js "a=b/") false
                    (getSelection c' (mkPosition 0 1 1) None)), c')
    /\ source c' = js ">"
    /\ reported c' = new
    /\ codes new = [UNEXPECTED_CHARACTER_IN_UNQUOTED_ATTRIBUTE_VALUE]
    /\ map (fun e => offset (loc_start (err_loc e))) new = [1].
Proof.
  destruct (unquoted_value 0 (createParserContext (js "a=b/>") noOptions)
              97 (js "=b/") (js ">") eq_refl)
    as (c' & new & H1 & H2 & _ & H3 & H4 & H5).
  - discriminate.
  - discriminate.
  - reflexivity.
  - reflexivity.
  - apply not_In_js. reflexivity.
  - exists c', new. repeat split; assumption.
Defined.

(** ** End tags out of place *)

Lemma parse_skipped toLowerCase DEV fuel content opts0 c' :
  content <> [] ->
  parseChildren_turn toLowerCase
    (fun context mode ancestors =>
       parseChildren_loop toLowerCase DEV fuel context mode ancestors [])
    (S fuel) (createParserContext content opts0) DATA []
  = Some (Continue, c') ->
  source c' = [] ->
  parse toLowerCase DEV (S fuel) content opts0
  = Some ({| root_children := [];
             root_loc :=
               getSelection c' (getCursor (createParserContext content opts0))
                 None |},
          reported c').
Proof.
  intros Hne Ht Hs'.
  set (c0 := createParserContext content opts0) in *.
  unfold parse, parseChildren. fold c0. rewrite parseChildren_loop_S.
  assert (Hend : isEnd toLowerCase c0 DATA [] = false).
  { unfold isEnd. cbn [rev existsb]. rewrite andb_false_r.
    change (source c0) with content. now destruct content. }
  rewrite Hend. unfold parseChildren_iteration. rewrite Ht.
  assert (Hend' : isEnd toLowerCase c' DATA [] = true).
  { unfold isEnd. rewrite Hs'. reflexivity. }
  destruct fuel; cbn [parseChildren_loop]; rewrite Hend'; reflexivity.
Qed.

(** X25: an end tag that closes no open element is dropped: the input
    [</tag>] alone parses to no node at all and reports X_INVALID_END_TAG
    at its start. *)
Theorem stray_end_tag_dropped :
  forall toLowerCase DEV fuel opts0 tg o open',
    isTagName tg = true ->
    fst (delimiters (mergeOptions opts0)) = o :: open' -> o <> 60 ->
    exists root err,
      parse toLowerCase DEV (S fuel) (js "</" ++ tg ++ js ">") opts0
      = Some (root, [err])
      /\ root_children root = []
      /\ err_code err = X_INVALID_END_TAG
      /\ offset (loc_start (err_loc err)) = 0
      /\ loc_source (root_loc root) = js "</" ++ tg ++ js ">".
Proof.
  intros toLowerCase DEV fuel opts0 tg o open' Htg Hdel Ho60.
  set (content := js "</" ++ tg ++ js ">").
  set (c0 := createParserContext content opts0).
  pose proof (synced_createParserContext content opts0) as Hsy0.
  fold c0 in Hsy0.
  set (ce := emitError c0 X_INVALID_END_TAG None).
  assert (Hse : source ce = js "<" ++ js "/" ++ tg ++ js ">" ++ [])
    by reflexivity.
  destruct (parseTag_simple (S fuel) ce true TagEnd None tg [] Hse Htg)
    as (el & c' & Hp & _ & _ & _ & _ & _ & _ & Hs' & Hr' & Ho' & Ha').
  destruct tg as [|t0 tg1] eqn:Et; [discriminate Htg|].
  assert (Ht0 : isAlpha t0 = true).
  { cbn [isTagName] in Htg. now apply andb_prop in Htg. }
  assert (Ht62 : t0 <> 62).
  { intros ->. discriminate Ht0. }
  assert (Hturn : parseChildren_turn toLowerCase
                    (fun context mode ancestors =>
                       parseChildren_loop toLowerCase DEV fuel context mode
                         ancestors [])
                    (S fuel) c0 DATA []
                  = Some (Continue, c')).
  { unfold parseChildren_turn.
    change (options c0) with (mergeOptions opts0). rewrite Hdel.
    change (source c0) with (60 :: 47 :: t0 :: tg1 ++ js ">").
    replace (startsWith (60 :: 47 :: t0 :: tg1 ++ js ">") (o :: open'))
      with false by (symmetry; apply startsWith_head_neq; congruence).
    change (startsWith (60 :: 47 :: t0 :: tg1 ++ js ">") (js "<")) with true.
    change (charAt (60 :: 47 :: t0 :: tg1 ++ js ">") 1) with (Some 47).
    change (charAt (60 :: 47 :: t0 :: tg1 ++ js ">") 2) with (Some t0).
    cbv beta iota zeta. cbn [andb].
    change (47 =? 33) with false. change (47 =? 47) with true. cbv iota.
    replace (t0 =? 62) with false by (symmetry; now apply Z.eqb_neq).
    rewrite Ht0. change (last []) with (@None ElementNode).
    fold c0. fold ce. now rewrite Hp. }
  assert (Hne : content <> []) by discriminate.
  pose proof (parse_skipped toLowerCase DEV fuel content opts0 c' Hne
                Hturn Hs') as Hparse.
  rewrite Hr' in Hparse.
  eexists _, _. split; [exact Hparse|]. cbn [root_children root_loc].
  split; [reflexivity|]. split; [reflexivity|]. split; [reflexivity|].
  apply (selection_synced ce c' content [] Hsy0 Ha').
  - now rewrite app_nil_r.
  - rewrite Ho'. unfold content. rewrite !len_app.
    change (len (js "</")) with 2. change (len (js ">")) with 1.
    change (offset (cursor ce)) with 0. lia.
Qed.

Lemma stray_end_tag_dropped_witness :
  exists root err,
    parse asciiToLowerCase false 1 (js "</div>") noOptions
    = Some (root, [err])
    /\ root_children root = []
    /\ err_code err = X_INVALID_END_TAG.
Proof.
  destruct (stray_end_tag_dropped asciiToLowerCase false 0 noOptions
              (js "div") 123 [123] eq_refl eq_refl)
    as (root & err & H1 & H2 & H3 & _).
  - discriminate.
  - exists root, err. repeat split; assumption.
Defined.

(** ** Attributes without a value *)

Lemma plain_name_facts name rest :
  name <> [] -> forallb isNameChar name = true ->
  match rest with
  | x :: _ => isTagEnd x || (x =? 61) = true
  | [] => True
  end ->
  execAttrName (name ++ rest) = Some name
  /\ startsWith name (js "=") = false
  /\ matchIndices isBadNameChar name 0 = [].
Proof.
  intros Hn Hc Hr. split; [now apply execAttrName_name|]. split.
  - destruct name as [|x name']; [congruence|]. cbn in Hc.
    apply andb_prop in Hc as [Hx _].
    apply isNameChar_spec in Hx as (_ & Hx & _).
    eval_js. rewrite startsWith_1. now rewrite Z.eqb_sym.
  - apply matchIndices_none. revert Hc. apply forallb_impl.
    intros y Hy. apply isNameChar_spec in Hy as (_ & _ & Hy). now rewrite Hy.
Qed.

(** X26: an attribute name met for the first time in the tag, with no
    directive prefix and no [=] after it, is parsed into an ATTRIBUTE
    node without a value; nothing is reported and the node spans the
    name. *)
Theorem attribute_without_value :
  forall fuel c nameSet name rest,
    source c = name ++ rest ->
    name <> [] -> forallb isNameChar name = true ->
    testDirectivePrefix name = false ->
    set_has nameSet name = false ->
    match rest with x :: _ => isTagEnd x = true | [] => True end ->
    testSpacesEquals rest = false ->
    exists loc c',
      parseAttribute fuel c nameSet
      = Some (ATTRIBUTE {| attr_name := name; attr_value := None;
                           attr_loc := loc |},
              nameSet ++ [name], c')
      /\ source c' = rest /\ reported c' = reported c
      /\ offset (cursor c') = offset (cursor c) + len name
      /\ (synced c -> loc_source loc = name).
Proof.
  intros fuel c nameSet name rest Hs Hn Hc Hd Hset Hr Htest.
  destruct (plain_name_facts name rest Hn Hc) as (Hex & Heq & Hbad).
  { destruct rest as [|x r]; [exact I|]. now rewrite Hr. }
  rewrite <- Hs in Hex.
  set (c1 := advanceBy c (len name)).
  destruct (advanceBy_prefix c name _ Hs) as [Hs1 Ho1]. fold c1 in Hs1, Ho1.
  exists (getSelection c1 (getCursor c) None), c1.
  split.
  { unfold parseAttribute. cbv zeta. rewrite Hex. cbv beta iota.
    rewrite Hset, Heq, Hbad. unfold set_add. rewrite Hset.
    cbn [emitErrorsAt fold_left]. fold c1. rewrite Hs1, Htest.
    cbv beta iota. rewrite Hd. reflexivity. }
  split; [exact Hs1|]. split; [reflexivity|]. split; [exact Ho1|].
  intros Hsy. apply (selection_synced c c1 name rest Hsy); auto.
  unfold c1. apply advances_advanceBy; [apply advances_refl|apply len_nonneg].
Qed.

Lemma attribute_without_value_witness :
  exists loc c',
    parseAttribute 0 (createParserContext (js "disabled>") noOptions) []
    = Some (ATTRIBUTE {| attr_name := js "disabled"; attr_value := None;
                         attr_loc := loc |},
            [js "disabled"], c')
    /\ source c' = js ">" /\ loc_source loc = js "disabled".
Proof.
  destruct (attribute_without_value 0
              (createParserContext (js "disabled>") noOptions) []
              (js "disabled") (js ">") eq_refl)
    as (loc & c' & H1 & H2 & _ & _ & H3); try reflexivity.
  - discriminate.
  - exists loc, c'. split; [exact H1|]. split; [exact H2|].
    apply H3. split; [cbn; lia|reflexivity].
Defined.

(** X27: an attribute name followed by [=] and then by [>] or by the end
    of the input has no value: the ATTRIBUTE node comes without one, it
    spans the name up to the spaces after [=], and MISSING_ATTRIBUTE_VALUE
    is reported where the value should start. *)
Theorem attribute_missing_value :
  forall fuel c nameSet name sp1 sp2 rest,
    source c = name ++ sp1 ++ js "=" ++ sp2 ++ rest ->
    name <> [] -> forallb isNameChar name = true ->
    testDirectivePrefix name = false ->
    set_has nameSet name = false ->
    forallb isSpace sp1 = true -> forallb isSpace sp2 = true ->
    match rest with x :: _ => x = 62 | [] => True end ->
    exists loc err c',
      parseAttribute fuel c nameSet
      = Some (ATTRIBUTE {| attr_name := name; attr_value := None;
                           attr_loc := loc |},
              nameSet ++ [name], c')
      /\ source c' = rest /\ reported c' = reported c ++ [err]
      /\ err_code err = MISSING_ATTRIBUTE_VALUE
      /\ offset (loc_start (err_loc err))
         = offset (cursor c) + len name + len sp1 + 1 + len sp2
      /\ (synced c -> loc_source loc = name ++ sp1 ++ js "=" ++ sp2).
Proof.
  intros fuel c nameSet name sp1 sp2 rest Hs Hn Hc Hd Hset Hsp1 Hsp2 Hr.
  destruct (plain_name_facts name (sp1 ++ js "=" ++ sp2 ++ rest) Hn Hc)
    as (Hex & Heq & Hbad).
  { destruct sp1 as [|x sp1]; [reflexivity|].
    cbn in Hsp1 |- *. apply andb_prop in Hsp1 as [Hx _].
    unfold isTagEnd. now rewrite Hx. }
  rewrite <- Hs in Hex.
  assert (Hrs : noLeadingSpace rest).
  { destruct rest as [|x r]; [exact I|]. now subst x. }
  set (c1 := advanceBy c (len name)).
  destruct (advanceBy_prefix c name _ Hs) as [Hs1 Ho1]. fold c1 in Hs1, Ho1.
  assert (Htest : testSpacesEquals (source c1) = true).
  { unfold testSpacesEquals. rewrite Hs1, (span_all isSpace sp1 _ Hsp1);
      [apply startsWith_app|reflexivity]. }
  set (c2 := advanceSpaces c1).
  destruct (advanceSpaces_run c1 sp1 _ Hs1 Hsp1 ltac:(reflexivity))
    as (Hs2 & Ho2 & Hr2 & Hop2 & Hor2 & _).
  fold c2 in Hs2, Ho2, Hr2, Hop2, Hor2.
  set (c3 := advanceBy c2 1).
  destruct (advanceBy_prefix c2 (js "=") _ Hs2) as [Hs3 Ho3].
  change (len (js "=")) with 1 in Hs3, Ho3. fold c3 in Hs3, Ho3.
  set (c4 := advanceSpaces c3).
  destruct (advanceSpaces_run c3 sp2 _ Hs3 Hsp2 Hrs)
    as (Hs4 & Ho4 & Hr4 & Hop4 & Hor4 & _).
  fold c4 in Hs4, Ho4, Hr4, Hop4, Hor4.
  assert (Hv : parseAttributeValue fuel c4 = Some (None, c4)).
  { unfold parseAttributeValue. cbv zeta. unfold execUnquoted. rewrite Hs4.
    destruct rest as [|x r]; [reflexivity|]. subst x. reflexivity. }
  set (c5 := emitError c4 MISSING_ATTRIBUTE_VALUE None).
  assert (Ha5 : advances c c5).
  { unfold c5, c4, c3, c2, c1. advances_chain. }
  pose proof (len_nonneg name). pose proof (len_nonneg sp1).
  pose proof (len_nonneg sp2).
  eexists (getSelection c5 (getCursor c) None), _, c5.
  split.
  { unfold parseAttribute. cbv zeta. rewrite Hex. cbv beta iota.
    rewrite Hset, Heq, Hbad. unfold set_add. rewrite Hset.
    cbn [emitErrorsAt fold_left]. fold c1. rewrite Htest.
    fold c2. fold c3. fold c4. rewrite Hv. cbv beta iota. fold c5.
    rewrite Hd. reflexivity. }
  split; [exact Hs4|]. split.
  { unfold c5, emitError, report. cbn [reported].
    rewrite Hr4. change (reported c3) with (reported c2). rewrite Hr2.
    reflexivity. }
  split; [reflexivity|]. split; [cbn [err_loc loc_start]; unfold getCursor; lia|].
  intros Hsy.
  apply (selection_synced c c5 _ rest Hsy Ha5).
  - rewrite Hs. now rewrite <- !app_assoc.
  - change (offset (cursor c5)) with (offset (cursor c4)).
    rewrite !len_app. change (len (js "=")) with 1. lia.
Qed.

Lemma attribute_missing_value_witness :
  exists loc err c',
    parseAttribute 0 (createParserContext (js "id= >") noOptions) []
    = Some (ATTRIBUTE {| attr_name := js "id"; attr_value := None;
                         attr_loc := loc |},
            [js "id"], c')
    /\ reported c' = [err]
    /\ err_code err = MISSING_ATTRIBUTE_VALUE
    /\ offset (loc_start (err_loc err)) = 4.
Proof.
  destruct (attribute_missing_value 0
              (createParserContext (js "id= >") noOptions) []
              (js "id") [] (js " ") (js ">") eq_refl)
    as (loc & err & c' & H1 & _ & H2 & H3 & H4 & _); try reflexivity.
  - discriminate.
  - exists loc, err, c'. repeat split; assumption.
Defined.

(** ** A [<] that opens no tag *)

Lemma indexOf_tail_absent (a y : Z) (s : jsstring) :
  ~ In y s -> indexOf (a :: s) [y] 1 = -1.
Proof.
  intros Hn. apply indexOf_none. intros k Hk.
  pose proof (len_nonneg (a :: s)) as Hl. rewrite len_cons in Hl.
  pose proof (len_nonneg s) as Hls.
  change (Z.max 1 0) with 1 in Hk. rewrite len_cons in Hk.
  rewrite Z.min_l in Hk by lia.
  destruct k as [|k]; [change (Z.to_nat 1) with 1%nat in Hk; lia|].
  cbn [skipn].
  destruct (skipn k s) as [|z t] eqn:E; [reflexivity|].
  rewrite startsWith_1. apply Z.eqb_neq. intros ->. apply Hn.
  rewrite <- (firstn_skipn k s), E. apply in_or_app. right. now left.
Qed.

Lemma parseChildren_loop_lone_lt toLowerCase DEV fuel c nodes x rest o open' :
  source c = 60 :: x :: rest ->
  opensNoTag x = true ->
  ~ In 60 (x :: rest) -> ~ In 38 (x :: rest) -> ~ In o (x :: rest) ->
  fst (delimiters (options c)) = o :: open' -> o <> 60 ->
  exists c' err,
    parseChildren_loop toLowerCase DEV (S fuel) c DATA [] nodes
    = Some (pushNode DEV c' nodes
              (TEXT {| text_content := 60 :: x :: rest;
                       text_loc := getSelection c' (cursor c) None;
                       text_isEmpty := false |}), c')
    /\ source c' = [] /\ reported c' = reported c ++ [err]
    /\ err_code err = INVALID_FIRST_CHARACTER_OF_TAG_NAME
    /\ offset (loc_start (err_loc err)) = offset (cursor c) + 1
    /\ offset (cursor c') = offset (cursor c) + 2 + len rest
    /\ advances c c'.
Proof.
  intros Hs Hx Hlt Hamp Ho Hdel Ho60.
  unfold opensNoTag in Hx. apply negb_true_iff in Hx.
  apply orb_false_iff in Hx as [Hx H63].
  apply orb_false_iff in Hx as [Hx H47].
  apply orb_false_iff in Hx as [Hal H33].
  set (ce := emitError c INVALID_FIRST_CHARACTER_OF_TAG_NAME (Some 1)).
  assert (Hend : isEnd toLowerCase c DATA [] = false).
  { unfold isEnd. cbn [rev existsb]. rewrite andb_false_r, Hs. reflexivity. }
  assert (Hturn : forall pc,
             parseChildren_turn toLowerCase pc (S fuel) c DATA []
             = Some (Undefined, ce)).
  { intros pc. unfold parseChildren_turn. rewrite Hdel, Hs.
    replace (startsWith (60 :: x :: rest) (o :: open')) with false
      by (symmetry; apply startsWith_head_neq; congruence).
    change (startsWith (60 :: x :: rest) (js "<")) with true.
    change (charAt (60 :: x :: rest) 1) with (Some x).
    cbv beta iota zeta. cbn [andb]. now rewrite H33, H47, Hal, H63. }
  assert (Hs0 : source ce = (60 :: x :: rest) ++ []).
  { rewrite app_nil_r. exact Hs. }
  assert (Hamp' : ~ In 38 (60 :: x :: rest)).
  { intros [H|H]; [discriminate H|contradiction]. }
  destruct (parseTextData_verbatim fuel ce DATA _ [] Hs0 Hamp')
    as (c' & Ht & Hs' & Ho' & Hr' & Ha').
  pose proof (len_nonneg rest) as Hlr.
  assert (Hl : len (60 :: x :: rest) = 2 + len rest)
    by (rewrite !len_cons; lia).
  assert (Htext : parseText (S fuel) ce DATA
                  = Some ({| text_content := 60 :: x :: rest;
                             text_loc := getSelection c' (cursor c) None;
                             text_isEmpty := false |}, c')).
  { unfold parseText. change (options ce) with (options c). rewrite Hdel.
    change (source ce) with (source c). rewrite Hs.
    rewrite (indexOf_tail_absent 60 60 (x :: rest) Hlt
             : indexOf (60 :: x :: rest) (js "<") 1 = -1).
    assert (Hmin : fold_right Z.min (len (60 :: x :: rest))
                     (filter (fun n => negb (n =? -1))
                        [-1; indexOf (60 :: x :: rest) (o :: open') 1; -1])
                   = len (60 :: x :: rest)).
    { cbn [filter]. change (-1 =? -1) with true. cbn [negb].
      assert (Hoc : ~ In o (60 :: x :: rest)).
      { intros [H|H]; [congruence|contradiction]. }
      destruct (indexOf_open_inner (60 :: x :: rest) [] o open' 1 Hoc
                  ltac:(lia)) as [H1|H1]; rewrite app_nil_r in H1.
      - rewrite H1. change (-1 =? -1) with true. reflexivity.
      - replace (indexOf (60 :: x :: rest) (o :: open') 1 =? -1) with false
          by (symmetry; apply Z.eqb_neq; lia).
        cbn [negb fold_right]. lia. }
    rewrite Hmin, Ht. unfold getCursor.
    rewrite trim_isBlank. reflexivity. }
  assert (Hend2 : isEnd toLowerCase c' DATA [] = true).
  { unfold isEnd. rewrite Hs'. reflexivity. }
  eexists c', _. split.
  { rewrite parseChildren_loop_S, Hend.
    unfold parseChildren_iteration. rewrite Hturn, Htext.
    destruct fuel; cbn [parseChildren_loop]; rewrite Hend2; reflexivity. }
  split; [exact Hs'|]. split; [rewrite Hr'; reflexivity|].
  split; [reflexivity|].
  split; [cbn [err_loc loc_start]; unfold getCursor;
          destruct (1 =? 0) eqn:E; [discriminate E|reflexivity]|].
  split; [rewrite Ho', Hl; change (offset (cursor ce)) with (offset (cursor c));
          lia|].
  eapply advances_trans; [|exact Ha']. apply advances_emitError.
  apply advances_refl.
Qed.

Lemma parseText_until_lt fuel c inner rest o open' :
  source c = inner ++ 60 :: rest ->
  inner <> [] -> ~ In 60 inner -> ~ In 38 inner -> ~ In o inner ->
  fst (delimiters (options c)) = o :: open' ->
  exists c',
    parseText (S fuel) c DATA
    = Some ({| text_content := inner;
               text_loc := getSelection c' (cursor c) None;
               text_isEmpty := isBlank inner |}, c')
    /\ source c' = 60 :: rest /\ reported c' = reported c
    /\ offset (cursor c') = offset (cursor c) + len inner
    /\ advances c c'.
Proof.
  intros Hs Hn Hlt Hamp Ho Hdel.
  destruct (parseTextData_verbatim fuel c DATA inner (60 :: rest) Hs Hamp)
    as (c' & Ht & Hs' & Ho' & Hr' & Ha').
  exists c'. refine (conj _ (conj Hs' (conj Hr' (conj Ho' Ha')))).
  pose proof (len_nonneg inner) as Hli.
  pose proof (len_nonneg (60 :: rest)) as Hlr.
  unfold parseText. rewrite Hdel.
  assert (H0 : indexOf (source c) (js "<") 1 = len inner)
    by (rewrite Hs; now apply (indexOf_lt_inner inner rest)).
  rewrite H0.
  assert (Hmin : fold_right Z.min (len (source c))
                   (filter (fun n => negb (n =? -1))
                      [len inner; indexOf (source c) (o :: open') 1; -1])
                 = len inner).
  { rewrite Hs, len_app. cbn [filter].
    replace (len inner =? -1) with false by (symmetry; apply Z.eqb_neq; lia).
    change (-1 =? -1) with true. cbn [negb].
    destruct (indexOf_open_inner inner (60 :: rest) o open' 1 Ho ltac:(lia))
      as [H1|H1].
    - rewrite H1. change (-1 =? -1) with true. cbn [negb fold_right]. lia.
    - replace (indexOf (inner ++ 60 :: rest) (o :: open') 1 =? -1) with false
        by (symmetry; apply Z.eqb_neq; lia).
      cbn [negb fold_right]. lia. }
  rewrite Hmin, Ht. unfold getCursor. now rewrite trim_isBlank.
Qed.

Lemma isBlank_lt (pre rest : jsstring) : isBlank (pre ++ 60 :: rest) = false.
Proof.
  unfold isBlank. rewrite forallb_app. cbn [forallb].
  change (isTrimSpace 60) with false. now rewrite andb_false_r.
Qed.

(** X14: a [<] that opens no tag does not split the text around it: when
    the unit after it is no letter and none of [!], [/] and [?], the text
    before it and the text from it on come out as one TEXT node that
    spans both, and INVALID_FIRST_CHARACTER_OF_TAG_NAME is reported one
    unit after the [<]. *)
Theorem lone_lt_is_text :
  forall toLowerCase DEV fuel opts0 pre x rest o open',
    opensNoTag x = true ->
    ~ In 60 pre -> ~ In 38 pre -> ~ In o pre ->
    ~ In 60 (x :: rest) -> ~ In 38 (x :: rest) -> ~ In o (x :: rest) ->
    fst (delimiters (mergeOptions opts0)) = o :: open' -> o <> 60 ->
    (pre <> [] -> ignoreSpaces (mergeOptions opts0) && isBlank pre = false) ->
    exists root err tloc,
      parse toLowerCase DEV (S (S fuel)) (pre ++ 60 :: x :: rest) opts0
      = Some (root, [err])
      /\ root_children root
         = [TEXT {| text_content := pre ++ 60 :: x :: rest;
                    text_loc := tloc; text_isEmpty := false |}]
      /\ err_code err = INVALID_FIRST_CHARACTER_OF_TAG_NAME
      /\ offset (loc_start (err_loc err)) = len pre + 1
      /\ loc_source tloc = pre ++ 60 :: x :: rest
      /\ offset (loc_start tloc) = 0
      /\ offset (loc_end tloc) = len pre + 2 + len rest.
Proof.
  intros toLowerCase DEV fuel opts0 pre x rest o open'
    Hx Hlt1 Hamp1 Ho1 Hlt2 Hamp2 Ho2 Hdel Ho60 Hkeep.
  pose proof (len_nonneg rest) as Hlr.
  destruct pre as [|p0 pre'] eqn:Ep.
  - (* the text starts at the [<] *)
    set (content := [] ++ 60 :: x :: rest).
    set (c0 := createParserContext content opts0).
    pose proof (synced_createParserContext content opts0) as Hsy0.
    fold c0 in Hsy0.
    destruct (parseChildren_loop_lone_lt toLowerCase DEV (S fuel) c0 [] x rest
                o open' eq_refl Hx Hlt2 Hamp2 Ho2 Hdel Ho60)
      as (c' & err & Hp & Hs' & Hr' & Hc & Hoe & Ho' & Ha').
    rewrite pushNode_first in Hp. cbn [text_isEmpty] in Hp.
    rewrite andb_false_r in Hp.
    eexists _, err, (getSelection c' (cursor c0) None). split.
    { unfold parse, parseChildren. fold c0. rewrite Hp. cbn beta iota.
      rewrite Hr'. reflexivity. }
    cbn [root_children app]. split; [reflexivity|]. split; [exact Hc|].
    split; [exact Hoe|]. split.
    { apply (selection_synced c0 c' _ [] Hsy0 Ha').
      - now rewrite app_nil_r.
      - unfold content. cbn [app]. rewrite Ho', !len_cons. lia. }
    split; [reflexivity|].
    change (offset (cursor c') = len [] + 2 + len rest).
    rewrite Ho'. reflexivity.
  - rewrite <- Ep in *.
    set (content := pre ++ 60 :: x :: rest).
    set (c0 := createParserContext content opts0).
    pose proof (synced_createParserContext content opts0) as Hsy0.
    fold c0 in Hsy0.
    assert (Hne : pre <> []) by (rewrite Ep; discriminate).
    specialize (Hkeep Hne).
    assert (Hp0 : p0 <> 60 /\ p0 <> o).
    { split; intros ->; [apply Hlt1|apply Ho1]; rewrite Ep; now left. }
    assert (Hend : isEnd toLowerCase c0 DATA [] = false).
    { unfold isEnd. cbn [rev existsb]. rewrite andb_false_r.
      change (source c0) with content. unfold content. now rewrite Ep. }
    assert (Hturn : forall pc,
               parseChildren_turn toLowerCase pc (S (S fuel)) c0 DATA []
               = Some (Undefined, c0)).
    { intros pc. unfold parseChildren_turn.
      change (options c0) with (mergeOptions opts0). rewrite Hdel.
      change (source c0) with content. unfold content. rewrite Ep.
      replace (startsWith ((p0 :: pre') ++ 60 :: x :: rest) (o :: open'))
        with false by (symmetry; apply startsWith_head_neq; cbn; tauto).
      replace (startsWith ((p0 :: pre') ++ 60 :: x :: rest) (js "<"))
        with false by (symmetry; apply startsWith_head_neq; cbn; tauto).
      reflexivity. }
    destruct (parseText_until_lt (S fuel) c0 pre (x :: rest) o open'
                eq_refl Hne Hlt1 Hamp1 Ho1 Hdel)
      as (c1 & Ht1 & Hs1 & Hr1 & Hof1 & Ha1).
    assert (Hopt1 : options c1 = mergeOptions opts0) by (now destruct Ha1).
    destruct (parseChildren_loop_lone_lt toLowerCase DEV fuel c1
                [TEXT {| text_content := pre;
                         text_loc := getSelection c1 (cursor c0) None;
                         text_isEmpty := isBlank pre |}]
                x rest o open' Hs1 Hx Hlt2 Hamp2 Ho2
                ltac:(now rewrite Hopt1) Ho60)
      as (c2 & err & Hp & Hs2 & Hr2 & Hc & Hoe & Hof2 & Ha2).
    assert (Hopt2 : options c2 = mergeOptions opts0)
      by (destruct Ha2 as [H _]; now rewrite H).
    pose proof (len_nonneg pre) as Hlp.
    eexists _, err, _. split.
    { unfold parse, parseChildren. fold c0.
      rewrite parseChildren_loop_S, Hend.
      unfold parseChildren_iteration. rewrite Hturn, Ht1.
      rewrite pushNode_first. cbn [text_isEmpty].
      rewrite Hopt1, Hkeep, Hp. cbn beta iota.
      rewrite Hr2, Hr1. unfold pushNode. rewrite !andb_false_r.
      cbn [rev app text_loc loc_end loc_start getSelection orElse].
      unfold getCursor. rewrite Z.eqb_refl.
      cbn [text_content]. rewrite trim_isBlank, isBlank_lt. reflexivity. }
    cbn [root_children text_loc loc_source loc_start loc_end].
    split; [reflexivity|]. split; [exact Hc|].
    split; [rewrite Hoe, Hof1; reflexivity|].
    split.
    { change (loc_source (getSelection c1 (cursor c0) None)
              ++ loc_source (getSelection c2 (cursor c1) None)
              = pre ++ 60 :: x :: rest).
      f_equal.
      - pose proof (selection_synced c0 c1 pre _ Hsy0 Ha1 eq_refl Hof1) as H.
        exact H.
      - pose proof (selection_synced c1 c2 (60 :: x :: rest) []
                      (synced_advances _ _ Hsy0 Ha1) Ha2) as H.
        apply H; [now rewrite app_nil_r|].
        rewrite Hof2, !len_cons. lia. }
    split; [reflexivity|].
    change (offset (cursor c2) = len pre + 2 + len rest).
    rewrite Hof2, Hof1. change (offset (cursor c0)) with 0. lia.
Qed.

Lemma lone_lt_is_text_witness :
  exists root err tloc,
    parse asciiToLowerCase false 2 (js "a < b") noOptions
    = Some (root, [err])
    /\ root_children root
       = [TEXT {| text_content := js "a < b"; text_loc := tloc;
                  text_isEmpty := false |}]
    /\ err_code err = INVALID_FIRST_CHARACTER_OF_TAG_NAME
    /\ offset (loc_start (err_loc err)) = 3
    /\ loc_source tloc = js "a < b".
Proof.
  destruct (lone_lt_is_text asciiToLowerCase false 0 noOptions
              (js "a ") 32 (js "b") 123 [123] eq_refl)
    as (root & err & tloc & H1 & H2 & H3 & H4 & H5 & _);
    try (apply not_In_js; reflexivity).
  - reflexivity.
  - discriminate.
  - reflexivity.
  - exists root, err, tloc. repeat split; assumption.
Defined.

(** ** Interpolations left open *)

(** X28: an opening delimiter that is never closed starts plain text:
    when the closing delimiter does not occur after it, the opening one
    does not occur again and there is no [<] and no ampersand, the whole
    input is one TEXT node and X_MISSING_INTERPOLATION_END is reported at
    its start. *)
Theorem interpolation_unterminated :
  forall toLowerCase DEV fuel opts0 o open' close body,
    delimiters (mergeOptions opts0) = (o :: open', close) ->
    indexOf ((o :: open') ++ body) close (len (o :: open')) = -1 ->
    indexOf ((o :: open') ++ body) (o :: open') 1 = -1 ->
    ~ In 60 ((o :: open') ++ body) -> ~ In 38 ((o :: open') ++ body) ->
    exists root err tloc,
      parse toLowerCase DEV (S fuel) ((o :: open') ++ body) opts0
      = Some (root, [err])
      /\ root_children root
         = (if ignoreSpaces (mergeOptions opts0)
               && isBlank ((o :: open') ++ body)
            then []
            else [TEXT {| text_content := (o :: open') ++ body;
                          text_loc := tloc;
                          text_isEmpty := isBlank ((o :: open') ++ body) |}])
      /\ err_code err = X_MISSING_INTERPOLATION_END
      /\ offset (loc_start (err_loc err)) = 0
      /\ loc_source tloc = (o :: open') ++ body.
Proof.
  intros toLowerCase DEV fuel opts0 o open' close body
    Hdel Hclose Hopen Hlt Hamp.
  set (content := (o :: open') ++ body) in *.
  set (c0 := createParserContext content opts0).
  pose proof (synced_createParserContext content opts0) as Hsy0.
  fold c0 in Hsy0.
  set (ce := emitError c0 X_MISSING_INTERPOLATION_END None).
  assert (Hend : isEnd toLowerCase c0 DATA [] = false).
  { unfold isEnd. cbn [rev existsb]. rewrite andb_false_r. reflexivity. }
  assert (Hturn : forall pc,
             parseChildren_turn toLowerCase pc (S fuel) c0 DATA []
             = Some (Undefined, ce)).
  { intros pc. unfold parseChildren_turn, parseInterpolation.
    change (options c0) with (mergeOptions opts0). rewrite Hdel.
    cbn [fst]. change (source c0) with content.
    replace (startsWith content (o :: open')) with true
      by (symmetry; apply startsWith_app).
    rewrite Hclose. reflexivity. }
  assert (Hs0 : source ce = content ++ []) by (now rewrite app_nil_r).
  destruct (parseTextData_verbatim fuel ce DATA content [] Hs0 Hamp)
    as (c' & Ht & Hs' & Ho' & Hr' & Ha').
  assert (Htext : parseText (S fuel) ce DATA
                  = Some ({| text_content := content;
                             text_loc := getSelection c' (cursor c0) None;
                             text_isEmpty := isBlank content |}, c')).
  { unfold parseText. change (options ce) with (mergeOptions opts0).
    rewrite Hdel. cbn [fst]. change (source ce) with content.
    rewrite (indexOf_absent content 60 1 Hlt
             : indexOf content (js "<") 1 = -1), Hopen.
    change (filter (fun n => negb (n =? -1)) [-1; -1; -1]) with (@nil Z).
    cbn [fold_right]. rewrite Ht. unfold getCursor.
    now rewrite trim_isBlank. }
  assert (Hend2 : isEnd toLowerCase c' DATA [] = true).
  { unfold isEnd. rewrite Hs'. reflexivity. }
  assert (Hopt : options c' = mergeOptions opts0) by (now destruct Ha').
  eexists _, _, (getSelection c' (cursor c0) None). split.
  { unfold parse, parseChildren. fold c0.
    rewrite parseChildren_loop_S, Hend.
    unfold parseChildren_iteration. rewrite Hturn, Htext.
    rewrite pushNode_first. cbn [text_isEmpty]. rewrite Hopt.
    destruct fuel; cbn [parseChildren_loop]; rewrite Hend2; cbn beta iota;
      rewrite Hr'; reflexivity. }
  cbn [root_children]. split; [reflexivity|]. split; [reflexivity|].
  split; [reflexivity|].
  apply (selection_synced ce c' content [] Hsy0 Ha' Hs0). exact Ho'.
Qed.

Lemma interpolation_unterminated_witness :
  exists root err tloc,
    parse asciiToLowerCase false 1 (js "{{ a") noOptions = Some (root, [err])
    /\ root_children root
       = [TEXT {| text_content := js "{{ a"; text_loc := tloc;
                  text_isEmpty := false |}]
    /\ err_code err = X_MISSING_INTERPOLATION_END.
Proof.
  destruct (interpolation_unterminated asciiToLowerCase false 0 noOptions
              123 [123] (js "}}") (js " a") eq_refl eq_refl eq_refl)
    as (root & err & tloc & H1 & H2 & H3 & _);
    try (apply not_In_js; reflexivity).
  exists root, err, tloc. repeat split; assumption.
Defined.

(** ** An end tag that the tag expression does not match *)

(** C9: [parse] does not return on [<k>] closed by the end tag of the
    Kelvin sign U+212A, under the default options and whatever the fuel.
    The case mapping of the engine sends the Kelvin sign to [k], so
    [startsWithEndTagOpen] takes the end tag for the one of [k]; the
    expression of parseTag, whose letters are the ASCII ones, does not
    match it, and the match asserted non-null is used: no root is
    returned, although no diagnostic was reported. *)
Theorem kelvin_end_tag_aborts :
  forall toLowerCase DEV,
    toLowerCase (js "k") = js "k" ->
    toLowerCase [0x212a] = js "k" ->
    startsWithEndTagOpen toLowerCase (js "</" ++ [0x212a] ++ js ">") (js "k")
    = true
    /\ execTagOpen (js "</" ++ [0x212a] ++ js ">") = None
    /\ (forall fuel c parent,
          source c = js "</" ++ [0x212a] ++ js ">" ->
          parseTag fuel c TagEnd parent = None)
    /\ (forall fuel,
          parse toLowerCase DEV fuel kelvinInput noOptions = None).
Proof.
  intros toLowerCase DEV Hk HK.
  assert (Hopen : startsWithEndTagOpen toLowerCase
                    (js "</" ++ [0x212a] ++ js ">") (js "k") = true).
  { unfold startsWithEndTagOpen.
    change (substr (js "</" ++ [0x212a] ++ js ">") 2 (len (js "k")))
      with [0x212a].
    rewrite Hk, HK. reflexivity. }
  assert (Htag : forall fuel c parent,
             source c = js "</" ++ [0x212a] ++ js ">" ->
             parseTag fuel c TagEnd parent = None).
  { intros fuel c parent Hs. unfold parseTag. rewrite Hs. reflexivity. }
  split; [exact Hopen|]. split; [reflexivity|]. split; [exact Htag|].
  intros fuel. unfold parse, parseChildren.
  set (c0 := createParserContext kelvinInput noOptions).
  destruct fuel as [|f]; [reflexivity|].
  rewrite parseChildren_loop_S.
  change (isEnd toLowerCase c0 DATA []) with false. cbv iota.
  unfold parseChildren_iteration.
  rewrite (parseChildren_turn_element toLowerCase _ _ c0 [] 107
             (js "></" ++ [0x212a] ++ js ">") 123 [123]
             eq_refl eq_refl eq_refl ltac:(discriminate)).
  destruct (parseTag_simple (S f) c0 false TagStart None (js "k")
              (js "</" ++ [0x212a] ++ js ">") eq_refl eq_refl)
    as (el & c1 & Hp1 & Htg & _ & _ & Hself & _ & _ & Hs1 & _ & _ & Ha1).
  assert (Hopt1 : options c1 = mergeOptions noOptions) by (now destruct Ha1).
  unfold parseElement. change (last []) with (@None ElementNode).
  rewrite Hp1. cbn beta iota. rewrite Hself, Hopt1. cbn [orb].
  change (isVoidTag (mergeOptions noOptions) (tag el)) with false.
  cbv iota.
  assert (Hend : isEnd toLowerCase c1
                   (getTextMode (mergeOptions noOptions) (tag el) (ns el))
                   ([] ++ [el]) = true).
  { unfold isEnd. cbn [getTextMode mergeOptions noOptions orElse
                       opt_getTextMode defaultParserOptions app rev existsb].
    rewrite Hs1, Htg, Hopen. reflexivity. }
  assert (Hkids : parseChildren_loop toLowerCase DEV f c1
                    (getTextMode (mergeOptions noOptions) (tag el) (ns el))
                    ([] ++ [el]) [] = Some ([], c1)).
  { destruct f; cbn [parseChildren_loop]; rewrite Hend; reflexivity. }
  rewrite Hkids. cbn beta iota.
  rewrite Hs1, Htg, Hopen.
  rewrite (Htag (S f) c1 None Hs1). reflexivity.
Qed.

Lemma kelvin_end_tag_aborts_witness :
  startsWithEndTagOpen kelvinToLowerCase (js "</" ++ [0x212a] ++ js ">")
    (js "k") = true
  /\ parse kelvinToLowerCase true 10 kelvinInput noOptions = None.
Proof.
  destruct (kelvin_end_tag_aborts kelvinToLowerCase true eq_refl eq_refl)
    as (H1 & _ & _ & H2).
  split; [exact H1|exact (H2 10%nat)].
Defined.

(** ** Numeric character references inside a text *)

Lemma find_amp_at (pre s : jsstring) :
  ~ In 38 pre ->
  find_from (fun t => startsWith t [38]) (pre ++ 38 :: s) 0 = len pre.
Proof.
  intros Hn.
  rewrite (find_from_first _ _ (List.length pre) 0).
  - unfold len. lia.
  - rewrite length_app. lia.
  - rewrite skipn_length_app. apply startsWith_1.
  - intros j Hj.
    destruct (skipn j (pre ++ 38 :: s)) as [|y t] eqn:E; [reflexivity|].
    rewrite startsWith_1. apply Z.eqb_neq. intros <-. apply Hn.
    rewrite skipn_app in E.
    replace (j - List.length pre)%nat with 0%nat in E by lia.
    cbn [skipn] in E.
    destruct (skipn j pre) as [|z u] eqn:Ep.
    + apply (f_equal (@List.length _)) in Ep. rewrite length_skipn in Ep.
      cbn in Ep. lia.
    + cbn [app] in E. injection E as <- _.
      rewrite <- (firstn_skipn j pre), Ep. apply in_or_app. right. now left.
Qed.

Lemma execHead_numeric_at pre hex digits semi rest :
  ~ In 38 pre ->
  digits <> [] -> forallb (isDigitOf hex) digits = true ->
  execHead (pre ++ numericText hex digits semi ++ rest)
  = Some (len pre, if hex then js "&#x" else js "&#").
Proof.
  intros Hp Hn Hd. destruct digits as [|d ds]; [congruence|].
  cbn in Hd. apply andb_prop in Hd as [Hd _].
  unfold execHead, numericText.
  assert (Hf : find_from (fun t => startsWith t [38])
                 (pre ++ ((if hex then js "&#x" else js "&#") ++ (d :: ds)
                          ++ (if semi then js ";" else [])) ++ rest) 0
               = len pre).
  { destruct hex; exact (find_amp_at pre _ Hp). }
  rewrite Hf. pose proof (len_nonneg pre) as Hl.
  replace (len pre <? 0) with false by (symmetry; apply Z.ltb_ge; lia).
  replace (Z.to_nat (len pre)) with (List.length pre) by (unfold len; lia).
  rewrite skipn_length_app.
  destruct hex; eval_js; cbn [app].
  - change (35 =? 35) with true. cbv iota.
    change ((120 =? 120) || (120 =? 88)) with true. reflexivity.
  - change (35 =? 35) with true. cbv iota.
    now rewrite (isDigit_not_x false d Hd eq_refl).
Qed.

Lemma execNumeric_text hex digits semi rest :
  digits <> [] -> forallb (isDigitOf hex) digits = true ->
  digitsEnd hex semi rest ->
  execNumeric hex (numericText hex digits semi ++ rest)
  = Some (digits, numericText hex digits semi).
Proof.
  intros Hn Hd Hr. unfold execNumeric, numericText.
  assert (Hs : span (isDigitOf hex)
                 (digits ++ (if semi then js ";" else []) ++ rest)
               = (digits, (if semi then js ";" else []) ++ rest)).
  { apply span_all; [exact Hd|].
    destruct semi; [apply isDigitOf_semicolon|].
    cbn [app]. destruct rest as [|x r]; [exact I|].
    destruct Hr as [Hr|[Hr _]]; [discriminate|exact Hr]. }
  assert (Hsemi : startsWith ((if semi then js ";" else []) ++ rest) (js ";")
                  = semi).
  { destruct semi; [eval_js; cbn [app]; now rewrite startsWith_1|].
    cbn [app]. destruct rest as [|x r]; [reflexivity|].
    destruct Hr as [Hr|[_ Hr]]; [discriminate|].
    eval_js. rewrite startsWith_1. apply Z.eqb_neq. congruence. }
  destruct hex; eval_js; cbn [app startsWith Z.eqb Pos.eqb andb orb skipn
                              firstn] in *;
    rewrite ?startsWith_nil; cbn [andb orb];
    rewrite <- ?app_assoc; cbn [app];
    unfold isDigitOf in Hs; rewrite <- ?app_assoc in Hs; rewrite Hs;
    (destruct digits; [congruence|]);
    rewrite Hsemi; destruct semi; reflexivity.
Qed.

Lemma span_fst_forallb (p : Z -> bool) s : forallb p (fst (span p s)) = true.
Proof.
  induction s as [|x s IH]; [reflexivity|]. cbn [span].
  destruct (p x) eqn:E; [|reflexivity].
  destruct (span p s) as [a b]. cbn [fst forallb] in *. now rewrite E, IH.
Qed.

Lemma execNumeric_digits hex s body1 body0 :
  execNumeric hex s = Some (body1, body0) ->
  forallb (isDigitOf hex) body1 = true.
Proof.
  unfold execNumeric. destruct (if hex then _ else _); [|discriminate].
  fold (isDigitOf hex).
  pose proof (span_fst_forallb (isDigitOf hex)
                (skipn (if hex then 3%nat else 2%nat) s)) as H.
  destruct (span _ _) as [digits rest]. cbn [fst] in H.
  destruct digits as [|d digits]; [discriminate|].
  intros E. now injection E as <- _.
Qed.

(** One turn of the loop of parseTextData on a numeric character
    reference: the text before it is appended, the code point goes through
    [checkCodePoint], its character is appended and the context is left
    after the reference, a missing semicolon reported. *)
Lemma parseTextData_loop_numeric fuel c end_ mode text index head0 body1 body0 :
  execHead (source c) = Some (index, head0) ->
  offset (cursor c) + index < end_ ->
  head0 <> js "&" ->
  execNumeric (str_eqb head0 (js "&#x")) (slice_from (source c) index)
  = Some (body1, body0) ->
  let hex := str_eqb head0 (js "&#x") in
  let checked :=
    checkCodePoint (advanceBy c index) (parseInt body1 (radixOf hex)) in
  let c1 := advanceBy (fst checked) (len body0) in
  parseTextData_loop (S fuel) c end_ mode text
  = parseTextData_loop fuel
      (if negb (endsWith body0 (js ";"))
       then emitError c1 MISSING_SEMICOLON_AFTER_CHARACTER_REFERENCE None
       else c1)
      end_ mode
      (text ++ slice (source c) 0 index ++ fromCodePoint (snd checked)).
Proof.
  intros Hh Hi Hn He. cbv zeta.
  destruct (execHead_spec _ _ _ Hh) as (H0 & _ & _).
  rewrite (parseTextData_loop_reference _ _ _ _ _ index head0 Hh Hi H0).
  unfold parseReference.
  replace (str_eqb head0 (js "&")) with false
    by (symmetry; apply not_true_is_false; intros E;
        apply str_eqb_eq in E; contradiction).
  rewrite source_advanceBy, He. fold (radixOf (str_eqb head0 (js "&#x"))).
  destruct (checkCodePoint _ _) as [c2 cp']. cbn [fst snd].
  now rewrite <- app_assoc.
Qed.

Lemma checkCodePoint_source c cp :
  source (fst (checkCodePoint c cp)) = source c.
Proof.
  unfold checkCodePoint.
  repeat match goal with
         | |- context [if ?b then _ else _] => destruct b
         end; reflexivity.
Qed.

(** A numeric character reference anywhere in the text that the loop of
    parseTextData runs over, with or without its semicolon: one turn of
    the loop decodes it. *)
Lemma numeric_reference_in_text fuel c end_ mode text pre hex digits semi rest :
  source c = pre ++ numericText hex digits semi ++ rest ->
  ~ In 38 pre ->
  digits <> [] -> forallb (isDigitOf hex) digits = true ->
  digitsEnd hex semi rest ->
  offset (cursor c) + len pre < end_ ->
  exists c',
    parseTextData_loop (S fuel) c end_ mode text
    = parseTextData_loop fuel c' end_ mode
        (text ++ pre
         ++ fromCodePoint
              (snd (checkCodePoint (advanceBy c (len pre))
                      (parseInt digits (radixOf hex)))))
    /\ source c' = rest
    /\ count_code CONTROL_CHARACTER_REFERENCE (reported c')
       = (count_code CONTROL_CHARACTER_REFERENCE (reported c)
          + if isReportedControl (parseInt digits (radixOf hex))
            then 1 else 0)%nat.
Proof.
  intros Hs Hp Hn Hd Hr He.
  pose proof (execHead_numeric_at pre hex digits semi rest Hp Hn Hd) as Hh.
  rewrite <- Hs in Hh.
  assert (Hx : str_eqb (if hex then js "&#x" else js "&#") (js "&#x") = hex)
    by now destruct hex.
  assert (Hsk : slice_from (source c) (len pre)
                = numericText hex digits semi ++ rest).
  { rewrite slice_from_skipn by apply len_nonneg. rewrite Hs.
    unfold len. rewrite Nat2Z.id. apply skipn_length_app. }
  pose proof (parseTextData_loop_numeric fuel c end_ mode text (len pre)
                (if hex then js "&#x" else js "&#") digits
                (numericText hex digits semi) Hh He) as Hl.
  rewrite Hx, Hsk in Hl.
  specialize (Hl ltac:(now destruct hex)
                 (execNumeric_text hex digits semi rest Hn Hd Hr)).
  cbv zeta in Hl.
  assert (H0 : slice (source c) 0 (len pre) = pre).
  { rewrite slice_0 by apply len_nonneg. rewrite Hs.
    unfold len. rewrite Nat2Z.id. apply firstn_length_app. }
  rewrite H0 in Hl.
  eexists. split; [exact Hl|].
  pose proof (checkCodePoint_control (advanceBy c (len pre))
                (parseInt digits (radixOf hex))
                (parseInt_nonneg hex digits Hd)) as [H1 _].
  change (reported (advanceBy c (len pre))) with (reported c) in H1.
  split.
  - assert (G : source (advanceBy
                          (fst (checkCodePoint (advanceBy c (len pre))
                                  (parseInt digits (radixOf hex))))
                          (len (numericText hex digits semi))) = rest).
    { rewrite source_advanceBy, checkCodePoint_source, source_advanceBy, Hsk.
      rewrite slice_from_skipn by apply len_nonneg.
      unfold len. rewrite Nat2Z.id. apply skipn_length_app. }
    destruct (negb _); [|exact G]. exact G.
  - destruct (negb _).
    + rewrite count_code_emitError. cbn [ErrorCodes_beq].
      rewrite Nat.add_0_r. exact H1.
    + exact H1.
Qed.

(** C2: parseTextData decodes in DATA, RCDATA and ATTRIBUTE_VALUE mode, by
    its loop; in any turn of the loop that meets a numeric character
    reference (the head found is not a bare ampersand and the pattern of
    the digits matches after it, with or without a semicolon, wherever
    the reference stands in the text), CONTROL_CHARACTER_REFERENCE is
    reported exactly when the code point is in 0x01-0x08, 0x0B, 0x0D-0x1F
    or 0x7F-0x9F, and then the character appended, after the text before
    the reference, is that of the code point remapped through the C0/C1
    table (itself where the table has no entry); 0x80 becomes 0x20AC. The
    loop goes on right after the reference. *)
Theorem control_character_reference :
  forall fuel c end_ mode text index head0 body1 body0,
    execHead (source c) = Some (index, head0) ->
    offset (cursor c) + index < end_ ->
    head0 <> js "&" ->
    execNumeric (str_eqb head0 (js "&#x")) (slice_from (source c) index)
    = Some (body1, body0) ->
    let cp := parseInt body1 (radixOf (str_eqb head0 (js "&#x"))) in
    (isEntityMode mode = true ->
     forall length,
       parseTextData (S fuel) c length mode
       = parseTextData_loop (S fuel) c (offset (cursor c) + length) mode [])
    /\ exists text' c',
         parseTextData_loop (S fuel) c end_ mode text
         = parseTextData_loop fuel c' end_ mode text'
         /\ offset (cursor c') = offset (cursor c) + index + len body0
         /\ source c'
            = slice_from (slice_from (source c) index) (len body0)
         /\ count_code CONTROL_CHARACTER_REFERENCE (reported c')
            = (count_code CONTROL_CHARACTER_REFERENCE (reported c)
               + if isReportedControl cp then 1 else 0)%nat
         /\ (isReportedControl cp = true ->
             text' = text ++ slice (source c) 0 index
                          ++ fromCodePoint (remapped cp))
         /\ remapped 0x80 = 0x20ac.
Proof.
  intros fuel c end_ mode text index head0 body1 body0 Hh Hi Hn He cp.
  split.
  { intros Hm length. unfold parseTextData. now rewrite Hm. }
  pose proof (parseTextData_loop_numeric fuel c end_ mode text index head0
                body1 body0 Hh Hi Hn He) as Hl.
  cbv zeta in Hl. fold cp in Hl.
  pose proof (checkCodePoint_control (advanceBy c index) cp
                (parseInt_nonneg _ _ (execNumeric_digits _ _ _ _ He)))
    as [H1 H2].
  change (reported (advanceBy c index)) with (reported c) in H1.
  pose proof (checkCodePoint_source (advanceBy c index) cp) as Hsrc.
  destruct (checkCodePoint (advanceBy c index) cp) as [c2 cp'] eqn:Ec.
  apply checkCodePoint_advances in Ec as [_ Hcur].
  cbn [fst snd] in *.
  do 2 eexists. split; [exact Hl|].
  assert (Ho : offset (cursor (advanceBy c2 (len body0)))
               = offset (cursor c) + index + len body0)
    by (rewrite offset_advanceBy, Hcur, offset_advanceBy; lia).
  assert (Hs : source (advanceBy c2 (len body0))
               = slice_from (slice_from (source c) index) (len body0))
    by (now rewrite source_advanceBy, Hsrc, source_advanceBy).
  split; [destruct (negb _); exact Ho|].
  split; [destruct (negb _); exact Hs|].
  split.
  - destruct (negb _); [|exact H1].
    rewrite count_code_emitError. cbn [ErrorCodes_beq].
    rewrite Nat.add_0_r. exact H1.
  - split; [|reflexivity]. intros Hc. now rewrite (proj1 (H2 Hc)).
Qed.

Lemma control_character_reference_witness :
  execHead (js "a&#128 b") = Some (1, js "&#")
  /\ execNumeric false (js "&#128 b") = Some (js "128", js "&#128")
  /\ exists text' c',
       parseTextData_loop 2 (createParserContext (js "a&#128 b") noOptions)
         8 DATA []
       = parseTextData_loop 1 c' 8 DATA text'
       /\ source c' = js " b"
       /\ count_code CONTROL_CHARACTER_REFERENCE (reported c') = 1%nat
       /\ text' = js "a" ++ [0x20ac].
Proof.
  split; [vm_compute; reflexivity|]. split; [vm_compute; reflexivity|].
  assert (Hh : execHead (source (createParserContext (js "a&#128 b")
                                   noOptions))
               = Some (1, js "&#")) by (vm_compute; reflexivity).
  assert (Hi : offset (cursor (createParserContext (js "a&#128 b")
                                 noOptions)) + 1 < 8)
    by (vm_compute; reflexivity).
  assert (Hn : js "&#" <> js "&") by discriminate.
  assert (He : execNumeric (str_eqb (js "&#") (js "&#x"))
                 (slice_from (source (createParserContext (js "a&#128 b")
                                        noOptions)) 1)
               = Some (js "128", js "&#128")) by (vm_compute; reflexivity).
  destruct (control_character_reference 1
              (createParserContext (js "a&#128 b") noOptions) 8 DATA []
              1 (js "&#") (js "128") (js "&#128") Hh Hi Hn He)
    as (_ & text' & c' & H1 & _ & H3 & H4 & H5 & _).
  exists text', c'. split; [exact H1|].
  split; [rewrite H3; vm_compute; reflexivity|].
  split; [rewrite H4; vm_compute; reflexivity|].
  rewrite H5; vm_compute; reflexivity.
Defined.

(** ** The names of the props as they are written *)

Lemma span_firstn (p : Z -> bool) r :
  forall m, (List.length (fst (span p r)) <= m)%nat ->
            fst (span p (firstn m r)) = fst (span p r).
Proof.
  induction r as [|x r IH]; intros m Hm; [now destruct m|].
  cbn [span] in *. destruct (p x) eqn:E.
  - destruct (span p r) as [a b] eqn:Es. cbn [fst List.length] in *.
    destruct m as [|m]; [lia|]. cbn [firstn span]. rewrite E.
    specialize (IH m ltac:(lia)).
    destruct (span p (firstn m r)) as [a' b']. cbn [fst] in *. now subst.
  - destruct m as [|m]; [reflexivity|]. cbn [firstn span]. now rewrite E.
Qed.

Lemma execAttrName_firstn s name n :
  execAttrName s = Some name -> (List.length name <= n)%nat ->
  execAttrName (firstn n s) = Some name.
Proof.
  unfold execAttrName. destruct s as [|c r]; [discriminate|].
  destruct (isTagEnd c) eqn:Ec; [discriminate|].
  intros H Hn. injection H as <-. cbn [List.length] in Hn.
  destruct n as [|m]; [lia|]. cbn [firstn]. rewrite Ec.
  now rewrite span_firstn by lia.
Qed.

(** The location of a prop runs from where its name starts to where
    parseAttribute leaves the context, which is after the name. *)
Lemma parseAttribute_selection fuel c nameSet p nameSet' c' :
  parseAttribute fuel c nameSet = Some (p, nameSet', c') ->
  exists name,
    execAttrName (source c) = Some name
    /\ offset (cursor c) + len name <= offset (cursor c')
    /\ prop_loc p = getSelection c' (cursor c) None.
Proof.
  unfold parseAttribute. intros H.
  destruct (execAttrName (source c)) as [name|] eqn:En; [|discriminate].
  exists name. split; [reflexivity|].
  match type of H with
  | context [advanceBy ?a (len name)] => set (c1 := advanceBy a (len name)) in *
  end.
  assert (H2 : offset (cursor c1) = offset (cursor c) + len name).
  { unfold c1. rewrite offset_advanceBy, cursor_emitErrorsAt,
      !cursor_if_emitError. lia. }
  clearbody c1.
  match type of H with
  | match ?v with _ => _ end = _ =>
      destruct v as [[value c2]|] eqn:Ev; [|discriminate]
  end.
  assert (H3 : advances c1 c2).
  { destruct (testSpacesEquals (source c1)).
    - destruct (parseAttributeValue _ _) as [[v c3]|] eqn:E; [|discriminate].
      apply parseAttributeValue_advances in E.
      assert (advances c1 c3)
        by (eapply advances_trans; [|exact E]; advances_chain).
      destruct v; injection Ev as _ <-; advances_chain.
    - injection Ev as _ <-. apply advances_refl. }
  clear Ev. destruct H3 as (_ & _ & _ & H3 & _).
  unfold getCursor in H.
  repeat break_inner_in H; injection H as <- _ <-;
    (split; [cbn; lia|reflexivity]).
Qed.

Lemma parseAttribute_rawName fuel c nameSet p nameSet' c' name :
  synced c ->
  parseAttribute fuel c nameSet = Some (p, nameSet', c') ->
  execAttrName (source c) = Some name ->
  rawName p = name.
Proof.
  intros Hs H En.
  pose proof (parseAttribute_advances _ _ _ _ _ _ H) as [Ha _].
  apply parseAttribute_selection in H as (name' & En' & Ho & Hl).
  rewrite En in En'. injection En' as <-.
  unfold rawName. rewrite Hl, (selection_source _ _ Ha).
  destruct Hs as [H0 Hs].
  pose proof (len_nonneg name) as Hn.
  replace (offset (cursor c'))
    with (offset (cursor c) + (offset (cursor c') - offset (cursor c)))
    by lia.
  rewrite <- slice_synced by lia.
  rewrite <- Hs, slice_0 by lia.
  rewrite (execAttrName_firstn _ name); [reflexivity|exact En|].
  unfold len in *. lia.
Qed.

Lemma parseTag_loop_rawNames fuel :
  forall c nameSet props props' c',
    synced c ->
    parseTag_loop fuel c TagStart nameSet props = Some (props', c') ->
    exists new,
      props' = props ++ new
      /\ Forall namedAsWritten new
      /\ (duplicates c' + List.length (distinct nameSet (map rawName new))
          = duplicates c + List.length nameSet + List.length new)%nat.
Proof.
  induction fuel as [|fuel IH]; intros c nameSet props props' c' Hs H;
    cbn [parseTag_loop] in H;
    destruct (negb _ && negb _ && negb _);
    try discriminate;
    try (injection H as <- <-; exists []; rewrite app_nil_r;
         repeat split; [constructor|cbn; lia]).
  destruct (startsWith (source c) (js "/")).
  - apply IH in H as (new & H1 & H2 & H3).
    + exists new. split; [exact H1|]. split; [exact H2|].
      revert H3. duplicates_steps. lia.
    + apply (synced_advances c); [exact Hs|]. advances_chain.
  - destruct (parseAttribute _ _ _) as [[[attr ns'] c1]|] eqn:Ea;
      [|discriminate].
    pose proof (parseAttribute_advances _ _ _ _ _ _ Ea) as [Ha _].
    pose proof (parseAttribute_name _ _ _ _ _ _ Ea)
      as (name & En & Hn & -> & Hd).
    pose proof (parseAttribute_rawName _ _ _ _ _ _ name Hs Ea En) as Hr.
    apply IH in H as (new & H1 & H2 & H3).
    + exists (attr :: new).
      split; [rewrite H1, <- app_assoc; reflexivity|].
      split.
      { constructor; [|exact H2].
        destruct attr; cbn [namedAsWritten prop_named] in *;
          rewrite Hr; exact Hn. }
      cbn [map distinct fold_left List.length] in *. rewrite Hr.
      unfold distinct in H3.
      assert (Hd' : duplicates
                      (advanceSpaces
                         match source c1 with
                         | [] => c1
                         | c2 :: _ =>
                             if negb (isTagEnd c2)
                             then emitError c1
                                    MISSING_WHITESPACE_BETWEEN_ATTRIBUTES None
                             else c1
                         end) = duplicates c1).
      { duplicates_steps. destruct (source c1) as [|x t]; [reflexivity|].
        destruct (negb _); duplicates_steps; lia. }
      rewrite Hd', Hd, length_set_add in H3.
      destruct (set_has nameSet name); lia.
    + apply (synced_advances c); [exact Hs|].
      eapply advances_trans; [exact Ha|].
      destruct (source c1) as [|x t]; advances_chain.
Qed.


(** ** Plain documents *)

Lemma consumed_refl c : consumed c c [].
Proof.
  split; [apply advances_refl|]. split; [reflexivity|].
  change (len []) with 0. lia.
Qed.

Lemma consumed_trans a b c p q :
  consumed a b p -> consumed b c q -> consumed a c (p ++ q).
Proof.
  intros (H1 & H2 & H3) (K1 & K2 & K3).
  split; [eapply advances_trans; eassumption|].
  split; [now rewrite H2, K2, app_assoc|].
  rewrite len_app. lia.
Qed.

Lemma consumed_advanceBy c pre rest :
  source c = pre ++ rest -> consumed c (advanceBy c (len pre)) pre.
Proof.
  intros Hs. destruct (advanceBy_prefix c pre rest Hs) as [H1 H2].
  split; [apply advances_advanceBy; [apply advances_refl|apply len_nonneg]|].
  split; [now rewrite H1|exact H2].
Qed.

Lemma consumed_emitError a c p code o :
  consumed a c p -> consumed a (emitError c code o) p.
Proof.
  intros (H1 & H2 & H3).
  split; [now apply advances_emitError|]. split; assumption.
Qed.

Lemma consumed_if_emitError a c p (b : bool) code o :
  consumed a c p -> consumed a (if b then emitError c code o else c) p.
Proof. destruct b; [apply consumed_emitError|trivial]. Qed.

Lemma consumed_emitErrorsAt code indices :
  forall a c p, consumed a c p -> consumed a (emitErrorsAt c code indices) p.
Proof.
  unfold emitErrorsAt.
  induction indices as [|i l IH]; intros a c p H; [exact H|].
  cbn. apply IH. now apply consumed_emitError.
Qed.

Lemma consumed_source a c p rest :
  consumed a c p -> source a = p ++ rest -> source c = rest.
Proof.
  intros (_ & H2 & _) Hs. rewrite H2 in Hs.
  now apply app_inv_head in Hs.
Qed.

Lemma consumed_advanceSpaces c sp rest :
  source c = sp ++ rest -> forallb isSpace sp = true ->
  noLeadingSpace rest ->
  consumed c (advanceSpaces c) sp.
Proof.
  intros Hs Hsp Hr.
  destruct (advanceSpaces_run c sp rest Hs Hsp Hr) as (H1 & H2 & _).
  split; [apply advances_advanceSpaces, advances_refl|].
  split; [now rewrite H1|exact H2].
Qed.

Lemma consumed_selection c c' pre :
  synced c -> consumed c c' pre ->
  loc_source (getSelection c' (cursor c) None) = pre.
Proof.
  intros Hs (H1 & H2 & H3).
  exact (selection_synced c c' pre (source c') Hs H1 H2 H3).
Qed.

Lemma consumed_synced c c' pre : synced c -> consumed c c' pre -> synced c'.
Proof. intros Hs (H1 & _). exact (synced_advances _ _ Hs H1). Qed.

Lemma consumed_options c c' pre : consumed c c' pre -> options c' = options c.
Proof. now intros ((H & _) & _). Qed.

(** parseAttribute reads an attribute with a quoted value to its closing
    quote, whether the name is that of a directive and whether it was met
    before. *)
Lemma parseAttribute_consumes fuel c nameSet name sp1 sp2 q value rest :
  source c = attrText name sp1 sp2 q value ++ rest ->
  name <> [] -> forallb isNameChar name = true ->
  forallb isSpace sp1 = true -> forallb isSpace sp2 = true ->
  q = 34 \/ q = 39 -> ~ In q value -> ~ In 38 value ->
  exists p nameSet' c',
    parseAttribute (S fuel) c nameSet = Some (p, nameSet', c')
    /\ consumed c c' (attrText name sp1 sp2 q value)
    /\ execAttrName (source c) = Some name.
Proof.
  intros Hs Hn Hc Hsp1 Hsp2 Hq Hnq Hna.
  assert (Hs' : source c
                = name ++ sp1 ++ js "=" ++ sp2 ++ q :: value ++ q :: rest).
  { rewrite Hs. unfold attrText. rewrite <- !app_assoc. cbn [app].
    now rewrite <- !app_assoc. }
  assert (Hqs : isSpace q = false) by (destruct Hq as [-> | ->]; reflexivity).
  assert (Hex : execAttrName (source c) = Some name).
  { rewrite Hs'. apply execAttrName_name; [exact Hn|exact Hc|].
    destruct sp1 as [|x sp1]; [reflexivity|].
    cbn in Hsp1 |- *. apply andb_prop in Hsp1 as [Hx _].
    unfold isTagEnd. now rewrite Hx. }
  unfold parseAttribute. cbv zeta. rewrite Hex. cbv beta iota.
  match goal with
  | |- context [advanceBy ?a (len name)] => set (c0 := a)
  end.
  assert (H0 : consumed c c0 []).
  { unfold c0. apply consumed_emitErrorsAt, consumed_if_emitError,
      consumed_if_emitError, consumed_refl. }
  assert (Hs0 : source c0 = source c).
  { destruct H0 as (_ & H0 & _). now rewrite H0. }
  clearbody c0. rewrite <- Hs0 in Hs'.
  set (c1 := advanceBy c0 (len name)).
  pose proof (consumed_advanceBy c0 name _ Hs') as H1. fold c1 in H1.
  pose proof (consumed_source _ _ _ _ H1 Hs') as Hs1.
  assert (Htest : testSpacesEquals (source c1) = true).
  { unfold testSpacesEquals. rewrite Hs1, (span_all isSpace sp1 _ Hsp1);
      [apply startsWith_app|reflexivity]. }
  rewrite Htest.
  set (c2 := advanceSpaces c1).
  pose proof (consumed_advanceSpaces c1 sp1 _ Hs1 Hsp1 ltac:(reflexivity))
    as H2. fold c2 in H2.
  pose proof (consumed_source _ _ _ _ H2 Hs1) as Hs2.
  set (c3 := advanceBy c2 1).
  pose proof (consumed_advanceBy c2 (js "=") _ Hs2) as H3.
  change (len (js "=")) with 1 in H3. fold c3 in H3.
  pose proof (consumed_source _ _ _ _ H3 Hs2) as Hs3.
  set (c4 := advanceSpaces c3).
  pose proof (consumed_advanceSpaces c3 sp2 _ Hs3 Hsp2
                (noLeadingSpace_cons _ _ Hqs)) as H4. fold c4 in H4.
  pose proof (consumed_source _ _ _ _ H4 Hs3) as Hs4.
  destruct (parseAttributeValue_quoted fuel c4 q value rest Hs4 Hq Hnq Hna)
    as (c5 & Hv & Hs5 & Ho5 & Hr5 & Ha5).
  rewrite Hv. cbv beta iota.
  assert (H5 : consumed c4 c5 (q :: value ++ [q])).
  { split; [exact Ha5|]. split.
    - rewrite Hs4, Hs5. cbn [app]. now rewrite <- app_assoc.
    - rewrite Ho5, len_cons, len_app, len_cons. change (len []) with 0. lia. }
  assert (H : consumed c c5 (attrText name sp1 sp2 q value)).
  { unfold attrText.
    change name with ([] ++ name) at 1. rewrite <- !app_assoc.
    eapply consumed_trans; [exact H0|].
    eapply consumed_trans; [exact H1|].
    eapply consumed_trans; [exact H2|].
    eapply consumed_trans; [exact H3|].
    eapply consumed_trans; [exact H4|exact H5]. }
  clear Hv.
  repeat break_inner; do 3 eexists;
    (split; [reflexivity|]); (split; [|reflexivity]);
    first [exact H | apply consumed_emitError; exact H].
Qed.

Lemma parseTag_loop_S fuel c type nameSet props :
  parseTag_loop (S fuel) c type nameSet props
  = if negb (match source c with [] => true | _ => false end)
       && negb (startsWith (source c) (js ">"))
       && negb (startsWith (source c) (js "/>"))
    then
      if startsWith (source c) (js "/") then
        parseTag_loop fuel
          (advanceSpaces
             (advanceBy (emitError c UNEXPECTED_SOLIDUS_IN_TAG None) 1))
          type nameSet props
      else
        match parseAttribute fuel
                match type with
                | TagEnd => emitError c END_TAG_WITH_ATTRIBUTES None
                | TagStart => c
                end nameSet with
        | Some (attr, nameSet, context) =>
            parseTag_loop fuel
              (advanceSpaces
                 match source context with
                 | x :: _ =>
                     if negb (isTagEnd x)
                     then emitError context
                            MISSING_WHITESPACE_BETWEEN_ATTRIBUTES None
                     else context
                 | [] => context
                 end)
              type nameSet
              match type with
              | TagStart => props ++ [attr]
              | TagEnd => props
              end
        | None => None
        end
    else Some (props, c).
Proof. reflexivity. Qed.

Lemma parseTag_loop_closer fuel c type nameSet props self rest :
  source c = tagCloser self ++ rest ->
  parseTag_loop fuel c type nameSet props = Some (props, c).
Proof.
  intros Hs.
  assert (H : negb (match source c with [] => true | _ => false end)
              && negb (startsWith (source c) (js ">"))
              && negb (startsWith (source c) (js "/>")) = false).
  { rewrite Hs. destruct self; unfold tagCloser; rewrite startsWith_app;
      cbn [negb]; rewrite ?andb_false_r; reflexivity. }
  destruct fuel; cbn [parseTag_loop]; now rewrite H.
Qed.

Lemma noLeadingSpace_closer self rest :
  noLeadingSpace (tagCloser self ++ rest).
Proof. destruct self; reflexivity. Qed.

Lemma forallb_not_In (q : Z) (f : Z -> bool) s :
  forallb (fun x => negb ((x =? q) || f x)) s = true -> ~ In q s.
Proof.
  induction s as [|y s IH]; [now intros _ H|].
  cbn. intros H [Hy|Hy]; apply andb_prop in H as [H1 H2].
  - subst y. now rewrite Z.eqb_refl in H1.
  - now apply IH.
Qed.

Lemma forallb_not_In_r (q : Z) (f : Z -> bool) s :
  forallb (fun x => negb (f x || (x =? q))) s = true -> ~ In q s.
Proof.
  induction s as [|y s IH]; [now intros _ H|].
  cbn. intros H [Hy|Hy]; apply andb_prop in H as [H1 H2].
  - subst y. now rewrite Z.eqb_refl, orb_true_r in H1.
  - now apply IH.
Qed.

Lemma wfAttribute_facts a :
  wfAttribute a = true ->
  pa_space a <> [] /\ forallb isSpace (pa_space a) = true
  /\ pa_name a <> [] /\ forallb isNameChar (pa_name a) = true
  /\ forallb isSpace (pa_sp1 a) = true /\ forallb isSpace (pa_sp2 a) = true
  /\ (pa_quote a = 34 \/ pa_quote a = 39)
  /\ ~ In (pa_quote a) (pa_value a) /\ ~ In 38 (pa_value a).
Proof.
  unfold wfAttribute. intros H.
  repeat match type of H with
         | _ && _ = true => let K := fresh "K" in apply andb_prop in H as [H K]
         end.
  repeat split; try assumption.
  - destruct (pa_space a); [discriminate|congruence].
  - destruct (pa_name a); [discriminate|congruence].
  - apply orb_prop in K0 as [K0|K0]; apply Z.eqb_eq in K0; tauto.
  - exact (forallb_not_In _ _ _ K).
  - exact (forallb_not_In_r _ _ _ K).
Qed.

Lemma noLeadingSpace_name name rest :
  name <> [] -> forallb isNameChar name = true ->
  noLeadingSpace (name ++ rest)
  /\ negb (match name ++ rest with [] => true | _ => false end)
     && negb (startsWith (name ++ rest) (js ">"))
     && negb (startsWith (name ++ rest) (js "/>")) = true
  /\ startsWith (name ++ rest) (js "/") = false.
Proof.
  intros Hn Hc. destruct name as [|x name]; [congruence|].
  cbn [forallb] in Hc. apply andb_prop in Hc as [Hx _].
  apply isNameChar_spec in Hx as (Hx & _). unfold isTagEnd in Hx.
  apply orb_false_elim in Hx as [Hx H62].
  apply orb_false_elim in Hx as [Hx H47].
  cbn [app]. split; [exact Hx|].
  eval_js. cbn [startsWith]. rewrite !(Z.eqb_sym _ x), H62, H47.
  now split.
Qed.

(** The loop of parseTag reads the attributes of a start tag, and the
    whitespace after them, up to the end of the tag; it adds one prop for
    each attribute, in order, whose name as written is that of the
    attribute. *)
Lemma parseTag_loop_attributes attrs :
  forall fuel c nameSet props sp self rest,
    (List.length attrs < fuel)%nat ->
    forallb wfAttribute attrs = true -> forallb isSpace sp = true ->
    source c = renderAttributes attrs ++ sp ++ tagCloser self ++ rest ->
    synced c ->
    exists props' c',
      parseTag_loop fuel (advanceSpaces c) TagStart nameSet props
      = Some (props', c')
      /\ consumed c c' (renderAttributes attrs ++ sp)
      /\ map rawName props' = map rawName props ++ map pa_name attrs.
Proof.
  induction attrs as [|a attrs IH];
    intros fuel c nameSet props sp self rest Hf Hw Hsp Hs Hsy.
  - cbn [renderAttributes map List.concat app] in *.
    pose proof (consumed_advanceSpaces c sp _ Hs Hsp
                  (noLeadingSpace_closer self rest)) as H1.
    pose proof (consumed_source _ _ _ _ H1 Hs) as Hs1.
    exists props, (advanceSpaces c).
    split; [exact (parseTag_loop_closer _ _ _ _ _ self rest Hs1)|].
    split; [exact H1|]. cbn [map]. now rewrite app_nil_r.
  - cbn [forallb] in Hw. apply andb_prop in Hw as [Ha Hw].
    apply wfAttribute_facts in Ha
      as (Hsn & Hss & Hn & Hc & Hsp1 & Hsp2 & Hq & Hnq & Hna).
    set (R := renderAttributes attrs ++ sp ++ tagCloser self ++ rest).
    set (body := attrText (pa_name a) (pa_sp1 a) (pa_sp2 a) (pa_quote a)
                   (pa_value a)).
    assert (Hs' : source c = pa_space a ++ body ++ R).
    { rewrite Hs. unfold R, body, renderAttributes, renderAttribute.
      cbn [map List.concat]. now rewrite <- !app_assoc. }
    destruct (noLeadingSpace_name (pa_name a)
                ((pa_sp1 a ++ js "=" ++ pa_sp2 a
                  ++ pa_quote a :: pa_value a ++ [pa_quote a]) ++ R) Hn Hc)
      as (Hlead & Hcond & Hsol).
    assert (Hbody : body ++ R
                    = pa_name a
                      ++ (pa_sp1 a ++ js "=" ++ pa_sp2 a
                          ++ pa_quote a :: pa_value a ++ [pa_quote a]) ++ R).
    { unfold body, attrText. now rewrite <- !app_assoc. }
    rewrite <- Hbody in Hlead, Hcond, Hsol.
    pose proof (consumed_advanceSpaces c (pa_space a) _ Hs' Hss Hlead) as H1.
    pose proof (consumed_source _ _ _ _ H1 Hs') as Hs1.
    set (c1 := advanceSpaces c) in *.
    destruct fuel as [|fuel]; [cbn in Hf; lia|].
    destruct fuel as [|fuel]; [cbn in Hf; lia|].
    destruct (parseAttribute_consumes fuel c1 nameSet (pa_name a) (pa_sp1 a)
                (pa_sp2 a) (pa_quote a) (pa_value a) R Hs1 Hn Hc Hsp1 Hsp2
                Hq Hnq Hna) as (p & ns' & c2 & Hp & H2 & Hex).
    fold body in H2.
    pose proof (consumed_synced _ _ _ Hsy H1) as Hsy1.
    pose proof (parseAttribute_rawName _ _ _ _ _ _ _ Hsy1 Hp Hex) as Hraw.
    pose proof (consumed_source _ _ _ _ H2 Hs1) as Hs2.
    set (c3 := match source c2 with
               | x :: _ =>
                   if negb (isTagEnd x)
                   then emitError c2
                          MISSING_WHITESPACE_BETWEEN_ATTRIBUTES None
                   else c2
               | [] => c2
               end).
    assert (H3 : consumed c2 c3 []).
    { unfold c3. destruct (source c2) as [|x t]; [apply consumed_refl|].
      apply consumed_if_emitError, consumed_refl. }
    assert (Hs3 : source c3 = R).
    { destruct H3 as (_ & H3 & _). cbn [app] in H3. now rewrite <- H3. }
    destruct (IH (S fuel) c3 ns' (props ++ [p]) sp self rest)
      as (props' & c' & Hl & H4 & Hnames);
      [cbn in Hf |- *; lia|exact Hw|exact Hsp|exact Hs3
      |exact (consumed_synced _ _ _ (consumed_synced _ _ _ Hsy1 H2) H3)|].
    exists props', c'. split; [|split].
    + rewrite parseTag_loop_S, Hs1, Hcond, Hsol, Hp. exact Hl.
    + assert (H34 : consumed c2 c' (renderAttributes attrs ++ sp))
        by exact (consumed_trans _ _ _ [] _ H3 H4).
      assert (E : renderAttributes (a :: attrs) ++ sp
                  = pa_space a ++ body ++ renderAttributes attrs ++ sp).
      { unfold renderAttributes, renderAttribute, body.
        cbn [map List.concat]. now rewrite <- !app_assoc. }
      rewrite E.
      exact (consumed_trans _ _ _ _ _ H1 (consumed_trans _ _ _ _ _ H2 H34)).
    + rewrite Hnames, map_app. cbn [map]. rewrite Hraw, <- app_assoc.
      reflexivity.
Qed.

Lemma execTagOpen_name tg R :
  isTagName tg = true ->
  match R with x :: _ => isTagEnd x = true | [] => True end ->
  execTagOpen (js "<" ++ tg ++ R) = Some (js "<" ++ tg, tg).
Proof.
  intros Ht HR. destruct tg as [|x r]; [discriminate|].
  cbn [isTagName] in Ht. apply andb_prop in Ht as [Hx Hr].
  assert (Hsp : span (fun y => negb (isTagEnd y)) (r ++ R) = (r, R)).
  { apply span_all; [exact Hr|].
    destruct R as [|y R]; [exact I|]. now rewrite HR. }
  unfold execTagOpen.
  change (startsWith (js "<" ++ (x :: r) ++ R) (js "<")) with true.
  replace (startsWith (js "<" ++ (x :: r) ++ R) (js "</")) with false.
  2:{ symmetry. eval_js. cbn [app startsWith]. eval_eqb. cbn [andb].
      destruct (47 =? x) eqn:E; [|reflexivity].
      apply Z.eqb_eq in E. subst x. discriminate Hx. }
  cbv iota.
  change (skipn (1 + List.length (@nil Z)) (js "<" ++ (x :: r) ++ R))
    with (x :: r ++ R).
  cbv beta iota. now rewrite Hx, Hsp.
Qed.

Lemma tagTail_head attrs sp self rest :
  forallb wfAttribute attrs = true -> forallb isSpace sp = true ->
  match renderAttributes attrs ++ sp ++ tagCloser self ++ rest with
  | x :: _ => isTagEnd x = true
  | [] => True
  end.
Proof.
  intros Hw Hsp. destruct attrs as [|a attrs].
  - cbn [renderAttributes map List.concat app].
    destruct sp as [|x sp].
    + destruct self; reflexivity.
    + cbn in Hsp |- *. apply andb_prop in Hsp as [Hx _].
      unfold isTagEnd. now rewrite Hx.
  - cbn [forallb] in Hw. apply andb_prop in Hw as [Ha _].
    apply wfAttribute_facts in Ha as (Hsn & Hss & _).
    unfold renderAttributes, renderAttribute. cbn [map List.concat].
    destruct (pa_space a) as [|x s]; [congruence|].
    cbn in Hss |- *. apply andb_prop in Hss as [Hx _].
    unfold isTagEnd. now rewrite Hx.
Qed.

(** parseTag reads a start tag with its attributes, and makes one prop
    of each. *)
Lemma parseTag_start fuel c parent tg attrs sp self rest :
  source c = startTagText tg attrs sp self ++ rest ->
  isTagName tg = true -> forallb wfAttribute attrs = true ->
  forallb isSpace sp = true -> (List.length attrs < fuel)%nat ->
  synced c ->
  exists e c',
    parseTag fuel c TagStart parent = Some (e, c')
    /\ tag e = tg /\ ns e = getNamespace (options c) tg parent
    /\ isSelfClosing e = self /\ children e = []
    /\ loc e = getSelection c' (cursor c) None
    /\ consumed c c' (startTagText tg attrs sp self)
    /\ map rawName (props e) = map pa_name attrs.
Proof.
  intros Hs Ht Hw Hsp Hf Hsy.
  set (R := renderAttributes attrs ++ sp ++ tagCloser self ++ rest).
  assert (Hs' : source c = (js "<" ++ tg) ++ R).
  { rewrite Hs. unfold startTagText, R. now rewrite <- !app_assoc. }
  assert (Hex : execTagOpen (source c) = Some (js "<" ++ tg, tg)).
  { rewrite Hs', <- app_assoc. apply execTagOpen_name; [exact Ht|].
    now apply tagTail_head. }
  set (c1 := advanceBy c (len (js "<" ++ tg))).
  pose proof (consumed_advanceBy c _ _ Hs') as H1. fold c1 in H1.
  pose proof (consumed_source _ _ _ _ H1 Hs') as Hs1.
  destruct (parseTag_loop_attributes attrs fuel c1 [] [] sp self rest Hf Hw
              Hsp Hs1 (consumed_synced _ _ _ Hsy H1))
    as (props' & c2 & Hl & H2 & Hnames).
  assert (Hs1' : source c1
                 = (renderAttributes attrs ++ sp) ++ tagCloser self ++ rest)
    by (rewrite Hs1; unfold R; now rewrite <- !app_assoc).
  pose proof (consumed_source _ _ _ _ H2 Hs1') as Hs2.
  set (c3 := advanceBy c2 (if self then 2 else 1)).
  assert (H3 : consumed c2 c3 (tagCloser self)).
  { unfold c3. replace (if self then 2 else 1) with (len (tagCloser self))
      by (now destruct self).
    exact (consumed_advanceBy c2 _ _ Hs2). }
  assert (H : consumed c c3 (startTagText tg attrs sp self)).
  { unfold startTagText.
    replace (js "<" ++ tg ++ renderAttributes attrs ++ sp ++ tagCloser self)
      with ((js "<" ++ tg) ++ (renderAttributes attrs ++ sp)
            ++ tagCloser self) by (now rewrite <- !app_assoc).
    exact (consumed_trans _ _ _ _ _ H1 (consumed_trans _ _ _ _ _ H2 H3)). }
  assert (Hself : startsWith (source c2) (js "/>") = self).
  { rewrite Hs2. destruct self; unfold tagCloser;
      [apply startsWith_app|reflexivity]. }
  unfold parseTag. rewrite Hex. cbv beta iota zeta. fold c1.
  rewrite Hl. cbv beta iota.
  destruct (source c2) as [|x t] eqn:E2.
  { destruct self; discriminate Hs2. }
  rewrite Hself. fold c3.
  do 2 eexists. split; [reflexivity|].
  cbn [tag ns isSelfClosing children loc props]. unfold getCursor.
  repeat (split; [reflexivity|]). split; [exact H|exact Hnames].
Qed.

Lemma plainText_facts t :
  plainText t = true ->
  t <> [] /\ ~ In 60 t /\ ~ In 38 t
  /\ forall k, startsWith (skipn k t) (js "{{") = false.
Proof.
  unfold plainText. intros H.
  apply andb_prop in H as [H H3]. apply andb_prop in H as [H1 H2].
  split; [destruct t; [discriminate|congruence]|].
  split; [exact (forallb_not_In _ _ _ H2)|].
  split; [exact (forallb_not_In_r _ _ _ H2)|].
  intros k. apply Z.eqb_eq in H3.
  destruct (Nat.le_gt_cases k (List.length t)) as [Hk|Hk].
  - apply (proj1 (indexOf_none t (js "{{") 0) H3 k).
    cbn [Z.max]. rewrite Z.min_l by apply len_nonneg. cbn. lia.
  - rewrite skipn_all2 by lia. reflexivity.
Qed.

Lemma startsWith_open_text t R k :
  (forall j, startsWith (skipn j t) (js "{{") = false) ->
  startsMarkup R -> (k < List.length t)%nat ->
  startsWith (skipn k (t ++ R)) (js "{{") = false.
Proof.
  intros Ht HR Hk. rewrite skipn_app.
  replace (k - List.length t)%nat with 0%nat by lia. cbn [skipn].
  destruct R as [|x R'].
  - rewrite app_nil_r. apply Ht.
  - cbn in HR. subst x. rewrite startsWith_before; [apply Ht|].
    intros [H|[H|[]]]; discriminate H.
Qed.

Lemma indexOf_open_text t R :
  (forall j, startsWith (skipn j t) (js "{{") = false) ->
  startsMarkup R ->
  indexOf (t ++ R) (js "{{") 1 = -1
  \/ len t <= indexOf (t ++ R) (js "{{") 1.
Proof.
  intros Ht HR.
  destruct (indexOf_spec (t ++ R) (js "{{") 1) as [H|(H1 & _ & H3)];
    [now left|right].
  set (i := indexOf (t ++ R) (js "{{") 1) in *.
  destruct (Z.le_gt_cases (len t) i) as [Hle|Hgt]; [exact Hle|].
  rewrite (startsWith_open_text t R (Z.to_nat i) Ht HR) in H3;
    [discriminate|]. unfold len in Hgt. lia.
Qed.

Lemma indexOf_lt_text t R :
  t <> [] -> ~ In 60 t -> startsMarkup R ->
  fold_right Z.min (len (t ++ R))
    (filter (fun n => negb (n =? -1)) [indexOf (t ++ R) (js "<") 1])
  = len t.
Proof.
  intros Hn Hlt HR. destruct R as [|x R'].
  - rewrite app_nil_r. change (js "<") with [60].
    rewrite (indexOf_absent t 60 1 Hlt). reflexivity.
  - cbn in HR. subst x.
    change (60 :: R') with (js "<" ++ R').
    rewrite (indexOf_lt_inner t R' Hn Hlt). cbn [filter].
    pose proof (len_nonneg t). pose proof (len_nonneg (js "<" ++ R')).
    replace (len t =? -1) with false by (symmetry; apply Z.eqb_neq; lia).
    cbn [negb fold_right]. rewrite len_app. lia.
Qed.

(** parseText reads a run of plain text up to the markup after it. *)
Lemma parseText_run fuel c t R :
  source c = t ++ R -> plainText t = true -> startsMarkup R ->
  fst (delimiters (options c)) = js "{{" ->
  exists c',
    parseText (S fuel) c DATA
    = Some ({| text_content := t;
               text_loc := getSelection c' (cursor c) None;
               text_isEmpty := isBlank t |}, c')
    /\ consumed c c' t.
Proof.
  intros Hs Hp HR Hdel.
  apply plainText_facts in Hp as (Hn & Hlt & Hamp & Hopen).
  destruct (parseTextData_verbatim fuel c DATA t R Hs Hamp)
    as (c' & Ht & Hs' & Ho' & _ & Ha').
  exists c'. split.
  - unfold parseText. rewrite Hdel.
    assert (Hmin : fold_right Z.min (len (source c))
                     (filter (fun n => negb (n =? -1))
                        [indexOf (source c) (js "<") 1;
                         indexOf (source c) (js "{{") 1; -1]) = len t).
    { rewrite Hs. pose proof (indexOf_lt_text t R Hn Hlt HR) as H0.
      cbn [filter] in H0 |- *.
      change (-1 =? -1) with true. cbn [negb].
      pose proof (len_nonneg t) as Hl.
      destruct (indexOf_open_text t R Hopen HR) as [H1|H1].
      - rewrite H1. change (-1 =? -1) with true. cbn [negb].
        destruct (negb (indexOf (t ++ R) (js "<") 1 =? -1));
          cbn [fold_right] in H0 |- *; lia.
      - replace (indexOf (t ++ R) (js "{{") 1 =? -1) with false
          by (symmetry; apply Z.eqb_neq; lia).
        cbn [negb].
        destruct (negb (indexOf (t ++ R) (js "<") 1 =? -1));
          cbn [fold_right] in H0 |- *; lia. }
    rewrite Hmin, Ht. unfold getCursor. now rewrite trim_isBlank.
  - split; [exact Ha'|]. split; [now rewrite Hs, Hs'|exact Ho'].
Qed.

Lemma parseChildren_turn_text toLowerCase pc fuel c ancestors t R :
  source c = t ++ R -> plainText t = true -> startsMarkup R ->
  fst (delimiters (options c)) = js "{{" ->
  parseChildren_turn toLowerCase pc fuel c DATA ancestors
  = Some (Undefined, c).
Proof.
  intros Hs Hp HR Hdel.
  apply plainText_facts in Hp as (Hn & Hlt & _ & Hopen).
  assert (Hl : (0 < List.length t)%nat)
    by (destruct t; [congruence|cbn; lia]).
  pose proof (startsWith_open_text t R 0 Hopen HR Hl) as H0.
  cbn [skipn] in H0.
  unfold parseChildren_turn. rewrite Hdel, Hs, H0.
  replace (startsWith (t ++ R) (js "<")) with false
    by (symmetry; destruct t as [|x t']; [congruence|];
        apply startsWith_head_neq; cbn;
        intros ->; apply Hlt; now left).
  reflexivity.
Qed.

Lemma closes_startsMarkup ancestors close :
  closes ancestors close -> startsMarkup close.
Proof.
  unfold closes. destruct (last ancestors) as [p|].
  - intros [rest ->]. reflexivity.
  - intros ->. exact I.
Qed.

Lemma end_tag_same toLowerCase tg rest :
  startsWithEndTagOpen toLowerCase (js "</" ++ tg ++ js ">" ++ rest) tg
  = true.
Proof.
  rewrite end_tag_open by reflexivity.
  apply andb_true_intro. split; [now apply str_eqb_eq|reflexivity].
Qed.

Lemma closes_isEnd toLowerCase c ancestors :
  closes ancestors (source c) -> isEnd toLowerCase c DATA ancestors = true.
Proof.
  unfold closes, isEnd, last.
  destruct (rev ancestors) as [|p l].
  - intros ->. reflexivity.
  - intros [rest ->]. rewrite startsWith_app. cbn [existsb andb].
    now rewrite end_tag_same.
Qed.

Lemma isEnd_inside toLowerCase c ancestors :
  source c <> [] -> startsWith (source c) (js "</") = false ->
  isEnd toLowerCase c DATA ancestors = false.
Proof.
  intros Hn Hs. unfold isEnd. rewrite Hs. cbn [andb].
  destruct (source c); [congruence|reflexivity].
Qed.

Lemma isTagName_head tg :
  isTagName tg = true -> exists t0 r, tg = t0 :: r /\ isAlpha t0 = true.
Proof.
  destruct tg as [|t0 r]; [discriminate|]. cbn. intros H.
  apply andb_prop in H as [H _]. now exists t0, r.
Qed.

Lemma dropped_element DEV c e : dropped DEV c (ELEMENT e) = false.
Proof. unfold dropped. now rewrite !andb_false_r. Qed.

Lemma dropped_text DEV c t :
  text_isEmpty t = false -> dropped DEV c (TEXT t) = false.
Proof. intros H. unfold dropped. now rewrite H, !andb_false_r. Qed.

Lemma weightAll_cons d ds : weightAll (d :: ds) = (weight d + weightAll ds)%nat.
Proof. reflexivity. Qed.

Lemma weight_pos d : (1 <= weight d)%nat.
Proof. destruct d; cbn; lia. Qed.

Lemma renderAll_cons d ds : renderAll (d :: ds) = render d ++ renderAll ds.
Proof. reflexivity. Qed.

Lemma wfAll_cons d ds :
  wfAll (d :: ds) = true ->
  wfPlain d = true /\ wfAll ds = true
  /\ (match d with PText _ => True | _ => False end ->
      forall close, startsMarkup close ->
                    startsMarkup (renderAll ds ++ close)).
Proof.
  unfold wfAll. cbn [forallb noTwoTexts]. intros H.
  apply andb_prop in H as [H H2]. apply andb_prop in H as [Hd Hds].
  split; [exact Hd|].
  destruct d as [t| |]; (split; [| try now intros []]).
  - destruct ds as [|[| |] ds']; try discriminate H2; now rewrite Hds, H2.
  - intros _ close Hc.
    destruct ds as [|d2 ds']; [exact Hc|].
    rewrite renderAll_cons, <- app_assoc.
    cbn [forallb] in Hds. apply andb_prop in Hds as [Hd2 _].
    destruct d2; [discriminate H2|reflexivity|reflexivity].
  - now rewrite Hds, H2.
  - now rewrite Hds, H2.
Qed.

Lemma default_delimiters c :
  options c = mergeOptions noOptions ->
  fst (delimiters (options c)) = js "{{".
Proof. now intros ->. Qed.

(** The loop of parseChildren reads a plain document, node by node, up to
    what stands after it; the sources of the nodes it pushes are the
    document, when none of its texts is whitespace only. *)
Lemma parseChildren_loop_plain toLowerCase DEV fuel :
  forall ds c (ancestors : list ElementNode) nodes close,
    (weightAll ds <= fuel)%nat -> wfAll ds = true ->
    options c = mergeOptions noOptions -> synced c ->
    source c = renderAll ds ++ close -> closes ancestors close ->
    exists nodes' c',
      parseChildren_loop toLowerCase DEV fuel c DATA ancestors nodes
      = Some (nodes', c')
      /\ consumed c c' (renderAll ds)
      /\ (noBlankText ds = true ->
          sources nodes' = sources nodes ++ renderAll ds).
Proof.
  induction fuel as [|n IH];
    intros ds c ancestors nodes close Hw Hwf Hopt Hsy Hs Hcl.
  - destruct ds as [|d ds].
    2:{ rewrite weightAll_cons in Hw. pose proof (weight_pos d). lia. }
    cbn [renderAll map List.concat app] in *.
    exists nodes, c. rewrite <- Hs in Hcl.
    cbn [parseChildren_loop]. rewrite (closes_isEnd _ _ _ Hcl).
    split; [reflexivity|]. split; [apply consumed_refl|].
    intros _. now rewrite app_nil_r.
  - destruct ds as [|d ds].
    { cbn [renderAll map List.concat app] in *.
      exists nodes, c. rewrite <- Hs in Hcl.
      rewrite parseChildren_loop_S, (closes_isEnd _ _ _ Hcl).
      split; [reflexivity|]. split; [apply consumed_refl|].
      intros _. now rewrite app_nil_r. }
    rewrite weightAll_cons in Hw.
    apply wfAll_cons in Hwf as (Hd & Hds & Hnext).
    rewrite renderAll_cons, <- app_assoc in Hs.
    set (R := renderAll ds ++ close) in *.
    pose proof (default_delimiters c Hopt) as Hdel.
    assert (Hstep : forall nodes1 c1,
               consumed c c1 (render d) ->
               (weightAll ds <= n)%nat ->
               exists nodes' c',
                 parseChildren_loop toLowerCase DEV n c1 DATA ancestors nodes1
                 = Some (nodes', c')
                 /\ consumed c c' (renderAll (d :: ds))
                 /\ (noBlankText ds = true ->
                     sources nodes' = sources nodes1 ++ renderAll ds)).
    { intros nodes1 c1 H1 Hn.
      destruct (IH ds c1 ancestors nodes1 close Hn Hds)
        as (nodes' & c' & Hl & H2 & Hsrc).
      - rewrite (consumed_options _ _ _ H1). exact Hopt.
      - exact (consumed_synced _ _ _ Hsy H1).
      - exact (consumed_source _ _ _ _ H1 Hs).
      - exact Hcl.
      - exists nodes', c'. split; [exact Hl|].
        split; [|exact Hsrc].
        rewrite renderAll_cons. exact (consumed_trans _ _ _ _ _ H1 H2). }
    destruct d as [t|tg attrs sp kids|tg attrs sp].
    + (* a text *)
      cbn [render wfPlain weight] in *.
      pose proof (Hnext I close (closes_startsMarkup _ _ Hcl)) as HR.
      fold R in HR.
      destruct (parseText_run n c t R Hs Hd HR Hdel) as (c1 & Ht & H1).
      pose proof (plainText_facts t Hd) as (Hn & Hlt & _).
      assert (Hend : isEnd toLowerCase c DATA ancestors = false).
      { apply isEnd_inside; rewrite Hs.
        - destruct t; [congruence|discriminate].
        - destruct t as [|x t']; [congruence|].
          apply startsWith_head_neq. cbn. intros ->. apply Hlt. now left. }
      set (tn := {| text_content := t;
                    text_loc := getSelection c1 (cursor c) None;
                    text_isEmpty := isBlank t |}) in *.
      destruct (Hstep (pushNode DEV c1 nodes (TEXT tn)) c1 H1 ltac:(lia))
        as (nodes' & c' & Hl & H2 & Hsrc).
      exists nodes', c'. split; [|split; [exact H2|]].
      * rewrite parseChildren_loop_S, Hend.
        unfold parseChildren_iteration.
        rewrite (parseChildren_turn_text _ _ _ _ _ t R Hs Hd HR Hdel), Ht.
        exact Hl.
      * cbn [noBlankText forallb]. intros Hb.
        apply andb_prop in Hb as [Hb1 Hb2].
        rewrite (Hsrc Hb2), sources_pushNode_kept.
        -- cbn [node_loc tn text_loc]. unfold tn. cbn [text_loc].
           rewrite (consumed_selection _ _ _ Hsy H1), renderAll_cons.
           cbn [render]. now rewrite app_assoc.
        -- apply dropped_text. unfold tn. cbn [text_isEmpty].
           now apply negb_true_iff.
    + (* an element with an end tag *)
      cbn [wfPlain weight] in Hd, Hw.
      apply andb_prop in Hd as [Hd Hk2]. apply andb_prop in Hd as [Hd Hk1].
      apply andb_prop in Hd as [Hd Hsp]. apply andb_prop in Hd as [Htg Hat].
      cbn [render] in Hs. rewrite <- !app_assoc in Hs.
      destruct (isTagName_head tg Htg) as (t0 & r & Etg & Ht0).
      assert (Hs60 : source c
                     = 60 :: t0 :: (r ++ renderAttributes attrs ++ sp
                                    ++ tagCloser false)
                       ++ renderAll kids ++ js "</" ++ tg ++ js ">" ++ R).
      { rewrite Hs. unfold startTagText. rewrite Etg.
        rewrite <- !app_assoc. reflexivity. }
      assert (Hend : isEnd toLowerCase c DATA ancestors = false).
      { apply isEnd_inside; rewrite Hs60; [discriminate|].
        eval_js. cbn [startsWith]. change (60 =? 60) with true. cbn [andb].
        destruct (isAlpha_not_punct t0 Ht0) as [_ H47].
        replace (47 =? t0) with false
          by (symmetry; apply Z.eqb_neq; congruence).
        reflexivity. }
      set (inner := renderAll kids) in *.
      set (endTag := js "</" ++ tg ++ js ">") in *.
      destruct (parseTag_start (S n) c (last ancestors) tg attrs sp false
                  (inner ++ js "</" ++ tg ++ js ">" ++ R))
        as (e & c1 & Hp1 & Htag & Hns & Hself & _ & Hloc & H1 & _);
        [exact Hs|exact Htg|exact Hat|exact Hsp|lia|exact Hsy|].
      pose proof (consumed_source _ _ _ _ H1 Hs) as Hs1.
      pose proof (consumed_options _ _ _ H1) as Hopt1.
      rewrite Hopt in Hopt1.
      destruct (IH kids c1 (ancestors ++ [e]) []
                  (js "</" ++ tg ++ js ">" ++ R))
        as (children & c2 & Hp2 & H2 & _).
      { fold (weightAll kids) in Hw. lia. }
      { unfold wfAll. now rewrite Hk1, Hk2. }
      { exact Hopt1. }
      { exact (consumed_synced _ _ _ Hsy H1). }
      { exact Hs1. }
      { unfold closes. rewrite last_snoc, Htag. now exists R. }
      pose proof (consumed_source _ _ _ _ H2 Hs1) as Hs2.
      destruct (parseTag_simple (S n) c2 true TagEnd (last ancestors) tg R
                  Hs2 Htg)
        as (e2 & c3 & Hp3 & _ & _ & _ & _ & _ & _ & Hs3 & _ & Ho3 & Ha3).
      assert (H3 : consumed c2 c3 endTag).
      { split; [exact Ha3|]. split.
        - rewrite Hs2, Hs3. unfold endTag. now rewrite <- !app_assoc.
        - rewrite Ho3. unfold endTag. rewrite !len_app.
          change (len (js "</")) with 2. change (len (js ">")) with 1. lia. }
      assert (H13 : consumed c c3 (render (PElement tg attrs sp kids))).
      { cbn [render]. fold (renderAll kids). fold inner.
        replace (inner ++ js "</" ++ tg ++ js ">") with (inner ++ endTag)
          by reflexivity.
        exact (consumed_trans _ _ _ _ _ H1
                 (consumed_trans _ _ _ _ _ H2 H3)). }
      set (e' := {| ns := ns e; tag := tag e; tagType := tagType e;
                    props := props e; isSelfClosing := isSelfClosing e;
                    children := children;
                    loc := getSelection c3 (loc_start (loc e)) None |}).
      assert (Hel : parseElement toLowerCase
                      (fun context mode ancestors =>
                         parseChildren_loop toLowerCase DEV n context mode
                           ancestors [])
                      (S n) c ancestors = Some (e', c3)).
      { unfold parseElement. rewrite Hp1. cbv beta iota.
        rewrite Hself, Hopt1. cbn [orb isVoidTag getTextMode mergeOptions
                                   noOptions orElse opt_isVoidTag
                                   opt_getTextMode defaultParserOptions].
        rewrite Hp2. cbv beta iota.
        rewrite Hs2, Htag, end_tag_same, Hp3. cbv beta iota.
        unfold e'. now rewrite Hself, Htag. }
      destruct (Hstep (pushNode DEV c3 nodes (ELEMENT e')) c3 H13 ltac:(lia))
        as (nodes' & c' & Hl & H4 & Hsrc).
      exists nodes', c'. split; [|split; [exact H4|]].
      * rewrite parseChildren_loop_S, Hend.
        unfold parseChildren_iteration.
        rewrite (parseChildren_turn_element _ _ _ _ _ t0 _ 123 [123] Hs60
                   Ht0 Hdel ltac:(discriminate)), Hel.
        exact Hl.
      * cbn [noBlankText forallb andb]. intros Hb.
        rewrite (Hsrc Hb), sources_pushNode_kept by apply dropped_element.
        cbn [node_loc]. unfold e'. cbn [loc]. rewrite Hloc.
        change (loc_start (getSelection c1 (cursor c) None)) with (cursor c).
        rewrite (consumed_selection _ _ _ Hsy H13), renderAll_cons.
        now rewrite app_assoc.
    + (* an element that closes itself *)
      cbn [wfPlain weight] in Hd, Hw.
      apply andb_prop in Hd as [Hd Hsp]. apply andb_prop in Hd as [Htg Hat].
      cbn [render] in Hs.
      destruct (isTagName_head tg Htg) as (t0 & r & Etg & Ht0).
      assert (Hs60 : source c
                     = 60 :: t0 :: (r ++ renderAttributes attrs ++ sp
                                    ++ tagCloser true) ++ R).
      { rewrite Hs. unfold startTagText. rewrite Etg.
        rewrite <- !app_assoc. reflexivity. }
      assert (Hend : isEnd toLowerCase c DATA ancestors = false).
      { apply isEnd_inside; rewrite Hs60; [discriminate|].
        eval_js. cbn [startsWith]. change (60 =? 60) with true. cbn [andb].
        destruct (isAlpha_not_punct t0 Ht0) as [_ H47].
        replace (47 =? t0) with false
          by (symmetry; apply Z.eqb_neq; congruence).
        reflexivity. }
      destruct (parseTag_start (S n) c (last ancestors) tg attrs sp true R)
        as (e & c1 & Hp1 & Htag & Hns & Hself & _ & Hloc & H1 & _);
        [exact Hs|exact Htg|exact Hat|exact Hsp|lia|exact Hsy|].
      assert (Hel : parseElement toLowerCase
                      (fun context mode ancestors =>
                         parseChildren_loop toLowerCase DEV n context mode
                           ancestors [])
                      (S n) c ancestors = Some (e, c1)).
      { unfold parseElement. rewrite Hp1. cbv beta iota.
        now rewrite Hself. }
      destruct (Hstep (pushNode DEV c1 nodes (ELEMENT e)) c1 H1 ltac:(lia))
        as (nodes' & c' & Hl & H4 & Hsrc).
      exists nodes', c'. split; [|split; [exact H4|]].
      * rewrite parseChildren_loop_S, Hend.
        unfold parseChildren_iteration.
        rewrite (parseChildren_turn_element _ _ _ _ _ t0 _ 123 [123] Hs60
                   Ht0 Hdel ltac:(discriminate)), Hel.
        exact Hl.
      * cbn [noBlankText forallb andb]. intros Hb.
        rewrite (Hsrc Hb), sources_pushNode_kept by apply dropped_element.
        cbn [node_loc]. rewrite Hloc.
        rewrite (consumed_selection _ _ _ Hsy H1), renderAll_cons.
        now rewrite app_assoc.
Qed.

(** C4: a plain document, made of elements with an end tag of the same
    name or closing themselves, of attributes with a quoted value that
    holds no ampersand, and of runs of text with none of [&], [<] and
    [{{], at every depth, is parsed under the default options, with
    fuel for its texts, elements and attributes; when none of the texts
    between and around its outermost elements is whitespace only, the
    sources of the children of the root, put end to end in document
    order, are the document as written. *)
Theorem sources_round_trip :
  forall toLowerCase DEV fuel ds,
    wfAll ds = true -> noBlankText ds = true ->
    (weightAll ds <= fuel)%nat ->
    exists root errors,
      parse toLowerCase DEV fuel (renderAll ds) noOptions
      = Some (root, errors)
      /\ sources (root_children root) = renderAll ds.
Proof.
  intros toLowerCase DEV fuel ds Hwf Hb Hw.
  destruct (parseChildren_loop_plain toLowerCase DEV fuel ds
              (createParserContext (renderAll ds) noOptions) [] [] []
              Hw Hwf eq_refl
              (synced_createParserContext (renderAll ds) noOptions))
    as (nodes & c' & Hl & _ & Hsrc).
  - cbn [createParserContext source]. now rewrite app_nil_r.
  - reflexivity.
  - unfold parse, parseChildren. rewrite Hl. do 2 eexists.
    split; [reflexivity|]. cbn [root_children]. exact (Hsrc Hb).
Qed.

Lemma sources_round_trip_witness :
  (renderAll scenarioOne
   = js "<div id=" ++ dq ++ js "a" ++ dq ++ js ">hello</div>"
   /\ exists root errors,
        parse asciiToLowerCase true 3 (renderAll scenarioOne) noOptions
        = Some (root, errors)
        /\ sources (root_children root) = renderAll scenarioOne)
  /\ (renderAll plainDocument
      = js "<div id=" ++ dq ++ js "a" ++ dq ++ js "> <b>x</b></div><br/>text"
      /\ exists root errors,
           parse asciiToLowerCase true 7 (renderAll plainDocument) noOptions
           = Some (root, errors)
           /\ sources (root_children root) = renderAll plainDocument).
Proof.
  split; (split; [vm_compute; reflexivity|]).
  - apply (sources_round_trip asciiToLowerCase true 3 scenarioOne).
    + vm_compute. reflexivity.
    + vm_compute. reflexivity.
    + vm_compute. lia.
  - apply (sources_round_trip asciiToLowerCase true 7 plainDocument).
    + vm_compute. reflexivity.
    + vm_compute. reflexivity.
    + vm_compute. lia.
Defined.

(** ** Duplicate attributes, by the names as written *)

Lemma parseTag_rawNames fuel c parent e c' :
  synced c ->
  parseTag fuel c TagStart parent = Some (e, c') ->
  (duplicates c' + List.length (distinct [] (map rawName (props e)))
   = duplicates c + List.length (props e))%nat
  /\ Forall namedAsWritten (props e).
Proof.
  intros Hs H. unfold parseTag in H.
  destruct (execTagOpen (source c)) as [[match0 tg]|] eqn:Et;
    [|discriminate].
  destruct (parseTag_loop _ _ _ _ _) as [[props' c1]|] eqn:El;
    [|discriminate].
  apply parseTag_loop_rawNames in El as (new & H1 & H2 & H3).
  - cbn [app] in H1. subst props'.
    revert H3. duplicates_steps. cbn [List.length]. intros H3.
    destruct (source c1) as [|x t]; injection H as <- <-;
      cbn [props]; (split; [|exact H2]); duplicates_steps; lia.
  - apply (synced_advances c); [exact Hs|].
    apply execTagOpen_spec in Et. advances_chain.
Qed.

(** C7: in a start tag, the DUPLICATE_ATTRIBUTE diagnostics added are as
    many as the props less the distinct names among them, the name of a
    prop being the attribute name written at the head of its own source
    text, for attributes and directives alike: one diagnostic for each
    occurrence of a name after its first, none for a first occurrence;
    an ATTRIBUTE prop carries its name as written.  Every occurrence is
    kept: a start tag written with attributes of quoted values gets one
    prop for each attribute, in order and under its name, and as many
    diagnostics as there are attributes less distinct names.  The tag
    of scenario 7, [divTwice], gives two ATTRIBUTE props named [a] and
    one DUPLICATE_ATTRIBUTE; [bindTwice] gives two DIRECTIVE props
    written [:x] and one DUPLICATE_ATTRIBUTE. *)
Theorem duplicate_attribute_diagnostics :
  (forall fuel c parent e c',
     synced c ->
     parseTag fuel c TagStart parent = Some (e, c') ->
     (duplicates c' + List.length (distinct [] (map rawName (props e)))
      = duplicates c + List.length (props e))%nat
     /\ Forall namedAsWritten (props e))
  /\ (forall fuel c parent tg attrs sp self rest,
        synced c ->
        source c = startTagText tg attrs sp self ++ rest ->
        isTagName tg = true -> forallb wfAttribute attrs = true ->
        forallb isSpace sp = true -> (List.length attrs < fuel)%nat ->
        exists e c',
          parseTag fuel c TagStart parent = Some (e, c')
          /\ map rawName (props e) = map pa_name attrs
          /\ (duplicates c'
              + List.length (distinct [] (map pa_name attrs))
              = duplicates c + List.length attrs)%nat)
  /\ (exists root errors e a1 a2,
        parse asciiToLowerCase true 20 divTwice noOptions
        = Some (root, errors)
        /\ root_children root = [ELEMENT e]
        /\ props e = [ATTRIBUTE a1; ATTRIBUTE a2]
        /\ attr_name a1 = js "a" /\ attr_name a2 = js "a"
        /\ count_code DUPLICATE_ATTRIBUTE errors = 1%nat)
  /\ (exists root errors e d1 d2,
        parse asciiToLowerCase true 20 bindTwice noOptions
        = Some (root, errors)
        /\ root_children root = [ELEMENT e]
        /\ props e = [DIRECTIVE d1; DIRECTIVE d2]
        /\ map rawName (props e) = [js ":x"; js ":x"]
        /\ count_code DUPLICATE_ATTRIBUTE errors = 1%nat).
Proof.
  split; [|split; [|split]].
  - intros fuel c parent e c' Hs H. exact (parseTag_rawNames _ _ _ _ _ Hs H).
  - intros fuel c parent tg attrs sp self rest Hsy Hs Ht Hw Hsp Hf.
    destruct (parseTag_start fuel c parent tg attrs sp self rest Hs Ht Hw Hsp
                Hf Hsy) as (e & c' & Hp & _ & _ & _ & _ & _ & _ & Hn).
    exists e, c'. split; [exact Hp|]. split; [exact Hn|].
    destruct (parseTag_rawNames _ _ _ _ _ Hsy Hp) as [Hd _].
    rewrite Hn in Hd.
    rewrite <- (length_map rawName (props e)), Hn, length_map in Hd.
    exact Hd.
  - do 5 eexists. split; [vm_compute; reflexivity|].
    repeat (split; try reflexivity).
  - do 5 eexists. split; [vm_compute; reflexivity|].
    repeat (split; try reflexivity).
Qed.

Lemma duplicate_attribute_diagnostics_witness :
  (exists e c',
     parseTag 20 (createParserContext bindTwice noOptions) TagStart None
     = Some (e, c')
     /\ map rawName (props e) = [js ":x"; js ":x"]
     /\ (duplicates c' + 1 = 0 + 2)%nat)
  /\ (startTagText (js "div") divTwiceAttributes [] false = divTwice
      /\ exists e c',
           parseTag 3 (createParserContext divTwice noOptions) TagStart None
           = Some (e, c')
           /\ map rawName (props e) = [js "a"; js "a"]
           /\ (duplicates c' + 1 = 0 + 2)%nat).
Proof.
  split.
  - destruct (parseTag 20 (createParserContext bindTwice noOptions)
                TagStart None) as [[e c']|] eqn:E.
    + destruct (proj1 duplicate_attribute_diagnostics 20%nat
                  (createParserContext bindTwice noOptions) None e c'
                  (synced_createParserContext bindTwice noOptions) E)
        as [H1 _].
      exists e, c'. split; [reflexivity|].
      vm_compute in E. injection E as <- <-.
      split; [vm_compute; reflexivity|exact H1].
    + vm_compute in E. discriminate E.
  - split; [vm_compute; reflexivity|].
    destruct (proj1 (proj2 duplicate_attribute_diagnostics) 3%nat
                (createParserContext divTwice noOptions) None (js "div")
                divTwiceAttributes [] false []
                (synced_createParserContext divTwice noOptions))
      as (e & c' & Hp & Hn & Hd).
    + vm_compute. reflexivity.
    + vm_compute. reflexivity.
    + vm_compute. reflexivity.
    + reflexivity.
    + vm_compute. lia.
    + exists e, c'. split; [exact Hp|]. split; [exact Hn|exact Hd].
Defined.
